(** * Athena++ mesh: partitioning, neighbour wiring, time step and task scheduling

    A shallow embedding of the parts of [mesh.cpp] that distribute MeshBlocks
    over ranks, wire the face neighbours of a block, pick the next time step
    and drive the per-block task list, together with the properties proved
    about them.

    Conventions.
    - [int] values are [Z]; the [unsigned long] task masks are [N] (the code
      only combines them with [&] and [|], which never overflow).
    - [Real] is read in two ways.  Where a statement is about the order of
      numbers or about control flow, the values are exact rationals [Q].
      Where rounding decides, the code is read over a type with the
      operations of [Real] (module [RealArith]), with the binary
      floating-point formats among its instances.
    - A [new T[n]] array is a list of [option T]; [None] is a cell that was
      never written (its content is indeterminate in C++).
    - The doubly linked list of MeshBlocks is the list of its blocks in
      [next] order. *)

From Stdlib Require Import ZArith NArith QArith Qabs List Bool Lia Lqa Relations.
From Stdlib Require Import SpecFloat.
Import ListNotations.

Open Scope Z_scope.

(* ================================================================== *)
(** * Part I: the embedding *)
(* ================================================================== *)

(** ** Integers of the machine *)

Module Machine.

(** An [int] has 32 bits and a [long] or [long long] 64: a result that
    does not fit is undefined ([None]). *)
Definition int (v : Z) : option Z :=
  if (- 2 ^ 31 <=? v) && (v <? 2 ^ 31) then Some v else None.

Definition long (v : Z) : option Z :=
  if (- 2 ^ 63 <=? v) && (v <? 2 ^ 63) then Some v else None.

(** [1L<<k] *)
Definition shift_long (k : Z) : option Z :=
  if (0 <=? k) && (k <? 63) then Some (Z.shiftl 1 k) else None.

End Machine.

(** ** The arithmetic of [Real] *)

Module RealArith.

(** [Real] is declared in athena.hpp, which is not part of the sources at
    hand, as one of the floating-point types of the machine.  The code is
    read over any type with the operations it uses: the conversion of an
    [int] (which also gives the literals [0.0] and [1.0]), the four
    operations, [==] and [>=]. *)
Class Arith (Real : Type) : Type := mkArith {
  of_int : Z -> Real;
  r_add : Real -> Real -> Real;
  r_sub : Real -> Real -> Real;
  r_mul : Real -> Real -> Real;
  r_div : Real -> Real -> Real;
  r_eqb : Real -> Real -> bool;
  r_geb : Real -> Real -> bool
}.

(** The binary floating-point format with [prec] bits of mantissa and
    exponents below [emax], rounding to nearest, ties to even. *)
Definition binary (prec emax : Z) : Arith spec_float := {|
  of_int := fun n => binary_normalize prec emax n 0 false;
  r_add := SFadd prec emax;
  r_sub := SFsub prec emax;
  r_mul := SFmul prec emax;
  r_div := SFdiv prec emax;
  r_eqb := SFeqb;
  r_geb := fun x y => SFleb y x
|}.

(** [double] and [float]. *)
Definition binary64 : Arith spec_float := binary 53 1024.
Definition binary32 : Arith spec_float := binary 24 128.

(** Numbers without rounding. *)
Definition exact : Arith Q := {|
  of_int := inject_Z;
  r_add := Qplus;
  r_sub := Qminus;
  r_mul := Qmult;
  r_div := Qdiv;
  r_eqb := Qeq_bool;
  r_geb := fun x y => Qle_bool y x
|}.

(** The number a finite floating-point value stands for. *)
Definition value (x : spec_float) : Q :=
  match x with
  | S754_finite s m e =>
    ((if s then -1 else 1) * inject_Z (Zpos m) * Qpower 2 e)%Q
  | _ => 0%Q
  end.

End RealArith.

(** ** Task list and scheduler ([MeshBlock::DoOneTask], [Mesh::UpdateOneStep]) *)

Module TaskList.

(** [enum tlstatus], the result of [MeshBlock::DoOneTask]. *)
Inductive tlstatus : Type := nothing | stuck | running | complete.

Definition tlstatus_eqb (a b : tlstatus) : bool :=
  match a, b with
  | nothing, nothing | stuck, stuck | running, running | complete, complete => true
  | _, _ => false
  end.

Section Scheduler.

(** The memory the task functions read and write (fluid and field arrays,
    boundary buffers, pending messages).  A task function receives the
    block and may touch any of it, so it is one store for the whole
    process. *)
Variable World : Type.

(** [struct Task]: the function, the identifier bit, the dependency mask
    and the argument handed to the function. *)
Record Task : Type := mkTask {
  TaskFunc : World -> Z -> bool * World;
  taskid   : N;
  depend   : N;
  task_arg : Z
}.

(** The scheduling fields of a MeshBlock. [ntask] is the length of [task]
    ([MeshBlock::SetTaskList] sets both together). *)
Record MeshBlock : Type := mkMeshBlock {
  gid       : Z;
  task      : list Task;
  firsttask : Z;
  ntodo     : Z;
  task_flag : N
}.

Definition ntask (mb : MeshBlock) : Z := Z.of_nat (length (task mb)).

(** One call of a task function, recorded for the statements below: the
    index of the task in the array, the completed mask at the time of the
    call and what the function returned.  The record is a ghost: nothing in
    the scheduler reads it. *)
Record Invocation : Type := mkInvocation {
  inv_index : Z;
  inv_flag  : N;
  inv_done  : bool
}.

Definition set_firsttask (mb : MeshBlock) (v : Z) : MeshBlock :=
  mkMeshBlock (gid mb) (task mb) v (ntodo mb) (task_flag mb).

(** [ntodo--; task_flag |= ti.taskid; if(skip==0) firsttask++;] *)
Definition mark_done (mb : MeshBlock) (ti : Task) (skip : Z) : MeshBlock :=
  mkMeshBlock (gid mb) (task mb)
    (if skip =? 0 then firsttask mb + 1 else firsttask mb)
    (ntodo mb - 1)
    (N.lor (task_flag mb) (taskid ti)).

(** The body of [for(int i=firsttask; i<ntask; i++)]: [ts] is
    [task[i..ntask)], [skip] the local counter.  The result carries the
    calls of task functions made, oldest first. *)
Fixpoint DoOneTask_loop (ts : list Task) (i skip : Z) (mb : MeshBlock) (w : World)
  : tlstatus * MeshBlock * World * list Invocation :=
  match ts with
  | [] => (stuck, mb, w, [])
  | ti :: ts' =>
    if (N.land (taskid ti) (task_flag mb) =? 0)%N then
      (* this task is not done *)
      if (N.land (depend ti) (task_flag mb) =? depend ti)%N then
        (* dependency clear *)
        let (r, w1) := TaskFunc ti w (task_arg ti) in
        let ev := mkInvocation i (task_flag mb) r in
        if r then
          let mb1 := mark_done mb ti skip in
          ((if ntodo mb1 =? 0 then complete else running), mb1, w1, [ev])
        else
          let '(st, mb2, w2, evs) := DoOneTask_loop ts' (i + 1) (skip + 1) mb w1 in
          (st, mb2, w2, ev :: evs)
      else DoOneTask_loop ts' (i + 1) (skip + 1) mb w
    else if skip =? 0 then
      (* this task is done and at the top of the list *)
      DoOneTask_loop ts' (i + 1) skip (set_firsttask mb (firsttask mb + 1)) w
    else DoOneTask_loop ts' (i + 1) skip mb w
  end.

(** [enum tlstatus MeshBlock::DoOneTask(void)] *)
Definition DoOneTask (mb : MeshBlock) (w : World)
  : tlstatus * MeshBlock * World * list Invocation :=
  if ntodo mb =? 0 then (nothing, mb, w, [])
  else DoOneTask_loop (skipn (Z.to_nat (firsttask mb)) (task mb))
                      (firsttask mb) 0 mb w.

(** The reset at the top of [Mesh::UpdateOneStep]:
    [firsttask=0; ntodo=ntask; task_flag=0L]. *)
Definition reset (mb : MeshBlock) : MeshBlock :=
  mkMeshBlock (gid mb) (task mb) 0 (ntask mb) 0%N.

(** A sequence of [n] calls of [DoOneTask] on one block within a round.
    Between two calls the driver visits the other blocks, whose task
    functions and whose messages change the store: [env k] is what happens
    to the store before call number [k].  The statuses and the calls of
    task functions are collected oldest first. *)
Fixpoint calls (env : nat -> World -> World) (k n : nat) (mb : MeshBlock) (w : World)
  : list tlstatus * MeshBlock * World * list Invocation :=
  match n with
  | O => ([], mb, w, [])
  | S n' =>
    let '(st, mb1, w1, ev1) := DoOneTask mb (env k w) in
    let '(sts, mb2, w2, ev2) := calls env (S k) n' mb1 w1 in
    (st :: sts, mb2, w2, ev1 ++ ev2)
  end.

(** *** The driver *)

(** What [pbval->StartReceivingAll()] and [pbval->ClearBoundaryAll()] do to
    the store for the block with the given [gid] (the boundary code is not
    part of this development). *)
Variable StartReceivingAll : Z -> World -> World.
Variable ClearBoundaryAll : Z -> World -> World.

Record Mesh : Type := mkMesh {
  nbstart : Z;
  nbend   : Z;
  pblock  : list MeshBlock
}.

(** The initialisation loop of [UpdateOneStep]. *)
Fixpoint init_blocks (bs : list MeshBlock) (w : World) : list MeshBlock * World :=
  match bs with
  | [] => ([], w)
  | pmb :: rest =>
    let w1 := StartReceivingAll (gid pmb) w in
    let (rest', w2) := init_blocks rest w1 in
    (reset pmb :: rest', w2)
  end.

(** One pass of the inner [while (pmb != NULL)] of the main loop:
    [if(pmb->DoOneTask()==complete) nb--;] for every block in turn. *)
Fixpoint sweep (bs : list MeshBlock) (nb : Z) (w : World)
  : list MeshBlock * Z * World :=
  match bs with
  | [] => ([], nb, w)
  | pmb :: rest =>
    let '(st, pmb', w1, _) := DoOneTask pmb w in
    let nb1 := if tlstatus_eqb st complete then nb - 1 else nb in
    let '(rest', nb2, w2) := sweep rest nb1 w1 in
    (pmb' :: rest', nb2, w2)
  end.

(** [while(nb>0) { ... }].  The loop has no bound of its own: [fuel] is the
    number of passes allowed, and [None] says that the loop is still running
    when they are used up. *)
Fixpoint main_loop (fuel : nat) (bs : list MeshBlock) (nb : Z) (w : World)
  : option (list MeshBlock * World) :=
  if 0 <? nb then
    match fuel with
    | O => None
    | S fuel' =>
      let '(bs', nb', w') := sweep bs nb w in
      main_loop fuel' bs' nb' w'
    end
  else Some (bs, w).

Fixpoint clear_blocks (bs : list MeshBlock) (w : World) : World :=
  match bs with
  | [] => w
  | pmb :: rest => clear_blocks rest (ClearBoundaryAll (gid pmb) w)
  end.

(** [void Mesh::UpdateOneStep(void)].  The function has no error exit: it
    either returns ([Some]) or is still in its main loop ([None]). *)
Definition UpdateOneStep (fuel : nat) (m : Mesh) (w : World)
  : option (Mesh * World) :=
  let nb := nbend m - nbstart m + 1 in
  let (bs0, w0) := init_blocks (pblock m) w in
  match main_loop fuel bs0 nb w0 with
  | None => None
  | Some (bs1, w1) =>
    Some (mkMesh (nbstart m) (nbend m) bs1, clear_blocks bs1 w1)
  end.

(** *** Vocabulary for the statements *)

(** The task is not yet done and its dependencies are all in the mask. *)
Definition eligible (flag : N) (t : Task) : bool :=
  (N.land (taskid t) flag =? 0)%N && (N.land (depend t) flag =? depend t)%N.

(** The task's identifier meets the completed mask. *)
Definition done (flag : N) (t : Task) : bool :=
  negb (N.land (taskid t) flag =? 0)%N.

(** Every identifier is non-zero and shares no bit with a later one: the
    tasks have identifier bits of their own. *)
Fixpoint unique_bits (ts : list Task) : bool :=
  match ts with
  | [] => true
  | t :: rest =>
    negb (taskid t =? 0)%N
    && forallb (fun u => (N.land (taskid t) (taskid u) =? 0)%N) rest
    && unique_bits rest
  end.

(** The union of the identifiers of a task list. *)
Definition all_ids (ts : list Task) : N :=
  fold_right (fun t acc => N.lor (taskid t) acc) 0%N ts.

(** Every dependency bit is the identifier bit of some task of the list. *)
Definition deps_produced (ts : list Task) : bool :=
  forallb (fun t => (N.land (depend t) (all_ids ts) =? depend t)%N) ts.

(** [depends_on ts t u]: task [t] of the list waits for task [u] of the list. *)
Definition depends_on (ts : list Task) (t u : Task) : Prop :=
  In t ts /\ In u ts /\ N.land (depend t) (taskid u) <> 0%N.

(** The dependency graph has no cycle. *)
Definition acyclic (ts : list Task) : Prop :=
  forall t, ~ clos_trans Task (depends_on ts) t t.

(** The task functions always report that they did their work. *)
Definition always_done (ts : list Task) : Prop :=
  forall t w, In t ts -> fst (TaskFunc t w (task_arg t)) = true.

(** *** One scan in the words of the contract

    The definitions of this part follow the contract of the scheduler, not
    the loop: they say which tasks a call may run and what it does with
    them, and [DoOneTask] is compared with them. *)

(** From the contract: the tasks of [ts], the part of the array from index
    [i] on, that a scan under the mask [flag] may call: those that are not done and whose
    dependencies are complete, each with its index in the array. *)
Fixpoint candidates_from (flag : N) (i : Z) (ts : list Task)
  : list (Z * Task) :=
  match ts with
  | [] => []
  | t :: rest =>
    if eligible flag t then (i, t) :: candidates_from flag (i + 1) rest
    else candidates_from flag (i + 1) rest
  end.

(** The candidates of a call: the scan starts at the cursor. *)
Definition candidates (mb : MeshBlock) : list (Z * Task) :=
  candidates_from (task_flag mb) (firsttask mb)
                  (skipn (Z.to_nat (firsttask mb)) (task mb)).

(** From the contract: the candidates are called one after the other, each
    on the store the one before has left, until one reports work.  The
    result is the candidate that did, the store, and the calls made. *)
Fixpoint offer (flag : N) (cands : list (Z * Task)) (w : World)
  : option (Z * Task) * World * list Invocation :=
  match cands with
  | [] => (None, w, [])
  | (i, t) :: rest =>
    let (r, w1) := TaskFunc t w (task_arg t) in
    if r then (Some (i, t), w1, [mkInvocation i flag true])
    else
      let '(hit, w2, evs) := offer flag rest w1 in
      (hit, w2, mkInvocation i flag false :: evs)
  end.

(** The number of tasks at the head of [ts] that are done. *)
Fixpoint done_prefix (flag : N) (ts : list Task) : Z :=
  match ts with
  | [] => 0
  | t :: rest => if done flag t then 1 + done_prefix flag rest else 0
  end.

(** *** The state of a block between two calls *)

(** The tasks that are not done. *)
Definition undone (flag : N) (ts : list Task) : list Task :=
  filter (fun t => negb (done flag t)) ts.

(** Tasks in front of the cursor are done. *)
Definition cursor_ok (mb : MeshBlock) : Prop :=
  0 <= firsttask mb /\
  forall k u, nth_error (task mb) k = Some u ->
              Z.of_nat k < firsttask mb -> done (task_flag mb) u = true.

(** A task that meets the mask lies in it entirely. *)
Definition fully_marked (flag : N) (ts : list Task) : Prop :=
  forall u, In u ts -> done flag u = true -> N.land (taskid u) flag = taskid u.

(** What holds of a block between two calls of a round: the cursor is in
    front of the first task not done, [ntodo] counts the tasks not done,
    and the tasks done lie in the mask entirely. *)
Definition sched_inv (mb : MeshBlock) : Prop :=
  cursor_ok mb /\
  ntodo mb = Z.of_nat (length (undone (task_flag mb) (task mb))) /\
  fully_marked (task_flag mb) (task mb).

(** A list of calls that a completed mask evolving from [f] to [f'] admits:
    each call is made on a task that is eligible for the mask at that
    time, and a call that reports work adds the identifier of its task. *)
Inductive trace_from (tl : list Task) : N -> list Invocation -> N -> Prop :=
| trace_nil f : trace_from tl f [] f
| trace_cons f e t rest f' :
    nth_error tl (Z.to_nat (inv_index e)) = Some t ->
    inv_flag e = f ->
    eligible f t = true ->
    trace_from tl (if inv_done e then N.lor f (taskid t) else f) rest f' ->
    trace_from tl f (e :: rest) f'.

(** *** Passes of the driver *)

(** The statuses the blocks return during one pass of the main loop. *)
Fixpoint sweep_statuses (bs : list MeshBlock) (w : World) : list tlstatus :=
  match bs with
  | [] => []
  | pmb :: rest =>
    let '(st, _, w1, _) := DoOneTask pmb w in st :: sweep_statuses rest w1
  end.

(** The blocks, the counter and the store after [k] passes. *)
Fixpoint passes (k : nat) (bs : list MeshBlock) (nb : Z) (w : World)
  : list MeshBlock * Z * World :=
  match k with
  | O => (bs, nb, w)
  | S k' => let '(bs', nb', w') := sweep bs nb w in passes k' bs' nb' w'
  end.

(** Every block answers [stuck] in every pass, from the state the
    initialisation of [UpdateOneStep] leaves. *)
Definition permanently_stuck (m : Mesh) (w : World) : Prop :=
  forall k,
    let (bs0, w0) := init_blocks (pblock m) w in
    let '(bs, _, w') := passes k bs0 (nbend m - nbstart m + 1) w0 in
    Forall (fun st : tlstatus => st = stuck) (sweep_statuses bs w').

(** A block whose task list is well formed and whose state is one that
    calls of [DoOneTask] reach from the reset. *)
Definition good_block (mb : MeshBlock) : Prop :=
  unique_bits (task mb) = true /\ deps_produced (task mb) = true /\
  acyclic (task mb) /\ always_done (task mb) /\ sched_inv mb.

(** The tasks still to do in a list of blocks, and the blocks that still
    have some. *)
Definition remaining (bs : list MeshBlock) : Z :=
  fold_right (fun mb acc => ntodo mb + acc) 0 bs.

Definition pending (bs : list MeshBlock) : Z :=
  fold_right (fun mb acc => (if 0 <? ntodo mb then 1 else 0) + acc) 0 bs.

(** *** Setting the task list *)

(** [void MeshBlock::SetTaskList(TaskList& tl)]: the block gets a copy of
    the tasks of [tl] ([ntask] is the length of the copy). *)
Definition SetTaskList (mb : MeshBlock) (tl : list Task) : MeshBlock :=
  mkMeshBlock (gid mb) tl (firsttask mb) (ntodo mb) (task_flag mb).

(** [void Mesh::SetTaskList(TaskList& tl)]: every block of the list gets
    the task list. *)
Fixpoint Mesh_SetTaskList_blocks (bs : list MeshBlock) (tl : list Task)
  : list MeshBlock :=
  match bs with
  | [] => []
  | pmb :: rest => SetTaskList pmb tl :: Mesh_SetTaskList_blocks rest tl
  end.

Definition Mesh_SetTaskList (m : Mesh) (tl : list Task) : Mesh :=
  mkMesh (nbstart m) (nbend m) (Mesh_SetTaskList_blocks (pblock m) tl).

(** The blocks of a list that hold at least one task. *)
Definition with_tasks (bs : list MeshBlock) : list MeshBlock :=
  filter (fun mb => match task mb with [] => false | _ => true end) bs.

(** The number of calls of a list that reported work. *)
Definition successes (evs : list Invocation) : Z :=
  Z.of_nat (length (filter inv_done evs)).

(** A block with a task that waits for a bit outside the identifiers of
    its list, in a state where that task is not done and the mask lies
    within the identifiers. *)
Definition blocked (mb : MeshBlock) : Prop :=
  unique_bits (task mb) = true /\ sched_inv mb /\
  N.land (task_flag mb) (all_ids (task mb)) = task_flag mb /\
  exists t, In t (task mb) /\
            N.land (depend t) (all_ids (task mb)) <> depend t /\
            N.land (taskid t) (task_flag mb) = 0%N.

(** The largest number of tasks still to do in a block of the list, and the
    largest number of tasks of a block. *)
Definition longest (bs : list MeshBlock) : Z :=
  fold_right (fun mb acc => Z.max (ntodo mb) acc) 0 bs.

Definition max_ntask (bs : list MeshBlock) : Z :=
  fold_right (fun mb acc => Z.max (ntask mb) acc) 0 bs.

End Scheduler.

Arguments mkTask {World}.
Arguments TaskFunc {World}.
Arguments taskid {World}.
Arguments depend {World}.
Arguments task_arg {World}.
Arguments mkMeshBlock {World}.
Arguments gid {World}.
Arguments task {World}.
Arguments firsttask {World}.
Arguments ntodo {World}.
Arguments task_flag {World}.
Arguments ntask {World}.
Arguments set_firsttask {World}.
Arguments mark_done {World}.
Arguments DoOneTask_loop {World}.
Arguments DoOneTask {World}.
Arguments reset {World}.
Arguments calls {World}.
Arguments mkMesh {World}.
Arguments nbstart {World}.
Arguments nbend {World}.
Arguments pblock {World}.
Arguments init_blocks {World}.
Arguments sweep {World}.
Arguments main_loop {World}.
Arguments clear_blocks {World}.
Arguments UpdateOneStep {World}.
Arguments eligible {World}.
Arguments done {World}.
Arguments unique_bits {World}.
Arguments all_ids {World}.
Arguments deps_produced {World}.
Arguments depends_on {World}.
Arguments acyclic {World}.
Arguments always_done {World}.
Arguments undone {World}.
Arguments cursor_ok {World}.
Arguments fully_marked {World}.
Arguments sched_inv {World}.
Arguments trace_from {World}.
Arguments trace_nil {World}.
Arguments trace_cons {World}.
Arguments sweep_statuses {World}.
Arguments passes {World}.
Arguments permanently_stuck {World}.
Arguments good_block {World}.
Arguments remaining {World}.
Arguments pending {World}.
Arguments SetTaskList {World}.
Arguments Mesh_SetTaskList_blocks {World}.
Arguments Mesh_SetTaskList {World}.
Arguments with_tasks {World}.
Arguments blocked {World}.
Arguments longest {World}.
Arguments max_ntask {World}.
Arguments candidates_from {World}.
Arguments candidates {World}.
Arguments offer {World}.
Arguments done_prefix {World}.

End TaskList.

(** ** Distribution of the blocks over the ranks (the two [Mesh] constructors) *)

Module Partition.

(** The costs are read as exact numbers here; [Rounded] reads the walk over
    the arithmetic of the machine. *)
Abbreviation Real := Q (only parsing).

(** An [int] array from [new int[n]]: no cell is written yet. *)
Definition new_array (n : Z) : list (option Z) := repeat None (Z.to_nat n).

(** [a[k] = v].  A store outside the array is undefined in C++; the model
    drops it (the loops below never do it when [nproc >= 1]). *)
Fixpoint astore_nat (a : list (option Z)) (k : nat) (v : Z) : list (option Z) :=
  match a, k with
  | [], _ => []
  | _ :: rest, O => Some v :: rest
  | x :: rest, S k' => x :: astore_nat rest k' v
  end.

Definition astore (a : list (option Z)) (k : Z) (v : Z) : list (option Z) :=
  if k <? 0 then a else astore_nat a (Z.to_nat k) v.

(** [a[k]] as an rvalue.  Reading a cell that was never written is
    undefined in C++; the model answers [0] (the loops below only read
    cells they have written). *)
Definition aget (a : list (option Z)) (k : Z) : Z :=
  if k <? 0 then 0
  else match nth_error a (Z.to_nat k) with
       | Some (Some v) => v
       | _ => 0
       end.

(** [totalcost=0.0; for(i=0;i<nbtotal;i++) totalcost+=costlist[i];] *)
Definition sum_costs (costlist : list Real) : Real :=
  fold_left Qplus costlist 0%Q.

(** *** Fresh run: [Mesh::Mesh(ParameterInput *pin, int test_flag)] *)

(** [costlist[i]=1.0]: all the blocks are equal. *)
Definition unit_costs (nbtotal : nat) : list Real := repeat 1%Q nbtotal.

(** The loop [for(i=nbtotal-1;i>=0;i--)] on the costs it still has to
    visit, last block first; the result lists [ranklist[i]] in the order of
    the visit. *)
Fixpoint rank_from_end (costs : list Real) (j : Z)
         (totalcost mycost targetcost : Real) : list Z :=
  match costs with
  | [] => []
  | c :: rest =>
    let mycost := (mycost + c)%Q in
    if Qle_bool targetcost mycost && (0 <? j) then
      let j' := j - 1 in
      let totalcost := (totalcost - mycost)%Q in
      j :: rank_from_end rest j' totalcost 0%Q (totalcost / inject_Z (j' + 1))%Q
    else
      j :: rank_from_end rest j totalcost mycost targetcost
  end.

(** [j=nproc-1; targetcost=totalcost/nproc; mycost=0.0;] and the loop. *)
Definition make_ranklist (costlist : list Real) (nproc : Z) : list Z :=
  let totalcost := sum_costs costlist in
  rev (rank_from_end (rev costlist) (nproc - 1) totalcost 0%Q
                     (totalcost / inject_Z nproc)%Q).

(** The loop [for(i=1;i<nbtotal;i++)] that makes the list of [nbstart];
    [prev] is [ranklist[i-1]] and [ranks] is [ranklist[i..nbtotal)]. *)
Fixpoint start_list (prev : Z) (ranks : list Z) (i j : Z)
         (nslist nblist : list (option Z))
  : Z * list (option Z) * list (option Z) :=
  match ranks with
  | [] => (j, nslist, nblist)
  | r :: rest =>
    if r =? prev then start_list r rest (i + 1) j nslist nblist
    else
      let nblist := astore nblist j (i - aget nslist j) in
      let nslist := astore nslist (j + 1) i in
      start_list r rest (i + 1) (j + 1) nslist nblist
  end.

(** [nslist[0]=0; j=0;], the loop, and [nblist[j]=nbtotal-nslist[j];]. *)
Definition make_nslist (ranklist : list Z) (nproc : Z)
  : list (option Z) * list (option Z) :=
  let nbtotal := Z.of_nat (length ranklist) in
  let nslist := astore (new_array nproc) 0 0 in
  let nblist := new_array nproc in
  let '(j, nslist, nblist) :=
    match ranklist with
    | [] => (0, nslist, nblist)
    | r0 :: rest => start_list r0 rest 1 0 nslist nblist
    end in
  (nslist, astore nblist j (nbtotal - aget nslist j)).

(** What the constructor computes from a cost list: [ranklist], [nslist]
    and [nblist]. *)
Definition Mesh_partition (costlist : list Real) (nproc : Z)
  : list Z * list (option Z) * list (option Z) :=
  let ranklist := make_ranklist costlist nproc in
  let (nslist, nblist) := make_nslist ranklist nproc in
  (ranklist, nslist, nblist).

(** The fresh run itself, with its unit costs. *)
Definition Mesh_new (nbtotal : nat) (nproc : Z)
  : list Z * list (option Z) * list (option Z) :=
  Mesh_partition (unit_costs nbtotal) nproc.

(** *** Restart: [Mesh::Mesh(ParameterInput *pin, WrapIO& resfile, int test_flag)]

    The cost list is the one read from the restart file; the loops are
    written out again in that constructor and are transcribed again here. *)

Fixpoint restart_rank_from_end (costs : list Real) (j : Z)
         (totalcost mycost targetcost : Real) : list Z :=
  match costs with
  | [] => []
  | c :: rest =>
    let mycost := (mycost + c)%Q in
    if Qle_bool targetcost mycost && (0 <? j) then
      let j' := j - 1 in
      let totalcost := (totalcost - mycost)%Q in
      j :: restart_rank_from_end rest j' totalcost 0%Q
             (totalcost / inject_Z (j' + 1))%Q
    else
      j :: restart_rank_from_end rest j totalcost mycost targetcost
  end.

Definition restart_make_ranklist (costlist : list Real) (nproc : Z) : list Z :=
  let totalcost := sum_costs costlist in
  rev (restart_rank_from_end (rev costlist) (nproc - 1) totalcost 0%Q
                             (totalcost / inject_Z nproc)%Q).

Fixpoint restart_start_list (prev : Z) (ranks : list Z) (i j : Z)
         (nslist nblist : list (option Z))
  : Z * list (option Z) * list (option Z) :=
  match ranks with
  | [] => (j, nslist, nblist)
  | r :: rest =>
    if r =? prev then restart_start_list r rest (i + 1) j nslist nblist
    else
      let nblist := astore nblist j (i - aget nslist j) in
      let nslist := astore nslist (j + 1) i in
      restart_start_list r rest (i + 1) (j + 1) nslist nblist
  end.

Definition restart_make_nslist (ranklist : list Z) (nproc : Z)
  : list (option Z) * list (option Z) :=
  let nbtotal := Z.of_nat (length ranklist) in
  let nslist := astore (new_array nproc) 0 0 in
  let nblist := new_array nproc in
  let '(j, nslist, nblist) :=
    match ranklist with
    | [] => (0, nslist, nblist)
    | r0 :: rest => restart_start_list r0 rest 1 0 nslist nblist
    end in
  (nslist, astore nblist j (nbtotal - aget nslist j)).

Definition Mesh_restart_partition (costlist : list Real) (nproc : Z)
  : list Z * list (option Z) * list (option Z) :=
  let ranklist := restart_make_ranklist costlist nproc in
  let (nslist, nblist) := restart_make_nslist ranklist nproc in
  (ranklist, nslist, nblist).

(** *** Vocabulary for the statements *)

(** The total cost of the blocks that [ranks] gives to rank [r]. *)
Fixpoint rank_cost (r : Z) (costs : list Real) (ranks : list Z) : Real :=
  match costs, ranks with
  | c :: costs', k :: ranks' =>
    if k =? r then (c + rank_cost r costs' ranks')%Q else rank_cost r costs' ranks'
  | _, _ => 0%Q
  end.

(** The sum of a list of costs. *)
Definition total (costs : list Real) : Real := fold_right Qplus 0%Q costs.

(** [ranks] never decreases from one global ID to the next. *)
Fixpoint nondecreasing (ranks : list Z) : Prop :=
  match ranks with
  | [] => True
  | r :: rest =>
    match rest with
    | [] => True
    | r' :: _ => r <= r' /\ nondecreasing rest
    end
  end.

(** The maximal runs of equal rank of a rank list, each as its rank and its
    length: [prev] is the rank of the run being read and [cur] the number
    of its blocks read so far. *)
Fixpoint runs_from (prev cur : Z) (ranks : list Z) : list (Z * Z) :=
  match ranks with
  | [] => [(prev, cur)]
  | r :: rest =>
    if r =? prev then runs_from prev (cur + 1) rest
    else (prev, cur) :: runs_from r 1 rest
  end.

Definition runs (ranklist : list Z) : list (Z * Z) :=
  match ranklist with
  | [] => []
  | r0 :: rest => runs_from r0 1 rest
  end.

(** The starts of consecutive ranges of the given lengths, the first one at
    [s]. *)
Fixpoint starts_from (s : Z) (counts : list Z) : list Z :=
  match counts with
  | [] => []
  | c :: rest => s :: starts_from (s + c) rest
  end.

(** The array of [n] cells whose first cells hold [l] and whose other cells
    are unwritten. *)
Definition array_of (n : Z) (l : list Z) : list (option Z) :=
  map Some l ++ repeat None (Z.to_nat n - length l).

(** The ranks of a list grow by at least one from each to the next. *)
Fixpoint increasing (l : list Z) : Prop :=
  match l with
  | [] => True
  | a :: rest =>
    match rest with
    | [] => True
    | b :: _ => a < b /\ increasing rest
    end
  end.

(** The rank list that a list of runs spells out. *)
Definition expand (R : list (Z * Z)) : list Z :=
  flat_map (fun rc => repeat (fst rc) (Z.to_nat (snd rc))) R.

(** [lo; lo+1; ...] with [n] entries. *)
Fixpoint count_up (lo : Z) (n : nat) : list Z :=
  match n with
  | O => []
  | S n' => lo :: count_up (lo + 1) n'
  end.

(** *** The blocks of a process *)

(** [nbstart=nslist[myrank]; if(myrank+1==nproc) nbend=nbtotal-1;
    else nbend=nslist[myrank+1]-1;] *)
Definition my_blocks (nslist : list (option Z)) (myrank nproc nbtotal : Z) : Z * Z :=
  (aget nslist myrank,
   if myrank + 1 =? nproc then nbtotal - 1 else aget nslist (myrank + 1) - 1).

(** [for(i=nbstart;i<=nbend;i++)] with [new MeshBlock(i, i-nbstart, ...)]:
    the global and the local ID of the blocks created, in the order of
    the linked list. *)
Definition create_blocks (nbstart nbend : Z) : list (Z * Z) :=
  map (fun i => (i, i - nbstart)) (count_up nbstart (Z.to_nat (nbend - nbstart + 1))).

(** The sum of a list of counts. *)
Definition sumZ (l : list Z) : Z := fold_right Z.add 0 l.

End Partition.

(** ** The distribution of the blocks in the arithmetic of [Real] *)

(** The walk that fills [ranklist], read over the operations of [Real]:
    the sums, the difference, the quotients and the comparison
    [mycost >= targetcost] are those of the machine.  [Partition] reads
    the same loop over exact numbers. *)

Module Rounded.
Import RealArith.

Section Walk.
Context {Real : Type} {arith : Arith Real}.

(** [totalcost=0.0; for(i=0;i<nbtotal;i++) totalcost+=costlist[i];] *)
Definition sum_costs (costlist : list Real) : Real :=
  fold_left r_add costlist (of_int 0).

(** The loop [for(i=nbtotal-1;i>=0;i--)] of the two constructors (the same
    text in both) on the costs it still has to visit, last block first. *)
Fixpoint rank_from_end (costs : list Real) (j : Z)
         (totalcost mycost targetcost : Real) : list Z :=
  match costs with
  | [] => []
  | c :: rest =>
    let mycost := r_add mycost c in
    if r_geb mycost targetcost && (0 <? j) then
      let j' := j - 1 in
      let totalcost := r_sub totalcost mycost in
      j :: rank_from_end rest j' totalcost (of_int 0)
             (r_div totalcost (of_int (j' + 1)))
    else
      j :: rank_from_end rest j totalcost mycost targetcost
  end.

(** [j=nproc-1; targetcost=totalcost/nproc; mycost=0.0;] and the loop. *)
Definition make_ranklist (costlist : list Real) (nproc : Z) : list Z :=
  let totalcost := sum_costs costlist in
  rev (rank_from_end (rev costlist) (nproc - 1) totalcost (of_int 0)
                     (r_div totalcost (of_int nproc))).

End Walk.

End Rounded.

(** ** The next time step ([Mesh::NewTimeStep]) *)

Module TimeStep.

Abbreviation Real := Q (only parsing).

(** [std::min(a,b)]: [(b < a) ? b : a]. *)
Definition std_min (a b : Real) : Real :=
  if negb (Qle_bool a b) then b else a.

Record MeshBlock : Type := mkMeshBlock {
  new_block_dt : Real
}.

Record Mesh : Type := mkMesh {
  pblock     : list MeshBlock;
  dt         : Real;
  cfl_number : Real
}.

(** The [while (pmb != NULL)] loop over the blocks after the first. *)
Fixpoint min_over_blocks (min_dt : Real) (bs : list MeshBlock) : Real :=
  match bs with
  | [] => min_dt
  | pmb :: rest => min_over_blocks (std_min min_dt (new_block_dt pmb)) rest
  end.

(** [MPI_Allreduce(MPI_IN_PLACE,&min_dt,1,MPI_ATHENA_REAL,MPI_MIN,...)]:
    [others] are the values the other ranks contribute (none without MPI). *)
Fixpoint MPI_Allreduce_MIN (min_dt : Real) (others : list Real) : Real :=
  match others with
  | [] => min_dt
  | x :: rest => MPI_Allreduce_MIN (std_min min_dt x) rest
  end.

(** [void Mesh::NewTimeStep(void)].  The function reads the first block
    without a test: on a mesh without blocks it dereferences a null pointer
    ([None]). *)
Definition NewTimeStep (others : list Real) (m : Mesh) : option Mesh :=
  match pblock m with
  | [] => None
  | pmb :: rest =>
    let min_dt := new_block_dt pmb in
    let min_dt := min_over_blocks min_dt rest in
    let min_dt := MPI_Allreduce_MIN min_dt others in
    Some (mkMesh (pblock m)
                 (std_min (min_dt * cfl_number m) (2 * dt m))%Q
                 (cfl_number m))
  end.

(** [x] is a least element of [l]. *)
Definition is_minimum (x : Real) (l : list Real) : Prop :=
  In x l /\ forall y, In y l -> (x <= y)%Q.

(** The recommended steps of the blocks of a mesh. *)
Definition block_steps (m : Mesh) : list Real := map new_block_dt (pblock m).

End TimeStep.

(** ** Wiring of the face neighbours (fresh-run [Mesh] constructor) *)

Module Neighbors.

(** [enum direction]. *)
Inductive direction : Type :=
  inner_x1 | outer_x1 | inner_x2 | outer_x2 | inner_x3 | outer_x3.

Definition direction_eqb (a b : direction) : bool :=
  match a, b with
  | inner_x1, inner_x1 | outer_x1, outer_x1 | inner_x2, inner_x2
  | outer_x2, outer_x2 | inner_x3, inner_x3 | outer_x3, outer_x3 => true
  | _, _ => false
  end.

(** [struct NeighborBlock]. *)
Record NeighborBlock : Type := mkNeighborBlock {
  rank  : Z;
  level : Z;
  gid   : Z;
  lid   : Z
}.

(** The array [neighbor[6][2][2]] of a MeshBlock; [None] is a cell no
    [SetNeighbor] has written. *)
Definition NeighborTable : Type := direction -> Z -> Z -> option NeighborBlock.

Definition no_neighbors : NeighborTable := fun _ _ _ => None.

(** Modelled from the spec: [MeshBlock::SetNeighbor] is declared outside
    the files at hand.  It stores one Neighbor record (rank, level, global
    and local ID) for the face [dir], in the cell of the sub-face index
    [(fb1, fb2)]; a call without the two indices means [(0, 0)]. *)
Definition SetNeighbor (tbl : NeighborTable) (dir : direction)
           (irank ilevel igid ilid fb1 fb2 : Z) : NeighborTable :=
  fun d a b =>
    if direction_eqb d dir && (a =? fb1) && (b =? fb2)
    then Some (mkNeighborBlock irank ilevel igid ilid)
    else tbl d a b.

(** The number of records the table holds for a face. *)
Definition records (tbl : NeighborTable) (dir : direction) : nat :=
  length (filter (fun ab => match tbl dir (fst ab) (snd ab) with
                            | Some _ => true
                            | None => false
                            end)
                 [(0, 0); (0, 1); (1, 0); (1, 1)]).

(** Why the wiring of a face can fail: the constructor throws when the
    neighbour search returns [NULL], and it dereferences what [GetLeaf]
    returns without a test. *)
Inductive failure : Type := search_failed | null_leaf.

Section Wiring.

(** The block tree and the identifiers are built by code that is not part
    of this development. *)
Variables BlockTree BlockUID : Type.
Variable FindNeighbor : direction -> BlockUID -> Z -> Z -> Z -> Z -> option BlockTree.
Variable GetNeighbor : BlockTree -> NeighborBlock.
Variable GetLeaf : BlockTree -> Z -> Z -> Z -> option BlockTree.

(** What the constructor knows when it wires block [i]. *)
Record Setting : Type := mkSetting {
  nx2 : Z;                       (* mesh_size.nx2 *)
  nx3 : Z;                       (* mesh_size.nx3 *)
  mesh_bcs : direction -> Z;
  nrbx1 : Z; nrbx2 : Z; nrbx3 : Z;
  root_level : Z;
  ranklist : Z -> Z;             (* ranklist[gid] *)
  nslist : Z -> Z;               (* nslist[rank] *)
  buid : BlockUID;               (* buid[i] *)
  lx1 : Z; lx2 : Z; lx3 : Z; ll : Z   (* buid[i].GetLocation(lx1,lx2,lx3,ll) *)
}.

(** The test that sends a face to the physical-boundary branch. *)
Definition no_lookup (s : Setting) (dir : direction) : bool :=
  match dir with
  | inner_x1 => (lx1 s =? 0) && negb (mesh_bcs s inner_x1 =? 4)
  | outer_x1 =>
    (lx1 s =? Z.shiftl (nrbx1 s) (ll s - root_level s) - 1)
    && negb (mesh_bcs s outer_x1 =? 4)
  | inner_x2 =>
    ((lx2 s =? 0) && negb (mesh_bcs s inner_x2 =? 4)) || (nx2 s =? 1)
  | outer_x2 =>
    ((lx2 s =? Z.shiftl (nrbx2 s) (ll s - root_level s) - 1)
     && negb (mesh_bcs s outer_x2 =? 4)) || (nx2 s =? 1)
  | inner_x3 =>
    ((lx3 s =? 0) && negb (mesh_bcs s inner_x3 =? 4)) || (nx3 s =? 1)
  | outer_x3 =>
    ((lx3 s =? Z.shiftl (nrbx3 s) (ll s - root_level s) - 1)
     && negb (mesh_bcs s outer_x3 =? 4)) || (nx3 s =? 1)
  end.

(** The four [GetLeaf] calls of the finer branch of a face, each with the
    sub-face index handed to [SetNeighbor], in the order of the code. *)
Definition leaf_calls (dir : direction) : list ((Z * Z * Z) * (Z * Z)) :=
  match dir with
  | inner_x1 => [((1,0,0),(0,0)); ((1,0,1),(0,1)); ((1,1,0),(1,0)); ((1,1,1),(1,1))]
  | outer_x1 => [((0,0,0),(0,0)); ((0,0,1),(0,1)); ((0,1,0),(1,0)); ((0,1,1),(1,1))]
  | inner_x2 => [((0,1,0),(0,0)); ((0,1,1),(0,1)); ((1,1,0),(1,0)); ((1,1,1),(1,1))]
  | outer_x2 => [((0,0,0),(0,0)); ((0,0,1),(0,1)); ((1,0,0),(1,0)); ((1,0,1),(1,1))]
  | inner_x3 => [((0,0,1),(0,0)); ((0,1,1),(0,1)); ((1,0,1),(1,0)); ((1,1,1),(1,1))]
  | outer_x3 => [((0,0,0),(0,0)); ((0,1,0),(0,1)); ((1,0,0),(1,0)); ((1,1,0),(1,1))]
  end.

(** [pblock->SetNeighbor(dir, ranklist[nei.gid], nei.level, nei.gid,
    nei.gid-nslist[ranklist[nei.gid]], fb1, fb2)]. *)
Definition set_from (s : Setting) (tbl : NeighborTable) (dir : direction)
           (nei : NeighborBlock) (fb1 fb2 : Z) : NeighborTable :=
  SetNeighbor tbl dir (ranklist s (gid nei)) (level nei) (gid nei)
              (gid nei - nslist s (ranklist s (gid nei))) fb1 fb2.

(** The record that call leaves in the table. *)
Definition record_of (s : Setting) (nei : NeighborBlock) : NeighborBlock :=
  mkNeighborBlock (ranklist s (gid nei)) (level nei) (gid nei)
                  (gid nei - nslist s (ranklist s (gid nei))).

(** [nei.level==ll || nei.level==ll-1] *)
Definition same_or_coarser (s : Setting) (nei : NeighborBlock) : bool :=
  (level nei =? ll s) || (level nei =? ll s - 1).

(** The finer branch: [nei= neibt->GetLeaf(..)->GetNeighbor();
    pblock->SetNeighbor(..)], four times. *)
Fixpoint set_leaves (s : Setting) (tbl : NeighborTable) (dir : direction)
         (neibt : BlockTree) (cs : list ((Z * Z * Z) * (Z * Z)))
  : failure + NeighborTable :=
  match cs with
  | [] => inr tbl
  | ((ox, oy, oz), (fb1, fb2)) :: rest =>
    match GetLeaf neibt ox oy oz with
    | None => inl null_leaf
    | Some leaf =>
      set_leaves s (set_from s tbl dir (GetNeighbor leaf) fb1 fb2) dir neibt rest
    end
  end.

(** The block of code that wires one face in the constructor. *)
Definition wire_face (s : Setting) (tbl : NeighborTable) (dir : direction)
  : failure + NeighborTable :=
  if no_lookup s dir then inr (SetNeighbor tbl dir (-1) (-1) (-1) (-1) 0 0)
  else
    match FindNeighbor dir (buid s) (nrbx1 s) (nrbx2 s) (nrbx3 s) (root_level s) with
    | None => inl search_failed
    | Some neibt =>
      let nei := GetNeighbor neibt in
      if same_or_coarser s nei then
        (* same or coarser *)
        inr (set_from s tbl dir nei 0 0)
      else
        (* finer *)
        set_leaves s tbl dir neibt (leaf_calls dir)
    end.

(** The six faces in the order of the constructor. *)
Fixpoint wire_faces (s : Setting) (tbl : NeighborTable) (dirs : list direction)
  : failure + NeighborTable :=
  match dirs with
  | [] => inr tbl
  | dir :: rest =>
    match wire_face s tbl dir with
    | inl e => inl e
    | inr tbl' => wire_faces s tbl' rest
    end
  end.

Definition wire_block (s : Setting) : failure + NeighborTable :=
  wire_faces s no_neighbors
             [inner_x1; outer_x1; inner_x2; outer_x2; inner_x3; outer_x3].

(** What the wiring of one face leaves in a table that holds nothing for
    that face yet. *)
Definition face_wired (s : Setting) (tbl : NeighborTable) (dir : direction)
           (neibt : BlockTree) : Prop :=
  if same_or_coarser s (GetNeighbor neibt) then
    records tbl dir = 1%nat /\
    tbl dir 0 0 = Some (record_of s (GetNeighbor neibt))
  else
    records tbl dir = 4%nat /\
    forall ox oy oz fb1 fb2, In ((ox, oy, oz), (fb1, fb2)) (leaf_calls dir) ->
      exists leaf, GetLeaf neibt ox oy oz = Some leaf /\
                   tbl dir fb1 fb2 = Some (record_of s (GetNeighbor leaf)).

(** The four children the finer branch asks of [neibt] exist. *)
Definition leaves_exist (dir : direction) (neibt : BlockTree) : Prop :=
  forall ox oy oz fb, In ((ox, oy, oz), fb) (leaf_calls dir) ->
                      GetLeaf neibt ox oy oz <> None.

(** The mesh is two-dimensional: it has cells along x2 and a single layer
    along x3. *)
Definition two_dimensional (s : Setting) : bool :=
  (1 <? nx2 s) && (nx3 s =? 1).

End Wiring.

Arguments mkSetting {BlockUID}.
Arguments nx2 {BlockUID}.
Arguments nx3 {BlockUID}.
Arguments mesh_bcs {BlockUID}.
Arguments nrbx1 {BlockUID}.
Arguments nrbx2 {BlockUID}.
Arguments nrbx3 {BlockUID}.
Arguments root_level {BlockUID}.
Arguments ranklist {BlockUID}.
Arguments nslist {BlockUID}.
Arguments buid {BlockUID}.
Arguments lx1 {BlockUID}.
Arguments lx2 {BlockUID}.
Arguments lx3 {BlockUID}.
Arguments ll {BlockUID}.
Arguments no_lookup {BlockUID}.
Arguments set_from {BlockUID}.
Arguments record_of {BlockUID}.
Arguments same_or_coarser {BlockUID}.
Arguments set_leaves {BlockTree BlockUID}.
Arguments wire_face {BlockTree BlockUID}.
Arguments wire_faces {BlockTree BlockUID}.
Arguments wire_block {BlockTree BlockUID}.
Arguments two_dimensional {BlockUID}.
Arguments face_wired {BlockTree BlockUID}.
Arguments leaves_exist {BlockTree}.

(** *** Restart: the neighbour records read from the file *)

(** The body of the loops [for k, j, i] of the restart constructor of a
    MeshBlock on one cell of [neighbor[6][2][2]]:
    [if(n.gid!=-1) { n.rank=ranklist[n.gid]; n.lid=n.gid-nslist[n.rank]; }] *)
Definition refresh_record (ranklist nslist : Z -> Z) (n : NeighborBlock)
  : NeighborBlock :=
  if negb (gid n =? -1) then
    let rank' := ranklist (gid n) in
    mkNeighborBlock rank' (level n) (gid n) (gid n - nslist rank')
  else n.

(** The three loops: every cell that holds a record is refreshed. *)
Definition refresh (ranklist nslist : Z -> Z) (tbl : NeighborTable) : NeighborTable :=
  fun d a b => option_map (refresh_record ranklist nslist) (tbl d a b).

(** The setting of a block under another distribution of the blocks. *)
Definition with_partition {BlockUID : Type} (s : Setting BlockUID)
           (ranklist' nslist' : Z -> Z) : Setting BlockUID :=
  mkSetting (nx2 s) (nx3 s) (mesh_bcs s) (nrbx1 s) (nrbx2 s) (nrbx3 s)
            (root_level s) ranklist' nslist' (buid s)
            (lx1 s) (lx2 s) (lx3 s) (ll s).

(** The record that marks a face on a physical boundary. *)
Definition boundary_record : NeighborBlock := mkNeighborBlock (-1) (-1) (-1) (-1).

(** What makes the wiring of face [dir] fail. *)
Definition search_fails {BlockTree BlockUID : Type}
           (FindNeighbor : direction -> BlockUID -> Z -> Z -> Z -> Z -> option BlockTree)
           (s : Setting BlockUID) (dir : direction) : Prop :=
  no_lookup s dir = false /\
  FindNeighbor dir (buid s) (nrbx1 s) (nrbx2 s) (nrbx3 s) (root_level s) = None.

Definition leaf_missing {BlockTree BlockUID : Type}
           (FindNeighbor : direction -> BlockUID -> Z -> Z -> Z -> Z -> option BlockTree)
           (GetNeighbor : BlockTree -> NeighborBlock)
           (GetLeaf : BlockTree -> Z -> Z -> Z -> option BlockTree)
           (s : Setting BlockUID) (dir : direction) : Prop :=
  no_lookup s dir = false /\
  exists neibt,
    FindNeighbor dir (buid s) (nrbx1 s) (nrbx2 s) (nrbx3 s) (root_level s)
    = Some neibt /\
    same_or_coarser s (GetNeighbor neibt) = false /\
    exists ox oy oz fb, In ((ox, oy, oz), fb) (leaf_calls dir) /\
                        GetLeaf neibt ox oy oz = None.

End Neighbors.

(** ** The tests of the configuration (fresh-run [Mesh] constructor) *)

Module Config.

Abbreviation Real := Q (only parsing).

(** The values the constructor reads from the input file, defaults
    resolved: [GetOrAddInteger("meshblock","nx1",mesh_size.nx1)] is the
    block size given, or the mesh size. *)
Record Input : Type := mkInput {
  num_threads : Z;
  nx1 : Z; nx2 : Z; nx3 : Z;
  cfl_number : Real;
  x1min : Real; x2min : Real; x3min : Real;
  x1max : Real; x2max : Real; x3max : Real;
  x1rat : Real; x2rat : Real; x3rat : Real;
  block_nx1 : Z; block_nx2 : Z; block_nx3 : Z;
  nlevel : Z
}.

(** The fatal errors of the constructor up to the root level, in the order
    of their tests. *)
Inductive fatal : Type :=
| bad_num_threads | bad_nx1 | bad_nx2 | bad_nx3 | x1_x3_plane
| cfl_1d | cfl_multi_d
| bad_x1_range | bad_x2_range | bad_x3_range
| bad_x1rat | bad_x2rat | bad_x3rat
| not_divisible | small_block.

(** What the constructor has computed when it creates the root grid. *)
Record RootGrid : Type := mkRootGrid {
  nrbx1 : Z; nrbx2 : Z; nrbx3 : Z;
  nbmax : Z;
  root_level : Z;
  max_level : Z
}.

(** The constructor throws, goes on with a root grid, or does something
    that C++ leaves undefined (an integer division by zero, a shift or a
    sum that leaves [int]). *)
Inductive outcome : Type :=
| throws (e : fatal)
| root_grid (g : RootGrid)
| undefined.

(** [for(root_level=0;(1<<root_level)<nbmax;root_level++);] on a 32-bit
    [int]: the shifts [1<<0] to [1<<30] are made, [1<<31] is not an
    [int]. *)
Fixpoint root_level_loop (shifts : nat) (root_level nbmax : Z) : option Z :=
  match shifts with
  | O => None
  | S shifts' =>
    if Z.shiftl 1 root_level <? nbmax
    then root_level_loop shifts' (root_level + 1) nbmax
    else Some root_level
  end.

Definition find_root_level (nbmax : Z) : option Z := root_level_loop 31 0 nbmax.

(** The tests of [Mesh::Mesh(ParameterInput *pin, int test_flag)] from the
    number of threads to the root level. *)
Definition check_config (i : Input) : outcome :=
  if num_threads i <? 1 then throws bad_num_threads
  else if nx1 i <? 4 then throws bad_nx1
  else if nx2 i <? 1 then throws bad_nx2
  else if nx3 i <? 1 then throws bad_nx3
  else if (nx2 i =? 1) && (1 <? nx3 i) then throws x1_x3_plane
  else if negb (Qle_bool (cfl_number i) 1) && (nx2 i =? 1) then throws cfl_1d
  else if negb (Qle_bool (cfl_number i) (1#2)) && (1 <? nx2 i) then throws cfl_multi_d
  else if Qle_bool (x1max i) (x1min i) then throws bad_x1_range
  else if Qle_bool (x2max i) (x2min i) then throws bad_x2_range
  else if Qle_bool (x3max i) (x3min i) then throws bad_x3_range
  else if negb (Qle_bool (Qabs (x1rat i - 1)) (1#10)) then throws bad_x1rat
  else if negb (Qle_bool (Qabs (x2rat i - 1)) (1#10)) then throws bad_x2rat
  else if negb (Qle_bool (Qabs (x3rat i - 1)) (1#10)) then throws bad_x3rat
  else
    (* [mesh_size.nx1%block_size.nx1 != 0 || ...], left to right *)
    if block_nx1 i =? 0 then undefined
    else if negb (Z.rem (nx1 i) (block_nx1 i) =? 0) then throws not_divisible
    else if block_nx2 i =? 0 then undefined
    else if negb (Z.rem (nx2 i) (block_nx2 i) =? 0) then throws not_divisible
    else if block_nx3 i =? 0 then undefined
    else if negb (Z.rem (nx3 i) (block_nx3 i) =? 0) then throws not_divisible
    else if (block_nx1 i <? 2)
            || ((block_nx2 i <? 2) && negb (nx2 i =? 1))
            || ((block_nx3 i <? 2) && negb (nx3 i =? 1))
    then throws small_block
    else
      let nrbx1 := Z.quot (nx1 i) (block_nx1 i) in
      let nrbx2 := Z.quot (nx2 i) (block_nx2 i) in
      let nrbx3 := Z.quot (nx3 i) (block_nx3 i) in
      let nbmax := if nrbx2 <? nrbx1 then nrbx1 else nrbx2 in
      let nbmax := if nrbx3 <? nbmax then nbmax else nrbx3 in
      match find_root_level nbmax with
      | None => undefined
      | Some root_level =>
        (* [max_level = nlevel+root_level-1], two operations on [int] *)
        match Machine.int (nlevel i + root_level) with
        | None => undefined
        | Some sum =>
          match Machine.int (sum - 1) with
          | None => undefined
          | Some max_level =>
            root_grid (mkRootGrid nrbx1 nrbx2 nrbx3 nbmax root_level max_level)
          end
        end
      end.

End Config.

(** ** Cell faces of a block ([MeshBlock] constructor) *)

Module Faces.
Import Machine RealArith.

Section Arrays.
Context {Real : Type}.

(** An [AthenaArray<Real>] of one dimension: its length and its cells;
    [None] is a cell that was never written. *)
Record AthenaArray : Type := mkArray {
  size : Z;
  cell : Z -> option Real
}.

(** [a.NewAthenaArray(n)] *)
Definition NewAthenaArray (n : Z) : AthenaArray := mkArray n (fun _ => None).

(** [a(i)] as an rvalue: outside the array, or in a cell never written,
    the read is undefined ([None]). *)
Definition aread (a : AthenaArray) (i : Z) : option Real :=
  if (0 <=? i) && (i <? size a) then cell a i else None.

(** [a(i) = v]: outside the array the store is undefined ([None]). *)
Definition awrite (a : AthenaArray) (i : Z) (v : Real) : option AthenaArray :=
  if (0 <=? i) && (i <? size a)
  then Some (mkArray (size a) (fun j => if j =? i then Some v else cell a j))
  else None.

End Arrays.
Arguments AthenaArray Real : clear implicits.

Definition bind {A B : Type} (x : option A) (k : A -> option B) : option B :=
  match x with
  | Some a => k a
  | None => None
  end.

Notation "x <- e ;; k" := (bind e (fun x => k))
  (at level 61, e at next level, right associativity).
Notation "' p <- e ;; k" := (bind e (fun x => let 'p := x in k))
  (at level 61, p pattern, e at next level, right associativity).

(** [n] rounds of a loop body, the index going up from [i]. *)
Fixpoint for_up {St : Type} (n : nat) (i : Z) (body : Z -> St -> option St) (st : St)
  : option St :=
  match n with
  | O => Some st
  | S n' => st' <- body i st ;; for_up n' (i + 1) body st'
  end.

(** [for(int i=lo; i<=hi; ++i) body] *)
Definition for_range {St : Type} (lo hi : Z) (body : Z -> St -> option St) (st : St)
  : option St :=
  for_up (Z.to_nat (hi - lo + 1)) lo body st.

Section Block.
Context {Real : Type} {arith : Arith Real}.

(** The number of ghost cells is fixed when the code is compiled. *)
Variable NGHOST : Z.

(** [is], [ie], [js], [je], [ks], [ke] and the numbers of cells. *)
Record Indices : Type := mkIndices {
  is_ : Z; ie : Z; js : Z; je : Z; ks : Z; ke : Z;
  ncells1 : Z; ncells2 : Z; ncells3 : Z
}.

(** "initialize grid indices" and "allocate arrays for sizes and positions
    of cells" of the MeshBlock constructor. *)
Definition grid_indices (nx1 nx2 nx3 : Z) : Indices :=
  let is_ := NGHOST in
  let ie := is_ + nx1 - 1 in
  let (js, je) := if 1 <? nx2 then (NGHOST, NGHOST + nx2 - 1) else (0, 0) in
  let (ks, ke) := if 1 <? nx3 then (NGHOST, NGHOST + nx3 - 1) else (0, 0) in
  let ncells1 := nx1 + 2 * NGHOST in
  let ncells2 := if 1 <? nx2 then nx2 + 2 * NGHOST else 1 in
  let ncells3 := if 1 <? nx3 then nx3 + 2 * NGHOST else 1 in
  mkIndices is_ ie js je ks ke ncells1 ncells2 ncells3.

(** The block of code that fills the sizes and the positions of the cell
    faces along one direction with more than one cell (written out for x1,
    and under [if(block_size.nx2 > 1)] and [if(block_size.nx3 > 1)] for x2
    and x3): [s] and [e] are [is] and [ie], [nx], [xmin], [xmax] and [rat]
    the fields of [block_size], [mesh_nx] the field of [mesh_size], [lx] the
    location of the block, [gen] is [pm->MeshGeneratorX1(rx,mesh_size)],
    [bc_inner] and [bc_outer] the two entries of [block_bcs]. *)
Definition faces (s e nx : Z) (xmin xmax rat : Real)
           (mesh_nx lx ll root_level : Z) (gen : Real -> Real)
           (bc_inner bc_outer : Z) (dxf xf : AthenaArray Real)
  : option (AthenaArray Real * AthenaArray Real) :=
  one <- shift_long (ll - root_level) ;;
  nrootmesh <- long (mesh_nx * one) ;;
  st <- (if r_eqb rat (of_int 1) then
           (* uniform *)
           let dx := r_div (r_sub xmax xmin) (of_int nx) in
           dxf <- for_range (s - NGHOST) (e + NGHOST)
                    (fun i dxf => awrite dxf i dx) dxf ;;
           xf <- awrite xf (s - NGHOST) (r_sub xmin (r_mul (of_int NGHOST) dx)) ;;
           xf <- for_range (s - NGHOST + 1) (e + NGHOST + 1)
                   (fun i xf => v <- aread xf (i - 1) ;; awrite xf i (r_add v dx)) xf ;;
           xf <- awrite xf s xmin ;;
           xf <- awrite xf (e + 1) xmax ;;
           Some (dxf, xf)
         else
           xf <- for_range (s - NGHOST) (e + NGHOST + 1)
                   (fun i xf =>
                      p <- long (lx * nx) ;;
                      noffset <- long ((i - s) + p) ;;
                      let rx := r_div (of_int noffset) (of_int nrootmesh) in
                      awrite xf i (gen rx)) xf ;;
           xf <- awrite xf s xmin ;;
           xf <- awrite xf (e + 1) xmax ;;
           dxf <- for_range (s - NGHOST) (e + NGHOST)
                    (fun i dxf =>
                       b <- aread xf (i + 1) ;;
                       a <- aread xf i ;;
                       awrite dxf i (r_sub b a)) dxf ;;
           Some (dxf, xf)) ;;
  (* correct cell face positions in ghost zones for reflecting boundary
     condition *)
  st <- (if bc_inner =? 1 then
           for_range 1 NGHOST
             (fun i st =>
                let '(dxf, xf) := st in
                v <- aread dxf (s + i - 1) ;;
                dxf <- awrite dxf (s - i) v ;;
                a <- aread xf (s - i + 1) ;;
                d <- aread dxf (s - i) ;;
                xf <- awrite xf (s - i) (r_sub a d) ;;
                Some (dxf, xf)) st
         else Some st) ;;
  (if bc_outer =? 1 then
     for_range 1 NGHOST
       (fun i st =>
          let '(dxf, xf) := st in
          v <- aread dxf (e - i + 1) ;;
          dxf <- awrite dxf (e + i) v ;;
          a <- aread xf (e + i) ;;
          d <- aread dxf (e + i) ;;
          xf <- awrite xf (e + i + 1) (r_add a d) ;;
          Some (dxf, xf)) st
   else Some st).

(** The [else] branch of a direction with a single cell:
    [dx2f(js) = x2max-x2min; x2f(js) = x2min; x2f(je+1) = x2max;] *)
Definition single_cell (s e : Z) (xmin xmax : Real) (dxf xf : AthenaArray Real)
  : option (AthenaArray Real * AthenaArray Real) :=
  dxf <- awrite dxf s (r_sub xmax xmin) ;;
  xf <- awrite xf s xmin ;;
  xf <- awrite xf (e + 1) xmax ;;
  Some (dxf, xf).

(** The x1 and the x2 part of the constructor: the arrays [dx1f], [x1f],
    [dx2f], [x2f] it leaves.  The largest [int] formed along a direction is
    the length of the array of the faces, [ncells+1] (for [NGHOST >= 0]
    and at least one cell). *)
Definition x1_faces (nx1 nx2 nx3 : Z) (x1min x1max x1rat : Real)
           (mesh_nx1 lx1 ll root_level : Z) (MeshGeneratorX1 : Real -> Real)
           (bc_inner_x1 bc_outer_x1 : Z)
  : option (AthenaArray Real * AthenaArray Real) :=
  let ix := grid_indices nx1 nx2 nx3 in
  nfaces <- int (ncells1 ix + 1) ;;
  faces (is_ ix) (ie ix) nx1 x1min x1max x1rat mesh_nx1 lx1 ll root_level
        MeshGeneratorX1 bc_inner_x1 bc_outer_x1
        (NewAthenaArray (ncells1 ix)) (NewAthenaArray nfaces).

Definition x2_faces (nx1 nx2 nx3 : Z) (x2min x2max x2rat : Real)
           (mesh_nx2 lx2 ll root_level : Z) (MeshGeneratorX2 : Real -> Real)
           (bc_inner_x2 bc_outer_x2 : Z)
  : option (AthenaArray Real * AthenaArray Real) :=
  let ix := grid_indices nx1 nx2 nx3 in
  nfaces <- int (ncells2 ix + 1) ;;
  if 1 <? nx2 then
    faces (js ix) (je ix) nx2 x2min x2max x2rat mesh_nx2 lx2 ll root_level
          MeshGeneratorX2 bc_inner_x2 bc_outer_x2
          (NewAthenaArray (ncells2 ix)) (NewAthenaArray nfaces)
  else
    single_cell (js ix) (je ix) x2min x2max
                (NewAthenaArray (ncells2 ix)) (NewAthenaArray nfaces).

End Block.

(** *** Vocabulary for the statements *)

Section Vocabulary.
Context {Real : Type} {arith : Arith Real}.

(** Every cell of the array is written. *)
Definition filled (a : AthenaArray Real) : Prop :=
  forall i, 0 <= i < size a -> cell a i <> None.

(** Every cell of the array holds [v]. *)
Definition constant (v : Real) (a : AthenaArray Real) : Prop :=
  forall i, 0 <= i < size a -> cell a i = Some v.

(** From cell [s] to cell [e] the size of a cell is the difference of its
    two faces, as the arithmetic of [Real] computes it. *)
Definition differences (s e : Z) (dxf xf : AthenaArray Real) : Prop :=
  forall i, s <= i <= e ->
    exists a b, cell xf i = Some a /\ cell xf (i + 1) = Some b /\
                cell dxf i = Some (r_sub b a).

End Vocabulary.

(** The integers of one direction fit their types, also where a [long] has
    no more bits than an [int]: the arrays have an [int] length, the block
    is at most 30 levels above the root, and the number of cells of the
    mesh at the level of the block, and the number of cells up to the end
    of the block and its ghost zone, are below [2^31]. *)
Definition fits (NGHOST nx mesh_nx lx ll root_level : Z) : Prop :=
  0 <= NGHOST /\ 1 <= nx /\ nx + 2 * NGHOST + 1 < 2 ^ 31 /\
  0 <= ll - root_level < 31 /\
  0 <= mesh_nx /\ mesh_nx * 2 ^ (ll - root_level) < 2 ^ 31 /\
  0 <= lx /\ lx * nx + nx + NGHOST < 2 ^ 31.

End Faces.

(** ** Initialization before the main loop ([Mesh::Initialize]) *)

Module Init.
Import Neighbors.

(** The calls that [Mesh::Initialize] makes into the problem generator,
    the boundary values, the fluid and the mesh, each with the global ID of
    the block it is made for. *)
Inductive call : Type :=
| ProblemGenerator (b : Z)
| CheckBoundary (b : Z)
| Initialize_bval (b : Z)
| StartReceivingForInit (b : Z)
| LoadAndSendFluidBoundaryBuffer (dir : direction) (b : Z)
| LoadAndSendFieldBoundaryBuffer (dir : direction) (b : Z)
| ReceiveAndSetFluidBoundaryWithWait (dir : direction) (b : Z)
| ReceiveAndSetFieldBoundaryWithWait (dir : direction) (b : Z)
| ClearBoundaryForInit (b : Z)
| ConservedToPrimitive (b : Z)
| NewBlockTimeStep (b : Z)
| NewTimeStep.

Section Initialize.

(** Fixed when the code is compiled. *)
Variable MAGNETIC_FIELDS_ENABLED : bool.

(** [LoadAndSend...(inner, ...); LoadAndSend...(outer, ...);] for the
    fluid, and for the field when there is one. *)
Definition send (inner outer : direction) (b : Z) : list call :=
  [LoadAndSendFluidBoundaryBuffer inner b; LoadAndSendFluidBoundaryBuffer outer b]
  ++ (if MAGNETIC_FIELDS_ENABLED
      then [LoadAndSendFieldBoundaryBuffer inner b;
            LoadAndSendFieldBoundaryBuffer outer b]
      else []).

(** [ReceiveAndSet...WithWait(outer, ...); ReceiveAndSet...WithWait(inner, ...);] *)
Definition receive (inner outer : direction) (b : Z) : list call :=
  [ReceiveAndSetFluidBoundaryWithWait outer b;
   ReceiveAndSetFluidBoundaryWithWait inner b]
  ++ (if MAGNETIC_FIELDS_ENABLED
      then [ReceiveAndSetFieldBoundaryWithWait outer b;
            ReceiveAndSetFieldBoundaryWithWait inner b]
      else []).

(** [void Mesh::Initialize(int res_flag, ParameterInput *pin)]: the calls it
    makes, in order; [blocks] are the global IDs of the blocks of the list,
    [nx2] and [nx3] the fields of [mesh_size]. *)
Definition Initialize (res_flag nx2 nx3 : Z) (blocks : list Z) : list call :=
  (if res_flag =? 0
   then flat_map (fun b => [ProblemGenerator b; CheckBoundary b]) blocks
   else [])
  ++ flat_map (fun b => [Initialize_bval b; StartReceivingForInit b]) blocks
  ++ flat_map (fun b => send inner_x1 outer_x1 b) blocks
  ++ flat_map (fun b => receive inner_x1 outer_x1 b
                        ++ (if 1 <? nx2 then send inner_x2 outer_x2 b else []))
              blocks
  ++ (if 1 <? nx2
      then flat_map (fun b => receive inner_x2 outer_x2 b
                              ++ (if 1 <? nx3 then send inner_x3 outer_x3 b else []))
                    blocks
      else [])
  ++ (if 1 <? nx3
      then flat_map (fun b => receive inner_x3 outer_x3 b) blocks
      else [])
  ++ flat_map (fun b => [ClearBoundaryForInit b; ConservedToPrimitive b]) blocks
  ++ (if res_flag =? 0
      then flat_map (fun b => [NewBlockTimeStep b]) blocks ++ [NewTimeStep]
      else []).

End Initialize.

(** The axis of a face. *)
Definition axis (dir : direction) : Z :=
  match dir with
  | inner_x1 | outer_x1 => 1
  | inner_x2 | outer_x2 => 2
  | inner_x3 | outer_x3 => 3
  end.

(** The call sends fluid or field data through a face of axis [k]. *)
Definition is_send (k : Z) (c : call) : bool :=
  match c with
  | LoadAndSendFluidBoundaryBuffer d _ | LoadAndSendFieldBoundaryBuffer d _ =>
    axis d =? k
  | _ => false
  end.

(** The call waits for fluid or field data through a face of axis [k]. *)
Definition is_receive (k : Z) (c : call) : bool :=
  match c with
  | ReceiveAndSetFluidBoundaryWithWait d _ | ReceiveAndSetFieldBoundaryWithWait d _ =>
    axis d =? k
  | _ => false
  end.

End Init.

(** ** The load-balance report ([Mesh::MeshTest]) *)

Module MeshTest.
Import Partition.

(** The last loop of [Mesh::MeshTest], which prints the load balance: the
    lines ["Rank j: nbt Blocks, cost = mycost"] it prints, each as
    [(j, nbt, mycost)]; [ranks] and [costs] are [ranklist[i..nbtotal)] and
    [costlist[i..nbtotal)]. *)
Fixpoint tally (ranks : list Z) (costs : list Q) (j nbt : Z) (mycost : Q)
  : list (Z * Z * Q) :=
  match ranks, costs with
  | r :: ranks', c :: costs' =>
    if r =? j then tally ranks' costs' j (nbt + 1) (mycost + c)%Q
    else (j, nbt, mycost) :: tally ranks' costs' (j + 1) 1 c
  | _, _ => [(j, nbt, mycost)]
  end.

(** [j=0; nbt=0;] with [mycost=0], the loop, and the last line. *)
Definition load_balance (ranklist : list Z) (costlist : list Q) : list (Z * Z * Q) :=
  tally ranklist costlist 0 0 0%Q.

(** From one block to the next the rank stays or grows by one, from [j]
    on: no rank is left out. *)
Fixpoint steps (j : Z) (ranks : list Z) : Prop :=
  match ranks with
  | [] => True
  | r :: rest => (r = j \/ r = j + 1) /\ steps r rest
  end.

(** The line says of rank [r] how many blocks it has and what they cost. *)
Definition line_of (ranklist : list Z) (costlist : list Q)
           (line : Z * Z * Q) (r : Z) : Prop :=
  fst (fst line) = r /\
  snd (fst line) = Z.of_nat (count_occ Z.eq_dec ranklist r) /\
  (snd line == rank_cost r costlist ranklist)%Q.

End MeshTest.

(** ** The destructors: [Mesh::~Mesh] and [MeshBlock::~MeshBlock] *)

Module Destructor.

(** The two pointers of a MeshBlock; [None] is [NULL]. *)
Record MeshBlock : Type := mkMeshBlock {
  prev : option Z;
  next : option Z
}.

(** The blocks that are allocated, by address. *)
Definition heap : Type := Z -> option MeshBlock.

Definition store (h : heap) (p : Z) (v : option MeshBlock) : heap :=
  fun q => if q =? p then v else h q.

(** [delete p]: the destructor [MeshBlock::~MeshBlock()] takes the block
    out of the list ([if(prev!=NULL) prev->next=next;
    if(next!=NULL) next->prev=prev;]), then the block is released.  A
    pointer to a block that is not allocated makes the behaviour undefined
    ([None]). *)
Definition delete (h : heap) (p : Z) : option heap :=
  match h p with
  | None => None
  | Some me =>
    let h1 :=
      match prev me with
      | Some q =>
        match h q with
        | Some b => Some (store h q (Some (mkMeshBlock (prev b) (next me))))
        | None => None
        end
      | None => Some h
      end in
    match h1 with
    | None => None
    | Some h1 =>
      let h2 :=
        match next me with
        | Some q =>
          match h1 q with
          | Some b => Some (store h1 q (Some (mkMeshBlock (prev me) (next b))))
          | None => None
          end
        | None => Some h1
        end in
      match h2 with
      | None => None
      | Some h2 => Some (store h2 p None)
      end
    end
  end.

(** How a run of the destructor of the mesh ends within a number of loop
    rounds. *)
Inductive run (A : Type) : Type :=
| finished (a : A)
| undefined
| still_running.

Arguments finished {A}.
Arguments undefined {A}.
Arguments still_running {A}.

(** [while(pblock->prev != NULL) delete pblock->prev;] with the addresses
    of the blocks released so far. *)
Fixpoint delete_prev_loop (fuel : nat) (h : heap) (pblock : Z) (freed : list Z)
  : run (heap * list Z) :=
  match fuel with
  | O => still_running
  | S fuel' =>
    match h pblock with
    | None => undefined
    | Some me =>
      match prev me with
      | None => finished (h, freed)
      | Some q =>
        match delete h q with
        | None => undefined
        | Some h' => delete_prev_loop fuel' h' pblock (freed ++ [q])
        end
      end
    end
  end.

(** [while(pblock->next != NULL) delete pblock->next;] *)
Fixpoint delete_next_loop (fuel : nat) (h : heap) (pblock : Z) (freed : list Z)
  : run (heap * list Z) :=
  match fuel with
  | O => still_running
  | S fuel' =>
    match h pblock with
    | None => undefined
    | Some me =>
      match next me with
      | None => finished (h, freed)
      | Some q =>
        match delete h q with
        | None => undefined
        | Some h' => delete_next_loop fuel' h' pblock (freed ++ [q])
        end
      end
    end
  end.

(** [Mesh::~Mesh()], as far as the blocks go: the heap it leaves and the
    blocks it has released, in order. *)
Definition destroy_Mesh (fuel : nat) (h : heap) (pblock : option Z)
  : run (heap * list Z) :=
  match pblock with
  | None => undefined
  | Some p =>
    match delete_prev_loop fuel h p [] with
    | finished (h1, freed1) =>
      match delete_next_loop fuel h1 p freed1 with
      | finished (h2, freed2) =>
        match delete h2 p with
        | Some h3 => finished (h3, freed2 ++ [p])
        | None => undefined
        end
      | r => r
      end
    | r => r
    end
  end.

(** *** Vocabulary for the statements *)

Definition has_prev (h : heap) (x : Z) (v : option Z) : Prop :=
  exists b, h x = Some b /\ prev b = v.

Definition has_next (h : heap) (x : Z) (v : option Z) : Prop :=
  exists b, h x = Some b /\ next b = v.

(** The blocks [rb] lie in front of [x], the nearest first, linked in both
    directions, and the farthest has no predecessor. *)
Fixpoint backward (h : heap) (x : Z) (rb : list Z) : Prop :=
  match rb with
  | [] => has_prev h x None
  | a :: rest => has_prev h x (Some a) /\ has_next h a (Some x) /\ backward h a rest
  end.

(** The blocks [af] lie behind [x], the nearest first, linked in both
    directions, and the farthest has no successor. *)
Fixpoint forward (h : heap) (x : Z) (af : list Z) : Prop :=
  match af with
  | [] => has_next h x None
  | a :: rest => has_next h x (Some a) /\ has_prev h a (Some x) /\ forward h a rest
  end.

(** A doubly linked list of distinct blocks around [p]. *)
Definition linked (h : heap) (rb : list Z) (p : Z) (af : list Z) : Prop :=
  NoDup (rb ++ p :: af) /\ backward h p rb /\ forward h p af.

End Destructor.

(** ** Concrete task lists *)

Module Examples.
Import TaskList.

(** A store that only counts the calls of task functions. *)
Definition count_call : nat -> Z -> bool * nat := fun w _ => (true, S w).

(** Integrate, send the boundary, receive and set the boundary: the
    receive is first in the array and waits for the two others. *)
Definition t_integrate : Task nat := mkTask count_call 1%N 0%N 0.
Definition t_send : Task nat := mkTask count_call 2%N 1%N 0.
Definition t_receive : Task nat := mkTask count_call 4%N 3%N 1.

Definition ex_tasks : list (Task nat) := [t_receive; t_integrate; t_send].

Definition ex_block : MeshBlock nat := mkMeshBlock 0 ex_tasks 0 0 0%N.

(** Two tasks that wait for each other. *)
Definition t_x : Task nat := mkTask count_call 1%N 2%N 0.
Definition t_y : Task nat := mkTask count_call 2%N 1%N 0.

Definition cyc_block : MeshBlock nat := mkMeshBlock 0 [t_x; t_y] 0 0 0%N.

Definition cyc_mesh : Mesh nat := mkMesh 0 0 [cyc_block].

(** A task that is still waiting for its message and declines, in front
    of a task that can go ahead. *)
Definition decline : nat -> Z -> bool * nat := fun w _ => (false, w).

Definition t_waiting : Task nat := mkTask decline 1%N 0%N 0.
Definition t_ready : Task nat := mkTask count_call 2%N 0%N 0.

Definition waiting_block : MeshBlock nat :=
  mkMeshBlock 0 [t_waiting; t_ready] 0 2 0%N.

(** A block without tasks, alone on a mesh that counts it. *)
Definition idle_block : MeshBlock nat := mkMeshBlock 0 [] 0 0 0%N.

Definition idle_mesh : Mesh nat := mkMesh 0 0 [idle_block].

(** A task that waits for a bit that no task of its list provides, in the
    second block of a mesh. *)
Definition t_orphan : Task nat := mkTask count_call 4%N 8%N 0.

Definition orphan_block : MeshBlock nat :=
  mkMeshBlock 1 [t_integrate; t_orphan] 0 0 0%N.

Definition orphan_mesh : Mesh nat := mkMesh 0 1 [ex_block; orphan_block].

(** Two blocks, with three tasks and with one. *)
Definition short_block : MeshBlock nat := mkMeshBlock 1 [t_integrate] 0 0 0%N.

Definition ex_mesh : Mesh nat := mkMesh 0 1 [ex_block; short_block].

(** Two blocks that hold no task list yet. *)
Definition bare_mesh : Mesh nat :=
  mkMesh 0 1 [idle_block; mkMeshBlock 1 [] 0 0 0%N].

Definition no_comm : Z -> nat -> nat := fun _ w => w.

Definition quiet : nat -> nat -> nat := fun _ w => w.

(** Six blocks of unequal cost for three ranks. *)
Definition ex_costs : list Q := [1; 1; 1; 5; 1; 1]%Q.

(** The doubles [1 + 2^-52] and [1.0] as the costs of two blocks, and the
    floats [1 + 2^-23] and [1.0]. *)
Definition above_one : spec_float := S754_finite false 4503599627370497 (-52).
Definition one : spec_float := S754_finite false 4503599627370496 (-52).
Definition close_costs : list spec_float := [above_one; one].

Definition above_one_float : spec_float := S754_finite false 8388609 (-23).
Definition one_float : spec_float := S754_finite false 8388608 (-23).
Definition close_costs_float : list spec_float := [above_one_float; one_float].

(** The double nearest to [1.1]. *)
Definition double_1_1 : spec_float := S754_finite false 4953959590107546 (-52).

(** Two meshes with the same blocks and the same CFL number that differ in
    their current time step. *)
Definition ex_blocks : list TimeStep.MeshBlock :=
  [TimeStep.mkMeshBlock 1%Q; TimeStep.mkMeshBlock (1#2)%Q].

Definition mesh_small_dt : TimeStep.Mesh :=
  TimeStep.mkMesh ex_blocks (1#10)%Q (1#2)%Q.

Definition mesh_large_dt : TimeStep.Mesh :=
  TimeStep.mkMesh ex_blocks 10%Q (1#2)%Q.

(** A block of a periodic two-dimensional mesh all of whose neighbours are
    refined: node [100] stands for the refined neighbour, whose four leaves
    [0..3] are told apart by their x1 and x2 octant digits alone. *)
Definition ex_FindNeighbor
  : Neighbors.direction -> unit -> Z -> Z -> Z -> Z -> option Z :=
  fun _ _ _ _ _ _ => Some 100.

Definition ex_GetNeighbor (n : Z) : Neighbors.NeighborBlock :=
  if n =? 100 then Neighbors.mkNeighborBlock 0 2 (-1) 0
  else Neighbors.mkNeighborBlock 0 2 n 0.

Definition ex_GetLeaf (n ox oy oz : Z) : option Z :=
  if n =? 100 then Some (ox + 2 * oy) else None.

Definition ex_setting : Neighbors.Setting unit :=
  Neighbors.mkSetting 8 1 (fun _ => 4) 2 2 1 1 (fun _ => 0) (fun _ => 0)
                      tt 0 0 0 1.

(** A block of a one-dimensional periodic mesh: both x1 faces find the
    block [3] of the tree, at the level of the block itself; the nodes of
    the tree are numbered by their global IDs. *)
Definition ring_FindNeighbor
  : Neighbors.direction -> unit -> Z -> Z -> Z -> Z -> option nat :=
  fun _ _ _ _ _ _ => Some 3%nat.

Definition ring_GetNeighbor (n : nat) : Neighbors.NeighborBlock :=
  Neighbors.mkNeighborBlock 0 2 (Z.of_nat n) 0.

Definition ring_GetLeaf (n : nat) (ox oy oz : Z) : option nat := None.

Definition ring_setting : Neighbors.Setting unit :=
  Neighbors.mkSetting 1 1 (fun _ => 4) 4 1 1 2 (fun _ => 0) (fun _ => 0)
                      tt 0 0 0 2.

(** The tables the two example blocks get. *)
Definition ex_table : Neighbors.NeighborTable :=
  match Neighbors.wire_block ex_FindNeighbor ex_GetNeighbor ex_GetLeaf ex_setting with
  | inr t => t
  | inl _ => Neighbors.no_neighbors
  end.

Definition ring_table : Neighbors.NeighborTable :=
  match Neighbors.wire_block ring_FindNeighbor ring_GetNeighbor ring_GetLeaf
                             ring_setting with
  | inr t => t
  | inl _ => Neighbors.no_neighbors
  end.

(** The setting of a block when four blocks are split between two
    processes. *)
Definition split_setting : Neighbors.Setting unit :=
  Neighbors.mkSetting 1 1 (fun _ => 4) 4 1 1 2
                      (fun g => if g <? 2 then 0 else 1)
                      (fun r => Partition.aget [Some 0; Some 2] r)
                      tt 0 0 0 2.

(** A mesh of 64 x 32 cells in blocks of 16 x 16, and the same input with
    a block size of zero along x1. *)
Definition ex_input : Config.Input :=
  Config.mkInput 1 64 32 1 (2#5) 0 0 0 1 1 1 1 1 1 16 16 1 1.

Definition zero_input : Config.Input :=
  Config.mkInput 1 64 32 1 (2#5) 0 0 0 1 1 1 1 1 1 0 16 1 1.

(** The same mesh with the largest [int] as the number of levels. *)
Definition deep_input : Config.Input :=
  Config.mkInput 1 64 32 1 (2#5) 0 0 0 1 1 1 1 1 1 16 16 1 (2 ^ 31 - 1).

(** The calls of [Mesh::Initialize] on two blocks of a one-dimensional
    mesh at a restart, before and after the first receive. *)
Definition ex_sent : list Init.call :=
  [Init.Initialize_bval 0; Init.StartReceivingForInit 0;
   Init.Initialize_bval 1; Init.StartReceivingForInit 1;
   Init.LoadAndSendFluidBoundaryBuffer Neighbors.inner_x1 0;
   Init.LoadAndSendFluidBoundaryBuffer Neighbors.outer_x1 0;
   Init.LoadAndSendFluidBoundaryBuffer Neighbors.inner_x1 1;
   Init.LoadAndSendFluidBoundaryBuffer Neighbors.outer_x1 1].

Definition ex_rest : list Init.call :=
  [Init.ReceiveAndSetFluidBoundaryWithWait Neighbors.inner_x1 0;
   Init.ReceiveAndSetFluidBoundaryWithWait Neighbors.outer_x1 1;
   Init.ReceiveAndSetFluidBoundaryWithWait Neighbors.inner_x1 1;
   Init.ClearBoundaryForInit 0; Init.ConservedToPrimitive 0;
   Init.ClearBoundaryForInit 1; Init.ConservedToPrimitive 1].

(** Three blocks at the addresses 10, 20 and 30, linked in this order. *)
Definition ex_heap : Destructor.heap :=
  fun q =>
    if q =? 10 then Some (Destructor.mkMeshBlock None (Some 20))
    else if q =? 20 then Some (Destructor.mkMeshBlock (Some 10) (Some 30))
    else if q =? 30 then Some (Destructor.mkMeshBlock (Some 20) None)
    else None.

End Examples.

(* ================================================================== *)
(** * Part II: the properties *)
(* ================================================================== *)

(** ** The integers of the machine *)

Section MachineFacts.
Import Machine.

Lemma int_some (v : Z) : - 2 ^ 31 <= v < 2 ^ 31 -> int v = Some v.
Proof.
  intros H. unfold int.
  replace ((- 2 ^ 31 <=? v) && (v <? 2 ^ 31)) with true; [reflexivity|].
  symmetry. apply andb_true_iff. split; [apply Z.leb_le | apply Z.ltb_lt]; lia.
Qed.

Lemma int_inv (v r : Z) : int v = Some r -> r = v /\ - 2 ^ 31 <= v < 2 ^ 31.
Proof.
  unfold int. destruct ((- 2 ^ 31 <=? v) && (v <? 2 ^ 31)) eqn:E; [| discriminate].
  intros H. injection H as <-. apply andb_true_iff in E as [E1 E2].
  apply Z.leb_le in E1. apply Z.ltb_lt in E2. lia.
Qed.

Lemma long_some (v : Z) : - 2 ^ 63 <= v < 2 ^ 63 -> long v = Some v.
Proof.
  intros H. unfold long.
  replace ((- 2 ^ 63 <=? v) && (v <? 2 ^ 63)) with true; [reflexivity|].
  symmetry. apply andb_true_iff. split; [apply Z.leb_le | apply Z.ltb_lt]; lia.
Qed.

Lemma shift_long_some (k : Z) :
  0 <= k < 63 -> shift_long k = Some (2 ^ k).
Proof.
  intros H. unfold shift_long.
  replace ((0 <=? k) && (k <? 63)) with true
    by (symmetry; apply andb_true_iff; split; [apply Z.leb_le | apply Z.ltb_lt]; lia).
  rewrite Z.shiftl_1_l. reflexivity.
Qed.

End MachineFacts.

(** ** The scheduler *)

Section SchedulerFacts.
Import TaskList.
Context {World : Type}.
Implicit Types (mb : MeshBlock World) (t u : Task World) (ts tl : list (Task World))
  (bs : list (MeshBlock World)) (w : World).

(** *** Bit masks *)

Lemma land_lor_disjoint (a f b : N) :
  N.land a b = 0%N -> N.land a (N.lor f b) = N.land a f.
Proof.
  intros H. rewrite N.land_lor_distr_r, H. apply N.lor_0_r.
Qed.

Lemma land_lor_same (f b : N) : N.land b (N.lor f b) = b.
Proof.
  apply N.bits_inj. intros n.
  rewrite N.land_spec, N.lor_spec.
  destruct (N.testbit b n), (N.testbit f n); reflexivity.
Qed.

Lemma common_bit_land (a b k : N) :
  N.testbit a k = true -> N.testbit b k = true -> N.land a b <> 0%N.
Proof.
  intros Ha Hb E.
  assert (H : N.testbit (N.land a b) k = true)
    by (rewrite N.land_spec, Ha, Hb; reflexivity).
  rewrite E, N.bits_0 in H. discriminate.
Qed.

Lemma subset_bit (a f k : N) :
  N.land a f = a -> N.testbit a k = true -> N.testbit f k = true.
Proof.
  intros H Ha.
  assert (Hn : N.testbit (N.land a f) k = true) by (rewrite H; exact Ha).
  rewrite N.land_spec, Ha in Hn. exact Hn.
Qed.

Lemma all_ids_bit ts (k : N) :
  N.testbit (all_ids ts) k = true ->
  exists u, In u ts /\ N.testbit (taskid u) k = true.
Proof.
  induction ts as [|t ts IH]; cbn [all_ids fold_right].
  - rewrite N.bits_0. discriminate.
  - fold (all_ids ts). rewrite N.lor_spec. intros H. apply orb_true_iff in H as [H|H].
    + exists t. split; [left; reflexivity | exact H].
    + destruct (IH H) as (u & Hu & Hk). exists u. split; [right; exact Hu | exact Hk].
Qed.

(** *** Unique identifier bits *)

Lemma unique_bits_split ts pre t post :
  unique_bits ts = true -> ts = pre ++ t :: post ->
  taskid t <> 0%N /\
  forall u, In u (pre ++ post) -> N.land (taskid u) (taskid t) = 0%N.
Proof.
  revert ts. induction pre as [|p pre IH]; intros ts Hu ->; simpl in *.
  - apply andb_true_iff in Hu as [Hu _]. apply andb_true_iff in Hu as [Hz Hd].
    split.
    + apply negb_true_iff, N.eqb_neq in Hz. exact Hz.
    + intros u Hin. rewrite forallb_forall in Hd.
      rewrite N.land_comm. apply N.eqb_eq, Hd, Hin.
  - apply andb_true_iff in Hu as [Hu Hrest]. apply andb_true_iff in Hu as [_ Hd].
    destruct (IH _ Hrest eq_refl) as [Hz Hdis]. split; [exact Hz|].
    intros u [<-|Hin].
    + rewrite forallb_forall in Hd. apply N.eqb_eq, Hd.
      apply in_or_app. right. left. reflexivity.
    + apply Hdis, Hin.
Qed.

Lemma unique_bits_nonzero ts t :
  unique_bits ts = true -> In t ts -> taskid t <> 0%N.
Proof.
  intros Hu Hin. apply in_split in Hin as (pre & post & ->).
  eapply unique_bits_split; eauto.
Qed.

(** *** Finite graphs without cycles are well founded *)

Section Finite.
Variable tl : list (Task World).
Hypothesis Hacyclic : acyclic tl.

Lemma acyclic_Acc_aux (k : nat) :
  forall (seen : list (Task World)) (x : Task World),
    NoDup seen -> incl seen tl ->
    (forall s, In s seen -> clos_trans _ (depends_on tl) s x) ->
    (length tl <= k + length seen)%nat ->
    Acc (fun u t => depends_on tl t u) x.
Proof.
  induction k as [|k IH]; intros seen x Hnd Hincl Hreach Hlen;
    constructor; intros y Hy.
  - exfalso.
    assert (Hx : In x tl) by (destruct Hy; assumption).
    assert (Hfresh : ~ In x seen)
      by (intros Hin; exact (Hacyclic x (Hreach x Hin))).
    assert (Hle : (length (x :: seen) <= length tl)%nat).
    { apply NoDup_incl_length.
      - constructor; assumption.
      - intros z [<-|Hz]; auto. }
    simpl in Hle. lia.
  - assert (Hx : In x tl) by (destruct Hy; assumption).
    assert (Hfresh : ~ In x seen)
      by (intros Hin; exact (Hacyclic x (Hreach x Hin))).
    apply (IH (x :: seen)).
    + constructor; assumption.
    + intros z [<-|Hz]; auto.
    + intros s [<-|Hs].
      * apply t_step. exact Hy.
      * eapply t_trans; [apply Hreach, Hs | apply t_step, Hy].
    + simpl. lia.
Qed.

Lemma acyclic_Acc (x : Task World) : Acc (fun u t => depends_on tl t u) x.
Proof.
  apply (acyclic_Acc_aux (length tl) [] x).
  - constructor.
  - intros z [].
  - intros s [].
  - lia.
Qed.

End Finite.

(** A ranking that decreases along every dependency excludes cycles. *)
Lemma ranked_acyclic ts (rank : Task World -> nat) :
  (forall t u, depends_on ts t u -> (rank u < rank t)%nat) -> acyclic ts.
Proof.
  intros Hrank.
  assert (Hlt : forall t u, clos_trans _ (depends_on ts) t u -> (rank u < rank t)%nat).
  { induction 1 as [t u H | t v u _ IH1 _ IH2]; [apply Hrank, H | lia]. }
  intros t Ht. specialize (Hlt _ _ Ht). lia.
Qed.


Lemma done_mono (f x : N) t : done f t = true -> done (N.lor f x) t = true.
Proof.
  unfold done. rewrite !negb_true_iff, !N.eqb_neq.
  intros H E. apply H. rewrite N.land_lor_distr_r in E.
  apply N.lor_eq_0_iff in E. tauto.
Qed.

Lemma eligible_not_done (f : N) t : eligible f t = true -> done f t = false.
Proof.
  unfold eligible, done. intros H. apply andb_true_iff in H as [H _].
  rewrite H. reflexivity.
Qed.

Lemma set_firsttask_same mb : set_firsttask mb (firsttask mb) = mb.
Proof. destruct mb; reflexivity. Qed.

Lemma reset_inv mb : sched_inv (reset mb).
Proof.
  unfold sched_inv, cursor_ok, fully_marked, reset, ntask; simpl.
  repeat split.
  - lia.
  - intros k u _ Hk. lia.
  - f_equal. induction (task mb) as [|t ts IH]; simpl; [reflexivity|].
    unfold done at 1. rewrite N.land_0_r. simpl. f_equal. exact IH.
  - intros u _ H. unfold done in H. rewrite N.land_0_r in H. discriminate.
Qed.

(** *** An acyclic list with an outstanding task has an eligible one *)

Lemma exists_eligible ts (flag : N) :
  acyclic ts -> deps_produced ts = true -> fully_marked flag ts ->
  forall t, In t ts -> done flag t = false ->
  exists u, In u ts /\ eligible flag u = true.
Proof.
  intros Hac Hprod Hfull t. induction (acyclic_Acc ts Hac t) as [t _ IH].
  intros Hin Hnd.
  destruct (existsb (fun u => negb (done flag u)
                              && negb (N.land (depend t) (taskid u) =? 0)%N) ts)
    eqn:Ex.
  - apply existsb_exists in Ex as (u & Hu & Hb).
    apply andb_true_iff in Hb as [Hund Hdep].
    apply negb_true_iff in Hund. apply negb_true_iff, N.eqb_neq in Hdep.
    apply (IH u); [repeat split; assumption | assumption | assumption].
  - exists t. split; [exact Hin|].
    unfold eligible. apply andb_true_iff. split.
    + unfold done in Hnd. apply negb_false_iff in Hnd. exact Hnd.
    + apply N.eqb_eq, N.bits_inj. intros k. rewrite N.land_spec.
      destruct (N.testbit (depend t) k) eqn:Hk; [simpl | reflexivity].
      unfold deps_produced in Hprod. rewrite forallb_forall in Hprod.
      specialize (Hprod t Hin). apply N.eqb_eq in Hprod.
      pose proof (subset_bit _ _ _ Hprod Hk) as Hall.
      apply all_ids_bit in Hall as (u & Hu & Hbit).
      assert (Hdep : N.land (depend t) (taskid u) <> 0%N)
        by (eapply common_bit_land; eassumption).
      assert (Hdone : done flag u = true).
      { destruct (done flag u) eqn:Hd; [reflexivity|]. exfalso.
        assert (Hf : forall x, In x ts ->
                  (negb (done flag x)
                   && negb (N.land (depend t) (taskid x) =? 0)%N) = false).
        { intros x Hx. destruct (negb (done flag x) && negb (N.land (depend t) (taskid x) =? 0)%N) eqn:Hb; [|reflexivity].
          assert (existsb (fun u => negb (done flag u)
                              && negb (N.land (depend t) (taskid u) =? 0)%N) ts = true)
            by (apply existsb_exists; exists x; auto).
          congruence. }
        specialize (Hf u Hu). rewrite Hd in Hf. simpl in Hf.
        apply negb_false_iff, N.eqb_eq in Hf. contradiction. }
      eapply subset_bit; [apply Hfull; eassumption | exact Hbit].
Qed.

Lemma first_eligible_split ts (flag : N) :
  (exists u, In u ts /\ eligible flag u = true) ->
  exists pre t post, ts = pre ++ t :: post /\
    (forall u, In u pre -> eligible flag u = false) /\ eligible flag t = true.
Proof.
  induction ts as [|a ts IH]; intros (u & Hin & He).
  - destruct Hin.
  - destruct (eligible flag a) eqn:Ea.
    + exists [], a, ts. repeat split; [intros ? [] | exact Ea].
    + destruct IH as (pre & t & post & -> & Hpre & Ht).
      { destruct Hin as [<-|Hin]; [congruence|]. exists u. auto. }
      exists (a :: pre), t, post. repeat split; [|exact Ht].
      intros x [<-|Hx]; auto.
Qed.


(** *** The scan of one call *)

(** Tasks that are not eligible are passed over without a call. *)
Lemma loop_skip pre :
  forall rest i skip mb w,
    (forall u, In u pre -> eligible (task_flag mb) u = false) ->
    exists skip' ft,
      DoOneTask_loop (pre ++ rest) i skip mb w
      = DoOneTask_loop rest (i + Z.of_nat (length pre)) skip' (set_firsttask mb ft) w.
Proof.
  induction pre as [|a pre IH]; intros rest i skip mb w Hpre.
  - exists skip, (firsttask mb). rewrite set_firsttask_same. simpl.
    f_equal. lia.
  - assert (Ha : eligible (task_flag mb) a = false) by (apply Hpre; left; reflexivity).
    assert (Hrest : forall u, In u pre -> eligible (task_flag mb) u = false)
      by (intros u Hu; apply Hpre; right; exact Hu).
    unfold eligible in Ha. cbn [app DoOneTask_loop length].
    replace (i + Z.of_nat (S (length pre))) with (i + 1 + Z.of_nat (length pre)) by lia.
    destruct (N.land (taskid a) (task_flag mb) =? 0)%N.
    + simpl in Ha. rewrite Ha. apply IH, Hrest.
    + destruct (skip =? 0).
      * destruct (IH rest (i + 1) skip (set_firsttask mb (firsttask mb + 1)) w Hrest)
          as (skip' & ft & E).
        exists skip', ft. exact E.
      * apply IH, Hrest.
Qed.

(** The cursor stays in front of the first task that is not done. *)
Lemma loop_cursor ts :
  forall front i skip mb w,
    task mb = front ++ ts -> i = Z.of_nat (length front) ->
    0 <= skip -> firsttask mb <= i -> (skip = 0 -> firsttask mb = i) ->
    (forall u, In u ts -> taskid u <> 0%N) ->
    cursor_ok mb ->
    cursor_ok (snd (fst (fst (DoOneTask_loop ts i skip mb w)))).
Proof.
  induction ts as [|ti ts IH]; intros front i skip mb w Htask Hi Hskip Hle Hfirst Hnz Hc.
  - exact Hc.
  - assert (Hnth : nth_error (task mb) (Z.to_nat i) = Some ti).
    { rewrite Htask, Hi, Nat2Z.id, nth_error_app2, Nat.sub_diag by lia. reflexivity. }
    assert (Htask' : task mb = (front ++ [ti]) ++ ts)
      by (rewrite <- app_assoc; exact Htask).
    assert (Hi' : i + 1 = Z.of_nat (length (front ++ [ti])))
      by (rewrite length_app; simpl; lia).
    assert (Hnz' : forall u, In u ts -> taskid u <> 0%N)
      by (intros u Hu; apply Hnz; right; exact Hu).
    cbn [DoOneTask_loop].
    destruct (N.land (taskid ti) (task_flag mb) =? 0)%N eqn:Hdone.
    + destruct (N.land (depend ti) (task_flag mb) =? depend ti)%N.
      * destruct (TaskFunc ti w (task_arg ti)) as [r w1]. destruct r.
        -- cbn [fst snd]. destruct Hc as [H0 Hc]. unfold cursor_ok, mark_done; simpl.
           destruct (skip =? 0) eqn:Hs.
           ++ apply Z.eqb_eq in Hs. specialize (Hfirst Hs). split; [lia|].
              intros k u Hk Hlt.
              destruct (Z.eq_dec (Z.of_nat k) i) as [E|E].
              ** assert (k = Z.to_nat i) by lia. subst k. rewrite Hnth in Hk.
                 injection Hk as <-. unfold done. rewrite land_lor_same.
                 apply negb_true_iff, N.eqb_neq, Hnz. left. reflexivity.
              ** apply done_mono, (Hc k); [exact Hk | lia].
           ++ split; [exact H0|]. intros k u Hk Hlt.
              apply done_mono, (Hc k); assumption.
        -- specialize (IH (front ++ [ti]) (i + 1) (skip + 1) mb w1 Htask' Hi').
           destruct (DoOneTask_loop ts (i + 1) (skip + 1) mb w1) as [[[st mb2] w2] evs].
           cbn [fst snd] in *. apply IH; [lia | lia | lia | exact Hnz' | exact Hc].
      * apply (IH (front ++ [ti])); [exact Htask' | exact Hi' | lia | lia | lia | exact Hnz' | exact Hc].
    + destruct (skip =? 0) eqn:Hs.
      * apply Z.eqb_eq in Hs. specialize (Hfirst Hs).
        apply (IH (front ++ [ti])); simpl; try assumption; try lia.
        destruct Hc as [H0 Hc]. split; simpl; [lia|].
        intros k u Hk Hlt.
        destruct (Z.eq_dec (Z.of_nat k) i) as [E|E].
        -- assert (k = Z.to_nat i) by lia. subst k. rewrite Hnth in Hk.
           injection Hk as <-. unfold done. rewrite Hdone. reflexivity.
        -- apply (Hc k); [exact Hk | lia].
      * apply Z.eqb_neq in Hs.
        apply (IH (front ++ [ti])); try assumption; lia.
Qed.

Lemma trace_from_app tl f g h l1 l2 :
  trace_from tl f l1 g -> trace_from tl g l2 h -> trace_from tl f (l1 ++ l2) h.
Proof.
  induction 1 as [f | f e t rest f' Hn Hf He _ IH]; intros H2; simpl.
  - exact H2.
  - econstructor; eauto.
Qed.

(** What one scan does, whatever the task functions answer. *)
Lemma loop_spec ts :
  forall front i skip mb w,
    task mb = front ++ ts -> i = Z.of_nat (length front) ->
    let '(st, mb', w', evs) := DoOneTask_loop ts i skip mb w in
    task mb' = task mb /\ gid mb' = gid mb /\
    trace_from (task mb) (task_flag mb) evs (task_flag mb') /\
    ((st = stuck /\ ntodo mb' = ntodo mb /\
      Forall (fun e => inv_done e = false) evs)
     \/
     (exists evs0 e, evs = evs0 ++ [e] /\
        Forall (fun e => inv_done e = false) evs0 /\ inv_done e = true /\
        ntodo mb' = ntodo mb - 1 /\
        st = if ntodo mb - 1 =? 0 then complete else running)).
Proof.
  induction ts as [|ti ts IH]; intros front i skip mb w Htask Hi.
  - simpl. repeat split; [constructor | left; repeat split; constructor].
  - assert (Hnth : nth_error (task mb) (Z.to_nat i) = Some ti).
    { rewrite Htask, Hi, Nat2Z.id, nth_error_app2, Nat.sub_diag by lia. reflexivity. }
    assert (Htask' : task mb = (front ++ [ti]) ++ ts)
      by (rewrite <- app_assoc; exact Htask).
    assert (Hi' : i + 1 = Z.of_nat (length (front ++ [ti])))
      by (rewrite length_app; simpl; lia).
    cbn [DoOneTask_loop].
    destruct (N.land (taskid ti) (task_flag mb) =? 0)%N eqn:Hdone.
    + destruct (N.land (depend ti) (task_flag mb) =? depend ti)%N eqn:Hdep.
      * assert (Hel : eligible (task_flag mb) ti = true)
          by (unfold eligible; rewrite Hdone, Hdep; reflexivity).
        destruct (TaskFunc ti w (task_arg ti)) as [r w1]. destruct r.
        -- simpl. repeat split.
           ++ econstructor; simpl; eauto. constructor.
           ++ right. exists [], (mkInvocation i (task_flag mb) true).
              repeat split. constructor.
        -- specialize (IH (front ++ [ti]) (i + 1) (skip + 1) mb w1 Htask' Hi').
           destruct (DoOneTask_loop ts (i + 1) (skip + 1) mb w1) as [[[st mb2] w2] evs].
           destruct IH as (Ht & Hg & Htr & Hres). repeat split; try assumption.
           ++ econstructor; simpl; eauto.
           ++ destruct Hres as [(Hst & Hn & Hall) | (evs0 & e & -> & Hall & Hd & Hn & Hst)].
              ** left. repeat split; try assumption. constructor; [reflexivity | exact Hall].
              ** right. exists (mkInvocation i (task_flag mb) false :: evs0), e.
                 repeat split; try assumption. constructor; [reflexivity | exact Hall].
      * apply (IH (front ++ [ti]) (i + 1) (skip + 1) mb w Htask' Hi').
    + destruct (skip =? 0).
      * specialize (IH (front ++ [ti]) (i + 1) skip
                       (set_firsttask mb (firsttask mb + 1)) w Htask' Hi').
        exact IH.
      * apply (IH (front ++ [ti]) (i + 1) skip mb w Htask' Hi').
Qed.


(** A scan in which no call reports work changes neither the mask nor the
    count and ends in [stuck]. *)
Lemma loop_idle ts :
  forall i skip mb w,
    let '(st, mb', w', evs) := DoOneTask_loop ts i skip mb w in
    Forall (fun e => inv_done e = false) evs ->
    st = stuck /\ task_flag mb' = task_flag mb /\ ntodo mb' = ntodo mb.
Proof.
  induction ts as [|ti ts IH]; intros i skip mb w.
  - simpl. auto.
  - cbn [DoOneTask_loop].
    destruct (N.land (taskid ti) (task_flag mb) =? 0)%N.
    + destruct (N.land (depend ti) (task_flag mb) =? depend ti)%N.
      * destruct (TaskFunc ti w (task_arg ti)) as [r w1]. destruct r.
        -- intros Hall. inversion Hall as [|? ? Hd _]; subst. discriminate Hd.
        -- specialize (IH (i + 1) (skip + 1) mb w1).
           destruct (DoOneTask_loop ts (i + 1) (skip + 1) mb w1) as [[[st mb2] w2] evs].
           intros Hall. inversion Hall; subst. auto.
      * apply IH.
    + destruct (skip =? 0).
      * apply (IH (i + 1) skip (set_firsttask mb (firsttask mb + 1)) w).
      * apply IH.
Qed.

Lemma skipn_nonempty_split (tl : list (Task World)) (ft : Z) :
  0 <= ft -> skipn (Z.to_nat ft) tl <> [] ->
  tl = firstn (Z.to_nat ft) tl ++ skipn (Z.to_nat ft) tl /\
  ft = Z.of_nat (length (firstn (Z.to_nat ft) tl)).
Proof.
  intros H0 Hne. split; [symmetry; apply firstn_skipn|].
  rewrite length_firstn.
  destruct (Nat.le_gt_cases (length tl) (Z.to_nat ft)) as [Hle|Hlt].
  - exfalso. apply Hne. apply skipn_all2. exact Hle.
  - lia.
Qed.

Lemma in_skipn (tl : list (Task World)) n t : In t (skipn n tl) -> In t tl.
Proof.
  intros H. rewrite <- (firstn_skipn n tl). apply in_or_app. right. exact H.
Qed.

(** Every call of a scan is made on an eligible task of the scanned range. *)
Lemma loop_calls_scanned ts :
  forall i skip mb w,
    let '(_, _, _, evs) := DoOneTask_loop ts i skip mb w in
    forall e, In e evs ->
      inv_flag e = task_flag mb /\
      exists k t, nth_error ts k = Some t /\ inv_index e = i + Z.of_nat k /\
                  eligible (task_flag mb) t = true.
Proof.
  induction ts as [|ti ts IH]; intros i skip mb w.
  - simpl. intros e [].
  - assert (Hshift : forall sk mb0 w0,
      task_flag mb0 = task_flag mb ->
      let '(_, _, _, evs) := DoOneTask_loop ts (i + 1) sk mb0 w0 in
      forall e, In e evs ->
        inv_flag e = task_flag mb /\
        exists k t, nth_error (ti :: ts) k = Some t /\ inv_index e = i + Z.of_nat k /\
                    eligible (task_flag mb) t = true).
    { intros sk mb0 w0 Hf. specialize (IH (i + 1) sk mb0 w0).
      destruct (DoOneTask_loop ts (i + 1) sk mb0 w0) as [[[st mb2] w2] evs].
      intros e He. destruct (IH e He) as (Hfl & k & t & Hk & Hidx & Hel).
      rewrite Hf in *. split; [exact Hfl|].
      exists (S k), t. repeat split; [exact Hk | lia | exact Hel]. }
    cbn [DoOneTask_loop].
    destruct (N.land (taskid ti) (task_flag mb) =? 0)%N eqn:Hid.
    + destruct (N.land (depend ti) (task_flag mb) =? depend ti)%N eqn:Hdep.
      * assert (Hhead : forall r,
                  inv_flag (mkInvocation i (task_flag mb) r) = task_flag mb /\
                  exists k t, nth_error (ti :: ts) k = Some t /\
                    inv_index (mkInvocation i (task_flag mb) r) = i + Z.of_nat k /\
                    eligible (task_flag mb) t = true).
        { intros r. split; [reflexivity|]. exists O, ti.
          repeat split; [simpl; lia|]. unfold eligible. rewrite Hid, Hdep. reflexivity. }
        destruct (TaskFunc ti w (task_arg ti)) as [r w1]. destruct r.
        -- intros e [<-|[]]. apply Hhead.
        -- specialize (Hshift (skip + 1) mb w1 eq_refl).
           destruct (DoOneTask_loop ts (i + 1) (skip + 1) mb w1) as [[[st mb2] w2] evs].
           intros e [<-|He]; [apply Hhead | apply Hshift, He].
      * apply (Hshift (skip + 1) mb w eq_refl).
    + destruct (skip =? 0).
      * apply (Hshift skip (set_firsttask mb (firsttask mb + 1)) w eq_refl).
      * apply (Hshift skip mb w eq_refl).
Qed.

(** *** One call *)

Lemma DoOneTask_trace mb w :
  cursor_ok mb -> (forall u, In u (task mb) -> taskid u <> 0%N) ->
  let '(st, mb', w', evs) := DoOneTask mb w in
  task mb' = task mb /\ cursor_ok mb' /\
  trace_from (task mb) (task_flag mb) evs (task_flag mb').
Proof.
  intros Hc Hnz. unfold DoOneTask.
  destruct (ntodo mb =? 0).
  - split; [reflexivity | split; [exact Hc | constructor]].
  - destruct (skipn (Z.to_nat (firsttask mb)) (task mb)) as [|a ts] eqn:Ets.
    + simpl. split; [reflexivity | split; [exact Hc | constructor]].
    + destruct (skipn_nonempty_split (task mb) (firsttask mb)) as [Hsplit Hlen];
        [apply Hc | rewrite Ets; discriminate |].
      rewrite Ets in Hsplit.
      pose proof (loop_spec (a :: ts) _ (firsttask mb) 0 mb w Hsplit Hlen) as Hs.
      pose proof (loop_cursor (a :: ts) _ (firsttask mb) 0 mb w Hsplit Hlen) as Hcur.
      destruct (DoOneTask_loop (a :: ts) (firsttask mb) 0 mb w) as [[[st mb'] w'] evs].
      cbn [fst snd] in Hcur. destruct Hs as (Ht & _ & Htr & _).
      split; [exact Ht | split; [| exact Htr]].
      apply Hcur; try lia; try assumption.
      intros u Hu. apply Hnz. rewrite <- Ets in Hu. eapply in_skipn; eassumption.
Qed.

Lemma undone_mark tl (f : N) t :
  unique_bits tl = true -> In t tl -> done f t = false ->
  length (undone f tl) = S (length (undone (N.lor f (taskid t)) tl)) /\
  (fully_marked f tl -> fully_marked (N.lor f (taskid t)) tl).
Proof.
  intros Hu Hin Hnd. apply in_split in Hin as (l1 & l2 & ->).
  destruct (unique_bits_split _ _ _ _ Hu eq_refl) as [Hnz Hdis].
  assert (Hsame : forall u, In u (l1 ++ l2) ->
                   done (N.lor f (taskid t)) u = done f u).
  { intros u Hin. unfold done. rewrite land_lor_disjoint; auto. }
  assert (Ht : done (N.lor f (taskid t)) t = true).
  { unfold done. rewrite land_lor_same. apply negb_true_iff, N.eqb_neq, Hnz. }
  split.
  - unfold undone. rewrite !filter_app, !length_app. cbn [filter].
    rewrite Hnd, Ht. cbn [negb length].
    rewrite (filter_ext_in (fun u => negb (done (N.lor f (taskid t)) u))
                           (fun u => negb (done f u)) l1).
    2:{ intros u Hin. rewrite Hsame; [reflexivity | apply in_or_app; auto]. }
    rewrite (filter_ext_in (fun u => negb (done (N.lor f (taskid t)) u))
                           (fun u => negb (done f u)) l2).
    2:{ intros u Hin. rewrite Hsame; [reflexivity | apply in_or_app; auto]. }
    lia.
  - intros Hfull u Hin Hd. apply in_app_or in Hin as [Hin|[<-|Hin]].
    + assert (Hu' : In u (l1 ++ l2)) by (apply in_or_app; auto).
      rewrite land_lor_disjoint by auto. apply Hfull.
      * apply in_or_app; auto.
      * rewrite <- Hsame; auto.
    + apply land_lor_same.
    + assert (Hu' : In u (l1 ++ l2)) by (apply in_or_app; auto).
      rewrite land_lor_disjoint by auto. apply Hfull.
      * apply in_or_app; right; right; exact Hin.
      * rewrite <- Hsame; auto.
Qed.

(** With an acyclic, satisfiable task list whose functions always do their
    work, a call on a block with outstanding tasks completes one of them. *)
Lemma DoOneTask_progress mb w :
  unique_bits (task mb) = true -> deps_produced (task mb) = true ->
  acyclic (task mb) -> always_done (task mb) ->
  sched_inv mb -> 0 < ntodo mb ->
  exists mb' w' evs,
    DoOneTask mb w
    = ((if ntodo mb - 1 =? 0 then complete else running), mb', w', evs) /\
    task mb' = task mb /\ ntodo mb' = ntodo mb - 1 /\ sched_inv mb'.
Proof.
  intros Hu Hprod Hac Hdone (Hc & Hcount & Hfull) Hpos.
  (* an outstanding task exists *)
  destruct (undone (task_flag mb) (task mb)) as [|x xs] eqn:Eu;
    [simpl in Hcount; lia|].
  assert (Hx : In x (undone (task_flag mb) (task mb))) by (rewrite Eu; left; reflexivity).
  apply filter_In in Hx as [Hxin Hxnd]. apply negb_true_iff in Hxnd.
  destruct (exists_eligible _ _ Hac Hprod Hfull x Hxin Hxnd) as (u & Huin & Huel).
  (* it lies at or behind the cursor *)
  assert (Hscan : In u (skipn (Z.to_nat (firsttask mb)) (task mb))).
  { apply In_nth_error in Huin as [k Hk].
    destruct (Z.lt_ge_cases (Z.of_nat k) (firsttask mb)) as [Hlt|Hge].
    - destruct Hc as [_ Hc]. specialize (Hc k u Hk Hlt).
      rewrite (eligible_not_done _ _ Huel) in Hc. discriminate.
    - apply (nth_error_In _ (k - Z.to_nat (firsttask mb))).
      rewrite nth_error_skipn. rewrite <- Hk. f_equal. lia. }
  destruct (first_eligible_split _ _ (ex_intro _ u (conj Hscan Huel)))
    as (pre & t & post & Ets & Hpre & Htel).
  assert (Htin : In t (task mb)).
  { eapply in_skipn. rewrite Ets. apply in_or_app. right. left. reflexivity. }
  pose proof (loop_cursor (pre ++ t :: post) (firstn (Z.to_nat (firsttask mb)) (task mb))
                (firsttask mb) 0 mb w) as Hcur.
  destruct (skipn_nonempty_split (task mb) (firsttask mb)) as [Hsplit Hlen];
    [apply Hc | rewrite Ets; destruct pre; discriminate |].
  rewrite Ets in Hsplit. specialize (Hcur Hsplit Hlen).
  unfold DoOneTask. replace (ntodo mb =? 0) with false by (symmetry; apply Z.eqb_neq; lia).
  rewrite Ets.
  destruct (loop_skip pre (t :: post) (firsttask mb) 0 mb w Hpre) as (skip' & ft & Eskip).
  rewrite Eskip in *. cbn [DoOneTask_loop] in *.
  unfold eligible in Htel. apply andb_true_iff in Htel as [Hid Hdep].
  cbn [task_flag set_firsttask] in *. rewrite Hid, Hdep in *.
  pose proof (Hdone t w Htin) as Hr.
  destruct (TaskFunc t w (task_arg t)) as [r w1]. simpl in Hr. subst r.
  cbn [fst snd] in Hcur.
  eexists _, _, _. split; [reflexivity|].
  assert (Htnd : done (task_flag mb) t = false) by (unfold done; rewrite Hid; reflexivity).
  destruct (undone_mark _ (task_flag mb) t Hu Htin Htnd) as [Hlen' Hfull'].
  repeat split; simpl.
  - apply Hcur; try lia; try assumption.
    intros v Hv. eapply unique_bits_nonzero; [exact Hu|].
    eapply in_skipn. rewrite Ets. exact Hv.
  - apply Hcur; try lia; try assumption.
    intros v Hv. eapply unique_bits_nonzero; [exact Hu|].
    eapply in_skipn. rewrite Ets. exact Hv.
  - rewrite Eu in Hlen'. cbn [length] in Hlen', Hcount. lia.
  - apply Hfull', Hfull.
Qed.


(** *** Sequences of calls *)

Lemma calls_complete n :
  forall env k mb w,
    unique_bits (task mb) = true -> deps_produced (task mb) = true ->
    acyclic (task mb) -> always_done (task mb) ->
    sched_inv mb -> ntodo mb = Z.of_nat n ->
    let '(sts, mb', w', evs) := calls env k n mb w in
    task mb' = task mb /\ sched_inv mb' /\ ntodo mb' = 0 /\
    sts = match n with O => [] | S m => repeat running m ++ [complete] end.
Proof.
  induction n as [|n IH]; intros env k mb w Hu Hp Hac Hd Hinv Hn.
  - simpl. auto.
  - cbn [calls].
    destruct (DoOneTask_progress mb (env k w) Hu Hp Hac Hd Hinv)
      as (mb1 & w1 & ev1 & E & Ht & Hn1 & Hinv1); [lia|].
    rewrite E.
    specialize (IH env (S k) mb1 w1). rewrite Ht in IH.
    specialize (IH Hu Hp Hac Hd Hinv1).
    destruct (calls env (S k) n mb1 w1) as [[[sts mb2] w2] ev2].
    destruct IH as (Ht2 & Hinv2 & Hn2 & Hsts); [lia|].
    repeat split; try assumption; try congruence; try apply Hinv2.
    rewrite Hsts. destruct n as [|m].
    + replace (ntodo mb - 1 =? 0) with true by (symmetry; apply Z.eqb_eq; lia).
      reflexivity.
    + replace (ntodo mb - 1 =? 0) with false by (symmetry; apply Z.eqb_neq; lia).
      reflexivity.
Qed.

Lemma land_subset_trans (a b c : N) :
  N.land a b = a -> N.land b c = b -> N.land a c = a.
Proof.
  intros H1 H2. apply N.bits_inj. intros k. rewrite N.land_spec.
  destruct (N.testbit a k) eqn:Ha; [simpl | reflexivity].
  eapply subset_bit; [exact H2|]. eapply subset_bit; eassumption.
Qed.

Lemma land_subset_lor_l (f x : N) : N.land f (N.lor f x) = f.
Proof.
  apply N.bits_inj. intros k. rewrite N.land_spec, N.lor_spec.
  destruct (N.testbit f k), (N.testbit x k); reflexivity.
Qed.

(** Along a trace the mask only grows. *)
Lemma trace_from_mono tl f evs f' :
  trace_from tl f evs f' ->
  forall e, In e evs -> N.land f (inv_flag e) = f.
Proof.
  induction 1 as [f | f e t rest f' Hn Hf He _ IH]; intros e0 Hin.
  - destruct Hin.
  - destruct Hin as [<-|Hin].
    + rewrite Hf. apply N.land_diag.
    + specialize (IH e0 Hin). destruct (inv_done e).
      * eapply land_subset_trans; [apply land_subset_lor_l | exact IH].
      * exact IH.
Qed.

Lemma trace_from_eligible tl f evs f' :
  trace_from tl f evs f' ->
  forall e, In e evs ->
    exists t, nth_error tl (Z.to_nat (inv_index e)) = Some t /\
              eligible (inv_flag e) t = true.
Proof.
  induction 1 as [f | f e t rest f' Hn Hf He _ IH]; intros e0 Hin.
  - destruct Hin.
  - destruct Hin as [<-|Hin]; [|apply IH, Hin].
    exists t. rewrite Hf. auto.
Qed.

Lemma trace_from_sound tl f evs f' :
  trace_from tl f evs f' ->
  (forall t, In t tl -> taskid t <> 0%N) ->
  (forall e, In e evs ->
     exists t, nth_error tl (Z.to_nat (inv_index e)) = Some t /\
               N.land (depend t) (inv_flag e) = depend t) /\
  (forall l1 e1 l2, evs = l1 ++ e1 :: l2 -> inv_done e1 = true ->
     forall e2, In e2 l2 -> inv_index e2 <> inv_index e1).
Proof.
  intros Htr Hnz.
  induction Htr as [f | f e t rest f' Hn Hf He Hrest [IH1 IH2]].
  - split; [intros e [] | intros [|? ?] ? ? E; discriminate E].
  - split.
    + intros e0 [<-|Hin]; [|apply IH1, Hin].
      exists t. split; [exact Hn|]. rewrite Hf.
      unfold eligible in He. apply andb_true_iff in He as [_ He].
      apply N.eqb_eq, He.
    + intros l1 e1 l2 E Hd e2 Hin2. destruct l1 as [|x l1]; simpl in E.
      * injection E as -> ->. rewrite Hd in Hrest. intros Eidx.
        destruct (IH1 e2 Hin2) as (t2 & Hn2 & _).
        pose proof (trace_from_mono _ _ _ _ Hrest e2 Hin2) as Hmono.
        (* the later call is on the same task, which must be eligible *)
        destruct (trace_from_eligible _ _ _ _ Hrest e2 Hin2) as (t' & Hn' & Hel'). rewrite Eidx, Hn in Hn'.
        injection Hn' as <-.
        unfold eligible in Hel'. apply andb_true_iff in Hel' as [Hid _].
        apply N.eqb_eq in Hid.
        assert (Hsub : N.land (taskid t) (inv_flag e2) = taskid t).
        { eapply land_subset_trans; [apply land_lor_same | exact Hmono]. }
        apply (Hnz t); [eapply nth_error_In; exact Hn | congruence].
      * injection E as -> ->. eapply IH2; eauto.
Qed.

Lemma calls_trace n :
  forall env k mb w,
    cursor_ok mb -> (forall u, In u (task mb) -> taskid u <> 0%N) ->
    let '(sts, mb', w', evs) := calls env k n mb w in
    task mb' = task mb /\
    trace_from (task mb) (task_flag mb) evs (task_flag mb').
Proof.
  induction n as [|n IH]; intros env k mb w Hc Hnz.
  - simpl. split; [reflexivity | constructor].
  - cbn [calls].
    pose proof (DoOneTask_trace mb (env k w) Hc Hnz) as H1.
    destruct (DoOneTask mb (env k w)) as [[[st mb1] w1] ev1].
    destruct H1 as (Ht1 & Hc1 & Htr1).
    specialize (IH env (S k) mb1 w1 Hc1). rewrite Ht1 in IH. specialize (IH Hnz).
    destruct (calls env (S k) n mb1 w1) as [[[sts mb2] w2] ev2].
    destruct IH as (Ht2 & Htr2). split; [congruence|].
    eapply trace_from_app; eassumption.
Qed.


(** *** The driver *)

Variable StartReceivingAll ClearBoundaryAll : Z -> World -> World.

Lemma sweep_stuck bs :
  forall nb w,
    Forall (fun st : tlstatus => st = stuck) (sweep_statuses bs w) ->
    snd (fst (sweep bs nb w)) = nb.
Proof.
  induction bs as [|pmb rest IH]; intros nb w Hall; [reflexivity|].
  cbn [sweep sweep_statuses] in *.
  destruct (DoOneTask pmb w) as [[[st pmb'] w1] evs].
  inversion Hall as [|? ? Hst Hrest]; subst. simpl.
  specialize (IH nb w1 Hrest).
  destruct (sweep rest nb w1) as [[rest' nb2] w2]. exact IH.
Qed.

Lemma main_loop_stuck fuel :
  forall bs nb w,
    0 < nb ->
    (forall k, let '(bs', _, w') := passes k bs nb w in
               Forall (fun st : tlstatus => st = stuck) (sweep_statuses bs' w')) ->
    main_loop fuel bs nb w = None.
Proof.
  induction fuel as [|fuel IH]; intros bs nb w Hnb Hstuck; cbn [main_loop];
    replace (0 <? nb) with true by (symmetry; apply Z.ltb_lt; exact Hnb);
    [reflexivity|].
  pose proof (sweep_stuck bs nb w (Hstuck O)) as Hsame.
  pose proof (fun k => Hstuck (S k)) as Hnext. cbn [passes] in Hnext.
  destruct (sweep bs nb w) as [[bs' nb'] w']. simpl in Hsame. subst nb'.
  apply IH; assumption.
Qed.


(** *** The driver on well-formed task lists *)

Lemma remaining_cons mb bs : remaining (mb :: bs) = ntodo mb + remaining bs.
Proof. reflexivity. Qed.

Lemma pending_cons mb bs :
  pending (mb :: bs) = (if 0 <? ntodo mb then 1 else 0) + pending bs.
Proof. reflexivity. Qed.

Lemma good_block_ntodo mb : good_block mb -> 0 <= ntodo mb.
Proof. intros (_ & _ & _ & _ & _ & Hn & _). lia. Qed.

Lemma pending_bounds bs :
  Forall good_block bs -> 0 <= pending bs <= remaining bs.
Proof.
  induction 1 as [|mb bs Hg _ IH]; simpl; [lia|].
  apply good_block_ntodo in Hg. destruct (0 <? ntodo mb) eqn:E.
  - apply Z.ltb_lt in E. lia.
  - lia.
Qed.

Lemma pending_zero bs :
  Forall good_block bs -> pending bs = 0 -> Forall (fun mb => ntodo mb = 0) bs.
Proof.
  induction 1 as [|mb bs Hg Hall IH]; simpl; intros Hp; [constructor|].
  pose proof (pending_bounds bs Hall) as Hb.
  pose proof (good_block_ntodo mb Hg) as Hn.
  destruct (0 <? ntodo mb) eqn:E; [lia|].
  apply Z.ltb_ge in E. constructor; [lia | apply IH; lia].
Qed.

(** One pass over good blocks: every block with outstanding tasks
    completes one, and the counter follows the blocks that finish. *)
Lemma sweep_good bs :
  forall nb w,
    Forall good_block bs ->
    let '(bs', nb', w') := sweep bs nb w in
    Forall good_block bs' /\
    remaining bs' = remaining bs - pending bs /\
    nb' - pending bs' = nb - pending bs.
Proof.
  induction bs as [|mb bs IH]; intros nb w Hall; cbn [sweep].
  - split; [constructor | split; simpl; lia].
  - inversion Hall as [|? ? Hg Hrest]; subst.
    destruct Hg as (Hu & Hp & Hac & Hd & Hinv).
    pose proof (good_block_ntodo mb (conj Hu (conj Hp (conj Hac (conj Hd Hinv))))) as Hn.
    destruct (0 <? ntodo mb) eqn:Eact.
    + apply Z.ltb_lt in Eact.
      destruct (DoOneTask_progress mb w Hu Hp Hac Hd Hinv Eact)
        as (mb1 & w1 & evs & E & Ht & Hn1 & Hinv1).
      rewrite E.
      specialize (IH (if tlstatus_eqb (if ntodo mb - 1 =? 0 then complete else running)
                                      complete then nb - 1 else nb) w1 Hrest).
      destruct (sweep bs _ w1) as [[bs' nb'] w'].
      destruct IH as (Hall' & Hrem & Hnb).
      split; [|split].
      * constructor; [|exact Hall']. rewrite <- Ht in Hu, Hp, Hac, Hd.
        repeat split; try assumption; apply Hinv1.
      * rewrite !remaining_cons, !pending_cons, Hn1.
        destruct (Z.ltb_spec 0 (ntodo mb)); lia.
      * rewrite !pending_cons, Hn1.
        destruct (Z.ltb_spec 0 (ntodo mb)); [|lia].
        destruct (Z.eqb_spec (ntodo mb - 1) 0) as [Ez|Ez]; simpl in Hnb;
          destruct (Z.ltb_spec 0 (ntodo mb - 1)); lia.
    + apply Z.ltb_ge in Eact. assert (Hz : ntodo mb = 0) by lia.
      unfold DoOneTask. rewrite Hz. cbn [Z.eqb tlstatus_eqb].
      specialize (IH nb w Hrest).
      destruct (sweep bs nb w) as [[bs' nb'] w'].
      destruct IH as (Hall' & Hrem & Hnb).
      split; [|split].
      * constructor; [|exact Hall']. repeat split; try assumption; apply Hinv.
      * rewrite !remaining_cons, !pending_cons, Hz. simpl. lia.
      * rewrite !pending_cons, Hz. simpl. lia.
Qed.

Lemma main_loop_good fuel :
  forall bs nb w,
    Forall good_block bs -> nb = pending bs -> remaining bs <= Z.of_nat fuel ->
    exists bs' w',
      main_loop fuel bs nb w = Some (bs', w') /\
      Forall (fun mb => good_block mb /\ ntodo mb = 0) bs'.
Proof.
  induction fuel as [|fuel IH]; intros bs nb w Hall Hnb Hrem.
  - pose proof (pending_bounds bs Hall) as Hb.
    assert (Hp : pending bs = 0) by lia.
    cbn [main_loop]. rewrite Hnb, Hp. simpl. exists bs, w. split; [reflexivity|].
    pose proof (pending_zero bs Hall Hp) as Hz.
    rewrite Forall_forall in *. intros mb Hin. split; [apply Hall | apply Hz]; exact Hin.
  - cbn [main_loop]. destruct (0 <? nb) eqn:Epos.
    + apply Z.ltb_lt in Epos.
      pose proof (sweep_good bs nb w Hall) as Hs.
      destruct (sweep bs nb w) as [[bs1 nb1] w1].
      destruct Hs as (Hall1 & Hrem1 & Hnb1).
      apply IH; [exact Hall1 | lia | lia].
    + apply Z.ltb_ge in Epos.
      pose proof (pending_bounds bs Hall) as Hb.
      assert (Hp : pending bs = 0) by lia.
      exists bs, w. split; [reflexivity|].
      pose proof (pending_zero bs Hall Hp) as Hz.
      rewrite Forall_forall in *. intros mb Hin. split; [apply Hall | apply Hz]; exact Hin.
Qed.

Lemma init_blocks_good bs :
  forall w,
    Forall (fun mb => unique_bits (task mb) = true /\ deps_produced (task mb) = true /\
                      acyclic (task mb) /\ always_done (task mb) /\ task mb <> []) bs ->
    let (bs0, w0) := init_blocks StartReceivingAll bs w in
    Forall good_block bs0 /\ pending bs0 = Z.of_nat (length bs) /\
    remaining bs0 = fold_right (fun mb acc => ntask mb + acc) 0 bs.
Proof.
  induction bs as [|mb bs IH]; intros w Hall; cbn [init_blocks].
  - split; [constructor | split; reflexivity].
  - inversion Hall as [|? ? (Hu & Hp & Hac & Hd & Hne) Hrest]; subst.
    specialize (IH (StartReceivingAll (gid mb) w) Hrest).
    destruct (init_blocks StartReceivingAll bs (StartReceivingAll (gid mb) w)) as [bs0 w0].
    destruct IH as (Hall0 & Hpend & Hrem).
    split; [|split].
    + constructor; [|exact Hall0]. repeat split; try assumption; apply reset_inv.
    + rewrite pending_cons. cbn [reset ntodo length]. unfold ntask.
      destruct (task mb) as [|t0 ts0]; [contradiction|]. cbn [length].
      destruct (Z.ltb_spec 0 (Z.of_nat (S (length ts0)))); lia.
    + rewrite remaining_cons. cbn [reset ntodo fold_right]. lia.
Qed.

(** On a mesh whose blocks all hold a non-empty, well-formed task list
    whose functions always do their work, [UpdateOneStep] returns, and every
    task of every block is then complete. *)
Lemma UpdateOneStep_returns (m : Mesh World) w :
  nbend m - nbstart m + 1 = Z.of_nat (length (pblock m)) ->
  Forall (fun mb => unique_bits (task mb) = true /\ deps_produced (task mb) = true /\
                    acyclic (task mb) /\ always_done (task mb) /\ task mb <> [])
         (pblock m) ->
  exists fuel m' w',
    UpdateOneStep StartReceivingAll ClearBoundaryAll fuel m w = Some (m', w') /\
    Forall (fun mb => ntodo mb = 0 /\
              forall t, In t (task mb) ->
                        N.land (taskid t) (task_flag mb) = taskid t) (pblock m').
Proof.
  intros Hnb Hall. unfold UpdateOneStep.
  pose proof (init_blocks_good (pblock m) w Hall) as H0.
  destruct (init_blocks StartReceivingAll (pblock m) w) as [bs0 w0].
  destruct H0 as (Hall0 & Hpend & Hrem).
  pose proof (pending_bounds bs0 Hall0) as Hb.
  destruct (main_loop_good (Z.to_nat (remaining bs0)) bs0
              (nbend m - nbstart m + 1) w0 Hall0) as (bs1 & w1 & E & Hdone);
    [lia | lia |].
  exists (Z.to_nat (remaining bs0)). rewrite E. eexists _, _. split; [reflexivity|].
  simpl. rewrite Forall_forall in *. intros mb Hin.
  destruct (Hdone mb Hin) as ((_ & _ & _ & _ & _ & Hcount & Hfull) & Hz).
  split; [exact Hz|]. intros t Ht. apply Hfull; [exact Ht|].
  destruct (done (task_flag mb) t) eqn:Hd; [reflexivity | exfalso].
  assert (Hund : In t (undone (task_flag mb) (task mb)))
    by (apply filter_In; split; [exact Ht | rewrite Hd; reflexivity]).
  destruct (undone (task_flag mb) (task mb)); [destruct Hund | simpl in Hcount; lia].
Qed.

(** *** The properties of the scheduler *)

(** C1. With unique identifier bits, every dependency bit produced by a task
    of the list, no dependency cycle and task functions that always report
    their work done, [ntask] calls of [DoOneTask] from the reset state mark
    every task complete: each call but the last answers [running] and the
    last one answers [complete]. *)
Theorem DoOneTask_completes_acyclic (env : nat -> World -> World) mb w :
  unique_bits (task mb) = true ->
  deps_produced (task mb) = true ->
  acyclic (task mb) ->
  always_done (task mb) ->
  let '(sts, mb', _, _) := calls env 0 (length (task mb)) (reset mb) w in
  (forall t, In t (task mb) -> N.land (taskid t) (task_flag mb') = taskid t) /\
  ntodo mb' = 0 /\
  sts = match length (task mb) with
        | O => []
        | S m => repeat running m ++ [complete]
        end.
Proof.
  intros Hu Hp Hac Hd.
  pose proof (calls_complete (length (task mb)) env 0%nat (reset mb) w
                Hu Hp Hac Hd (reset_inv mb) eq_refl) as H.
  destruct (calls env 0 (length (task mb)) (reset mb) w) as [[[sts mb'] w'] evs].
  destruct H as (Ht & (_ & Hcount & Hfull) & Hn & Hsts). simpl in Ht.
  repeat split; try assumption.
  intros t Hin. rewrite Ht in *. apply Hfull; [exact Hin|].
  destruct (done (task_flag mb') t) eqn:Hdn; [reflexivity | exfalso].
  assert (Hund : In t (undone (task_flag mb') (task mb)))
    by (apply filter_In; split; [exact Hin | rewrite Hdn; reflexivity]).
  destruct (undone (task_flag mb') (task mb)); [destruct Hund | simpl in Hcount; lia].
Qed.

Lemma candidates_from_index (flag : N) ts :
  forall i k t, In (k, t) (candidates_from flag i ts) -> i <= k.
Proof.
  induction ts as [|a ts IH]; intros i k t Hin; simpl in Hin.
  - destruct Hin.
  - destruct (eligible flag a).
    + destruct Hin as [E | Hin]; [injection E as <- _; lia|].
      specialize (IH _ _ _ Hin). lia.
    + specialize (IH _ _ _ Hin). lia.
Qed.

Lemma offer_hit (flag : N) (cands : list (Z * Task World)) :
  forall w k t hw evs,
    offer flag cands w = (Some (k, t), hw, evs) -> In (k, t) cands.
Proof.
  induction cands as [|[i a] cands IH]; intros w k t hw evs E; simpl in E.
  - discriminate.
  - destruct (TaskFunc a w (task_arg a)) as [r w1]. destruct r.
    + injection E as <- <- _ _. left. reflexivity.
    + destruct (offer flag cands w1) as [[hit w2] evs2] eqn:E2.
      injection E as -> _ _. right. eapply IH. exact E2.
Qed.

(** The scan against the candidates offered in turn. *)
Lemma loop_offer ts :
  forall i skip mb w,
    0 <= skip ->
    let '(st, mb', w', evs) := DoOneTask_loop ts i skip mb w in
    let '(hit, w1, evs1) :=
      offer (task_flag mb) (candidates_from (task_flag mb) i ts) w in
    evs = evs1 /\ w' = w1 /\ task mb' = task mb /\ gid mb' = gid mb /\
    match hit with
    | Some (k, t) =>
      task_flag mb' = N.lor (task_flag mb) (taskid t) /\
      ntodo mb' = ntodo mb - 1 /\
      st = (if ntodo mb - 1 =? 0 then complete else running) /\
      firsttask mb' =
      firsttask mb +
      (if skip =? 0
       then done_prefix (task_flag mb) ts
            + (if k =? i + done_prefix (task_flag mb) ts then 1 else 0)
       else 0)
    | None =>
      st = stuck /\ task_flag mb' = task_flag mb /\ ntodo mb' = ntodo mb /\
      firsttask mb' =
      firsttask mb + (if skip =? 0 then done_prefix (task_flag mb) ts else 0)
    end.
Proof.
  induction ts as [|ti ts IH]; intros i skip mb w Hskip.
  - simpl. repeat split. destruct (skip =? 0); lia.
  - cbn [DoOneTask_loop candidates_from done_prefix]. unfold eligible, done.
    destruct (N.land (taskid ti) (task_flag mb) =? 0)%N eqn:Hdone; cbn [negb andb].
    + destruct (N.land (depend ti) (task_flag mb) =? depend ti)%N eqn:Hdep.
      * cbn [offer].
        destruct (TaskFunc ti w (task_arg ti)) as [r w1]. destruct r.
        -- cbn [mark_done ntodo task_flag task gid firsttask].
           repeat split.
           rewrite Z.add_0_r, Z.eqb_refl. destruct (skip =? 0); lia.
        -- specialize (IH (i + 1) (skip + 1) mb w1 ltac:(lia)).
           destruct (DoOneTask_loop ts (i + 1) (skip + 1) mb w1)
             as [[[st mb2] w2] evs].
           destruct (offer (task_flag mb) (candidates_from (task_flag mb) (i + 1) ts) w1)
             as [[hit w3] evs3] eqn:Eo.
           destruct IH as (-> & -> & Ht & Hg & Hres).
           repeat split; try assumption.
           replace (skip + 1 =? 0) with false in Hres
             by (symmetry; apply Z.eqb_neq; lia).
           destruct hit as [[k t]|].
           ++ destruct Hres as (Hf & Hn & Hst & Hc). repeat split; try assumption.
              pose proof (candidates_from_index _ _ _ _ _ (offer_hit _ _ _ _ _ _ _ Eo)) as Hk.
              replace (k =? i + 0) with false by (symmetry; apply Z.eqb_neq; lia).
              destruct (skip =? 0); lia.
           ++ destruct Hres as (Hst & Hf & Hn & Hc). repeat split; try assumption.
              destruct (skip =? 0); lia.
      * specialize (IH (i + 1) (skip + 1) mb w ltac:(lia)).
        destruct (DoOneTask_loop ts (i + 1) (skip + 1) mb w)
          as [[[st mb2] w2] evs].
        destruct (offer (task_flag mb) (candidates_from (task_flag mb) (i + 1) ts) w)
          as [[hit w3] evs3] eqn:Eo.
        destruct IH as (-> & -> & Ht & Hg & Hres).
        repeat split; try assumption.
        replace (skip + 1 =? 0) with false in Hres
          by (symmetry; apply Z.eqb_neq; lia).
        destruct hit as [[k t]|].
        -- destruct Hres as (Hf & Hn & Hst & Hc). repeat split; try assumption.
           pose proof (candidates_from_index _ _ _ _ _ (offer_hit _ _ _ _ _ _ _ Eo)) as Hk.
           replace (k =? i + 0) with false by (symmetry; apply Z.eqb_neq; lia).
           destruct (skip =? 0); lia.
        -- destruct Hres as (Hst & Hf & Hn & Hc). repeat split; try assumption.
           destruct (skip =? 0); lia.
    + destruct (skip =? 0) eqn:Hs.
      * specialize (IH (i + 1) skip (set_firsttask mb (firsttask mb + 1)) w Hskip).
        cbn [set_firsttask task_flag task gid ntodo firsttask] in IH.
        destruct (DoOneTask_loop ts (i + 1) skip
                    (set_firsttask mb (firsttask mb + 1)) w)
          as [[[st mb2] w2] evs].
        destruct (offer (task_flag mb) (candidates_from (task_flag mb) (i + 1) ts) w)
          as [[hit w3] evs3] eqn:Eo.
        destruct IH as (-> & -> & Ht & Hg & Hres).
        repeat split; try assumption.
        rewrite Hs in Hres.
        destruct hit as [[k t]|].
        -- destruct Hres as (Hf & Hn & Hst & Hc). repeat split; try assumption.
           rewrite Hc.
           replace (i + (1 + done_prefix (task_flag mb) ts))
             with (i + 1 + done_prefix (task_flag mb) ts) by lia.
           destruct (k =? i + 1 + done_prefix (task_flag mb) ts); lia.
        -- destruct Hres as (Hst & Hf & Hn & Hc). repeat split; try assumption. lia.
      * specialize (IH (i + 1) skip mb w Hskip).
        destruct (DoOneTask_loop ts (i + 1) skip mb w) as [[[st mb2] w2] evs].
        destruct (offer (task_flag mb) (candidates_from (task_flag mb) (i + 1) ts) w)
          as [[hit w3] evs3] eqn:Eo.
        destruct IH as (-> & -> & Ht & Hg & Hres).
        repeat split; try assumption.
        rewrite Hs in Hres.
        destruct hit as [[k t]|].
        -- destruct Hres as (Hf & Hn & Hst & Hc). repeat split; try assumption. 
        -- destruct Hres as (Hst & Hf & Hn & Hc). repeat split; try assumption.
Qed.

(** C2. One call on a block with an outstanding task.  The tasks at or
    behind the cursor that are not done and whose dependencies are complete
    are called in the order of the array, each on the store the one before
    has left, until one reports work; a task that declines leaves mask and
    count as they are and the scan goes on behind it.  When a task reports
    work, its bit joins the mask, the count drops by one, nothing else is
    called, and the answer is [complete] when the count has reached zero
    and [running] otherwise.  When no task called reports work (or none
    can be called), mask and count are unchanged and the answer is
    [stuck].  The cursor moves past the tasks at its head that are done,
    and past the task that reported work when that task comes right behind
    them. *)
Theorem DoOneTask_one_call mb w :
  ntodo mb <> 0 ->
  let scanned := skipn (Z.to_nat (firsttask mb)) (task mb) in
  let '(st, mb', w', evs) := DoOneTask mb w in
  let '(hit, w1, evs1) := offer (task_flag mb) (candidates mb) w in
  evs = evs1 /\ w' = w1 /\ task mb' = task mb /\ gid mb' = gid mb /\
  match hit with
  | Some (k, t) =>
    task_flag mb' = N.lor (task_flag mb) (taskid t) /\
    ntodo mb' = ntodo mb - 1 /\
    st = (if ntodo mb' =? 0 then complete else running) /\
    firsttask mb' =
    firsttask mb + done_prefix (task_flag mb) scanned
    + (if k =? firsttask mb + done_prefix (task_flag mb) scanned then 1 else 0)
  | None =>
    st = stuck /\ task_flag mb' = task_flag mb /\ ntodo mb' = ntodo mb /\
    firsttask mb' = firsttask mb + done_prefix (task_flag mb) scanned
  end.
Proof.
  intros Hn. cbv zeta. unfold DoOneTask, candidates.
  replace (ntodo mb =? 0) with false by (symmetry; apply Z.eqb_neq; exact Hn).
  pose proof (loop_offer (skipn (Z.to_nat (firsttask mb)) (task mb))
                (firsttask mb) 0 mb w ltac:(lia)) as H.
  destruct (DoOneTask_loop (skipn (Z.to_nat (firsttask mb)) (task mb))
              (firsttask mb) 0 mb w) as [[[st mb'] w'] evs].
  destruct (offer (task_flag mb)
              (candidates_from (task_flag mb) (firsttask mb)
                 (skipn (Z.to_nat (firsttask mb)) (task mb))) w)
    as [[hit w1] evs1].
  destruct H as (He & Hw & Ht & Hg & Hres).
  repeat split; try assumption.
  destruct hit as [[k t]|].
  - destruct Hres as (Hf & Hnt & Hst & Hc). cbn [Z.eqb] in Hc.
    split; [exact Hf | split; [exact Hnt | split]].
    + rewrite Hnt. exact Hst.
    + rewrite Hc. lia.
  - destruct Hres as (Hst & Hf & Hnt & Hc). cbn [Z.eqb] in Hc.
    split; [exact Hst | split; [exact Hf | split; [exact Hnt |]]].
    rewrite Hc. lia.
Qed.

(** C3. In a round, whatever the task functions answer and whatever
    happens to the store between the calls: every call of a task function
    is made with the dependency mask of the task inside the completed mask
    of that moment, and a task whose function has reported its work is not
    called again. *)
Theorem DoOneTask_respects_dependencies (env : nat -> World -> World) (n : nat) mb w :
  (forall t, In t (task mb) -> taskid t <> 0%N) ->
  let '(_, _, _, evs) := calls env 0 n (reset mb) w in
  (forall e, In e evs ->
     exists t, nth_error (task mb) (Z.to_nat (inv_index e)) = Some t /\
               N.land (depend t) (inv_flag e) = depend t) /\
  (forall l1 e1 l2, evs = l1 ++ e1 :: l2 -> inv_done e1 = true ->
     forall e2, In e2 l2 -> inv_index e2 <> inv_index e1).
Proof.
  intros Hnz.
  pose proof (calls_trace n env 0%nat (reset mb) w) as H.
  destruct (calls env 0 n (reset mb) w) as [[[sts mb'] w'] evs].
  destruct H as [_ Htr]; [apply reset_inv | exact Hnz |].
  exact (trace_from_sound _ _ _ _ Htr Hnz).
Qed.


End SchedulerFacts.

Section SchedulerMore.
Import TaskList.
Context {World : Type}.
Variable StartReceivingAll ClearBoundaryAll : Z -> World -> World.
Implicit Types (mb : MeshBlock World) (t u : Task World) (ts tl : list (Task World))
  (bs : list (MeshBlock World)) (w : World).

(** *** The counter of the driver, whatever the task functions do *)

(** The status of a scan follows the count: [stuck] leaves it, and a call
    that reports work takes one off and answers [complete] exactly when
    nothing is left. *)
Lemma loop_status ts :
  forall i skip mb w,
    let '(st, mb', _, _) := DoOneTask_loop ts i skip mb w in
    (st = stuck /\ ntodo mb' = ntodo mb) \/
    (ntodo mb' = ntodo mb - 1 /\
     st = if ntodo mb - 1 =? 0 then complete else running).
Proof.
  induction ts as [|ti ts IH]; intros i skip mb w.
  - simpl. left. auto.
  - cbn [DoOneTask_loop].
    destruct (N.land (taskid ti) (task_flag mb) =? 0)%N.
    + destruct (N.land (depend ti) (task_flag mb) =? depend ti)%N.
      * destruct (TaskFunc ti w (task_arg ti)) as [r w1]. destruct r.
        -- right. simpl. auto.
        -- specialize (IH (i + 1) (skip + 1) mb w1).
           destruct (DoOneTask_loop ts (i + 1) (skip + 1) mb w1) as [[[st mb2] w2] evs].
           exact IH.
      * apply IH.
    + destruct (skip =? 0).
      * apply (IH (i + 1) skip (set_firsttask mb (firsttask mb + 1)) w).
      * apply IH.
Qed.

Lemma DoOneTask_status mb w :
  0 <= ntodo mb ->
  let '(st, mb', _, _) := DoOneTask mb w in
  0 <= ntodo mb' /\
  (if tlstatus_eqb st complete then 1 else 0)
  = (if 0 <? ntodo mb then 1 else 0) - (if 0 <? ntodo mb' then 1 else 0).
Proof.
  intros Hn. unfold DoOneTask. destruct (Z.eqb_spec (ntodo mb) 0) as [Ez|Ez].
  - rewrite Ez. simpl. lia.
  - pose proof (loop_status (skipn (Z.to_nat (firsttask mb)) (task mb))
                  (firsttask mb) 0 mb w) as H.
    destruct (DoOneTask_loop _ (firsttask mb) 0 mb w) as [[[st mb'] w'] evs].
    destruct H as [[-> Hk] | [Hk ->]]; rewrite Hk.
    + simpl. lia.
    + destruct (Z.eqb_spec (ntodo mb - 1) 0) as [E1|E1]; simpl;
        destruct (Z.ltb_spec 0 (ntodo mb)); destruct (Z.ltb_spec 0 (ntodo mb - 1)); lia.
Qed.

Lemma sweep_counter bs :
  forall nb w,
    Forall (fun mb => 0 <= ntodo mb) bs ->
    let '(bs', nb', _) := sweep bs nb w in
    Forall (fun mb => 0 <= ntodo mb) bs' /\
    nb' - pending bs' = nb - pending bs.
Proof.
  induction bs as [|mb bs IH]; intros nb w Hall; cbn [sweep].
  - split; [constructor | reflexivity].
  - inversion Hall as [|? ? Hn Hrest]; subst.
    pose proof (DoOneTask_status mb w Hn) as H1.
    destruct (DoOneTask mb w) as [[[st mb1] w1] evs]. destruct H1 as [Hn1 Hst].
    specialize (IH (if tlstatus_eqb st complete then nb - 1 else nb) w1 Hrest).
    destruct (sweep bs _ w1) as [[bs' nb'] w'].
    destruct IH as [Hall' Hnb]. split; [constructor; assumption|].
    rewrite !pending_cons.
    destruct (tlstatus_eqb st complete); lia.
Qed.

Lemma main_loop_short fuel :
  forall bs nb w,
    Forall (fun mb => 0 <= ntodo mb) bs -> pending bs < nb ->
    main_loop fuel bs nb w = None.
Proof.
  induction fuel as [|fuel IH]; intros bs nb w Hall Hlt.
  - assert (0 <= pending bs).
    { clear - Hall. induction Hall as [|mb bs Hn _ IH]; [simpl; lia|].
      rewrite pending_cons. destruct (0 <? ntodo mb); lia. }
    cbn [main_loop]. replace (0 <? nb) with true by (symmetry; apply Z.ltb_lt; lia).
    reflexivity.
  - assert (0 <= pending bs).
    { clear - Hall. induction Hall as [|mb bs Hn _ IH']; [simpl; lia|].
      rewrite pending_cons. destruct (0 <? ntodo mb); lia. }
    cbn [main_loop]. replace (0 <? nb) with true by (symmetry; apply Z.ltb_lt; lia).
    pose proof (sweep_counter bs nb w Hall) as Hs.
    destruct (sweep bs nb w) as [[bs1 nb1] w1]. destruct Hs as [Hall1 Hnb1].
    apply IH; [exact Hall1 | lia].
Qed.

Lemma init_blocks_pending bs :
  forall w,
    let (bs0, _) := init_blocks StartReceivingAll bs w in
    Forall (fun mb => 0 <= ntodo mb) bs0 /\
    pending bs0 = Z.of_nat (length (with_tasks bs)).
Proof.
  induction bs as [|mb bs IH]; intros w; cbn [init_blocks].
  - split; [constructor | reflexivity].
  - specialize (IH (StartReceivingAll (gid mb) w)).
    destruct (init_blocks StartReceivingAll bs (StartReceivingAll (gid mb) w)) as [bs0 w0].
    destruct IH as [Hall Hp]. split.
    + constructor; [|exact Hall]. unfold reset, ntask; simpl. lia.
    + rewrite pending_cons, Hp. unfold with_tasks. cbn [filter reset ntodo].
      unfold ntask. destruct (task mb) as [|t0 ts0]; cbn [length]; [reflexivity|].
      destruct (Z.ltb_spec 0 (Z.of_nat (S (length ts0)))); lia.
Qed.

(** X1. [UpdateOneStep] counts the blocks with [nbend-nbstart+1] and takes
    one off for each block that finishes.  When that number exceeds the
    number of blocks of the list that hold a task (a block without tasks
    never answers [complete]), the counter never reaches zero and the call
    never returns, whatever the task functions do. *)
Theorem UpdateOneStep_miscounted_never_returns (m : Mesh World) w :
  Z.of_nat (length (with_tasks (pblock m))) < nbend m - nbstart m + 1 ->
  forall fuel, UpdateOneStep StartReceivingAll ClearBoundaryAll fuel m w = None.
Proof.
  intros Hlt fuel. unfold UpdateOneStep.
  pose proof (init_blocks_pending (pblock m) w) as H0.
  destruct (init_blocks StartReceivingAll (pblock m) w) as [bs0 w0].
  destruct H0 as [Hall Hp].
  rewrite (main_loop_short fuel bs0 _ w0 Hall); [reflexivity | lia].
Qed.


(** *** The cursor *)

Lemma loop_cursor_bound ts :
  forall i skip mb w,
    firsttask mb <= i ->
    firsttask (snd (fst (fst (DoOneTask_loop ts i skip mb w))))
    <= i + Z.of_nat (length ts).
Proof.
  induction ts as [|ti ts IH]; intros i skip mb w Hle.
  - simpl. lia.
  - cbn [DoOneTask_loop length].
    destruct (N.land (taskid ti) (task_flag mb) =? 0)%N.
    + destruct (N.land (depend ti) (task_flag mb) =? depend ti)%N.
      * destruct (TaskFunc ti w (task_arg ti)) as [r w1]. destruct r.
        -- cbn [fst snd mark_done firsttask]. destruct (skip =? 0); lia.
        -- specialize (IH (i + 1) (skip + 1) mb w1 ltac:(lia)).
           destruct (DoOneTask_loop ts (i + 1) (skip + 1) mb w1) as [[[st mb2] w2] evs].
           cbn [fst snd] in *. lia.
      * specialize (IH (i + 1) (skip + 1) mb w ltac:(lia)). lia.
    + destruct (skip =? 0).
      * specialize (IH (i + 1) skip (set_firsttask mb (firsttask mb + 1)) w).
        cbn [set_firsttask firsttask] in IH. specialize (IH ltac:(lia)). lia.
      * specialize (IH (i + 1) skip mb w ltac:(lia)). lia.
Qed.

Lemma DoOneTask_cursor_bound mb w :
  0 <= firsttask mb <= ntask mb ->
  firsttask (snd (fst (fst (DoOneTask mb w)))) <= ntask mb.
Proof.
  intros Hb. unfold DoOneTask. destruct (ntodo mb =? 0); [simpl; lia|].
  pose proof (loop_cursor_bound (skipn (Z.to_nat (firsttask mb)) (task mb))
                (firsttask mb) 0 mb w ltac:(lia)) as H.
  rewrite length_skipn in H. unfold ntask in *. lia.
Qed.

(** A scan that starts in front of tasks that are all done walks over them
    and moves the cursor behind them. *)
Lemma loop_done_prefix pre :
  forall rest i mb w,
    firsttask mb = i ->
    (forall u, In u pre -> done (task_flag mb) u = true) ->
    DoOneTask_loop (pre ++ rest) i 0 mb w
    = DoOneTask_loop rest (i + Z.of_nat (length pre)) 0
                     (set_firsttask mb (i + Z.of_nat (length pre))) w.
Proof.
  induction pre as [|a pre IH]; intros rest i mb w Hi Hdone.
  - simpl. rewrite Z.add_0_r, <- Hi, set_firsttask_same. reflexivity.
  - assert (Ha : done (task_flag mb) a = true) by (apply Hdone; left; reflexivity).
    unfold done in Ha. apply negb_true_iff in Ha.
    cbn [app DoOneTask_loop length]. rewrite Ha. cbn [Z.eqb].
    rewrite (IH rest (i + 1) (set_firsttask mb (firsttask mb + 1)) w).
    + cbn [set_firsttask gid task ntodo task_flag].
      replace (i + 1 + Z.of_nat (length pre)) with (i + Z.of_nat (S (length pre))) by lia.
      reflexivity.
    + simpl. lia.
    + intros u Hu. apply Hdone. right. exact Hu.
Qed.

Lemma cursor_irrelevant mb w :
  cursor_ok mb -> firsttask mb <= ntask mb -> ntodo mb <> 0 ->
  DoOneTask (set_firsttask mb 0) w = DoOneTask mb w.
Proof.
  intros [H0 Hdone] Hle Hn. unfold DoOneTask. cbn [set_firsttask ntodo firsttask task].
  apply Z.eqb_neq in Hn. rewrite Hn.
  change (Z.to_nat 0) with 0%nat. cbn [skipn].
  rewrite <- (firstn_skipn (Z.to_nat (firsttask mb)) (task mb)) at 1.
  rewrite loop_done_prefix.
  - rewrite length_firstn. unfold ntask in Hle.
    replace (0 + Z.of_nat (Nat.min (Z.to_nat (firsttask mb)) (length (task mb))))
      with (firsttask mb) by lia.
    destruct mb; reflexivity.
  - reflexivity.
  - intros u Hu. cbn [task_flag set_firsttask].
    apply In_nth_error in Hu as [k Hk].
    assert (Hlt : (k < length (firstn (Z.to_nat (firsttask mb)) (task mb)))%nat)
      by (apply nth_error_Some; rewrite Hk; discriminate).
    rewrite length_firstn in Hlt.
    apply (Hdone k u); [| lia].
    rewrite nth_error_firstn in Hk.
    destruct (Nat.ltb_spec k (Z.to_nat (firsttask mb))); [exact Hk | lia].
Qed.

Lemma calls_cursor n :
  forall env k mb w,
    cursor_ok mb -> firsttask mb <= ntask mb ->
    (forall u, In u (task mb) -> taskid u <> 0%N) ->
    let mb' := snd (fst (fst (calls env k n mb w))) in
    task mb' = task mb /\ cursor_ok mb' /\ firsttask mb' <= ntask mb'.
Proof.
  induction n as [|n IH]; intros env k mb w Hc Hle Hnz.
  - simpl. auto.
  - cbn [calls].
    pose proof (DoOneTask_trace mb (env k w) Hc Hnz) as Ht.
    pose proof (DoOneTask_cursor_bound mb (env k w) (conj (proj1 Hc) Hle)) as Hb.
    destruct (DoOneTask mb (env k w)) as [[[st mb1] w1] ev1].
    cbn [fst snd] in Hb. destruct Ht as (Ht & Hc1 & _).
    assert (Hn1 : ntask mb1 = ntask mb) by (unfold ntask; rewrite Ht; reflexivity).
    specialize (IH env (S k) mb1 w1 Hc1 ltac:(lia)
                   ltac:(rewrite Ht; exact Hnz)).
    destruct (calls env (S k) n mb1 w1) as [[[sts mb2] w2] ev2].
    cbn [fst snd] in *. destruct IH as (IH1 & IH2 & IH3).
    split; [congruence | split; assumption].
Qed.

(** X2. The cursor [firsttask] only saves work: in any state a block reaches
    during a round, whatever the task functions answer, a call of
    [DoOneTask] that scans from the cached cursor gives the status, the
    block, the store and the calls of task functions that a scan from the
    top of the list gives. *)
Theorem DoOneTask_cursor_only_saves_work
        (env : nat -> World -> World) (n : nat) mb w w' :
  (forall t, In t (task mb) -> taskid t <> 0%N) ->
  let mb' := snd (fst (fst (calls env 0 n (reset mb) w))) in
  ntodo mb' <> 0 ->
  DoOneTask (set_firsttask mb' 0) w' = DoOneTask mb' w'.
Proof.
  intros Hnz mb' Hn.
  destruct (calls_cursor n env 0%nat (reset mb) w) as (Ht & Hc & Hle).
  - apply reset_inv.
  - unfold reset, ntask; simpl. lia.
  - exact Hnz.
  - apply cursor_irrelevant; assumption.
Qed.


(** *** The bookkeeping, whatever the task functions answer *)

Lemma successes_app (l1 l2 : list Invocation) :
  successes (l1 ++ l2) = successes l1 + successes l2.
Proof. unfold successes. rewrite filter_app, length_app. lia. Qed.

Lemma successes_idle (evs : list Invocation) :
  Forall (fun e => inv_done e = false) evs -> successes evs = 0.
Proof.
  unfold successes. induction 1 as [|e l He _ IH]; simpl; [reflexivity|].
  rewrite He. exact IH.
Qed.

Lemma trace_idle tl f evs f' :
  trace_from tl f evs f' -> Forall (fun e => inv_done e = false) evs -> f' = f.
Proof.
  induction 1 as [f | f e t rest f' Hn Hf He Hrest IH]; intros Hall; [reflexivity|].
  inversion Hall as [|? ? Hd Hall']; subst. rewrite Hd in IH. apply IH, Hall'.
Qed.

Lemma trace_one_success tl f evs0 e f' :
  trace_from tl f (evs0 ++ [e]) f' ->
  Forall (fun e => inv_done e = false) evs0 -> inv_done e = true ->
  exists t, In t tl /\ eligible f t = true /\ f' = N.lor f (taskid t).
Proof.
  revert f. induction evs0 as [|a l IH]; intros f Htr Hall Hd.
  - simpl in Htr. inversion Htr as [| ? ? t ? ? Hn Hf He Hrest]; subst.
    rewrite Hd in Hrest. inversion Hrest; subst.
    exists t. split; [eapply nth_error_In; exact Hn | split; [exact He | reflexivity]].
  - simpl in Htr. inversion Htr as [| ? ? t ? ? Hn Hf He Hrest]; subst.
    inversion Hall as [|? ? Ha Hall']; subst. rewrite Ha in Hrest.
    apply IH; assumption.
Qed.

(** One call either changes neither the mask nor the count, or adds the
    identifier of one eligible task and takes one off the count. *)
Lemma DoOneTask_step mb w :
  cursor_ok mb ->
  let '(st, mb', _, evs) := DoOneTask mb w in
  task mb' = task mb /\
  ((task_flag mb' = task_flag mb /\ ntodo mb' = ntodo mb /\ st <> complete /\
    st <> running /\ successes evs = 0)
   \/
   (exists t, In t (task mb) /\ eligible (task_flag mb) t = true /\
      task_flag mb' = N.lor (task_flag mb) (taskid t) /\
      ntodo mb' = ntodo mb - 1 /\ ntodo mb <> 0 /\
      st = (if ntodo mb - 1 =? 0 then complete else running) /\
      successes evs = 1)).
Proof.
  intros Hc. unfold DoOneTask.
  destruct (ntodo mb =? 0) eqn:En.
  - split; [reflexivity|]. left. repeat split; discriminate.
  - apply Z.eqb_neq in En.
    destruct (skipn (Z.to_nat (firsttask mb)) (task mb)) as [|a ts] eqn:Ets.
    + simpl. split; [reflexivity|]. left. repeat split; discriminate.
    + destruct (skipn_nonempty_split (task mb) (firsttask mb)) as [Hsplit Hlen];
        [apply Hc | rewrite Ets; discriminate |].
      rewrite Ets in Hsplit.
      pose proof (loop_spec (a :: ts) _ (firsttask mb) 0 mb w Hsplit Hlen) as Hs.
      destruct (DoOneTask_loop (a :: ts) (firsttask mb) 0 mb w) as [[[st mb'] w'] evs].
      destruct Hs as (Ht & _ & Htr & Hres). split; [exact Ht|].
      destruct Hres as [(Hst & Hn & Hall) | (evs0 & e & -> & Hall & Hd & Hn & Hst)].
      * left. rewrite (trace_idle _ _ _ _ Htr Hall), (successes_idle _ Hall), Hst.
        repeat split; try assumption; discriminate.
      * right. destruct (trace_one_success _ _ _ _ _ Htr Hall Hd) as (t & Hin & Hel & Hf).
        exists t. repeat split; try assumption.
        rewrite successes_app, (successes_idle _ Hall). unfold successes. simpl.
        rewrite Hd. reflexivity.
Qed.

Lemma DoOneTask_inv mb w :
  unique_bits (task mb) = true -> sched_inv mb ->
  sched_inv (snd (fst (fst (DoOneTask mb w)))).
Proof.
  intros Hu (Hc & Hcount & Hfull).
  pose proof (DoOneTask_trace mb w Hc
                (fun u Hin => unique_bits_nonzero _ _ Hu Hin)) as Ht.
  pose proof (DoOneTask_step mb w Hc) as Hs.
  destruct (DoOneTask mb w) as [[[st mb'] w'] evs]. cbn [fst snd].
  destruct Ht as (Ht & Hc' & _). destruct Hs as (_ & Hs).
  split; [exact Hc'|]. rewrite Ht.
  destruct Hs as [(Hf & Hn & _) | (t & Hin & Hel & Hf & Hn & _)]; rewrite Hf, Hn.
  - split; assumption.
  - destruct (undone_mark _ (task_flag mb) t Hu Hin (eligible_not_done _ _ Hel))
      as [Hlen Hfull'].
    split; [lia | apply Hfull', Hfull].
Qed.

Lemma calls_idle n :
  forall env k mb w,
    ntodo mb = 0 ->
    let '(sts, mb', _, evs) := calls env k n mb w in
    mb' = mb /\ evs = [] /\ Forall (fun st : tlstatus => st = nothing) sts.
Proof.
  induction n as [|n IH]; intros env k mb w Hn.
  - simpl. auto.
  - cbn [calls]. unfold DoOneTask. rewrite Hn. cbn [Z.eqb].
    specialize (IH env (S k) mb (env k w) Hn).
    destruct (calls env (S k) n mb (env k w)) as [[[sts mb2] w2] ev2].
    destruct IH as (-> & -> & Hall). repeat split. constructor; [reflexivity | exact Hall].
Qed.

Lemma calls_inv n :
  forall env k mb w,
    unique_bits (task mb) = true -> sched_inv mb ->
    let '(sts, mb', _, evs) := calls env k n mb w in
    task mb' = task mb /\ sched_inv mb' /\
    ntodo mb' = ntodo mb - successes evs /\
    (In complete sts -> ntodo mb' = 0).
Proof.
  induction n as [|n IH]; intros env k mb w Hu Hinv.
  - cbn [calls]. split; [reflexivity | split; [exact Hinv | split]].
    + unfold successes. simpl. lia.
    + intros [].
  - cbn [calls].
    pose proof (DoOneTask_inv mb (env k w) Hu Hinv) as Hinv1.
    pose proof (DoOneTask_step mb (env k w) (proj1 Hinv)) as Hs.
    destruct (DoOneTask mb (env k w)) as [[[st mb1] w1] ev1]. cbn [fst snd] in Hinv1.
    destruct Hs as (Ht & Hs).
    pose proof (IH env (S k) mb1 w1 ltac:(rewrite Ht; exact Hu) Hinv1) as IH1.
    pose proof (calls_idle n env (S k) mb1 w1) as Hidle.
    destruct (calls env (S k) n mb1 w1) as [[[sts mb2] w2] ev2].
    destruct IH1 as (Ht2 & Hinv2 & Hn2 & Hcomp).
    rewrite successes_app.
    split; [congruence | split; [exact Hinv2 | split]].
    + destruct Hs as [(_ & Hn & _ & _ & Hsu) | (t & _ & _ & _ & Hn & _ & _ & Hsu)]; lia.
    + intros [Hst | Hin]; [| exact (Hcomp Hin)]. subst st.
      destruct Hs as [(_ & _ & Hne & _) | (t & _ & _ & _ & Hn & _ & Hst & _)];
        [congruence|].
      destruct (ntodo mb - 1 =? 0) eqn:E; [| discriminate].
      apply Z.eqb_eq in E.
      destruct (Hidle ltac:(lia)) as (-> & _). lia.
Qed.

(** X3. The bookkeeping of a round holds whatever the task functions answer
    and whatever happens to the store between the calls, as long as the
    tasks have identifier bits of their own: after any number of calls
    [ntodo] is the number of tasks whose identifier is not in the mask, it
    is [ntask] less the number of calls that reported work, and once a call
    has answered [complete] every task of the list is in the mask. *)
Theorem DoOneTask_bookkeeping (env : nat -> World -> World) (n : nat) mb w :
  unique_bits (task mb) = true ->
  let '(sts, mb', _, evs) := calls env 0 n (reset mb) w in
  ntodo mb' = Z.of_nat (length (undone (task_flag mb') (task mb))) /\
  ntodo mb' = ntask mb - successes evs /\
  (In complete sts ->
   forall t, In t (task mb) -> N.land (taskid t) (task_flag mb') = taskid t).
Proof.
  intros Hu.
  pose proof (calls_inv n env 0%nat (reset mb) w Hu (reset_inv mb)) as H.
  destruct (calls env 0 n (reset mb) w) as [[[sts mb'] w'] evs].
  destruct H as (Ht & (Hc & Hcount & Hfull) & Hn & Hcomp).
  change (task (reset mb)) with (task mb) in Ht. rewrite Ht in *.
  change (ntodo (reset mb)) with (ntask mb) in Hn.
  split; [exact Hcount | split; [exact Hn|]].
  intros Hin t Htin. specialize (Hcomp Hin). rewrite Hcomp in Hcount.
  apply Hfull; [exact Htin|].
  destruct (done (task_flag mb') t) eqn:Ed; [reflexivity|].
  assert (Hx : In t (undone (task_flag mb') (task mb)))
    by (apply filter_In; split; [exact Htin | rewrite Ed; reflexivity]).
  destruct (undone (task_flag mb') (task mb)); [destruct Hx | simpl in Hcount; lia].
Qed.


(** *** A dependency that no task produces *)

Lemma all_ids_In ts t : In t ts -> N.land (taskid t) (all_ids ts) = taskid t.
Proof.
  induction ts as [|a ts IH]; intros Hin; [destruct Hin|].
  cbn [all_ids fold_right]. fold (all_ids ts).
  destruct Hin as [-> | Hin].
  - apply N.bits_inj. intros k. rewrite N.land_spec, N.lor_spec.
    destruct (N.testbit (taskid t) k); reflexivity.
  - specialize (IH Hin). apply N.bits_inj. intros k.
    apply (f_equal (fun x => N.testbit x k)) in IH.
    rewrite N.land_spec in IH. rewrite N.land_spec, N.lor_spec.
    destruct (N.testbit (taskid t) k), (N.testbit (taskid a) k),
      (N.testbit (all_ids ts) k); simpl in *; congruence.
Qed.

Lemma lor_subset (a b c : N) :
  N.land a c = a -> N.land b c = b -> N.land (N.lor a b) c = N.lor a b.
Proof. intros Ha Hb. rewrite N.land_lor_distr_l, Ha, Hb. reflexivity. Qed.

Lemma unique_bits_disjoint ts t u :
  unique_bits ts = true -> In t ts -> In u ts -> t <> u ->
  N.land (taskid u) (taskid t) = 0%N.
Proof.
  intros Hu Ht Hin Hne.
  destruct (in_split _ _ Ht) as (pre & post & E).
  destruct (unique_bits_split _ _ _ _ Hu E) as [_ Hd]. apply Hd.
  rewrite E in Hin. apply in_app_or in Hin as [H | [H | H]];
    [apply in_or_app; left; exact H | congruence | apply in_or_app; right; exact H].
Qed.

Lemma blocked_ntodo mb : blocked mb -> 0 < ntodo mb.
Proof.
  intros (_ & (_ & Hcount & _) & _ & t & Hin & _ & Hz).
  assert (Hx : In t (undone (task_flag mb) (task mb))).
  { apply filter_In. split; [exact Hin|]. unfold done. rewrite Hz. reflexivity. }
  destruct (undone (task_flag mb) (task mb)); [destruct Hx | simpl in Hcount; lia].
Qed.

Lemma DoOneTask_blocked mb w :
  blocked mb ->
  let '(st, mb', _, evs) := DoOneTask mb w in
  blocked mb' /\ st <> complete.
Proof.
  intros Hb. pose proof Hb as (Hu & Hinv & Hsub & t & Hin & Hun & Hz).
  pose proof (DoOneTask_inv mb w Hu Hinv) as Hinv'.
  pose proof (DoOneTask_step mb w (proj1 Hinv)) as Hs.
  destruct (DoOneTask mb w) as [[[st mb'] w'] evs]. cbn [fst snd] in Hinv'.
  destruct Hs as (Ht & Hs).
  assert (Hb' : blocked mb').
  { unfold blocked. rewrite Ht.
    split; [exact Hu | split; [exact Hinv'|]].
    destruct Hs as [(Hf & _) | (t' & Hin' & Hel & Hf & _)]; rewrite Hf.
    - split; [exact Hsub | exists t; auto].
    - split; [apply lor_subset; [exact Hsub | apply all_ids_In, Hin']|].
      exists t. split; [exact Hin | split; [exact Hun|]].
      rewrite land_lor_disjoint; [exact Hz|].
      apply (unique_bits_disjoint (task mb)); try assumption.
      intros ->. apply Hun.
      unfold eligible in Hel. apply andb_true_iff in Hel as [_ Hd].
      apply N.eqb_eq in Hd.
      exact (land_subset_trans _ _ _ Hd Hsub). }
  split; [exact Hb'|].
  pose proof (blocked_ntodo _ Hb') as Hpos.
  destruct Hs as [(_ & _ & Hne & _) | (t' & _ & _ & _ & Hn & _ & Hst & _)];
    [exact Hne|].
  rewrite Hst. destruct (ntodo mb - 1 =? 0) eqn:E; [| discriminate].
  apply Z.eqb_eq in E. lia.
Qed.

Lemma reset_blocked mb :
  unique_bits (task mb) = true ->
  (exists t, In t (task mb) /\ N.land (depend t) (all_ids (task mb)) <> depend t) ->
  blocked (reset mb).
Proof.
  intros Hu (t & Hin & Hun). unfold blocked. change (task (reset mb)) with (task mb).
  change (task_flag (reset mb)) with 0%N.
  split; [exact Hu | split; [apply reset_inv | split; [reflexivity|]]].
  exists t. split; [exact Hin | split; [exact Hun | apply N.land_0_r]].
Qed.

Lemma calls_blocked n :
  forall env k mb w,
    blocked mb ->
    let '(sts, mb', _, _) := calls env k n mb w in
    blocked mb' /\ ~ In complete sts.
Proof.
  induction n as [|n IH]; intros env k mb w Hb.
  - simpl. split; [exact Hb | intros []].
  - cbn [calls]. pose proof (DoOneTask_blocked mb (env k w) Hb) as H1.
    destruct (DoOneTask mb (env k w)) as [[[st mb1] w1] ev1].
    destruct H1 as [Hb1 Hst]. specialize (IH env (S k) mb1 w1 Hb1).
    destruct (calls env (S k) n mb1 w1) as [[[sts mb2] w2] ev2].
    destruct IH as [Hb2 Hnc]. split; [exact Hb2|].
    intros [E | Hin]; [congruence | exact (Hnc Hin)].
Qed.

Lemma trace_from_within tl f evs f' :
  trace_from tl f evs f' ->
  N.land f (all_ids tl) = f ->
  forall e, In e evs -> N.land (inv_flag e) (all_ids tl) = inv_flag e.
Proof.
  induction 1 as [f | f e t rest f' Hn Hf He Hrest IH]; intros Hsub e0 Hin;
    [destruct Hin|].
  destruct Hin as [<- | Hin]; [rewrite Hf; exact Hsub|].
  apply IH; [| exact Hin].
  destruct (inv_done e); [| exact Hsub].
  apply lor_subset; [exact Hsub | apply all_ids_In; eapply nth_error_In; exact Hn].
Qed.

(** X4. A task that waits for a bit that no task of the list provides is
    never called, whatever the other task functions answer, and its block
    never answers [complete]: some task always remains to do. *)
Theorem DoOneTask_unmet_dependency
        (env : nat -> World -> World) (n : nat) mb w t :
  unique_bits (task mb) = true ->
  In t (task mb) ->
  N.land (depend t) (all_ids (task mb)) <> depend t ->
  let '(sts, mb', _, evs) := calls env 0 n (reset mb) w in
  (forall e, In e evs ->
     nth_error (task mb) (Z.to_nat (inv_index e)) <> Some t) /\
  ~ In complete sts /\ 0 < ntodo mb'.
Proof.
  intros Hu Hin Hun.
  pose proof (calls_blocked n env 0%nat (reset mb) w
                (reset_blocked mb Hu (ex_intro _ t (conj Hin Hun)))) as Hb.
  pose proof (calls_trace n env 0%nat (reset mb) w (proj1 (reset_inv mb))
                (fun u Hi => unique_bits_nonzero _ _ Hu Hi)) as Ht.
  destruct (calls env 0 n (reset mb) w) as [[[sts mb'] w'] evs].
  destruct Hb as [Hb Hnc]. destruct Ht as [_ Htr].
  change (task (reset mb)) with (task mb) in Htr.
  change (task_flag (reset mb)) with 0%N in Htr.
  split; [| split; [exact Hnc | apply blocked_ntodo, Hb]].
  intros e He Hnth.
  pose proof (trace_from_within _ _ _ _ Htr (N.land_0_l _) e He) as Hsub.
  destruct (trace_from_eligible _ _ _ _ Htr e He) as (t' & Hn' & Hel).
  rewrite Hnth in Hn'. injection Hn' as <-.
  unfold eligible in Hel. apply andb_true_iff in Hel as [_ Hd].
  apply N.eqb_eq in Hd. apply Hun.
  exact (land_subset_trans _ _ _ Hd Hsub).
Qed.

Lemma sweep_blocked bs :
  forall nb w,
    Exists blocked bs -> Exists blocked (fst (fst (sweep bs nb w))).
Proof.
  induction bs as [|mb bs IH]; intros nb w Hex; [inversion Hex|].
  cbn [sweep]. pose proof (DoOneTask_blocked mb w) as H1.
  destruct (DoOneTask mb w) as [[[st mb'] w1] ev].
  specialize (IH (if tlstatus_eqb st complete then nb - 1 else nb) w1).
  destruct (sweep bs (if tlstatus_eqb st complete then nb - 1 else nb) w1)
    as [[bs' nb2] w2]. cbn [fst] in *.
  inversion Hex as [? ? Hb | ? ? Hb]; subst.
  - left. apply H1, Hb.
  - right. apply IH, Hb.
Qed.

Lemma pending_blocked bs :
  Forall (fun mb => 0 <= ntodo mb) bs -> Exists blocked bs -> 0 < pending bs.
Proof.
  induction 1 as [|mb bs Hmb Hall IH]; intros Hex; [inversion Hex|].
  rewrite pending_cons.
  assert (Hp : 0 <= pending bs).
  { clear -Hall. induction Hall as [|a l _ _ IHl]; [simpl; lia|].
    rewrite pending_cons. destruct (0 <? ntodo a); lia. }
  inversion Hex as [? ? Hb | ? ? Hb]; subst.
  - apply blocked_ntodo in Hb. destruct (Z.ltb_spec 0 (ntodo mb)); lia.
  - specialize (IH Hb). destruct (0 <? ntodo mb); lia.
Qed.

Lemma main_loop_blocked fuel :
  forall bs nb w,
    Forall (fun mb => 0 <= ntodo mb) bs -> Exists blocked bs ->
    pending bs <= nb -> main_loop fuel bs nb w = None.
Proof.
  induction fuel as [|fuel IH]; intros bs nb w Hall Hex Hle;
    pose proof (pending_blocked bs Hall Hex) as Hpos;
    cbn [main_loop]; (replace (0 <? nb) with true by (symmetry; apply Z.ltb_lt; lia)).
  - reflexivity.
  - pose proof (sweep_counter bs nb w Hall) as Hc.
    pose proof (sweep_blocked bs nb w Hex) as Hb.
    destruct (sweep bs nb w) as [[bs' nb'] w']. cbn [fst] in Hb.
    destruct Hc as [Hall' Hc]. apply IH; [exact Hall' | exact Hb | lia].
Qed.

Lemma init_blocks_blocked bs :
  forall w,
    Exists (fun mb => unique_bits (task mb) = true /\
              exists t, In t (task mb) /\
                        N.land (depend t) (all_ids (task mb)) <> depend t) bs ->
    Exists blocked (fst (init_blocks StartReceivingAll bs w)).
Proof.
  induction bs as [|mb bs IH]; intros w Hex; [inversion Hex|].
  cbn [init_blocks]. specialize (IH (StartReceivingAll (gid mb) w)).
  destruct (init_blocks StartReceivingAll bs (StartReceivingAll (gid mb) w))
    as [rest' w2]. cbn [fst] in *.
  inversion Hex as [? ? [Hu Ht] | ? ? Hb]; subst.
  - left. apply reset_blocked; assumption.
  - right. apply IH, Hb.
Qed.

(** X5. When a block of the list has a task that waits for a bit that no
    task of its list provides, and the block count is not smaller than the
    number of blocks that hold tasks, [UpdateOneStep] never returns,
    whatever the task functions do and however far the other blocks get. *)
Theorem UpdateOneStep_unmet_dependency_never_returns (m : Mesh World) w :
  Z.of_nat (length (with_tasks (pblock m))) <= nbend m - nbstart m + 1 ->
  Exists (fun mb => unique_bits (task mb) = true /\
            exists t, In t (task mb) /\
                      N.land (depend t) (all_ids (task mb)) <> depend t)
         (pblock m) ->
  forall fuel, UpdateOneStep StartReceivingAll ClearBoundaryAll fuel m w = None.
Proof.
  intros Hnb Hex fuel. unfold UpdateOneStep.
  pose proof (init_blocks_pending (pblock m) w) as Hp.
  pose proof (init_blocks_blocked (pblock m) w Hex) as Hb.
  destruct (init_blocks StartReceivingAll (pblock m) w) as [bs0 w0].
  cbn [fst] in Hb. destruct Hp as [Hall Hp].
  rewrite main_loop_blocked; [reflexivity | exact Hall | exact Hb | lia].
Qed.


(** *** The number of passes *)

Lemma longest_cons mb bs : longest (mb :: bs) = Z.max (ntodo mb) (longest bs).
Proof. reflexivity. Qed.

Lemma longest_nonneg bs : 0 <= longest bs.
Proof. induction bs as [|mb bs IH]; [simpl; lia | rewrite longest_cons; lia]. Qed.

Lemma pending_nonneg bs : 0 <= pending bs.
Proof.
  induction bs as [|mb bs IH]; [simpl; lia|].
  rewrite pending_cons. destruct (0 <? ntodo mb); lia.
Qed.

Lemma pending_longest bs : 0 < pending bs <-> 0 < longest bs.
Proof.
  induction bs as [|mb bs IH]; [simpl; lia|].
  rewrite pending_cons, longest_cons.
  pose proof (pending_nonneg bs). pose proof (longest_nonneg bs).
  destruct (Z.ltb_spec 0 (ntodo mb)); lia.
Qed.

Lemma sweep_longest bs :
  forall nb w,
    Forall good_block bs ->
    longest (fst (fst (sweep bs nb w))) = Z.max 0 (longest bs - 1).
Proof.
  induction bs as [|mb bs IH]; intros nb w Hall; cbn [sweep].
  - reflexivity.
  - inversion Hall as [|? ? Hg Hrest]; subst.
    pose proof (good_block_ntodo mb Hg) as Hn.
    destruct Hg as (Hu & Hp & Hac & Hd & Hinv).
    pose proof (longest_nonneg bs) as Hl.
    destruct (0 <? ntodo mb) eqn:Eact.
    + apply Z.ltb_lt in Eact.
      destruct (DoOneTask_progress mb w Hu Hp Hac Hd Hinv Eact)
        as (mb1 & w1 & evs & E & Ht & Hn1 & Hinv1).
      rewrite E.
      specialize (IH (if tlstatus_eqb (if ntodo mb - 1 =? 0 then complete else running)
                                      complete then nb - 1 else nb) w1 Hrest).
      destruct (sweep bs _ w1) as [[bs' nb'] w']. cbn [fst] in *.
      rewrite !longest_cons, IH, Hn1. lia.
    + apply Z.ltb_ge in Eact. assert (Hz : ntodo mb = 0) by lia.
      unfold DoOneTask. rewrite Hz. cbn [Z.eqb tlstatus_eqb].
      specialize (IH nb w Hrest).
      destruct (sweep bs nb w) as [[bs' nb'] w']. cbn [fst] in *.
      rewrite !longest_cons, IH, Hz. lia.
Qed.

Lemma loop_task ts :
  forall i skip mb w,
    task (snd (fst (fst (DoOneTask_loop ts i skip mb w)))) = task mb.
Proof.
  induction ts as [|ti ts IH]; intros i skip mb w; [reflexivity|].
  cbn [DoOneTask_loop].
  destruct (N.land (taskid ti) (task_flag mb) =? 0)%N.
  - destruct (N.land (depend ti) (task_flag mb) =? depend ti)%N; [| apply IH].
    destruct (TaskFunc ti w (task_arg ti)) as [r w1]. destruct r; [reflexivity|].
    specialize (IH (i + 1) (skip + 1) mb w1).
    destruct (DoOneTask_loop ts (i + 1) (skip + 1) mb w1) as [[[st mb2] w2] evs].
    exact IH.
  - destruct (skip =? 0); [| apply IH].
    rewrite IH. reflexivity.
Qed.

Lemma DoOneTask_task mb w : task (snd (fst (fst (DoOneTask mb w)))) = task mb.
Proof. unfold DoOneTask. destruct (ntodo mb =? 0); [reflexivity | apply loop_task]. Qed.

Lemma sweep_tasks bs :
  forall nb w, map (@task World) (fst (fst (sweep bs nb w))) = map (@task World) bs.
Proof.
  induction bs as [|mb bs IH]; intros nb w; cbn [sweep]; [reflexivity|].
  pose proof (DoOneTask_task mb w) as Ht.
  destruct (DoOneTask mb w) as [[[st mb'] w1] ev]. cbn [fst snd] in Ht.
  specialize (IH (if tlstatus_eqb st complete then nb - 1 else nb) w1).
  destruct (sweep bs _ w1) as [[bs' nb2] w2]. cbn [fst] in *.
  cbn [map]. rewrite Ht, IH. reflexivity.
Qed.

Lemma main_loop_tasks fuel :
  forall bs nb w bs' w',
    main_loop fuel bs nb w = Some (bs', w') ->
    map (@task World) bs' = map (@task World) bs.
Proof.
  induction fuel as [|fuel IH]; intros bs nb w bs' w'; cbn [main_loop];
    destruct (0 <? nb); try discriminate; try (intros [= <- <-]; reflexivity).
  pose proof (sweep_tasks bs nb w) as Hs.
  destruct (sweep bs nb w) as [[bs1 nb1] w1]. cbn [fst] in Hs.
  intros E. rewrite (IH _ _ _ _ _ E). exact Hs.
Qed.

Lemma init_blocks_tasks bs :
  forall w, map (@task World) (fst (init_blocks StartReceivingAll bs w))
            = map (@task World) bs.
Proof.
  induction bs as [|mb bs IH]; intros w; cbn [init_blocks]; [reflexivity|].
  specialize (IH (StartReceivingAll (gid mb) w)).
  destruct (init_blocks StartReceivingAll bs (StartReceivingAll (gid mb) w)) as [bs0 w0].
  cbn [fst] in *. cbn [map]. rewrite IH. reflexivity.
Qed.

Lemma UpdateOneStep_tasks (m m' : Mesh World) w w' fuel :
  UpdateOneStep StartReceivingAll ClearBoundaryAll fuel m w = Some (m', w') ->
  map (@task World) (pblock m') = map (@task World) (pblock m).
Proof.
  unfold UpdateOneStep. pose proof (init_blocks_tasks (pblock m) w) as H0.
  destruct (init_blocks StartReceivingAll (pblock m) w) as [bs0 w0]. cbn [fst] in H0.
  destruct (main_loop fuel bs0 (nbend m - nbstart m + 1) w0) as [[bs1 w1]|] eqn:E;
    [| discriminate].
  intros [= <- <-]. cbn [pblock]. rewrite (main_loop_tasks _ _ _ _ _ _ E). exact H0.
Qed.

Lemma main_loop_exact fuel :
  forall bs nb w,
    Forall good_block bs -> nb = pending bs ->
    (Z.of_nat fuel < longest bs -> main_loop fuel bs nb w = None) /\
    (longest bs <= Z.of_nat fuel ->
     exists bs' w',
       main_loop fuel bs nb w = Some (bs', w') /\
       Forall (fun mb => good_block mb /\ ntodo mb = 0) bs').
Proof.
  induction fuel as [|fuel IH]; intros bs nb w Hall Hnb;
    pose proof (pending_longest bs) as Hpl;
    pose proof (pending_nonneg bs) as Hp0;
    pose proof (longest_nonneg bs) as Hl0;
    cbn [main_loop]; destruct (Z.ltb_spec 0 nb) as [Hpos | Hzero].
  - split; [reflexivity | lia].
  - split; [lia|]. intros _. exists bs, w. split; [reflexivity|].
    pose proof (pending_zero bs Hall ltac:(lia)) as Hz.
    rewrite Forall_forall in *. intros mb Hin. split; [apply Hall | apply Hz]; exact Hin.
  - pose proof (sweep_good bs nb w Hall) as Hs.
    pose proof (sweep_longest bs nb w Hall) as Hlg.
    destruct (sweep bs nb w) as [[bs' nb'] w']. cbn [fst] in Hlg.
    destruct Hs as (Hall' & _ & Hc).
    destruct (IH bs' nb' w' Hall' ltac:(lia)) as [IH1 IH2].
    split; intros H; [apply IH1 | apply IH2]; lia.
  - split; [lia|]. intros _. exists bs, w. split; [reflexivity|].
    pose proof (pending_zero bs Hall ltac:(lia)) as Hz.
    rewrite Forall_forall in *. intros mb Hin. split; [apply Hall | apply Hz]; exact Hin.
Qed.

Lemma init_blocks_longest bs :
  forall w, longest (fst (init_blocks StartReceivingAll bs w)) = max_ntask bs.
Proof.
  induction bs as [|mb bs IH]; intros w; cbn [init_blocks]; [reflexivity|].
  specialize (IH (StartReceivingAll (gid mb) w)).
  destruct (init_blocks StartReceivingAll bs (StartReceivingAll (gid mb) w)) as [bs0 w0].
  cbn [fst] in *. rewrite longest_cons, IH. reflexivity.
Qed.

Lemma good_block_done mb :
  good_block mb -> ntodo mb = 0 ->
  forall t, In t (task mb) -> N.land (taskid t) (task_flag mb) = taskid t.
Proof.
  intros (_ & _ & _ & _ & _ & Hcount & Hfull) Hz t Ht. apply Hfull; [exact Ht|].
  destruct (done (task_flag mb) t) eqn:Hd; [reflexivity | exfalso].
  assert (Hund : In t (undone (task_flag mb) (task mb)))
    by (apply filter_In; split; [exact Ht | rewrite Hd; reflexivity]).
  destruct (undone (task_flag mb) (task mb)); [destruct Hund | simpl in Hcount; lia].
Qed.

Lemma UpdateOneStep_exact (m : Mesh World) w fuel :
  nbend m - nbstart m + 1 = Z.of_nat (length (pblock m)) ->
  Forall (fun mb => unique_bits (task mb) = true /\ deps_produced (task mb) = true /\
                    acyclic (task mb) /\ always_done (task mb) /\ task mb <> [])
         (pblock m) ->
  (Z.of_nat fuel < max_ntask (pblock m) ->
   UpdateOneStep StartReceivingAll ClearBoundaryAll fuel m w = None) /\
  (max_ntask (pblock m) <= Z.of_nat fuel ->
   exists m' w',
     UpdateOneStep StartReceivingAll ClearBoundaryAll fuel m w = Some (m', w') /\
     Forall (fun mb => ntodo mb = 0 /\
               forall t, In t (task mb) ->
                         N.land (taskid t) (task_flag mb) = taskid t) (pblock m')).
Proof.
  intros Hnb Hall. unfold UpdateOneStep.
  pose proof (init_blocks_good StartReceivingAll (pblock m) w Hall) as H0.
  pose proof (init_blocks_longest (pblock m) w) as Hl.
  destruct (init_blocks StartReceivingAll (pblock m) w) as [bs0 w0]. cbn [fst] in Hl.
  destruct H0 as (Hall0 & Hpend & _).
  destruct (main_loop_exact fuel bs0 (nbend m - nbstart m + 1) w0 Hall0 ltac:(lia))
    as [H1 H2].
  rewrite Hl in H1, H2. split; intros H.
  - rewrite (H1 H). reflexivity.
  - destruct (H2 H) as (bs1 & w1 & E & Hdone). rewrite E.
    eexists _, _. split; [reflexivity|]. simpl.
    rewrite Forall_forall in *. intros mb Hin. destruct (Hdone mb Hin) as [Hg Hz].
    split; [exact Hz | apply good_block_done; assumption].
Qed.

(** X6. On a list of well-formed blocks (identifier bits of their own, every
    dependency provided, no cycle, task functions that always report work,
    at least one task each) counted correctly by [nbstart] and [nbend], the
    main loop of [UpdateOneStep] makes as many passes over the blocks as the
    longest task list has tasks: with fewer passes it is still running, and
    after that many it returns with every task of every block done. *)
Theorem UpdateOneStep_pass_count (m : Mesh World) w (fuel : nat) :
  nbend m - nbstart m + 1 = Z.of_nat (length (pblock m)) ->
  Forall (fun mb => unique_bits (task mb) = true /\ deps_produced (task mb) = true /\
                    acyclic (task mb) /\ always_done (task mb) /\ task mb <> [])
         (pblock m) ->
  (Z.of_nat fuel < max_ntask (pblock m) ->
   UpdateOneStep StartReceivingAll ClearBoundaryAll fuel m w = None) /\
  (max_ntask (pblock m) <= Z.of_nat fuel ->
   exists m' w',
     UpdateOneStep StartReceivingAll ClearBoundaryAll fuel m w = Some (m', w') /\
     Forall (fun mb => ntodo mb = 0 /\
               forall t, In t (task mb) ->
                         N.land (taskid t) (task_flag mb) = taskid t) (pblock m')).
Proof. apply UpdateOneStep_exact. Qed.

Lemma SetTaskList_blocks_spec bs tl :
  Forall (fun mb => task mb = tl) (Mesh_SetTaskList_blocks bs tl) /\
  length (Mesh_SetTaskList_blocks bs tl) = length bs /\
  map (@gid World) (Mesh_SetTaskList_blocks bs tl) = map (@gid World) bs.
Proof.
  induction bs as [|mb bs (IH1 & IH2 & IH3)]; simpl.
  - repeat split. constructor.
  - repeat split; [constructor; [reflexivity | exact IH1] | congruence | congruence].
Qed.

Lemma max_ntask_same bs tl :
  bs <> [] -> Forall (fun mb => task mb = tl) bs ->
  max_ntask bs = Z.of_nat (length tl).
Proof.
  intros Hne Hall. induction Hall as [|mb bs Hmb Hall IH]; [contradiction|].
  cbn [max_ntask fold_right]. fold (max_ntask bs). unfold ntask at 1. rewrite Hmb.
  destruct bs as [|b bs']; [simpl; lia|]. rewrite IH by discriminate. lia.
Qed.

(** X7. After [Mesh::SetTaskList] has given every block of a non-empty list
    the same well-formed task list, a call of [UpdateOneStep] returns after
    exactly [ntask] passes of its main loop (with fewer it is still
    running), and then every block has done every task of the list. *)
Theorem SetTaskList_then_UpdateOneStep (m : Mesh World) tl w (fuel : nat) :
  nbend m - nbstart m + 1 = Z.of_nat (length (pblock m)) ->
  pblock m <> [] ->
  unique_bits tl = true -> deps_produced tl = true -> acyclic tl ->
  always_done tl -> tl <> [] ->
  ((fuel < length tl)%nat ->
   UpdateOneStep StartReceivingAll ClearBoundaryAll fuel (Mesh_SetTaskList m tl) w
   = None) /\
  ((length tl <= fuel)%nat ->
   exists m' w',
     UpdateOneStep StartReceivingAll ClearBoundaryAll fuel (Mesh_SetTaskList m tl) w
     = Some (m', w') /\
     length (pblock m') = length (pblock m) /\
     Forall (fun mb => ntodo mb = 0 /\
               forall t, In t tl ->
                         N.land (taskid t) (task_flag mb) = taskid t) (pblock m')).
Proof.
  intros Hnb Hne Hu Hp Hac Hd Htl.
  destruct (SetTaskList_blocks_spec (pblock m) tl) as (Hall & Hlen & _).
  assert (Hmax : max_ntask (pblock (Mesh_SetTaskList m tl)) = Z.of_nat (length tl)).
  { apply max_ntask_same; [| exact Hall].
    cbn [Mesh_SetTaskList pblock]. destruct (pblock m); [contradiction | discriminate]. }
  destruct (UpdateOneStep_exact (Mesh_SetTaskList m tl) w fuel) as [H1 H2].
  - cbn [Mesh_SetTaskList pblock nbstart nbend]. rewrite Hlen. exact Hnb.
  - cbn [Mesh_SetTaskList pblock]. eapply Forall_impl; [| exact Hall].
    intros mb ->. auto.
  - rewrite Hmax in H1, H2. split; intros H; [apply H1; lia|].
    destruct (H2 ltac:(lia)) as (m' & w' & E & Hdone).
    exists m', w'. split; [exact E|].
    pose proof (UpdateOneStep_tasks _ _ _ _ _ E) as Ht.
    cbn [Mesh_SetTaskList pblock] in Ht.
    split; [rewrite <- Hlen, <- (length_map (@task World)), Ht, length_map; reflexivity|].
    assert (Htl' : Forall (fun mb => task mb = tl) (pblock m')).
    { apply Forall_forall. intros mb Hin.
      apply (in_map (@task World)) in Hin. rewrite Ht in Hin.
      apply in_map_iff in Hin as (mb0 & <- & Hin0).
      rewrite Forall_forall in Hall. apply Hall, Hin0. }
    rewrite Forall_forall in *. intros mb Hin.
    destruct (Hdone mb Hin) as [Hz Hm]. split; [exact Hz|].
    intros t Hti. apply Hm. rewrite (Htl' mb Hin). exact Hti.
Qed.


End SchedulerMore.

(** *** The properties on concrete task lists *)

Section SchedulerExamples.
Import TaskList Examples.

Lemma ex_tasks_acyclic : acyclic ex_tasks.
Proof.
  apply (ranked_acyclic _ (fun t => N.to_nat (taskid t))).
  intros t u (Ht & Hu & Hd). simpl in Ht, Hu.
  destruct Ht as [<-|[<-|[<-|[]]]]; destruct Hu as [<-|[<-|[<-|[]]]];
    simpl in *; try lia; exfalso; apply Hd; reflexivity.
Qed.

Lemma ex_tasks_always_done : always_done ex_tasks.
Proof.
  intros t w Hin. simpl in Hin.
  destruct Hin as [<-|[<-|[<-|[]]]]; reflexivity.
Qed.

Lemma DoOneTask_completes_acyclic_witness :
  (unique_bits ex_tasks = true /\ deps_produced ex_tasks = true /\
   acyclic ex_tasks /\ always_done ex_tasks) /\
  let '(sts, mb', _, _) := calls quiet 0 3 (reset ex_block) 0%nat in
  (forall t, In t ex_tasks -> N.land (taskid t) (task_flag mb') = taskid t) /\
  ntodo mb' = 0 /\
  sts = [running; running; complete].
Proof.
  split.
  - repeat split; [apply ex_tasks_acyclic | apply ex_tasks_always_done].
  - exact (DoOneTask_completes_acyclic quiet ex_block 0%nat eq_refl eq_refl
             ex_tasks_acyclic ex_tasks_always_done).
Defined.

Lemma DoOneTask_one_call_witness :
  ntodo waiting_block <> 0 /\
  DoOneTask waiting_block 0%nat
  = (running, mkMeshBlock 0 [t_waiting; t_ready] 0 1 2%N, 1%nat,
     [mkInvocation 0 0%N false; mkInvocation 1 0%N true]) /\
  let scanned := skipn (Z.to_nat (firsttask waiting_block)) (task waiting_block) in
  let '(st, mb', w', evs) := DoOneTask waiting_block 0%nat in
  let '(hit, w1, evs1) :=
    offer (task_flag waiting_block) (candidates waiting_block) 0%nat in
  evs = evs1 /\ w' = w1 /\ task mb' = task waiting_block /\
  gid mb' = gid waiting_block /\
  match hit with
  | Some (k, t) =>
    task_flag mb' = N.lor (task_flag waiting_block) (taskid t) /\
    ntodo mb' = ntodo waiting_block - 1 /\
    st = (if ntodo mb' =? 0 then complete else running) /\
    firsttask mb' =
    firsttask waiting_block + done_prefix (task_flag waiting_block) scanned
    + (if k =? firsttask waiting_block
               + done_prefix (task_flag waiting_block) scanned then 1 else 0)
  | None =>
    st = stuck /\ task_flag mb' = task_flag waiting_block /\
    ntodo mb' = ntodo waiting_block /\
    firsttask mb' =
    firsttask waiting_block + done_prefix (task_flag waiting_block) scanned
  end.
Proof.
  assert (H : ntodo waiting_block <> 0) by discriminate.
  split; [exact H | split; [reflexivity|]].
  exact (DoOneTask_one_call waiting_block 0%nat H).
Defined.

Lemma DoOneTask_respects_dependencies_witness :
  (forall t, In t (task ex_block) -> taskid t <> 0%N) /\
  let '(_, _, _, evs) := calls quiet 0 5 (reset ex_block) 0%nat in
  (forall e, In e evs ->
     exists t, nth_error (task ex_block) (Z.to_nat (inv_index e)) = Some t /\
               N.land (depend t) (inv_flag e) = depend t) /\
  (forall l1 e1 l2, evs = l1 ++ e1 :: l2 -> inv_done e1 = true ->
     forall e2, In e2 l2 -> inv_index e2 <> inv_index e1).
Proof.
  assert (H : forall t, In t (task ex_block) -> taskid t <> 0%N).
  { intros t Hin. simpl in Hin.
    destruct Hin as [<-|[<-|[<-|[]]]]; discriminate. }
  split; [exact H|].
  exact (DoOneTask_respects_dependencies quiet 5 ex_block 0%nat H).
Defined.

(** The two tasks that wait for each other keep their block stuck. *)
Lemma cyc_mesh_passes k :
  passes k [reset cyc_block] 1 0%nat = ([reset cyc_block], 1, 0%nat).
Proof.
  induction k as [|k IH]; [reflexivity|].
  cbn [passes]. exact IH.
Qed.

Lemma cyc_mesh_stuck : permanently_stuck no_comm cyc_mesh 0%nat.
Proof.
  intros k. cbn [init_blocks cyc_mesh pblock nbend nbstart].
  change (0 - 0 + 1) with 1. unfold no_comm at 1.
  rewrite cyc_mesh_passes. repeat constructor.
Qed.



Lemma short_tasks_acyclic : acyclic [t_integrate].
Proof.
  apply (ranked_acyclic _ (fun t => N.to_nat (taskid t))).
  intros t u (Ht & Hu & Hd). simpl in Ht, Hu.
  destruct Ht as [<-|[]]; destruct Hu as [<-|[]]. exfalso; apply Hd; reflexivity.
Qed.

Lemma short_tasks_always_done : always_done [t_integrate].
Proof. intros t w Hin. simpl in Hin. destruct Hin as [<-|[]]; reflexivity. Qed.

Lemma ex_mesh_well_formed :
  Forall (fun mb => unique_bits (task mb) = true /\ deps_produced (task mb) = true /\
                    acyclic (task mb) /\ always_done (task mb) /\ task mb <> [])
         (pblock ex_mesh).
Proof.
  repeat constructor; try discriminate;
    first [ exact ex_tasks_acyclic | exact ex_tasks_always_done
          | exact short_tasks_acyclic | exact short_tasks_always_done ].
Qed.

Lemma UpdateOneStep_pass_count_witness :
  (nbend ex_mesh - nbstart ex_mesh + 1 = Z.of_nat (length (pblock ex_mesh)) /\
   Z.of_nat 2 < max_ntask (pblock ex_mesh) /\
   max_ntask (pblock ex_mesh) <= Z.of_nat 3) /\
  UpdateOneStep no_comm no_comm 2 ex_mesh 0%nat = None /\
  exists m' w',
    UpdateOneStep no_comm no_comm 3 ex_mesh 0%nat = Some (m', w') /\
    Forall (fun mb => ntodo mb = 0 /\
              forall t, In t (task mb) ->
                        N.land (taskid t) (task_flag mb) = taskid t) (pblock m').
Proof.
  split; [repeat split; vm_compute; congruence|].
  split.
  - apply (proj1 (UpdateOneStep_pass_count no_comm no_comm ex_mesh 0%nat 2
                    eq_refl ex_mesh_well_formed)).
    reflexivity.
  - apply (proj2 (UpdateOneStep_pass_count no_comm no_comm ex_mesh 0%nat 3
                    eq_refl ex_mesh_well_formed)).
    vm_compute. congruence.
Defined.

Lemma SetTaskList_then_UpdateOneStep_witness :
  (nbend bare_mesh - nbstart bare_mesh + 1 = Z.of_nat (length (pblock bare_mesh)) /\
   pblock bare_mesh <> [] /\ unique_bits ex_tasks = true /\
   deps_produced ex_tasks = true /\ acyclic ex_tasks /\ always_done ex_tasks /\
   ex_tasks <> []) /\
  UpdateOneStep no_comm no_comm 2 (Mesh_SetTaskList bare_mesh ex_tasks) 0%nat = None /\
  exists m' w',
    UpdateOneStep no_comm no_comm 3 (Mesh_SetTaskList bare_mesh ex_tasks) 0%nat
    = Some (m', w') /\
    length (pblock m') = length (pblock bare_mesh) /\
    Forall (fun mb => ntodo mb = 0 /\
              forall t, In t ex_tasks ->
                        N.land (taskid t) (task_flag mb) = taskid t) (pblock m').
Proof.
  assert (Hne : pblock bare_mesh <> []) by discriminate.
  assert (Htl : ex_tasks <> []) by discriminate.
  split; [repeat split; try assumption;
          first [exact ex_tasks_acyclic | exact ex_tasks_always_done]|].
  split.
  - apply (proj1 (SetTaskList_then_UpdateOneStep no_comm no_comm bare_mesh ex_tasks
                    0%nat 2 eq_refl Hne eq_refl eq_refl ex_tasks_acyclic
                    ex_tasks_always_done Htl)).
    simpl. lia.
  - apply (proj2 (SetTaskList_then_UpdateOneStep no_comm no_comm bare_mesh ex_tasks
                    0%nat 3 eq_refl Hne eq_refl eq_refl ex_tasks_acyclic
                    ex_tasks_always_done Htl)).
    simpl. lia.
Defined.

Lemma UpdateOneStep_miscounted_never_returns_witness :
  Z.of_nat (length (with_tasks (pblock idle_mesh)))
  < nbend idle_mesh - nbstart idle_mesh + 1 /\
  forall fuel, UpdateOneStep no_comm no_comm fuel idle_mesh 0%nat = None.
Proof.
  assert (H : Z.of_nat (length (with_tasks (pblock idle_mesh)))
              < nbend idle_mesh - nbstart idle_mesh + 1) by reflexivity.
  split; [exact H|].
  exact (UpdateOneStep_miscounted_never_returns no_comm no_comm idle_mesh 0%nat H).
Defined.

Lemma orphan_mesh_unmet :
  Exists (fun mb => unique_bits (task mb) = true /\
            exists t, In t (task mb) /\
                      N.land (depend t) (all_ids (task mb)) <> depend t)
         (pblock orphan_mesh).
Proof.
  right. left. split; [reflexivity|].
  exists t_orphan. split; [right; left; reflexivity | discriminate].
Qed.

Lemma UpdateOneStep_unmet_dependency_never_returns_witness :
  (Z.of_nat (length (with_tasks (pblock orphan_mesh)))
   <= nbend orphan_mesh - nbstart orphan_mesh + 1 /\
   Exists (fun mb => unique_bits (task mb) = true /\
             exists t, In t (task mb) /\
                       N.land (depend t) (all_ids (task mb)) <> depend t)
          (pblock orphan_mesh)) /\
  forall fuel, UpdateOneStep no_comm no_comm fuel orphan_mesh 0%nat = None.
Proof.
  assert (H : Z.of_nat (length (with_tasks (pblock orphan_mesh)))
              <= nbend orphan_mesh - nbstart orphan_mesh + 1)
    by (vm_compute; congruence).
  split; [split; [exact H | exact orphan_mesh_unmet]|].
  exact (UpdateOneStep_unmet_dependency_never_returns no_comm no_comm orphan_mesh
           0%nat H orphan_mesh_unmet).
Defined.

Lemma DoOneTask_unmet_dependency_witness :
  (unique_bits (task orphan_block) = true /\ In t_orphan (task orphan_block) /\
   N.land (depend t_orphan) (all_ids (task orphan_block)) <> depend t_orphan) /\
  let '(sts, mb', _, evs) := calls quiet 0 4 (reset orphan_block) 0%nat in
  (forall e, In e evs ->
     nth_error (task orphan_block) (Z.to_nat (inv_index e)) <> Some t_orphan) /\
  ~ In complete sts /\ 0 < ntodo mb'.
Proof.
  assert (Hin : In t_orphan (task orphan_block)) by (right; left; reflexivity).
  assert (Hun : N.land (depend t_orphan) (all_ids (task orphan_block))
                <> depend t_orphan) by discriminate.
  split; [split; [reflexivity | split; assumption]|].
  exact (DoOneTask_unmet_dependency quiet 4 orphan_block 0%nat t_orphan
           eq_refl Hin Hun).
Defined.

Lemma DoOneTask_bookkeeping_witness :
  unique_bits (task ex_block) = true /\
  let '(sts, mb', _, evs) := calls quiet 0 2 (reset ex_block) 0%nat in
  ntodo mb' = Z.of_nat (length (undone (task_flag mb') (task ex_block))) /\
  ntodo mb' = ntask ex_block - successes evs /\
  (In complete sts ->
   forall t, In t (task ex_block) -> N.land (taskid t) (task_flag mb') = taskid t).
Proof.
  split; [reflexivity|].
  exact (DoOneTask_bookkeeping quiet 2 ex_block 0%nat eq_refl).
Defined.

Lemma DoOneTask_cursor_only_saves_work_witness :
  ((forall t, In t (task ex_block) -> taskid t <> 0%N) /\
   ntodo (snd (fst (fst (calls quiet 0 2 (reset ex_block) 0%nat)))) <> 0) /\
  DoOneTask (set_firsttask
               (snd (fst (fst (calls quiet 0 2 (reset ex_block) 0%nat)))) 0) 7%nat
  = DoOneTask (snd (fst (fst (calls quiet 0 2 (reset ex_block) 0%nat)))) 7%nat.
Proof.
  assert (H : forall t, In t (task ex_block) -> taskid t <> 0%N).
  { intros t Hin. simpl in Hin.
    destruct Hin as [<-|[<-|[<-|[]]]]; discriminate. }
  assert (Hn : ntodo (snd (fst (fst (calls quiet 0 2 (reset ex_block) 0%nat)))) <> 0)
    by (vm_compute; congruence).
  split; [split; assumption|].
  exact (DoOneTask_cursor_only_saves_work quiet 2 ex_block 0%nat 7%nat H Hn).
Defined.


End SchedulerExamples.

(** ** The distribution of the blocks *)

Section PartitionFacts.
Import Partition.

Lemma total_app (a b : list Q) : (total (a ++ b) == total a + total b)%Q.
Proof.
  induction a as [|x a IH]; simpl.
  - lra.
  - rewrite IH. lra.
Qed.

Lemma total_rev (a : list Q) : (total (rev a) == total a)%Q.
Proof.
  induction a as [|x a IH]; simpl.
  - lra.
  - rewrite total_app, IH. simpl. lra.
Qed.

Lemma fold_left_Qplus (a : list Q) (x : Q) :
  (fold_left Qplus a x == x + total a)%Q.
Proof.
  revert x. induction a as [|y a IH]; intros x; simpl.
  - lra.
  - rewrite IH. lra.
Qed.

Lemma sum_costs_total (a : list Q) : (sum_costs a == total a)%Q.
Proof. unfold sum_costs. rewrite fold_left_Qplus. lra. Qed.

Lemma rank_from_end_length costs :
  forall j T m tg, length (rank_from_end costs j T m tg) = length costs.
Proof.
  induction costs as [|c costs IH]; intros j T m tg; simpl; [reflexivity|].
  destruct (Qle_bool tg (m + c) && (0 <? j)); simpl; rewrite IH; reflexivity.
Qed.

Lemma rank_cost_app r (c1 c2 : list Q) (k1 k2 : list Z) :
  length c1 = length k1 ->
  (rank_cost r (c1 ++ c2) (k1 ++ k2) == rank_cost r c1 k1 + rank_cost r c2 k2)%Q.
Proof.
  revert k1. induction c1 as [|c c1 IH]; intros [|k k1] Hlen; simpl in *;
    try discriminate.
  - lra.
  - injection Hlen as Hlen. specialize (IH k1 Hlen).
    destruct (k =? r); rewrite IH; lra.
Qed.

Lemma rank_cost_rev r (cs : list Q) :
  forall ks, length cs = length ks ->
  (rank_cost r (rev cs) (rev ks) == rank_cost r cs ks)%Q.
Proof.
  induction cs as [|c cs IH]; intros [|k ks] Hlen; simpl in *; try discriminate.
  - reflexivity.
  - injection Hlen as Hlen.
    rewrite rank_cost_app by (rewrite !length_rev; exact Hlen).
    rewrite IH by exact Hlen. simpl. destruct (k =? r); lra.
Qed.

(** The share that the buckets still open leave to rank 0: while [j+1]
    buckets are open, rank 0 gets at most the [(j+1)]-th part of what is not
    yet in a closed bucket. *)
Lemma rank_from_end_rank0 costs :
  forall j T m tg,
    0 <= j ->
    (forall c, In c costs -> (0 < c)%Q) ->
    (0 <= m)%Q ->
    (T == total costs + m)%Q ->
    (tg == T / inject_Z (j + 1))%Q ->
    (rank_cost 0 costs (rank_from_end costs j T m tg)
     <= if j =? 0 then total costs else T / inject_Z (j + 1))%Q.
Proof.
  induction costs as [|c costs IH]; intros j T m tg Hj Hpos Hm HT Htg.
  - simpl. destruct (j =? 0) eqn:Ej; [lra|].
    apply Z.eqb_neq in Ej. simpl in HT.
    assert (Hd : (0 < inject_Z (j + 1))%Q)
      by (rewrite <- (Zlt_Qlt 0); lia).
    apply Qle_shift_div_l; [exact Hd | lra].
  - assert (Hc : (0 < c)%Q) by (apply Hpos; left; reflexivity).
    assert (Hpos' : forall x, In x costs -> (0 < x)%Q)
      by (intros x Hx; apply Hpos; right; exact Hx).
    cbn [rank_from_end total fold_right] in *. fold (total costs) in *.
    destruct (Qle_bool tg (m + c) && (0 <? j)) eqn:Eclose.
    + apply andb_true_iff in Eclose as [Hge Hjpos].
      apply Qle_bool_iff in Hge. apply Z.ltb_lt in Hjpos.
      cbn [rank_cost].
      replace (j =? 0) with false by (symmetry; apply Z.eqb_neq; lia).
      assert (Hd : (0 < inject_Z (j + 1))%Q) by (rewrite <- (Zlt_Qlt 0); lia).
      assert (He : (0 < inject_Z j)%Q) by (rewrite <- (Zlt_Qlt 0); lia).
      assert (Hde : (inject_Z (j + 1) == inject_Z j + 1)%Q)
        by (rewrite inject_Z_plus; reflexivity).
      replace (j - 1 + 1) with j in * by lia.
      specialize (IH (j - 1) (T - (m + c))%Q 0%Q ((T - (m + c)) / inject_Z j)%Q).
      replace (j - 1 + 1) with j in IH by lia.
      assert (IH' := IH ltac:(lia) Hpos' ltac:(lra) ltac:(lra) ltac:(reflexivity)).
      clear IH.
      (* what is left is at most the [j/(j+1)] part of [T] *)
      set (x := (T / inject_Z (j + 1))%Q) in *.
      assert (Hx : (T == x * inject_Z (j + 1))%Q).
      { unfold x. field. lra. }
      assert (Hleft : ((T - (m + c)) / inject_Z j <= x)%Q).
      { apply Qle_shift_div_r; [exact He|]. rewrite Htg in Hge.
        rewrite Hx at 1. rewrite Hde. nra. }
      destruct (j - 1 =? 0) eqn:Ej1.
      * apply Z.eqb_eq in Ej1. assert (j = 1) by lia. subst j.
        assert (((T - (m + c)) / inject_Z 1 == T - (m + c))%Q) by (field).
        lra.
      * lra.
    + cbn [rank_cost].
      assert (Hopen : Qle_bool tg (m + c) = false \/ (0 <? j) = false)
        by (apply andb_false_iff; exact Eclose).
      specialize (IH j T (m + c)%Q tg Hj Hpos' ltac:(lra) ltac:(lra) Htg).
      destruct (j =? 0) eqn:Ej; lra.
Qed.


(** The ranks handed out by the walk never exceed the current one and
    never increase along the walk. *)
Lemma rank_from_end_bounded costs :
  forall j T m tg k, In k (rank_from_end costs j T m tg) -> k <= j.
Proof.
  induction costs as [|c costs IH]; intros j T m tg k Hin; simpl in Hin.
  - destruct Hin.
  - destruct (Qle_bool tg (m + c) && (0 <? j)); destruct Hin as [<-|Hin];
      try lia; apply IH in Hin; lia.
Qed.

Lemma nondecreasing_snoc (l : list Z) (x : Z) :
  nondecreasing l -> (forall k, In k l -> k <= x) -> nondecreasing (l ++ [x]).
Proof.
  induction l as [|a l IH]; intros Hl Hle; [exact I|].
  destruct l as [|b l].
  - simpl. split; [apply Hle; left; reflexivity | exact I].
  - destruct Hl as [Hab Hl]. change ((a :: b :: l) ++ [x]) with (a :: (b :: l) ++ [x]).
    cbn [nondecreasing app]. split; [exact Hab|].
    apply IH; [exact Hl | intros k Hk; apply Hle; right; exact Hk].
Qed.

Lemma rank_from_end_rev_nondecreasing costs :
  forall j T m tg, nondecreasing (rev (rank_from_end costs j T m tg)).
Proof.
  induction costs as [|c costs IH]; intros j T m tg; [exact I|].
  cbn [rank_from_end].
  destruct (Qle_bool tg (m + c) && (0 <? j)); cbn [rev];
    (apply nondecreasing_snoc; [apply IH|]);
    intros k Hk; apply in_rev in Hk; apply rank_from_end_bounded in Hk; lia.
Qed.

(** The rank is a non-decreasing function of the global ID, for every cost
    list and every number of ranks. *)
Lemma make_ranklist_nondecreasing (costlist : list Q) (nproc : Z) :
  nondecreasing (make_ranklist costlist nproc).
Proof. apply rank_from_end_rev_nondecreasing. Qed.

(** Without rounding: for positive costs and at least one rank, the blocks
    of rank 0 cost at most the average share of a rank. *)
Lemma rank0_at_most_average (costlist : list Q) (nproc : Z) :
  1 <= nproc ->
  (forall c, In c costlist -> (0 < c)%Q) ->
  (rank_cost 0 costlist (make_ranklist costlist nproc)
   <= total costlist / inject_Z nproc)%Q.
Proof.
  intros Hp Hpos. unfold make_ranklist.
  rewrite <- (rev_involutive costlist) at 1.
  rewrite rank_cost_rev by (rewrite rank_from_end_length; reflexivity).
  assert (Hd : (0 < inject_Z nproc)%Q) by (rewrite <- (Zlt_Qlt 0); lia).
  assert (Hpos' : forall c, In c (rev costlist) -> (0 < c)%Q)
    by (intros c Hc; apply Hpos, in_rev, Hc).
  pose proof (rank_from_end_rank0 (rev costlist) (nproc - 1) (sum_costs costlist) 0%Q
                (sum_costs costlist / inject_Z nproc)%Q) as H.
  replace (nproc - 1 + 1) with nproc in H by lia.
  assert (HT : (sum_costs costlist == total (rev costlist) + 0)%Q)
    by (rewrite total_rev, sum_costs_total; lra).
  specialize (H ltac:(lia) Hpos' ltac:(lra) HT ltac:(reflexivity)).
  destruct (nproc - 1 =? 0) eqn:E.
  - apply Z.eqb_eq in E. assert (nproc = 1) by lia. subst nproc.
    assert ((total costlist / inject_Z 1 == total costlist)%Q) by field.
    rewrite total_rev in H. lra.
  - eapply Qle_trans; [exact H|]. rewrite sum_costs_total. apply Qle_refl.
Qed.

(** *** Restart against fresh run *)

Lemma restart_rank_from_end_same costs :
  forall j T m tg,
    restart_rank_from_end costs j T m tg = rank_from_end costs j T m tg.
Proof.
  induction costs as [|c costs IH]; intros j T m tg; simpl; [reflexivity|].
  destruct (Qle_bool tg (m + c) && (0 <? j)); rewrite IH; reflexivity.
Qed.

Lemma restart_start_list_same ranks :
  forall prev i j ns nb,
    restart_start_list prev ranks i j ns nb = start_list prev ranks i j ns nb.
Proof.
  induction ranks as [|r ranks IH]; intros prev i j ns nb; simpl; [reflexivity|].
  destruct (r =? prev); apply IH.
Qed.

(** C8. From the same cost list and the same number of ranks, the loops of
    the restart constructor and those of the fresh-run constructor compute
    the same [ranklist], [nslist] and [nblist]. *)
Theorem restart_partition_same (costlist : list Q) (nproc : Z) :
  Mesh_restart_partition costlist nproc = Mesh_partition costlist nproc.
Proof.
  unfold Mesh_restart_partition, Mesh_partition,
    restart_make_ranklist, make_ranklist, restart_make_nslist, make_nslist.
  rewrite restart_rank_from_end_same.
  destruct (rev (rank_from_end (rev costlist) (nproc - 1) (sum_costs costlist) 0
                   (sum_costs costlist / inject_Z nproc))) as [|r0 rest];
    [reflexivity|].
  rewrite restart_start_list_same. reflexivity.
Qed.

(** *** The ranges derived from the rank list *)

Lemma aget_written (starts : list Z) (v : Z) (t : list (option Z)) :
  aget (map Some starts ++ Some v :: t) (Z.of_nat (length starts)) = v.
Proof.
  unfold aget. replace (Z.of_nat (length starts) <? 0) with false
    by (symmetry; apply Z.ltb_ge; lia).
  rewrite Nat2Z.id, nth_error_app2 by (rewrite length_map; lia).
  rewrite length_map, Nat.sub_diag. reflexivity.
Qed.

Lemma astore_nat_at (a : list (option Z)) (x : option Z) (t : list (option Z)) (v : Z) :
  astore_nat (a ++ x :: t) (length a) v = a ++ Some v :: t.
Proof.
  induction a as [|y a IH]; simpl; [reflexivity|]. rewrite IH. reflexivity.
Qed.

Lemma astore_at (a : list (option Z)) (x : option Z) (t : list (option Z)) (v : Z) :
  astore (a ++ x :: t) (Z.of_nat (length a)) v = a ++ Some v :: t.
Proof.
  unfold astore. replace (Z.of_nat (length a) <? 0) with false
    by (symmetry; apply Z.ltb_ge; lia).
  rewrite Nat2Z.id. apply astore_nat_at.
Qed.

Lemma runs_from_nonempty ranks :
  forall prev cur, (1 <= length (runs_from prev cur ranks))%nat.
Proof.
  induction ranks as [|r rest IH]; intros prev cur; cbn [runs_from].
  - simpl. lia.
  - destruct (r =? prev); [apply IH | simpl; lia].
Qed.

(** The loop that makes the list of starts writes one range per run. *)
Lemma start_list_runs ranks :
  forall prev cur i (starts counts : list Z) sj (k1 : nat),
    i = sj + cur ->
    length starts = length counts ->
    (length (runs_from prev cur ranks) <= 1 + k1)%nat ->
    let '(j, ns, nb) :=
      start_list prev ranks i (Z.of_nat (length starts))
                 (map Some starts ++ Some sj :: repeat None k1)
                 (map Some counts ++ repeat None (1 + k1)) in
    let R := map snd (runs_from prev cur ranks) in
    ns = map Some (starts ++ starts_from sj R)
         ++ repeat None (1 + k1 - length R) /\
    astore nb j (i + Z.of_nat (length ranks) - aget ns j)
    = map Some (counts ++ R) ++ repeat None (1 + k1 - length R).
Proof.
  induction ranks as [|r rest IH]; intros prev cur i starts counts sj k1 Hi Hlen Hfit.
  - cbn [start_list runs_from map snd length starts_from].
    rewrite aget_written. split.
    + rewrite map_app. rewrite <- app_assoc. simpl. do 3 f_equal. lia.
    + rewrite Hlen. cbn [repeat Nat.add].
      rewrite <- (length_map Some counts) at 1.
      rewrite astore_at. rewrite map_app, <- app_assoc. simpl.
      do 3 f_equal; lia.
  - cbn [start_list runs_from]. destruct (r =? prev) eqn:E.
    + apply Z.eqb_eq in E. subst r.
      specialize (IH prev (cur + 1) (i + 1) starts counts sj k1 ltac:(lia) Hlen).
      cbn [runs_from] in Hfit. rewrite Z.eqb_refl in Hfit. specialize (IH Hfit).
      destruct (start_list prev rest (i + 1) (Z.of_nat (length starts)) _ _) as [[j ns] nb].
      cbn [length]. replace (i + Z.of_nat (S (length rest)))
        with (i + 1 + Z.of_nat (length rest)) by lia.
      exact IH.
    + cbn [runs_from] in Hfit. rewrite E in Hfit. cbn [length] in Hfit.
      pose proof (runs_from_nonempty rest r 1) as Hne.
      destruct k1 as [|k1]; [lia|].
      rewrite aget_written.
      (* the count of the run that ends *)
      assert (Hnb : astore (map Some counts ++ repeat None (1 + S k1))
                           (Z.of_nat (length starts)) (i - sj)
                    = map Some (counts ++ [cur]) ++ repeat None (1 + k1)).
      { rewrite Hlen. cbn [repeat Nat.add].
        rewrite <- (length_map Some counts) at 1. rewrite astore_at.
        rewrite map_app, <- app_assoc. simpl. do 3 f_equal. lia. }
      rewrite Hnb.
      (* the start of the run that begins *)
      assert (Hns : astore (map Some starts ++ Some sj :: repeat None (S k1))
                           (Z.of_nat (length starts) + 1) i
                    = map Some (starts ++ [sj]) ++ Some i :: repeat None k1).
      { replace (Z.of_nat (length starts) + 1)
          with (Z.of_nat (length (map Some starts ++ [Some sj])))
          by (rewrite length_app, length_map; simpl; lia).
        cbn [repeat].
        replace (map Some starts ++ Some sj :: None :: repeat None k1)
          with ((map Some starts ++ [Some sj]) ++ None :: repeat None k1)
          by (rewrite <- app_assoc; reflexivity).
        rewrite astore_at. rewrite map_app. reflexivity. }
      rewrite Hns.
      specialize (IH r 1 (i + 1) (starts ++ [sj]) (counts ++ [cur]) i k1 ltac:(lia)).
      rewrite !length_app in IH. cbn [length] in IH.
      specialize (IH ltac:(lia) ltac:(lia)).
      replace (Z.of_nat (length starts) + 1) with (Z.of_nat (length starts + 1)) by lia.
      destruct (start_list r rest (i + 1) (Z.of_nat (length starts + 1)) _ _) as [[j ns] nb].
      destruct IH as [IHns IHnb].
      cbn [map snd starts_from length].
      replace (i + Z.of_nat (S (length rest)))
        with (i + 1 + Z.of_nat (length rest)) by lia.
      rewrite IHnb, IHns. rewrite <- !app_assoc. cbn [app].
      replace (sj + cur) with i by lia.
      split; reflexivity.
Qed.


Lemma starts_from_length (s : Z) (counts : list Z) :
  length (starts_from s counts) = length counts.
Proof.
  revert s. induction counts as [|c counts IH]; intros s; simpl; [reflexivity|].
  rewrite IH. reflexivity.
Qed.

(** The arrays that the constructor derives from a rank list: cell [k]
    holds the start and the length of run number [k], and the cells past
    the last run are not written. *)
Lemma make_nslist_runs (ranklist : list Z) (nproc : Z) :
  ranklist <> [] ->
  (length (runs ranklist) <= Z.to_nat nproc)%nat ->
  make_nslist ranklist nproc
  = (array_of nproc (starts_from 0 (map snd (runs ranklist))),
     array_of nproc (map snd (runs ranklist))).
Proof.
  destruct ranklist as [|r0 rest]; [contradiction|]. intros _ Hfit.
  cbn [runs] in *. unfold make_nslist, new_array, array_of.
  pose proof (runs_from_nonempty rest r0 1) as Hne.
  destruct (Z.to_nat nproc) as [|k1] eqn:En; [lia|].
  cbn [repeat]. change (astore (None :: repeat None k1) 0 0)
    with (Some 0 :: repeat (@None Z) k1).
  pose proof (start_list_runs rest r0 1 1 [] [] 0 k1 eq_refl eq_refl Hfit) as H.
  cbn [map app length Z.of_nat repeat Nat.add] in H.
  destruct (start_list r0 rest 1 0 (Some 0 :: repeat None k1)
              (None :: repeat None k1)) as [[j ns] nb].
  destruct H as [Hns Hnb]. cbn [length].
  replace (Z.of_nat (S (length rest))) with (1 + Z.of_nat (length rest)) by lia.
  rewrite Hnb, Hns. rewrite starts_from_length, !length_map. reflexivity.
Qed.

Lemma runs_from_expand ranks :
  forall prev cur, 0 <= cur ->
    expand (runs_from prev cur ranks) = repeat prev (Z.to_nat cur) ++ ranks.
Proof.
  induction ranks as [|r rest IH]; intros prev cur Hc; cbn [runs_from].
  - unfold expand. simpl. reflexivity.
  - destruct (r =? prev) eqn:E.
    + apply Z.eqb_eq in E. subst r. rewrite IH by lia.
      replace (Z.to_nat (cur + 1)) with (Z.to_nat cur + 1)%nat by lia.
      rewrite repeat_app, <- app_assoc. reflexivity.
    + unfold expand in *. cbn [flat_map fst snd]. rewrite IH by lia.
      reflexivity.
Qed.

(** The runs spell out the rank list. *)
Lemma runs_expand (ranklist : list Z) : expand (runs ranklist) = ranklist.
Proof.
  destruct ranklist as [|r0 rest]; [reflexivity|].
  cbn [runs]. rewrite runs_from_expand by lia. reflexivity.
Qed.

Lemma runs_from_positive ranks :
  forall prev cur, 0 < cur ->
    forall rc, In rc (runs_from prev cur ranks) -> 0 < snd rc.
Proof.
  induction ranks as [|r rest IH]; intros prev cur Hc rc Hin; cbn [runs_from] in Hin.
  - destruct Hin as [<-|[]]. exact Hc.
  - destruct (r =? prev).
    + eapply IH; [|exact Hin]. lia.
    + destruct Hin as [<-|Hin]; [exact Hc|]. eapply IH; [|exact Hin]. lia.
Qed.

(** No run is empty. *)
Lemma runs_positive (ranklist : list Z) :
  forall rc, In rc (runs ranklist) -> 0 < snd rc.
Proof.
  destruct ranklist as [|r0 rest]; [intros rc []|].
  cbn [runs]. apply runs_from_positive. lia.
Qed.

Lemma runs_from_increasing ranks :
  forall prev cur,
    nondecreasing (prev :: ranks) ->
    increasing (map fst (runs_from prev cur ranks)) /\
    exists c rest', runs_from prev cur ranks = (prev, c) :: rest'.
Proof.
  induction ranks as [|r rest IH]; intros prev cur Hnd; cbn [runs_from].
  - split; [exact I | eauto].
  - destruct Hnd as [Hle Hnd]. destruct (r =? prev) eqn:E.
    + apply Z.eqb_eq in E. subst r. apply IH. exact Hnd.
    + apply Z.eqb_neq in E. destruct (IH r 1 Hnd) as (Hinc & c & rest' & Er).
      split; [|eauto]. rewrite Er in *. cbn [map fst increasing] in *.
      split; [lia | exact Hinc].
Qed.

Lemma increasing_above (l : list Z) :
  forall a b x, a < b -> increasing (b :: l) -> In x (b :: l) -> a + 1 <= x.
Proof.
  induction l as [|c l IH]; intros a b x Hab Hinc [<-|Hx]; try lia.
  - destruct Hx.
  - destruct Hinc as [Hbc Hinc].
    pose proof (IH b c x Hbc Hinc Hx). lia.
Qed.

Lemma increasing_length (l : list Z) :
  forall lo hi, increasing l -> (forall x, In x l -> lo <= x <= hi) ->
                Z.of_nat (length l) <= Z.max 0 (hi - lo + 1).
Proof.
  induction l as [|a l IH]; intros lo hi Hinc Hb; [simpl; lia|].
  assert (Ha : lo <= a <= hi) by (apply Hb; left; reflexivity).
  destruct l as [|b l]; [simpl; lia|].
  destruct Hinc as [Hab Hinc].
  specialize (IH (a + 1) hi Hinc).
  assert (Hb' : forall x, In x (b :: l) -> a + 1 <= x <= hi).
  { intros x Hx. split; [|apply Hb; right; exact Hx].
    eapply increasing_above; eassumption. }
  specialize (IH Hb'). cbn [length] in *. lia.
Qed.

(** Increasing ranks that fill their interval are the consecutive ones. *)
Lemma increasing_full (l : list Z) :
  forall lo hi, increasing l -> (forall x, In x l -> lo <= x <= hi) ->
                Z.of_nat (length l) = hi - lo + 1 ->
                l = count_up lo (length l).
Proof.
  induction l as [|a l IH]; intros lo hi Hinc Hb Hlen; [reflexivity|].
  assert (Ha : lo <= a <= hi) by (apply Hb; left; reflexivity).
  assert (Hrest : increasing l /\ forall x, In x l -> a + 1 <= x <= hi).
  { destruct l as [|b l]; [split; [exact I | intros x []]|].
    destruct Hinc as [Hab Hinc]. split; [exact Hinc|].
    intros x Hx. split; [|apply Hb; right; exact Hx].
    eapply increasing_above; eassumption. }
  destruct Hrest as [Hinc' Hb'].
  pose proof (increasing_length l (a + 1) hi Hinc' Hb') as Hmax.
  cbn [length] in *. assert (a = lo) by lia. subst a.
  cbn [count_up]. f_equal. apply (IH (lo + 1) hi Hinc' Hb'). lia.
Qed.


Lemma rank_from_end_nonneg costs :
  forall j T m tg k, 0 <= j -> In k (rank_from_end costs j T m tg) -> 0 <= k.
Proof.
  induction costs as [|c costs IH]; intros j T m tg k Hj Hin; simpl in Hin.
  - destruct Hin.
  - destruct (Qle_bool tg (m + c) && (0 <? j)) eqn:E; destruct Hin as [<-|Hin];
      try lia.
    + apply andb_true_iff in E as [_ E]. apply Z.ltb_lt in E.
      eapply IH; [|exact Hin]. lia.
    + eapply IH; [|exact Hin]. lia.
Qed.

Lemma make_ranklist_range (costlist : list Q) (nproc : Z) :
  1 <= nproc ->
  forall k, In k (make_ranklist costlist nproc) -> 0 <= k <= nproc - 1.
Proof.
  intros Hp k Hin. unfold make_ranklist in Hin. apply in_rev in Hin. split.
  - eapply rank_from_end_nonneg; [|exact Hin]. lia.
  - eapply rank_from_end_bounded. exact Hin.
Qed.

Lemma runs_from_ranks ranks :
  forall prev cur rc, In rc (runs_from prev cur ranks) -> In (fst rc) (prev :: ranks).
Proof.
  induction ranks as [|r rest IH]; intros prev cur rc Hin; cbn [runs_from] in Hin.
  - destruct Hin as [<-|[]]. left. reflexivity.
  - destruct (r =? prev) eqn:E.
    + apply Z.eqb_eq in E. subst r. apply IH in Hin.
      destruct Hin as [<-|Hin]; [left; reflexivity | right; right; exact Hin].
    + destruct Hin as [<-|Hin]; [left; reflexivity|]. right. eapply IH, Hin.
Qed.

Lemma runs_ranks (ranklist : list Z) :
  forall r, In r (map fst (runs ranklist)) -> In r ranklist.
Proof.
  intros r Hin. apply in_map_iff in Hin as (rc & <- & Hin).
  destruct ranklist as [|r0 rest]; [destruct Hin|].
  eapply runs_from_ranks, Hin.
Qed.

Lemma runs_increasing (ranklist : list Z) :
  nondecreasing ranklist -> increasing (map fst (runs ranklist)).
Proof.
  destruct ranklist as [|r0 rest]; [intros _; exact I|].
  intros Hnd. apply runs_from_increasing, Hnd.
Qed.

(** The runs of the rank list fit into the arrays. *)
Lemma make_ranklist_runs_fit (costlist : list Q) (nproc : Z) :
  1 <= nproc ->
  (length (runs (make_ranklist costlist nproc)) <= Z.to_nat nproc)%nat.
Proof.
  intros Hp.
  pose proof (increasing_length (map fst (runs (make_ranklist costlist nproc)))
                0 (nproc - 1)
                (runs_increasing _ (make_ranklist_nondecreasing costlist nproc))) as H.
  rewrite length_map in H.
  assert (Z.of_nat (length (runs (make_ranklist costlist nproc)))
          <= Z.max 0 (nproc - 1 - 0 + 1)); [|lia].
  apply H. intros x Hx. apply (make_ranklist_range costlist nproc Hp).
  apply runs_ranks, Hx.
Qed.

(** What the constructor derives, for every cost list: the rank list never
    decreases, and the cells [0..m-1] of [nslist] and [nblist] hold the
    starts and the lengths of its [m] runs of equal rank, in order; the runs
    are not empty, follow each other without a gap from ID 0 and spell out
    the whole rank list.  The cells are numbered by run, and the cells from
    [m] on are not written. *)
Lemma Mesh_partition_runs (costlist : list Q) (nproc : Z) :
  1 <= nproc -> costlist <> [] ->
  let '(ranklist, nslist, nblist) := Mesh_partition costlist nproc in
  let R := runs ranklist in
  nondecreasing ranklist /\
  (length R <= Z.to_nat nproc)%nat /\
  nslist = array_of nproc (starts_from 0 (map snd R)) /\
  nblist = array_of nproc (map snd R) /\
  expand R = ranklist /\
  (forall rc, In rc R -> 0 < snd rc) /\
  increasing (map fst R).
Proof.
  intros Hp Hne. unfold Mesh_partition.
  assert (Hne' : make_ranklist costlist nproc <> []).
  { intros E. apply (f_equal (@length Z)) in E.
    unfold make_ranklist in E.
    rewrite length_rev, rank_from_end_length, length_rev in E.
    destruct costlist; [contradiction | discriminate]. }
  rewrite (make_nslist_runs _ _ Hne' (make_ranklist_runs_fit costlist nproc Hp)).
  repeat split.
  - apply make_ranklist_nondecreasing.
  - apply make_ranklist_runs_fit, Hp.
  - apply runs_expand.
  - apply runs_positive.
  - apply runs_increasing, make_ranklist_nondecreasing.
Qed.

(** When no rank is left without a block, run number [k] is the run of
    rank [k]: the cells of [nslist] and [nblist] are then the ranges of the
    ranks, and all of them are written. *)
Lemma full_runs_by_rank (costlist : list Q) (nproc : Z) :
  1 <= nproc ->
  length (runs (make_ranklist costlist nproc)) = Z.to_nat nproc ->
  map fst (runs (make_ranklist costlist nproc)) = count_up 0 (Z.to_nat nproc).
Proof.
  intros Hp Hlen.
  rewrite <- Hlen, <- (length_map fst).
  apply (increasing_full _ 0 (nproc - 1)).
  - apply runs_increasing, make_ranklist_nondecreasing.
  - intros x Hx. apply (make_ranklist_range costlist nproc Hp), runs_ranks, Hx.
  - rewrite length_map, Hlen. lia.
Qed.


(** *** The fresh run: unit costs *)

Lemma total_unit (n : nat) : (total (repeat 1%Q n) == inject_Z (Z.of_nat n))%Q.
Proof.
  induction n as [|n IH]; [reflexivity|].
  cbn [repeat total fold_right]. fold (total (repeat 1%Q n)). rewrite IH.
  rewrite Nat2Z.inj_succ, <- Z.add_1_l, inject_Z_plus. reflexivity.
Qed.

Lemma rank_from_end_head c costs j T m tg :
  In j (rank_from_end (c :: costs) j T m tg).
Proof.
  cbn [rank_from_end]. destruct (Qle_bool tg (m + c) && (0 <? j)); left; reflexivity.
Qed.

(** With unit costs, while [j+1] buckets are open and at least [j+1]
    blocks are not yet in a closed bucket, every lower rank still gets a
    block. *)
Lemma rank_from_end_unit (n : nat) :
  forall j T m tg,
    0 <= j ->
    (T == inject_Z (Z.of_nat n) + m)%Q ->
    (tg == T / inject_Z (j + 1))%Q ->
    (0 <= m)%Q ->
    (1 <= j -> (m < tg)%Q) ->
    (inject_Z (j + 1) <= T)%Q ->
    forall r, 0 <= r < j -> In r (rank_from_end (repeat 1%Q n) j T m tg).
Proof.
  induction n as [|n IH]; intros j T m tg Hj HT Htg Hm Hopen Hfit r Hr.
  - (* no block left: the open bucket would have been closed *)
    exfalso. specialize (Hopen ltac:(lia)).
    assert (Hd : (2 <= inject_Z (j + 1))%Q) by (rewrite <- (Zle_Qle 2); lia).
    set (d := inject_Z (j + 1)) in *.
    assert (Hx : (T == tg * d)%Q) by (rewrite Htg; field; lra).
    change (inject_Z (Z.of_nat 0)) with 0%Q in HT.
    assert (HT' : (T == m)%Q) by lra.
    assert (Hprod : (0 <= tg * (d - 1))%Q) by (apply Qmult_le_0_compat; lra).
    lra.
  - cbn [repeat rank_from_end].
    assert (Hd : (1 <= inject_Z (j + 1))%Q) by (rewrite <- (Zle_Qle 1); lia).
    assert (Hn : (inject_Z (Z.of_nat (S n)) == inject_Z (Z.of_nat n) + 1)%Q)
      by (rewrite Nat2Z.inj_succ, <- Z.add_1_r, inject_Z_plus; reflexivity).
    destruct (Qle_bool tg (m + 1) && (0 <? j)) eqn:Eclose.
    + apply andb_true_iff in Eclose as [Hge Hjpos].
      apply Qle_bool_iff in Hge. apply Z.ltb_lt in Hjpos.
      specialize (Hopen ltac:(lia)).
      assert (Hd2 : (2 <= inject_Z (j + 1))%Q) by (rewrite <- (Zle_Qle 2); lia).
      assert (Hde : (inject_Z (j + 1) == inject_Z j + 1)%Q)
        by (rewrite inject_Z_plus; reflexivity).
      (* at least [j] blocks are left for the [j] buckets still to fill *)
      assert (Hleft : (T - (m + 1) == inject_Z (Z.of_nat n))%Q) by lra.
      assert (Hmany : j <= Z.of_nat n).
      { assert (Hq : (inject_Z (j - 1) < inject_Z (Z.of_nat n))%Q).
        { rewrite <- Hleft. unfold Zminus. rewrite inject_Z_plus. simpl inject_Z.
          set (d := inject_Z (j + 1)) in *.
          assert (Hx : (T == tg * d)%Q) by (rewrite Htg; field; lra).
          assert (Hone : (1 <= tg)%Q).
          { rewrite Htg. apply Qle_shift_div_l; [lra | lra]. }
          assert (Hj' : (inject_Z j == d - 1)%Q) by lra.
          assert (Hprod : (0 <= (tg - 1) * (d - 1))%Q)
            by (apply Qmult_le_0_compat; lra).
          rewrite Hj'. change (inject_Z (-1)) with (-1 # 1)%Q. lra. }
        rewrite <- Zlt_Qlt in Hq. lia. }
      right. replace (j - 1 + 1) with j by lia.
      destruct (Z.eq_dec r (j - 1)) as [->|Hne].
      * destruct n as [|n']; [simpl in Hmany; lia|]. apply rank_from_end_head.
      * apply IH; try lia.
        -- lra.
        -- replace (j - 1 + 1) with j by lia. reflexivity.
        -- lra.
        -- intros _. apply Qlt_shift_div_l.
           ++ rewrite <- (Zlt_Qlt 0). lia.
           ++ rewrite Hleft. rewrite Qmult_0_l. rewrite <- (Zlt_Qlt 0). lia.
        -- replace (j - 1 + 1) with j by lia. rewrite Hleft.
           rewrite <- Zle_Qle. exact Hmany.
    + right. apply IH; try assumption; try lra.
      intros Hj1. apply andb_false_iff in Eclose as [Hlt|Hz].
      * apply Qnot_le_lt. intros Hle. apply Qle_bool_iff in Hle. congruence.
      * apply Z.ltb_ge in Hz. lia.
Qed.

(** In the fresh run with at least as many blocks as ranks, every rank
    gets a block. *)
Lemma unit_costs_all_ranks (nbtotal : nat) (nproc : Z) :
  1 <= nproc <= Z.of_nat nbtotal ->
  forall r, 0 <= r <= nproc - 1 ->
            In r (make_ranklist (unit_costs nbtotal) nproc).
Proof.
  intros Hp r Hr. unfold make_ranklist, unit_costs. apply -> in_rev.
  rewrite rev_repeat.
  destruct (Z.eq_dec r (nproc - 1)) as [->|Hne].
  - destruct nbtotal as [|n]; [simpl in Hp; lia|]. apply rank_from_end_head.
  - assert (Hd : (0 < inject_Z nproc)%Q) by (rewrite <- (Zlt_Qlt 0); lia).
    assert (Hsum : (sum_costs (repeat 1%Q nbtotal) == inject_Z (Z.of_nat nbtotal))%Q)
      by (rewrite sum_costs_total; apply total_unit).
    assert (Hfit : (inject_Z nproc <= sum_costs (repeat 1%Q nbtotal))%Q)
      by (rewrite Hsum, <- Zle_Qle; lia).
    apply rank_from_end_unit; try lia.
    + rewrite Hsum. lra.
    + replace (nproc - 1 + 1) with nproc by lia. reflexivity.
    + lra.
    + intros _. apply Qlt_shift_div_l; [exact Hd | lra].
    + replace (nproc - 1 + 1) with nproc by lia. exact Hfit.
Qed.

Lemma count_up_spec (n : nat) :
  forall lo x, In x (count_up lo n) <-> lo <= x < lo + Z.of_nat n.
Proof.
  induction n as [|n IH]; intros lo x; cbn [count_up In].
  - lia.
  - rewrite IH. lia.
Qed.

Lemma count_up_NoDup (n : nat) : forall lo, NoDup (count_up lo n).
Proof.
  induction n as [|n IH]; intros lo; cbn [count_up]; constructor.
  - rewrite count_up_spec. lia.
  - apply IH.
Qed.

Lemma count_up_length (n : nat) : forall lo, length (count_up lo n) = n.
Proof.
  induction n as [|n IH]; intros lo; cbn [count_up length]; [reflexivity|].
  rewrite IH. reflexivity.
Qed.

Lemma ranks_in_runs (ranklist : list Z) :
  forall r, In r ranklist -> In r (map fst (runs ranklist)).
Proof.
  intros r Hin. rewrite <- (runs_expand ranklist) in Hin. unfold expand in Hin.
  apply in_flat_map in Hin as (rc & Hrc & Hr).
  apply repeat_spec in Hr. subst r. apply in_map. exact Hrc.
Qed.

(** The fresh run with at least as many blocks as ranks: with the unit
    costs of that constructor the rank list has exactly one run per rank, run
    number [k] being that of rank [k]; every cell of [nslist] and [nblist]
    is written, and the ranges they give to the ranks are not empty, follow
    each other without a gap from ID 0 and spell out the rank list. *)
Lemma Mesh_new_by_rank (nbtotal : nat) (nproc : Z) :
  1 <= nproc <= Z.of_nat nbtotal ->
  let '(ranklist, nslist, nblist) := Mesh_new nbtotal nproc in
  let R := runs ranklist in
  nondecreasing ranklist /\
  map fst R = count_up 0 (Z.to_nat nproc) /\
  nslist = map Some (starts_from 0 (map snd R)) /\
  nblist = map Some (map snd R) /\
  expand R = ranklist /\
  (forall rc, In rc R -> 0 < snd rc).
Proof.
  intros Hp. unfold Mesh_new.
  assert (Hne : unit_costs nbtotal <> [])
    by (destruct nbtotal; [simpl in Hp; lia | discriminate]).
  pose proof (Mesh_partition_runs (unit_costs nbtotal) nproc ltac:(lia) Hne) as H.
  unfold Mesh_partition in *.
  destruct (make_nslist (make_ranklist (unit_costs nbtotal) nproc) nproc)
    as [nslist nblist].
  destruct H as (Hnd & Hfit & Hns & Hnb & Hexp & Hpos & Hinc).
  assert (Hlen : length (runs (make_ranklist (unit_costs nbtotal) nproc))
                 = Z.to_nat nproc).
  { apply Nat.le_antisymm; [exact Hfit|].
    rewrite <- (length_map fst), <- (count_up_length (Z.to_nat nproc) 0).
    apply NoDup_incl_length; [apply count_up_NoDup|].
    intros r Hr. apply count_up_spec in Hr.
    apply ranks_in_runs, unit_costs_all_ranks; lia. }
  repeat split; try assumption.
  - apply full_runs_by_rank; [lia | exact Hlen].
  - rewrite Hns. unfold array_of.
    rewrite starts_from_length, length_map, Hlen, Nat.sub_diag.
    apply app_nil_r.
  - rewrite Hnb. unfold array_of. rewrite length_map, Hlen, Nat.sub_diag.
    apply app_nil_r.
Qed.

(** A small fresh run: four blocks of equal cost for two ranks. *)
Lemma Mesh_new_4_2 :
  Mesh_new 4 2 = ([0; 0; 1; 1], [Some 0; Some 2], [Some 2; Some 2]).
Proof. reflexivity. Qed.

(** C4 breaks on unequal costs. Two blocks of cost 100 and 1 for two
    ranks: the walk gives both blocks to rank 1, and the loop that makes
    the list of starts, which numbers the runs of equal rank from 0
    ([Mesh_partition_runs]), writes the range of the only run into cell 0
    and leaves cell 1, the one of rank 1, unwritten.  The cells are the
    ranges of the ranks only when no rank is left without a block
    ([full_runs_by_rank]), as with the unit costs of the fresh run
    ([Mesh_new_by_rank]). *)
Theorem partition_skips_rank :
  (forall c, In c [100#1; 1#1]%Q -> (0 < c)%Q) /\
  1 <= 2 <= Z.of_nat (length [100#1; 1#1]%Q) /\
  Mesh_restart_partition [100#1; 1#1]%Q 2
  = ([1; 1], [Some 0; None], [Some 2; None]).
Proof.
  split; [|split; [simpl; lia | reflexivity]].
  intros c [<-|[<-|[]]]; reflexivity.
Qed.

End PartitionFacts.

Section PartitionMore.
Import Partition.

Lemma sumZ_app (a b : list Z) : sumZ (a ++ b) = sumZ a + sumZ b.
Proof. induction a as [|x a IH]; simpl; [reflexivity | rewrite IH; lia]. Qed.

Lemma starts_from_nth (C : list Z) :
  forall s k c, nth_error C k = Some c ->
    nth_error (starts_from s C) k = Some (s + sumZ (firstn k C)).
Proof.
  induction C as [|x C IH]; intros s k c Hk; [destruct k; discriminate|].
  destruct k as [|k]; simpl.
  - f_equal. lia.
  - simpl in Hk. rewrite (IH (s + x) k c Hk). f_equal. lia.
Qed.

Lemma in_firstn {A : Type} (k : nat) (l : list A) (x : A) :
  In x (firstn k l) -> In x l.
Proof.
  intros H. rewrite <- (firstn_skipn k l). apply in_or_app. left. exact H.
Qed.

Lemma sumZ_nonneg (l : list Z) : (forall c, In c l -> 0 <= c) -> 0 <= sumZ l.
Proof.
  induction l as [|x l IH]; intros H; simpl; [lia|].
  specialize (IH (fun c Hc => H c (or_intror Hc))).
  specialize (H x (or_introl eq_refl)). lia.
Qed.

Lemma expand_length (R : list (Z * Z)) :
  (forall rc, In rc R -> 0 <= snd rc) ->
  Z.of_nat (length (expand R)) = sumZ (map snd R).
Proof.
  induction R as [|[r c] R IH]; intros H; [reflexivity|].
  cbn [expand flat_map map sumZ fold_right fst snd]. fold (expand R). fold (sumZ (map snd R)).
  rewrite length_app, repeat_length, Nat2Z.inj_add, IH
    by (intros rc Hrc; apply H; right; exact Hrc).
  specialize (H (r, c) (or_introl eq_refl)). simpl in H. lia.
Qed.

(** The block at offset [i] of the [k]-th run has the rank of that run. *)
Lemma expand_at (R : list (Z * Z)) :
  forall k rc i,
    (forall rc, In rc R -> 0 <= snd rc) ->
    nth_error R k = Some rc ->
    sumZ (firstn k (map snd R)) <= i < sumZ (firstn k (map snd R)) + snd rc ->
    nth_error (expand R) (Z.to_nat i) = Some (fst rc).
Proof.
  induction R as [|[r c] R IH]; intros k rc i Hpos Hk Hi; [destruct k; discriminate|].
  cbn [expand flat_map fst snd]. fold (expand R).
  assert (Hc : 0 <= c) by (apply (Hpos (r, c)); left; reflexivity).
  destruct k as [|k].
  - injection Hk as <-. simpl in Hi.
    rewrite nth_error_app1 by (rewrite repeat_length; lia).
    apply nth_error_repeat. lia.
  - cbn [nth_error] in Hk. cbn [map firstn sumZ fold_right snd] in Hi.
    fold (sumZ (firstn k (map snd R))) in Hi.
    assert (H0 : 0 <= sumZ (firstn k (map snd R))).
    { apply sumZ_nonneg. intros x Hx. apply in_firstn in Hx.
      apply in_map_iff in Hx as (rc' & <- & Hin). apply Hpos. right. exact Hin. }
    rewrite nth_error_app2 by (rewrite repeat_length; lia).
    rewrite repeat_length.
    replace (Z.to_nat i - Z.to_nat c)%nat with (Z.to_nat (i - c)) by lia.
    apply (IH k rc (i - c)); [| exact Hk | lia].
    intros rc' Hin. apply Hpos. right. exact Hin.
Qed.

(** Every block lies in some run. *)
Lemma expand_run (R : list (Z * Z)) :
  forall i,
    (forall rc, In rc R -> 0 <= snd rc) ->
    0 <= i < sumZ (map snd R) ->
    exists k rc,
      nth_error R k = Some rc /\
      sumZ (firstn k (map snd R)) <= i < sumZ (firstn k (map snd R)) + snd rc.
Proof.
  induction R as [|[r c] R IH]; intros i Hpos Hi; [simpl in Hi; lia|].
  cbn [map sumZ fold_right snd] in Hi. fold (sumZ (map snd R)) in Hi.
  destruct (Z.lt_ge_cases i c) as [Hlt | Hge].
  - exists 0%nat, (r, c). simpl. split; [reflexivity | lia].
  - destruct (IH (i - c)) as (k & rc & Hk & Hr);
      [intros rc' Hin; apply Hpos; right; exact Hin | lia |].
    exists (S k), rc. split; [exact Hk|].
    cbn [map firstn sumZ fold_right snd]. fold (sumZ (firstn k (map snd R))). lia.
Qed.

Lemma count_up_nth (n : nat) :
  forall lo k, (k < n)%nat -> nth_error (count_up lo n) k = Some (lo + Z.of_nat k).
Proof.
  induction n as [|n IH]; intros lo k Hk; [lia|].
  destruct k as [|k]; simpl; [f_equal; lia|].
  rewrite IH by lia. f_equal. lia.
Qed.

Lemma aget_array_of (n : Z) (l : list Z) (k : nat) (v : Z) :
  nth_error l k = Some v -> aget (array_of n l) (Z.of_nat k) = v.
Proof.
  intros Hk. unfold aget, array_of.
  destruct (Z.ltb_spec (Z.of_nat k) 0); [lia|]. rewrite Nat2Z.id.
  rewrite nth_error_app1
    by (rewrite length_map; apply nth_error_Some; rewrite Hk; discriminate).
  rewrite nth_error_map, Hk. reflexivity.
Qed.

Lemma nth_error_array_of (n : Z) (l : list Z) (k : nat) (v : Z) :
  nth_error l k = Some v -> nth_error (array_of n l) k = Some (Some v).
Proof.
  intros Hk. unfold array_of.
  rewrite nth_error_app1
    by (rewrite length_map; apply nth_error_Some; rewrite Hk; discriminate).
  rewrite nth_error_map, Hk. reflexivity.
Qed.

Lemma firstn_succ_sum (C : list Z) :
  forall k c, nth_error C k = Some c -> sumZ (firstn (S k) C) = sumZ (firstn k C) + c.
Proof.
  induction C as [|x C IH]; intros k c Hk; [destruct k; discriminate|].
  destruct k as [|k].
  - injection Hk as <-. simpl. lia.
  - simpl in Hk. change (firstn (S (S k)) (x :: C)) with (x :: firstn (S k) C).
    change (firstn (S k) (x :: C)) with (x :: firstn k C).
    cbn [sumZ fold_right]. fold (sumZ (firstn (S k) C)). fold (sumZ (firstn k C)).
    rewrite (IH k c Hk). lia.
Qed.

Lemma expand_ranks (R : list (Z * Z)) (x : Z) :
  In x (expand R) -> In x (map fst R).
Proof.
  induction R as [|[r c] R IH]; [intros []|].
  cbn [expand flat_map map fst snd]. fold (expand R). intros H.
  apply in_app_or in H as [H | H].
  - left. apply repeat_spec in H. auto.
  - right. apply IH, H.
Qed.

(** A rank that has one run occurs as often as that run is long. *)
Lemma count_expand (R : list (Z * Z)) (r c : Z) :
  (forall rc, In rc R -> 0 <= snd rc) -> NoDup (map fst R) -> In (r, c) R ->
  count_occ Z.eq_dec (expand R) r = Z.to_nat c.
Proof.
  induction R as [|[a ca] R IH]; intros Hpos Hnd Hin; [destruct Hin|].
  cbn [expand flat_map fst snd]. fold (expand R). rewrite count_occ_app.
  cbn [map fst] in Hnd. inversion Hnd as [|? ? Hnotin Hnd']; subst.
  destruct Hin as [E | Hin].
  - injection E as -> ->.
    rewrite count_occ_repeat_eq by reflexivity.
    rewrite (proj1 (count_occ_not_In Z.eq_dec (expand R) r)); [lia|].
    intros H. apply Hnotin, expand_ranks, H.
  - assert (Hne : r <> a).
    { intros ->. apply Hnotin. apply (in_map fst) in Hin. exact Hin. }
    rewrite count_occ_repeat_neq by exact Hne.
    apply IH; [intros rc Hrc; apply Hpos; right; exact Hrc | exact Hnd' | exact Hin].
Qed.

(** When every rank owns a block, the range that a process reads off
    [nslist] is the range of the blocks of its rank. *)
Lemma my_blocks_by_rank (costlist : list Q) (nproc myrank : Z) :
  1 <= nproc ->
  (forall r, 0 <= r < nproc -> In r (make_ranklist costlist nproc)) ->
  0 <= myrank < nproc ->
  let '(ranklist, nslist, nblist) := Mesh_partition costlist nproc in
  let (nbstart, nbend) :=
    my_blocks nslist myrank nproc (Z.of_nat (length costlist)) in
  0 <= nbstart <= nbend /\ nbend < Z.of_nat (length costlist) /\
  nth_error nslist (Z.to_nat myrank) = Some (Some nbstart) /\
  nth_error nblist (Z.to_nat myrank) = Some (Some (nbend - nbstart + 1)) /\
  Z.of_nat (count_occ Z.eq_dec ranklist myrank) = nbend - nbstart + 1 /\
  forall i, 0 <= i < Z.of_nat (length costlist) ->
    (nth_error ranklist (Z.to_nat i) = Some myrank <-> nbstart <= i <= nbend).
Proof.
  intros Hp Hall Hr.
  assert (Hne : costlist <> []).
  { intros ->. specialize (Hall 0 ltac:(lia)). unfold make_ranklist in Hall.
    simpl in Hall. exact Hall. }
  pose proof (Mesh_partition_runs costlist nproc Hp Hne) as H.
  unfold Mesh_partition in *.
  assert (HlenL : length (make_ranklist costlist nproc) = length costlist).
  { unfold make_ranklist. rewrite length_rev, rank_from_end_length, length_rev.
    reflexivity. }
  set (L := make_ranklist costlist nproc) in *.
  destruct (make_nslist L nproc) as [nslist nblist].
  destruct H as (Hnd & Hfit & Hns & Hnb & Hexp & Hpos & Hinc).
  set (R := runs L) in *.
  assert (Hlen : length R = Z.to_nat nproc).
  { apply Nat.le_antisymm; [exact Hfit|].
    rewrite <- (length_map fst), <- (count_up_length (Z.to_nat nproc) 0).
    apply NoDup_incl_length; [apply count_up_NoDup|].
    intros r Hin. apply count_up_spec in Hin.
    apply ranks_in_runs, Hall. lia. }
  pose proof (full_runs_by_rank costlist nproc Hp Hlen) as Hfst.
  fold L in Hfst. fold R in Hfst.
  assert (Hpos0 : forall rc, In rc R -> 0 <= snd rc)
    by (intros rc Hin; specialize (Hpos rc Hin); lia).
  assert (Htot : sumZ (map snd R) = Z.of_nat (length costlist))
    by (rewrite <- expand_length, Hexp, HlenL by exact Hpos0; reflexivity).
  (* the run of rank [k] is the [k]-th one *)
  assert (Hrun : forall k rc, nth_error R k = Some rc -> fst rc = Z.of_nat k).
  { intros k rc Hk.
    assert (Hlt : (k < Z.to_nat nproc)%nat)
      by (rewrite <- Hlen; apply nth_error_Some; rewrite Hk; discriminate).
    pose proof (count_up_nth (Z.to_nat nproc) 0 k Hlt) as Hc.
    rewrite <- Hfst, nth_error_map, Hk in Hc. simpl in Hc. injection Hc as ->. lia. }
  destruct (nth_error R (Z.to_nat myrank)) as [[r c]|] eqn:Emy;
    [| apply nth_error_None in Emy; lia].
  assert (Hc : 0 < c) by (apply (Hpos (r, c)); eapply nth_error_In; exact Emy).
  assert (Hcn : nth_error (map snd R) (Z.to_nat myrank) = Some c)
    by (rewrite nth_error_map, Emy; reflexivity).
  set (s := sumZ (firstn (Z.to_nat myrank) (map snd R))).
  assert (Hs0 : 0 <= s).
  { apply sumZ_nonneg. intros x Hx. apply in_firstn in Hx.
    apply in_map_iff in Hx as (rc' & <- & Hin). apply Hpos0, Hin. }
  assert (Hstart : aget nslist myrank = s).
  { rewrite Hns. rewrite <- (Z2Nat.id myrank) at 1 by lia.
    apply aget_array_of. rewrite (starts_from_nth _ 0 _ c Hcn). reflexivity. }
  assert (Hend : (if myrank + 1 =? nproc then Z.of_nat (length costlist) - 1
                  else aget nslist (myrank + 1) - 1) = s + c - 1).
  { destruct (Z.eqb_spec (myrank + 1) nproc) as [E | E].
    - rewrite <- Htot.
      rewrite <- (firstn_all (map snd R)) at 1.
      rewrite length_map, Hlen.
      replace (Z.to_nat nproc) with (S (Z.to_nat myrank)) by lia.
      rewrite (firstn_succ_sum _ _ c Hcn). reflexivity.
    - destruct (nth_error (map snd R) (Z.to_nat (myrank + 1))) as [c'|] eqn:E';
        [| apply nth_error_None in E'; rewrite length_map in E'; lia].
      rewrite Hns. rewrite <- (Z2Nat.id (myrank + 1)) at 1 by lia.
      rewrite (aget_array_of _ _ _ (0 + sumZ (firstn (Z.to_nat (myrank + 1)) (map snd R))))
        by (apply (starts_from_nth _ 0 _ c'); exact E').
      replace (Z.to_nat (myrank + 1)) with (S (Z.to_nat myrank)) by lia.
      rewrite (firstn_succ_sum _ _ c Hcn). reflexivity. }
  unfold my_blocks. rewrite Hstart, Hend.
  assert (Hsc : s + c <= Z.of_nat (length costlist)).
  { rewrite <- Htot.
    rewrite <- (firstn_skipn (S (Z.to_nat myrank)) (map snd R)) at 1.
    rewrite sumZ_app, (firstn_succ_sum _ _ c Hcn).
    assert (0 <= sumZ (skipn (S (Z.to_nat myrank)) (map snd R))); [| fold s; lia].
    apply sumZ_nonneg. intros x Hx.
    assert (Hx' : In x (map snd R)).
    { rewrite <- (firstn_skipn (S (Z.to_nat myrank)) (map snd R)).
      apply in_or_app. right. exact Hx. }
    apply in_map_iff in Hx' as (rc' & <- & Hin). apply Hpos0, Hin. }
  split; [lia | split; [lia|]].
  split; [| split; [| split]].
  - rewrite Hns. apply nth_error_array_of.
    rewrite (starts_from_nth _ 0 _ c Hcn). reflexivity.
  - rewrite Hnb. apply nth_error_array_of.
    rewrite Hcn. f_equal. lia.
  - rewrite <- Hexp.
    pose proof (Hrun _ _ Emy) as Hrk. simpl in Hrk.
    rewrite (count_expand R myrank c Hpos0).
    + lia.
    + rewrite Hfst. apply count_up_NoDup.
    + replace myrank with r by lia. eapply nth_error_In. exact Emy.
  - intros i Hi. rewrite <- Hexp. split.
    + intros Hnth.
      destruct (expand_run R i Hpos0 ltac:(lia)) as (k & rc & Hk & Hrange).
      rewrite (expand_at R k rc i Hpos0 Hk Hrange) in Hnth.
      injection Hnth as Hrk. rewrite (Hrun k rc Hk) in Hrk.
      assert (Ek : k = Z.to_nat myrank) by lia. subst k.
      rewrite Emy in Hk. injection Hk as <-. simpl in Hrange. fold s in Hrange. lia.
    + intros Hrange.
      rewrite (expand_at R (Z.to_nat myrank) (r, c) i Hpos0 Emy)
        by (fold s; simpl; lia).
      pose proof (Hrun _ _ Emy) as Hrk. simpl in Hrk. simpl. f_equal. lia.
Qed.

Lemma Zdiv_le_Q (a b d : Z) (x : Q) :
  0 < d -> (x == inject_Z a / inject_Z d)%Q ->
  ((x <= inject_Z b)%Q <-> a <= b * d).
Proof.
  intros Hd Hx.
  assert (HdQ : (0 < inject_Z d)%Q) by (rewrite <- (Zlt_Qlt 0); exact Hd).
  rewrite Hx, Zle_Qle, inject_Z_mult. split; intros H.
  - assert (E : (inject_Z a == inject_Z a / inject_Z d * inject_Z d)%Q)
      by (field; lra).
    rewrite E. apply Qmult_le_compat_r; lra.
  - apply Qle_shift_div_r; assumption.
Qed.

Lemma Zlt_div_Q (a b d : Z) (x : Q) :
  0 < d -> (x == inject_Z a / inject_Z d)%Q ->
  ((inject_Z b < x)%Q <-> b * d < a).
Proof.
  intros Hd Hx.
  assert (HdQ : (0 < inject_Z d)%Q) by (rewrite <- (Zlt_Qlt 0); exact Hd).
  rewrite Hx, Zlt_Qlt, inject_Z_mult. split; intros H.
  - assert (E : (inject_Z a == inject_Z a / inject_Z d * inject_Z d)%Q)
      by (field; lra).
    rewrite E. apply Qmult_lt_compat_r; lra.
  - apply Qlt_shift_div_l; assumption.
Qed.

Lemma count_occ_bounded (l : list Z) (j r : Z) :
  (forall k, In k l -> k <= j) -> j < r -> count_occ Z.eq_dec l r = 0%nat.
Proof.
  intros Hb Hr. apply count_occ_not_In. intros Hin. specialize (Hb r Hin). lia.
Qed.

(** With equal costs, a walk that starts with [n] blocks to visit and [m]
    blocks already given to rank [j] gives every rank from [0] to [j]
    between [q] and [Qc] blocks, when the blocks that are left allow it. *)
Lemma rank_from_end_unit_counts (n : nat) :
  forall j m T mq tg q Qc,
    0 <= j -> 0 <= m -> 1 <= q ->
    (mq == inject_Z m)%Q ->
    (T == inject_Z (Z.of_nat n + m))%Q ->
    (tg == T / inject_Z (j + 1))%Q ->
    (1 <= j -> (mq < tg)%Q) ->
    (j + 1) * q <= Z.of_nat n + m <= (j + 1) * Qc ->
    forall r, 0 <= r <= j ->
      q <= Z.of_nat (count_occ Z.eq_dec (rank_from_end (repeat 1%Q n) j T mq tg) r)
           + (if r =? j then m else 0) <= Qc.
Proof.
  induction n as [|n IH]; intros j m T mq tg q Qc Hj Hm Hq Hmq HT Htg Hopen Hinv r Hr.
  - cbn [repeat rank_from_end count_occ]. simpl Z.of_nat in *.
    assert (Htg' : (tg == inject_Z m / inject_Z (j + 1))%Q)
      by (rewrite Htg, HT; reflexivity).
    destruct (Z.eq_dec j 0) as [-> | Hj0].
    + replace r with 0 by lia. simpl. lia.
    + exfalso. specialize (Hopen ltac:(lia)). rewrite Hmq in Hopen.
      apply (Zlt_div_Q m m (j + 1) tg ltac:(lia) Htg') in Hopen. nia.
  - cbn [repeat rank_from_end].
    assert (Hmq1 : (mq + 1 == inject_Z (m + 1))%Q)
      by (rewrite inject_Z_plus, Hmq; reflexivity).
    assert (Htg' : (tg == inject_Z (Z.of_nat (S n) + m) / inject_Z (j + 1))%Q)
      by (rewrite Htg, HT; reflexivity).
    destruct (Qle_bool tg (mq + 1) && (0 <? j)) eqn:Eclose.
    + apply andb_true_iff in Eclose as [Hge Hjpos].
      apply Qle_bool_iff in Hge. apply Z.ltb_lt in Hjpos.
      specialize (Hopen ltac:(lia)).
      rewrite Hmq1 in Hge. rewrite Hmq in Hopen.
      apply (Zdiv_le_Q _ (m + 1) (j + 1) tg ltac:(lia) Htg') in Hge.
      apply (Zlt_div_Q _ m (j + 1) tg ltac:(lia) Htg') in Hopen.
      rewrite Nat2Z.inj_succ in *.
      assert (Hq1 : q <= m + 1) by nia.
      assert (Hq2 : m + 1 <= Qc) by nia.
      assert (Hlo : j * q <= Z.of_nat n) by nia.
      assert (Hhi : Z.of_nat n <= j * Qc) by nia.
      cbn [count_occ].
      destruct (Z.eq_dec j r) as [E | E].
      * subst r. rewrite Z.eqb_refl.
        rewrite (count_occ_bounded _ (j - 1) j); [lia | | lia].
        intros k Hk. eapply rank_from_end_bounded. exact Hk.
      * replace (r =? j) with false by (symmetry; apply Z.eqb_neq; lia).
        pose proof (IH (j - 1) 0 (T - (mq + 1))%Q 0%Q
                       ((T - (mq + 1)) / inject_Z (j - 1 + 1))%Q q Qc
                       ltac:(lia) ltac:(lia) Hq ltac:(reflexivity)) as IH'.
        assert (HT' : (T - (mq + 1) == inject_Z (Z.of_nat n + 0))%Q).
        { rewrite HT, Hmq1. unfold Qminus. rewrite <- inject_Z_opp, <- inject_Z_plus.
          apply inject_Z_injective. lia. }
        specialize (IH' HT' ltac:(reflexivity)).
        assert (Hopen' : 1 <= j - 1 ->
                         (0 < (T - (mq + 1)) / inject_Z (j - 1 + 1))%Q).
        { intros Hj1. apply Qlt_shift_div_l.
          - rewrite <- (Zlt_Qlt 0). lia.
          - rewrite Qmult_0_l, HT'. rewrite <- (Zlt_Qlt 0). nia. }
        specialize (IH' Hopen' ltac:(lia) r ltac:(lia)).
        destruct (r =? j - 1); lia.
    + assert (Hopen' : 1 <= j -> (mq + 1 < tg)%Q).
      { intros Hj1. apply andb_false_iff in Eclose as [Hlt|Hz].
        - apply Qnot_le_lt. intros Hle. apply Qle_bool_iff in Hle. congruence.
        - apply Z.ltb_ge in Hz. lia. }
      assert (HT' : (T == inject_Z (Z.of_nat n + (m + 1)))%Q).
      { rewrite HT. apply inject_Z_injective. lia. }
      pose proof (IH j (m + 1) T (mq + 1)%Q tg q Qc Hj ltac:(lia) Hq Hmq1 HT' Htg
                     Hopen' ltac:(lia) r Hr) as IH'.
      cbn [count_occ].
      destruct (Z.eq_dec j r) as [E | E].
      * subst r. rewrite Z.eqb_refl in *. lia.
      * replace (r =? j) with false in * by (symmetry; apply Z.eqb_neq; lia). lia.
Qed.

Lemma unit_costs_counts (nbtotal : nat) (nproc r : Z) :
  1 <= nproc <= Z.of_nat nbtotal -> 0 <= r < nproc ->
  Z.of_nat nbtotal / nproc
  <= Z.of_nat (count_occ Z.eq_dec (make_ranklist (unit_costs nbtotal) nproc) r)
  <= (Z.of_nat nbtotal + nproc - 1) / nproc.
Proof.
  intros Hp Hr. unfold make_ranklist, unit_costs.
  rewrite count_occ_rev, rev_repeat.
  assert (Hsum : (sum_costs (repeat 1%Q nbtotal) == inject_Z (Z.of_nat nbtotal + 0))%Q)
    by (rewrite sum_costs_total, total_unit, Z.add_0_r; reflexivity).
  pose proof (rank_from_end_unit_counts nbtotal (nproc - 1) 0
                (sum_costs (repeat 1%Q nbtotal)) 0%Q
                (sum_costs (repeat 1%Q nbtotal) / inject_Z nproc)%Q
                (Z.of_nat nbtotal / nproc)
                ((Z.of_nat nbtotal + nproc - 1) / nproc)) as H.
  replace (nproc - 1 + 1) with nproc in H by lia.
  assert (Hq : 1 <= Z.of_nat nbtotal / nproc)
    by (apply Z.div_le_lower_bound; lia).
  specialize (H ltac:(lia) ltac:(lia) Hq ltac:(reflexivity) Hsum ltac:(reflexivity)).
  assert (Hopen : 1 <= nproc - 1 ->
                  (0 < sum_costs (repeat 1%Q nbtotal) / inject_Z nproc)%Q).
  { intros _. apply Qlt_shift_div_l.
    - rewrite <- (Zlt_Qlt 0). lia.
    - rewrite Qmult_0_l, Hsum. rewrite <- (Zlt_Qlt 0). lia. }
  assert (Hinv : nproc * (Z.of_nat nbtotal / nproc) <= Z.of_nat nbtotal + 0
                 <= nproc * ((Z.of_nat nbtotal + nproc - 1) / nproc)).
  { split.
    - rewrite Z.add_0_r. apply Z.mul_div_le. lia.
    - pose proof (Z.mod_pos_bound (Z.of_nat nbtotal + nproc - 1) nproc ltac:(lia)).
      pose proof (Z.div_mod (Z.of_nat nbtotal + nproc - 1) nproc ltac:(lia)). lia. }
  specialize (H Hopen Hinv r ltac:(lia)).
  destruct (r =? nproc - 1); lia.
Qed.


Lemma make_ranklist_last (costlist : list Q) (nproc : Z) :
  costlist <> [] -> last (make_ranklist costlist nproc) 0 = nproc - 1.
Proof.
  intros Hne. unfold make_ranklist.
  destruct (rev costlist) as [|c rest] eqn:E.
  - apply (f_equal (@length Q)) in E. rewrite length_rev in E.
    destruct costlist; [contradiction | discriminate].
  - cbn [rank_from_end].
    destruct (Qle_bool _ _ && _); cbn [rev]; apply last_last.
Qed.

(** X8. Whatever the costs, the rank list has one entry per block, every
    entry is a rank between [0] and [nproc-1], the ranks never decrease
    along the global IDs, and the last block belongs to the last rank. *)
Theorem make_ranklist_shape (costlist : list Q) (nproc : Z) :
  1 <= nproc ->
  let ranklist := make_ranklist costlist nproc in
  length ranklist = length costlist /\
  (forall k, In k ranklist -> 0 <= k <= nproc - 1) /\
  nondecreasing ranklist /\
  (costlist <> [] -> last ranklist 0 = nproc - 1).
Proof.
  intros Hp ranklist. subst ranklist.
  split; [| split; [| split]].
  - unfold make_ranklist. rewrite length_rev, rank_from_end_length, length_rev.
    reflexivity.
  - apply make_ranklist_range, Hp.
  - apply make_ranklist_nondecreasing.
  - apply make_ranklist_last.
Qed.

(** X9. When every rank owns a block, the range [nbstart..nbend] that a
    process reads off [nslist] lies within the blocks, is not empty, is as
    long as [nblist] says, and holds exactly the blocks that the rank list
    gives to its rank. *)
Theorem nbstart_nbend_own_rank (costlist : list Q) (nproc myrank : Z) :
  1 <= nproc ->
  (forall r, 0 <= r < nproc -> In r (make_ranklist costlist nproc)) ->
  0 <= myrank < nproc ->
  let '(ranklist, nslist, nblist) := Mesh_partition costlist nproc in
  let (nbstart, nbend) :=
    my_blocks nslist myrank nproc (Z.of_nat (length costlist)) in
  0 <= nbstart <= nbend /\ nbend < Z.of_nat (length costlist) /\
  nth_error nslist (Z.to_nat myrank) = Some (Some nbstart) /\
  nth_error nblist (Z.to_nat myrank) = Some (Some (nbend - nbstart + 1)) /\
  Z.of_nat (count_occ Z.eq_dec ranklist myrank) = nbend - nbstart + 1 /\
  forall i, 0 <= i < Z.of_nat (length costlist) ->
    (nth_error ranklist (Z.to_nat i) = Some myrank <-> nbstart <= i <= nbend).
Proof. apply my_blocks_by_rank. Qed.

Lemma create_blocks_spec (nbstart nbend : Z) :
  nbstart <= nbend ->
  Z.of_nat (length (create_blocks nbstart nbend)) = nbend - nbstart + 1 /\
  map snd (create_blocks nbstart nbend)
  = count_up 0 (length (create_blocks nbstart nbend)) /\
  forall i, In i (map fst (create_blocks nbstart nbend)) <-> nbstart <= i <= nbend.
Proof.
  intros Hle. unfold create_blocks.
  set (n := Z.to_nat (nbend - nbstart + 1)).
  rewrite length_map, count_up_length.
  split; [lia | split].
  - rewrite map_map. cbn [snd].
    assert (H : forall k lo, map (fun x => x - nbstart) (count_up (nbstart + lo) k)
                             = count_up lo k).
    { induction k as [|k IH]; intros lo; [reflexivity|].
      cbn [count_up map]. f_equal; [lia|].
      rewrite <- (IH (lo + 1)). f_equal. f_equal. lia. }
    rewrite <- (H n 0). f_equal. f_equal. lia.
  - intros i. rewrite map_map. cbn [fst]. rewrite map_id, count_up_spec. lia.
Qed.

(** X10. In a fresh run with at least as many blocks as processes, the loop
    that creates the blocks of a process makes [nbend-nbstart+1] blocks, at
    least one, with local IDs [0,1,...], and their global IDs are exactly
    the blocks that the rank list gives to the process. *)
Theorem fresh_run_creates_own_blocks (nbtotal : nat) (nproc myrank : Z) :
  1 <= nproc <= Z.of_nat nbtotal ->
  0 <= myrank < nproc ->
  let '(ranklist, nslist, _) := Mesh_new nbtotal nproc in
  let (nbstart, nbend) := my_blocks nslist myrank nproc (Z.of_nat nbtotal) in
  let blocks := create_blocks nbstart nbend in
  Z.of_nat (length blocks) = nbend - nbstart + 1 /\
  blocks <> [] /\
  map snd blocks = count_up 0 (length blocks) /\
  forall i, In i (map fst blocks) <->
            0 <= i < Z.of_nat nbtotal /\
            nth_error ranklist (Z.to_nat i) = Some myrank.
Proof.
  intros Hp Hr. unfold Mesh_new.
  pose proof (my_blocks_by_rank (unit_costs nbtotal) nproc myrank ltac:(lia)) as H.
  specialize (H (fun r Hr0 => unit_costs_all_ranks nbtotal nproc Hp r ltac:(lia)) Hr).
  assert (Hlen0 : length (unit_costs nbtotal) = nbtotal) by apply repeat_length.
  rewrite Hlen0 in H.
  destruct (Mesh_partition (unit_costs nbtotal) nproc) as [[ranklist nslist] nblist].
  destruct (my_blocks nslist myrank nproc (Z.of_nat nbtotal)) as [nbstart nbend].
  destruct H as (Hb & He & _ & _ & _ & Hown).
  destruct (create_blocks_spec nbstart nbend ltac:(lia)) as (Hlen & Hlid & Hgid).
  cbv zeta. split; [exact Hlen | split; [| split; [exact Hlid|]]].
  - intros E. rewrite E in Hlen. simpl in Hlen. lia.
  - intros i. rewrite Hgid. split.
    + intros Hi. split; [lia | apply Hown; lia].
    + intros [Hi Hn]. apply Hown; assumption.
Qed.

(** X11. In a fresh run with at least as many blocks as processes the blocks
    are spread evenly: every process gets [nbtotal/nproc] blocks, rounded
    down or up. *)
Theorem fresh_run_balanced (nbtotal : nat) (nproc myrank : Z) :
  1 <= nproc <= Z.of_nat nbtotal ->
  0 <= myrank < nproc ->
  let '(_, nslist, nblist) := Mesh_new nbtotal nproc in
  let (nbstart, nbend) := my_blocks nslist myrank nproc (Z.of_nat nbtotal) in
  nth_error nblist (Z.to_nat myrank) = Some (Some (nbend - nbstart + 1)) /\
  Z.of_nat nbtotal / nproc <= nbend - nbstart + 1
  <= (Z.of_nat nbtotal + nproc - 1) / nproc.
Proof.
  intros Hp Hr. unfold Mesh_new.
  pose proof (my_blocks_by_rank (unit_costs nbtotal) nproc myrank ltac:(lia)) as H.
  specialize (H (fun r Hr0 => unit_costs_all_ranks nbtotal nproc Hp r ltac:(lia)) Hr).
  pose proof (unit_costs_counts nbtotal nproc myrank Hp Hr) as Hc.
  unfold Mesh_partition in *.
  destruct (make_nslist (make_ranklist (unit_costs nbtotal) nproc) nproc)
    as [nslist nblist].
  assert (Hlen0 : length (unit_costs nbtotal) = nbtotal) by apply repeat_length.
  rewrite Hlen0 in H.
  destruct (my_blocks nslist myrank nproc (Z.of_nat nbtotal)) as [nbstart nbend].
  destruct H as (_ & _ & _ & Hnb & Hcount & _).
  split; [exact Hnb | lia].
Qed.

End PartitionMore.

Section PartitionMoreExamples.
Import Partition Examples.

Lemma make_ranklist_shape_witness :
  1 <= 3 /\
  let ranklist := make_ranklist ex_costs 3 in
  length ranklist = length ex_costs /\
  (forall k, In k ranklist -> 0 <= k <= 3 - 1) /\
  nondecreasing ranklist /\
  (ex_costs <> [] -> last ranklist 0 = 3 - 1).
Proof.
  assert (H : 1 <= 3) by lia.
  split; [exact H|]. exact (make_ranklist_shape ex_costs 3 H).
Defined.

Lemma ex_costs_ranklist : make_ranklist ex_costs 3 = [0; 1; 1; 2; 2; 2].
Proof. vm_compute. reflexivity. Qed.

Lemma ex_costs_all_ranks :
  forall r, 0 <= r < 3 -> In r (make_ranklist ex_costs 3).
Proof.
  intros r Hr. rewrite ex_costs_ranklist.
  assert (E : r = 0 \/ r = 1 \/ r = 2) by lia.
  destruct E as [-> | [-> | ->]]; simpl; auto.
Qed.

Lemma nbstart_nbend_own_rank_witness :
  (1 <= 3 /\ (forall r, 0 <= r < 3 -> In r (make_ranklist ex_costs 3)) /\
   0 <= 1 < 3) /\
  let '(ranklist, nslist, nblist) := Mesh_partition ex_costs 3 in
  let (nbstart, nbend) := my_blocks nslist 1 3 (Z.of_nat (length ex_costs)) in
  0 <= nbstart <= nbend /\ nbend < Z.of_nat (length ex_costs) /\
  nth_error nslist (Z.to_nat 1) = Some (Some nbstart) /\
  nth_error nblist (Z.to_nat 1) = Some (Some (nbend - nbstart + 1)) /\
  Z.of_nat (count_occ Z.eq_dec ranklist 1) = nbend - nbstart + 1 /\
  forall i, 0 <= i < Z.of_nat (length ex_costs) ->
    (nth_error ranklist (Z.to_nat i) = Some 1 <-> nbstart <= i <= nbend).
Proof.
  assert (Hp : 1 <= 3) by lia.
  assert (Hr : 0 <= 1 < 3) by lia.
  split; [split; [exact Hp | split; [exact ex_costs_all_ranks | exact Hr]]|].
  exact (nbstart_nbend_own_rank ex_costs 3 1 Hp ex_costs_all_ranks Hr).
Defined.

Lemma fresh_run_creates_own_blocks_witness :
  (1 <= 2 <= Z.of_nat 5 /\ 0 <= 1 < 2) /\
  let '(ranklist, nslist, _) := Mesh_new 5 2 in
  let (nbstart, nbend) := my_blocks nslist 1 2 (Z.of_nat 5) in
  let blocks := create_blocks nbstart nbend in
  Z.of_nat (length blocks) = nbend - nbstart + 1 /\
  blocks <> [] /\
  map snd blocks = count_up 0 (length blocks) /\
  forall i, In i (map fst blocks) <->
            0 <= i < Z.of_nat 5 /\
            nth_error ranklist (Z.to_nat i) = Some 1.
Proof.
  assert (Hp : 1 <= 2 <= Z.of_nat 5) by (simpl; lia).
  assert (Hr : 0 <= 1 < 2) by lia.
  split; [split; assumption|].
  exact (fresh_run_creates_own_blocks 5 2 1 Hp Hr).
Defined.

Lemma fresh_run_balanced_witness :
  (1 <= 2 <= Z.of_nat 5 /\ 0 <= 1 < 2) /\
  let '(_, nslist, nblist) := Mesh_new 5 2 in
  let (nbstart, nbend) := my_blocks nslist 1 2 (Z.of_nat 5) in
  nth_error nblist (Z.to_nat 1) = Some (Some (nbend - nbstart + 1)) /\
  Z.of_nat 5 / 2 <= nbend - nbstart + 1 <= (Z.of_nat 5 + 2 - 1) / 2.
Proof.
  assert (Hp : 1 <= 2 <= Z.of_nat 5) by (simpl; lia).
  assert (Hr : 0 <= 1 < 2) by lia.
  split; [split; assumption|].
  exact (fresh_run_balanced 5 2 1 Hp Hr).
Defined.

End PartitionMoreExamples.

(** *** The walk with rounding *)

Section RoundedShape.
Import RealArith Partition.
Context {Real : Type} {arith : Arith Real}.

Lemma rounded_walk_length (costs : list Real) :
  forall j T m tg, length (Rounded.rank_from_end costs j T m tg) = length costs.
Proof.
  induction costs as [|c costs IH]; intros j T m tg; simpl; [reflexivity|].
  destruct (r_geb (r_add m c) tg && (0 <? j)); simpl; rewrite IH; reflexivity.
Qed.

Lemma rounded_walk_bounded (costs : list Real) :
  forall j T m tg k, In k (Rounded.rank_from_end costs j T m tg) -> k <= j.
Proof.
  induction costs as [|c costs IH]; intros j T m tg k Hin; simpl in Hin.
  - destruct Hin.
  - destruct (r_geb (r_add m c) tg && (0 <? j)); destruct Hin as [<-|Hin];
      try lia; apply IH in Hin; lia.
Qed.

Lemma rounded_walk_nonneg (costs : list Real) :
  forall j T m tg k,
    0 <= j -> In k (Rounded.rank_from_end costs j T m tg) -> 0 <= k.
Proof.
  induction costs as [|c costs IH]; intros j T m tg k Hj Hin; simpl in Hin.
  - destruct Hin.
  - destruct (r_geb (r_add m c) tg && (0 <? j)) eqn:E; destruct Hin as [<-|Hin];
      try lia.
    + apply andb_true_iff in E as [_ E]. apply Z.ltb_lt in E.
      eapply IH; [|exact Hin]. lia.
    + eapply IH; [|exact Hin]. lia.
Qed.

Lemma rounded_walk_nondecreasing (costs : list Real) :
  forall j T m tg, nondecreasing (rev (Rounded.rank_from_end costs j T m tg)).
Proof.
  induction costs as [|c costs IH]; intros j T m tg; [exact I|].
  cbn [Rounded.rank_from_end].
  destruct (r_geb (r_add m c) tg && (0 <? j)); cbn [rev];
    (apply nondecreasing_snoc; [apply IH|]);
    intros k Hk; apply in_rev in Hk; apply rounded_walk_bounded in Hk; lia.
Qed.

(** X29. Whatever the arithmetic of [Real] is, with or without rounding,
    and whatever the costs are, the rank list has one entry per block,
    every entry is a rank between [0] and [nproc-1], the ranks never
    decrease along the global IDs, and the last block belongs to the last
    rank: the comparison [mycost >= targetcost] only decides where a rank
    ends. *)
Theorem ranklist_shape_any_arithmetic (costlist : list Real) (nproc : Z) :
  1 <= nproc ->
  let ranklist := Rounded.make_ranklist costlist nproc in
  length ranklist = length costlist /\
  (forall k, In k ranklist -> 0 <= k <= nproc - 1) /\
  nondecreasing ranklist /\
  (costlist <> [] -> last ranklist 0 = nproc - 1).
Proof.
  intros Hp ranklist. subst ranklist. unfold Rounded.make_ranklist.
  split; [| split; [| split]].
  - rewrite length_rev, rounded_walk_length, length_rev. reflexivity.
  - intros k Hin. apply in_rev in Hin. split.
    + eapply rounded_walk_nonneg; [|exact Hin]. lia.
    + eapply rounded_walk_bounded. exact Hin.
  - apply rounded_walk_nondecreasing.
  - intros Hne. destruct (rev costlist) as [|c rest] eqn:E.
    + apply (f_equal (@length Real)) in E. rewrite length_rev in E.
      destruct costlist; [contradiction | discriminate].
    + cbn [Rounded.rank_from_end].
      destruct (r_geb _ _ && _); cbn [rev]; apply last_last.
Qed.

End RoundedShape.

Section RoundedFacts.
Import RealArith Partition Examples.

(** Over numbers without rounding the walk is the one of [Partition]. *)
Lemma rank_from_end_exact (costs : list Q) :
  forall j totalcost mycost targetcost,
    Rounded.rank_from_end (arith := exact) costs j totalcost mycost targetcost
    = rank_from_end costs j totalcost mycost targetcost.
Proof.
  induction costs as [|c rest IH]; intros j totalcost mycost targetcost.
  - reflexivity.
  - cbn [Rounded.rank_from_end rank_from_end].
    cbn [r_add r_geb r_sub r_div of_int exact].
    destruct (Qle_bool targetcost (mycost + c) && (0 <? j)); rewrite IH; reflexivity.
Qed.

Lemma make_ranklist_exact (costlist : list Q) (nproc : Z) :
  Rounded.make_ranklist (arith := exact) costlist nproc
  = make_ranklist costlist nproc.
Proof.
  unfold Rounded.make_ranklist, make_ranklist.
  rewrite rank_from_end_exact. reflexivity.
Qed.

(** On costs that are integers the walk on doubles is the exact one: the
    two blocks of cost 100 and 1 both go to rank 1. *)
Lemma unequal_costs_rounded :
  Rounded.make_ranklist (arith := binary64)
    [of_int (Arith := binary64) 100; of_int (Arith := binary64) 1] 2 = [1; 1].
Proof. vm_compute. reflexivity. Qed.


(** Read over exact numbers the walk gives both of these blocks to rank 1,
    and rank 0 nothing. *)
Lemma close_costs_exact :
  make_ranklist (map value close_costs) 2 = [1; 1].
Proof. vm_compute. reflexivity. Qed.

(** The same with [Real] as [float]. *)
Lemma rank0_above_average_float :
  Rounded.make_ranklist (arith := binary32) close_costs_float 2 = [0; 1] /\
  (total (map value close_costs_float) / inject_Z 2
   < rank_cost 0 (map value close_costs_float)
               (Rounded.make_ranklist (arith := binary32) close_costs_float 2))%Q.
Proof. split; vm_compute; reflexivity. Qed.

Lemma ranklist_shape_any_arithmetic_witness :
  1 <= 2 /\
  let ranklist := Rounded.make_ranklist (arith := binary64) close_costs 2 in
  length ranklist = length close_costs /\
  (forall k, In k ranklist -> 0 <= k <= 2 - 1) /\
  nondecreasing ranklist /\
  (close_costs <> [] -> last ranklist 0 = 2 - 1).
Proof.
  assert (H : 1 <= 2) by lia.
  split; [exact H|].
  exact (ranklist_shape_any_arithmetic (arith := binary64) close_costs 2 H).
Defined.

End RoundedFacts.

(** ** The next time step *)

Section TimeStepFacts.
Import TimeStep.

Lemma std_min_cases (a b : Q) :
  (std_min a b = a /\ (a <= b)%Q) \/ (std_min a b = b /\ (b < a)%Q).
Proof.
  unfold std_min. destruct (Qle_bool a b) eqn:E; simpl.
  - left. split; [reflexivity | apply Qle_bool_iff, E].
  - right. split; [reflexivity|]. apply Qnot_le_lt. intros H.
    apply Qle_bool_iff in H. congruence.
Qed.

Lemma std_min_le_r (a b : Q) : (std_min a b <= b)%Q.
Proof. destruct (std_min_cases a b) as [[-> H]|[-> H]]; lra. Qed.

(** The running minimum is a least element of what it has seen. *)
Lemma MPI_Allreduce_MIN_minimum (others : list Q) :
  forall seen x, is_minimum x seen ->
    is_minimum (MPI_Allreduce_MIN x others) (seen ++ others).
Proof.
  induction others as [|y others IH]; intros seen x Hx; simpl.
  - rewrite app_nil_r. exact Hx.
  - replace (seen ++ y :: others) with ((seen ++ [y]) ++ others)
      by (rewrite <- app_assoc; reflexivity).
    apply IH. destruct Hx as [Hin Hle].
    destruct (std_min_cases x y) as [[-> H]|[-> H]]; split.
    + apply in_or_app. left. exact Hin.
    + intros z Hz. apply in_app_or in Hz as [Hz|[<-|[]]]; [apply Hle, Hz | exact H].
    + apply in_or_app. right. left. reflexivity.
    + intros z Hz. apply in_app_or in Hz as [Hz|[<-|[]]]; [|lra].
      specialize (Hle z Hz). lra.
Qed.

Lemma min_over_blocks_minimum (bs : list MeshBlock) :
  forall seen x, is_minimum x seen ->
    is_minimum (min_over_blocks x bs) (seen ++ map new_block_dt bs).
Proof.
  induction bs as [|b bs IH]; intros seen x Hx; simpl.
  - rewrite app_nil_r. exact Hx.
  - replace (seen ++ new_block_dt b :: map new_block_dt bs)
      with ((seen ++ [new_block_dt b]) ++ map new_block_dt bs)
      by (rewrite <- app_assoc; reflexivity).
    apply IH. destruct Hx as [Hin Hle].
    destruct (std_min_cases x (new_block_dt b)) as [[-> H]|[-> H]]; split.
    + apply in_or_app. left. exact Hin.
    + intros z Hz. apply in_app_or in Hz as [Hz|[<-|[]]]; [apply Hle, Hz | exact H].
    + apply in_or_app. right. left. reflexivity.
    + intros z Hz. apply in_app_or in Hz as [Hz|[<-|[]]]; [|lra].
      specialize (Hle z Hz). lra.
Qed.

(** C9 (as the code has it). On a mesh with at least one block the new
    [dt] is [min(m * cfl_number, 2 * dt)], where [m] is a least element of
    the steps recommended by the blocks and of the values of the other
    ranks; it depends on the previous [dt] and on the CFL number as well. *)
Theorem NewTimeStep_min_reduction (others : list Q) (m : Mesh) :
  pblock m <> [] ->
  exists m' mn,
    NewTimeStep others m = Some m' /\
    is_minimum mn (block_steps m ++ others) /\
    dt m' = std_min (mn * cfl_number m) (2 * dt m).
Proof.
  intros Hne. unfold NewTimeStep, block_steps.
  destruct (pblock m) as [|b rest]; [contradiction|].
  eexists _, _. split; [reflexivity|]. split; [|reflexivity].
  apply MPI_Allreduce_MIN_minimum.
  apply (min_over_blocks_minimum rest [new_block_dt b]).
  split; [left; reflexivity | intros y [<-|[]]; lra].
Qed.

(** C10. On a mesh with at least one block the new [dt] is at most twice
    the previous one, whatever the blocks recommend. *)
Theorem NewTimeStep_at_most_doubles (others : list Q) (m : Mesh) :
  pblock m <> [] ->
  exists m', NewTimeStep others m = Some m' /\ (dt m' <= 2 * dt m)%Q.
Proof.
  intros Hne. unfold NewTimeStep.
  destruct (pblock m) as [|b rest]; [contradiction|].
  eexists. split; [reflexivity|]. simpl. apply std_min_le_r.
Qed.

End TimeStepFacts.

Section TimeStepMore.
Import TimeStep.

Lemma std_min_le_l (a b : Q) : (std_min a b <= a)%Q.
Proof. destruct (std_min_cases a b) as [[-> _] | [-> H]]; lra. Qed.

Lemma NewTimeStep_minimum (others : list Q) (m : Mesh) :
  pblock m <> [] ->
  exists mn,
    is_minimum mn (block_steps m ++ others) /\
    NewTimeStep others m
    = Some (mkMesh (pblock m) (std_min (mn * cfl_number m) (2 * dt m))%Q
                   (cfl_number m)).
Proof.
  intros Hne. unfold NewTimeStep, block_steps.
  destruct (pblock m) as [|pmb rest]; [contradiction|].
  eexists. split; [| reflexivity].
  cbn [map]. change (new_block_dt pmb :: map new_block_dt rest ++ others)
    with (([new_block_dt pmb] ++ map new_block_dt rest) ++ others).
  apply MPI_Allreduce_MIN_minimum.
  apply (min_over_blocks_minimum rest [new_block_dt pmb]).
  split; [left; reflexivity|].
  intros y [<- | []]. apply Qle_refl.
Qed.

(** X12. With a CFL number that is not negative, the new time step is at
    most the CFL number times the step recommended by any block, on this
    process or on another (Real as exact rationals). *)
Theorem NewTimeStep_within_cfl (others : list Q) (m : Mesh) :
  pblock m <> [] ->
  (0 <= cfl_number m)%Q ->
  exists m',
    NewTimeStep others m = Some m' /\
    forall x, In x (block_steps m ++ others) -> (dt m' <= cfl_number m * x)%Q.
Proof.
  intros Hne Hcfl.
  destruct (NewTimeStep_minimum others m Hne) as (mn & [_ Hmin] & E).
  eexists. split; [exact E|]. cbn [dt].
  intros x Hx. specialize (Hmin x Hx).
  eapply Qle_trans; [apply std_min_le_l|].
  assert (H : (0 <= (x - mn) * cfl_number m)%Q)
    by (apply Qmult_le_0_compat; lra).
  lra.
Qed.

End TimeStepMore.

(** ** The wiring of the face neighbours *)

Section NeighborFacts.
Import Neighbors.

Context {BlockTree BlockUID : Type}.
Variable FindNeighbor : direction -> BlockUID -> Z -> Z -> Z -> Z -> option BlockTree.
Variable GetNeighbor : BlockTree -> NeighborBlock.
Variable GetLeaf : BlockTree -> Z -> Z -> Z -> option BlockTree.

Implicit Types (s : Setting BlockUID) (tbl : NeighborTable) (dir d : direction).

Lemma direction_eqb_eq d dir : direction_eqb d dir = true <-> d = dir.
Proof. destruct d, dir; simpl; split; intros H; congruence. Qed.

Lemma direction_eqb_refl d : direction_eqb d d = true.
Proof. destruct d; reflexivity. Qed.

Lemma SetNeighbor_other tbl dir r l g i fb1 fb2 d a b :
  d <> dir -> SetNeighbor tbl dir r l g i fb1 fb2 d a b = tbl d a b.
Proof.
  intros Hne. unfold SetNeighbor.
  destruct (direction_eqb d dir) eqn:E; [|reflexivity].
  apply direction_eqb_eq in E. contradiction.
Qed.

Lemma set_leaves_other s dir neibt cs :
  forall tbl tbl' d a b,
    set_leaves GetNeighbor GetLeaf s tbl dir neibt cs = inr tbl' ->
    d <> dir -> tbl' d a b = tbl d a b.
Proof.
  induction cs as [|[[[ox oy] oz] [fb1 fb2]] cs IH]; intros tbl tbl' d a b E Hne;
    simpl in E.
  - injection E as <-. reflexivity.
  - destruct (GetLeaf neibt ox oy oz) as [leaf|]; [|discriminate].
    rewrite (IH _ _ d a b E Hne). apply SetNeighbor_other. exact Hne.
Qed.

(** Wiring a face leaves the other faces alone. *)
Lemma wire_face_other s tbl tbl' dir d a b :
  wire_face FindNeighbor GetNeighbor GetLeaf s tbl dir = inr tbl' ->
  d <> dir -> tbl' d a b = tbl d a b.
Proof.
  unfold wire_face. intros E Hne.
  destruct (no_lookup s dir).
  - injection E as <-. apply SetNeighbor_other. exact Hne.
  - destruct (FindNeighbor dir (buid s) (nrbx1 s) (nrbx2 s) (nrbx3 s) (root_level s))
      as [neibt|]; [|discriminate].
    destruct (same_or_coarser s (GetNeighbor neibt)).
    + injection E as <-. apply SetNeighbor_other. exact Hne.
    + eapply set_leaves_other; eassumption.
Qed.

Lemma wire_face_spec s tbl dir neibt :
  (forall a b, tbl dir a b = None) ->
  no_lookup s dir = false ->
  FindNeighbor dir (buid s) (nrbx1 s) (nrbx2 s) (nrbx3 s) (root_level s) = Some neibt ->
  (same_or_coarser s (GetNeighbor neibt) = false -> leaves_exist GetLeaf dir neibt) ->
  exists tbl', wire_face FindNeighbor GetNeighbor GetLeaf s tbl dir = inr tbl' /\
               face_wired GetNeighbor GetLeaf s tbl' dir neibt.
Proof.
  intros Hempty Hlook Hfind Hleaves. unfold wire_face, face_wired.
  rewrite Hlook, Hfind.
  destruct (same_or_coarser s (GetNeighbor neibt)) eqn:Hsc.
  - eexists. split; [reflexivity|]. unfold set_from, records, SetNeighbor. simpl.
    rewrite direction_eqb_refl, !Hempty. simpl. split; reflexivity.
  - specialize (Hleaves eq_refl). unfold leaves_exist in Hleaves.
    destruct dir; cbn [leaf_calls set_leaves] in *;
    repeat match goal with
    | |- context [GetLeaf neibt ?x ?y ?z] =>
      let E := fresh "E" in
      destruct (GetLeaf neibt x y z) eqn:E;
      [| exfalso; eapply (Hleaves x y z); [simpl; eauto 6 | exact E]]
    end;
    (eexists; split; [reflexivity|]; split;
     [ unfold set_from, records, SetNeighbor; simpl; reflexivity
     | intros ox oy oz fb1 fb2 Hin; simpl in Hin;
       repeat (destruct Hin as [Hin|Hin];
               [injection Hin as <- <- <- <- <-; eexists; split; [eassumption|];
                unfold set_from, SetNeighbor; simpl; reflexivity|]);
       destruct Hin ]).
Qed.


Lemma records_ext tbl tbl' dir :
  (forall a b, tbl' dir a b = tbl dir a b) -> records tbl' dir = records tbl dir.
Proof. intros H. unfold records. simpl. rewrite !H. reflexivity. Qed.

Lemma face_wired_ext s tbl tbl' dir neibt :
  (forall a b, tbl' dir a b = tbl dir a b) ->
  face_wired GetNeighbor GetLeaf s tbl dir neibt -> face_wired GetNeighbor GetLeaf s tbl' dir neibt.
Proof.
  intros H. unfold face_wired. rewrite (records_ext _ _ _ H), H.
  destruct (same_or_coarser s (GetNeighbor neibt)); [tauto|].
  intros [Hr Hl]. split; [exact Hr|].
  intros ox oy oz fb1 fb2 Hin. rewrite H. eapply Hl, Hin.
Qed.

Lemma wire_faces_spec s dirs :
  forall tbl,
    NoDup dirs ->
    (forall d a b, In d dirs -> tbl d a b = None) ->
    (forall d, In d dirs -> no_lookup s d = false ->
       exists neibt,
         FindNeighbor d (buid s) (nrbx1 s) (nrbx2 s) (nrbx3 s) (root_level s)
         = Some neibt /\
         (same_or_coarser s (GetNeighbor neibt) = false -> leaves_exist GetLeaf d neibt)) ->
    exists tbl',
      wire_faces FindNeighbor GetNeighbor GetLeaf s tbl dirs = inr tbl' /\
      (forall d neibt, In d dirs -> no_lookup s d = false ->
         FindNeighbor d (buid s) (nrbx1 s) (nrbx2 s) (nrbx3 s) (root_level s)
         = Some neibt ->
         face_wired GetNeighbor GetLeaf s tbl' d neibt) /\
      (forall d a b, ~ In d dirs -> tbl' d a b = tbl d a b).
Proof.
  induction dirs as [|dir rest IH]; intros tbl Hnd Hempty Hok.
  - exists tbl. simpl. repeat split; intros; tauto.
  - inversion Hnd as [|? ? Hfresh Hnd']; subst.
    assert (Hface : exists tbl1,
               wire_face FindNeighbor GetNeighbor GetLeaf s tbl dir = inr tbl1 /\
               (forall neibt, no_lookup s dir = false ->
                  FindNeighbor dir (buid s) (nrbx1 s) (nrbx2 s) (nrbx3 s) (root_level s)
                  = Some neibt -> face_wired GetNeighbor GetLeaf s tbl1 dir neibt)).
    { destruct (no_lookup s dir) eqn:Hlook.
      - unfold wire_face. rewrite Hlook. eexists. split; [reflexivity|]. discriminate.
      - destruct (Hok dir (or_introl eq_refl) Hlook) as (neibt & Hfind & Hleaves).
        destruct (wire_face_spec s tbl dir neibt) as (tbl1 & E & Hw); auto.
        { intros a b. apply Hempty. left. reflexivity. }
        exists tbl1. split; [exact E|]. intros n _ Hn. congruence. }
    destruct Hface as (tbl1 & E1 & Hw1).
    destruct (IH tbl1 Hnd') as (tbl' & E' & Hw' & Hframe).
    { intros d a b Hd. rewrite (wire_face_other s tbl tbl1 dir d a b E1).
      - apply Hempty. right. exact Hd.
      - intros ->. contradiction. }
    { intros d Hd. apply Hok. right. exact Hd. }
    exists tbl'. cbn [wire_faces]. rewrite E1. split; [exact E'|]. split.
    + intros d neibt [<-|Hd] Hlook Hfind.
      * apply (face_wired_ext s tbl1); [|apply Hw1; assumption].
        intros a b. apply Hframe. exact Hfresh.
      * apply Hw'; assumption.
    + intros d a b Hd. rewrite Hframe by (intros Hin; apply Hd; right; exact Hin).
      apply (wire_face_other s tbl tbl1 dir d a b E1).
      intros ->. apply Hd. left. reflexivity.
Qed.

(** C6 (as the code has it). When every face that is looked up has a tree
    neighbour, and the four children asked of a finer one exist, the
    wiring of a block succeeds, and for each such face the table holds
    exactly one record when the neighbour is at the level of the block or
    one coarser, and four records otherwise, one under each sub-face index
    [(0,0)], [(0,1)], [(1,0)], [(1,1)], built from the four leaves the code
    asks for; the number of dimensions plays no part. *)
Theorem wire_block_records s :
  (forall dir, no_lookup s dir = false ->
     exists neibt,
       FindNeighbor dir (buid s) (nrbx1 s) (nrbx2 s) (nrbx3 s) (root_level s)
       = Some neibt /\
       (same_or_coarser s (GetNeighbor neibt) = false ->
        forall ox oy oz fb, In ((ox, oy, oz), fb) (leaf_calls dir) ->
                            GetLeaf neibt ox oy oz <> None)) ->
  exists tbl,
    wire_block FindNeighbor GetNeighbor GetLeaf s = inr tbl /\
    forall dir neibt,
      no_lookup s dir = false ->
      FindNeighbor dir (buid s) (nrbx1 s) (nrbx2 s) (nrbx3 s) (root_level s)
      = Some neibt ->
      (same_or_coarser s (GetNeighbor neibt) = true ->
       records tbl dir = 1%nat /\
       tbl dir 0 0 = Some (record_of s (GetNeighbor neibt))) /\
      (same_or_coarser s (GetNeighbor neibt) = false ->
       records tbl dir = 4%nat /\
       forall ox oy oz fb1 fb2, In ((ox, oy, oz), (fb1, fb2)) (leaf_calls dir) ->
         exists leaf, GetLeaf neibt ox oy oz = Some leaf /\
                      tbl dir fb1 fb2 = Some (record_of s (GetNeighbor leaf))).
Proof.
  intros Hok. unfold wire_block.
  destruct (wire_faces_spec s
              [inner_x1; outer_x1; inner_x2; outer_x2; inner_x3; outer_x3]
              no_neighbors) as (tbl & E & Hw & _).
  - repeat constructor; simpl; intuition discriminate.
  - reflexivity.
  - intros d _ Hlook. apply Hok, Hlook.
  - exists tbl. split; [exact E|]. intros dir neibt Hlook Hfind.
    assert (Hin : In dir [inner_x1; outer_x1; inner_x2; outer_x2; inner_x3; outer_x3])
      by (destruct dir; simpl; tauto).
    specialize (Hw dir neibt Hin Hlook Hfind). unfold face_wired in Hw.
    destruct (same_or_coarser s (GetNeighbor neibt)); split; intros Hc;
      try discriminate; exact Hw.
Qed.

End NeighborFacts.

Section NeighborMore.
Import Neighbors.
Context {BlockTree BlockUID : Type}.
Variable FindNeighbor : direction -> BlockUID -> Z -> Z -> Z -> Z -> option BlockTree.
Variable GetNeighbor : BlockTree -> NeighborBlock.
Variable GetLeaf : BlockTree -> Z -> Z -> Z -> option BlockTree.

Implicit Types (s : Setting BlockUID) (tbl : NeighborTable) (dir d : direction).

Let all_faces := [inner_x1; outer_x1; inner_x2; outer_x2; inner_x3; outer_x3].

Lemma all_faces_NoDup : NoDup all_faces.
Proof. repeat constructor; simpl; intuition discriminate. Qed.

Lemma all_faces_In dir : In dir all_faces.
Proof. destruct dir; simpl; tauto. Qed.

Lemma wire_faces_other s dirs :
  forall tbl tbl' d a b,
    wire_faces FindNeighbor GetNeighbor GetLeaf s tbl dirs = inr tbl' ->
    ~ In d dirs -> tbl' d a b = tbl d a b.
Proof.
  induction dirs as [|dir rest IH]; intros tbl tbl' d a b E Hd.
  - injection E as <-. reflexivity.
  - cbn [wire_faces] in E.
    destruct (wire_face FindNeighbor GetNeighbor GetLeaf s tbl dir) as [e | tbl1] eqn:E1;
      [discriminate|].
    rewrite (IH tbl1 tbl' d a b E) by (intros H; apply Hd; right; exact H).
    apply (wire_face_other FindNeighbor GetNeighbor GetLeaf s tbl tbl1 dir d a b E1).
    intros ->. apply Hd. left. reflexivity.
Qed.

(** *** Faces on a physical boundary *)

Lemma wire_faces_boundary s dirs :
  forall tbl tbl',
    NoDup dirs ->
    (forall d a b, In d dirs -> tbl d a b = None) ->
    wire_faces FindNeighbor GetNeighbor GetLeaf s tbl dirs = inr tbl' ->
    forall d, In d dirs -> no_lookup s d = true ->
      records tbl' d = 1%nat /\ tbl' d 0 0 = Some boundary_record.
Proof.
  induction dirs as [|dir rest IH]; intros tbl tbl' Hnd Hempty E d Hin Hlook;
    [destruct Hin|].
  inversion Hnd as [|? ? Hfresh Hnd']; subst.
  cbn [wire_faces] in E.
  destruct (wire_face FindNeighbor GetNeighbor GetLeaf s tbl dir) as [e | tbl1] eqn:E1;
    [discriminate|].
  destruct Hin as [<- | Hin].
  - assert (Hsame : forall a b, tbl' dir a b = tbl1 dir a b)
      by (intros a b; apply (wire_faces_other s rest tbl1 tbl' dir a b E Hfresh)).
    rewrite (records_ext _ _ _ Hsame), Hsame.
    unfold wire_face in E1. rewrite Hlook in E1. injection E1 as <-.
    unfold records, SetNeighbor. simpl. rewrite direction_eqb_refl.
    rewrite !Hempty by (left; reflexivity). simpl. split; reflexivity.
  - apply (IH tbl1 tbl' Hnd'); try assumption.
    intros d' a b Hd'.
    rewrite (wire_face_other FindNeighbor GetNeighbor GetLeaf s tbl tbl1 dir d' a b E1).
    + apply Hempty. right. exact Hd'.
    + intros ->. contradiction.
Qed.

(** X14. After the wiring of a block, a face that the constructor takes for
    a physical boundary (the block touches the edge of the mesh and the
    boundary there is not periodic, or the mesh has a single cell across
    that direction) holds exactly one record, all of whose fields are
    [-1]. *)
Theorem wire_block_boundary_faces s tbl dir :
  wire_block FindNeighbor GetNeighbor GetLeaf s = inr tbl ->
  no_lookup s dir = true ->
  records tbl dir = 1%nat /\ tbl dir 0 0 = Some boundary_record.
Proof.
  intros E Hlook.
  apply (wire_faces_boundary s all_faces no_neighbors tbl all_faces_NoDup);
    [reflexivity | exact E | apply all_faces_In | exact Hlook].
Qed.

(** *** When the wiring fails *)

Lemma set_leaves_fails s dir neibt cs :
  forall tbl e,
    set_leaves GetNeighbor GetLeaf s tbl dir neibt cs = inl e ->
    e = null_leaf /\
    exists ox oy oz fb, In ((ox, oy, oz), fb) cs /\ GetLeaf neibt ox oy oz = None.
Proof.
  induction cs as [|[[[ox oy] oz] [fb1 fb2]] rest IH]; intros tbl e E;
    [discriminate|].
  cbn [set_leaves] in E.
  destruct (GetLeaf neibt ox oy oz) as [leaf|] eqn:El.
  - destruct (IH _ _ E) as (He & x & y & z & fb & Hin & Hn).
    split; [exact He|]. exists x, y, z, fb. split; [right; exact Hin | exact Hn].
  - injection E as <-. split; [reflexivity|].
    exists ox, oy, oz, (fb1, fb2). split; [left; reflexivity | exact El].
Qed.

Lemma set_leaves_succeeds s dir neibt cs :
  forall tbl tbl',
    set_leaves GetNeighbor GetLeaf s tbl dir neibt cs = inr tbl' ->
    forall ox oy oz fb, In ((ox, oy, oz), fb) cs -> GetLeaf neibt ox oy oz <> None.
Proof.
  induction cs as [|[[[x y] z] [fb1 fb2]] rest IH]; intros tbl tbl' E ox oy oz fb Hin;
    [destruct Hin|].
  cbn [set_leaves] in E.
  destruct (GetLeaf neibt x y z) as [leaf|] eqn:El; [| discriminate].
  destruct Hin as [Hin | Hin].
  - injection Hin as <- <- <- <-. rewrite El. discriminate.
  - eapply IH; eassumption.
Qed.

Lemma wire_face_fails s tbl dir e :
  wire_face FindNeighbor GetNeighbor GetLeaf s tbl dir = inl e ->
  (e = search_failed /\ search_fails FindNeighbor s dir) \/
  (e = null_leaf /\ leaf_missing FindNeighbor GetNeighbor GetLeaf s dir).
Proof.
  unfold wire_face, search_fails, leaf_missing.
  destruct (no_lookup s dir); [discriminate|].
  destruct (FindNeighbor dir (buid s) (nrbx1 s) (nrbx2 s) (nrbx3 s) (root_level s))
    as [neibt|] eqn:Ef.
  - destruct (same_or_coarser s (GetNeighbor neibt)) eqn:Esc; [discriminate|].
    intros E. destruct (set_leaves_fails _ _ _ _ _ _ E) as (-> & Hex).
    right. split; [reflexivity|]. split; [reflexivity|].
    exists neibt. auto.
  - intros [= <-]. left. auto.
Qed.

Lemma wire_face_succeeds s tbl tbl' dir :
  wire_face FindNeighbor GetNeighbor GetLeaf s tbl dir = inr tbl' ->
  ~ search_fails FindNeighbor s dir /\
  ~ leaf_missing FindNeighbor GetNeighbor GetLeaf s dir.
Proof.
  unfold wire_face, search_fails, leaf_missing.
  destruct (no_lookup s dir); [intros _; split; intros [H _]; discriminate|].
  destruct (FindNeighbor dir (buid s) (nrbx1 s) (nrbx2 s) (nrbx3 s) (root_level s))
    as [neibt|] eqn:Ef; [| discriminate].
  intros E. split; [intros [_ H]; discriminate|].
  intros (_ & n & [= <-] & Hsc & ox & oy & oz & fb & Hin & Hnone).
  rewrite Hsc in E.
  exact (set_leaves_succeeds _ _ _ _ _ _ E ox oy oz fb Hin Hnone).
Qed.

Lemma wire_faces_fails s dirs :
  forall tbl e,
    wire_faces FindNeighbor GetNeighbor GetLeaf s tbl dirs = inl e ->
    exists d, In d dirs /\
      ((e = search_failed /\ search_fails FindNeighbor s d) \/
       (e = null_leaf /\ leaf_missing FindNeighbor GetNeighbor GetLeaf s d)).
Proof.
  induction dirs as [|dir rest IH]; intros tbl e E; [discriminate|].
  cbn [wire_faces] in E.
  destruct (wire_face FindNeighbor GetNeighbor GetLeaf s tbl dir) as [e1 | tbl1] eqn:E1.
  - injection E as <-. exists dir. split; [left; reflexivity|].
    apply (wire_face_fails s tbl dir e1 E1).
  - destruct (IH tbl1 e E) as (d & Hin & H). exists d. split; [right; exact Hin | exact H].
Qed.

Lemma wire_faces_succeeds s dirs :
  forall tbl tbl',
    wire_faces FindNeighbor GetNeighbor GetLeaf s tbl dirs = inr tbl' ->
    forall d, In d dirs ->
      ~ search_fails FindNeighbor s d /\
      ~ leaf_missing FindNeighbor GetNeighbor GetLeaf s d.
Proof.
  induction dirs as [|dir rest IH]; intros tbl tbl' E d Hin; [destruct Hin|].
  cbn [wire_faces] in E.
  destruct (wire_face FindNeighbor GetNeighbor GetLeaf s tbl dir) as [e1 | tbl1] eqn:E1;
    [discriminate|].
  destruct Hin as [<- | Hin].
  - apply (wire_face_succeeds s tbl tbl1 dir E1).
  - apply (IH tbl1 tbl' E d Hin).
Qed.

(** X15. The wiring of a block fails exactly when some face that is looked
    up finds no neighbour in the tree, or finds a finer one without one of
    the four leaves the code asks for; the failure is the thrown error in
    the first case met in the order of the faces, and a null pointer in
    the second. *)
Theorem wire_block_fails_iff s :
  ((exists e, wire_block FindNeighbor GetNeighbor GetLeaf s = inl e) <->
   (exists dir, search_fails FindNeighbor s dir \/
                leaf_missing FindNeighbor GetNeighbor GetLeaf s dir)) /\
  (wire_block FindNeighbor GetNeighbor GetLeaf s = inl search_failed ->
   exists dir, search_fails FindNeighbor s dir) /\
  (wire_block FindNeighbor GetNeighbor GetLeaf s = inl null_leaf ->
   exists dir, leaf_missing FindNeighbor GetNeighbor GetLeaf s dir).
Proof.
  unfold wire_block. fold all_faces.
  split; [split | split].
  - intros [e E]. destruct (wire_faces_fails s all_faces _ e E) as (d & _ & H).
    exists d. tauto.
  - intros [dir H].
    destruct (wire_faces FindNeighbor GetNeighbor GetLeaf s no_neighbors all_faces)
      as [e | tbl] eqn:E; [exists e; reflexivity | exfalso].
    destruct (wire_faces_succeeds s all_faces _ _ E dir (all_faces_In dir)) as [H1 H2].
    tauto.
  - intros E. destruct (wire_faces_fails s all_faces _ _ E) as (d & _ & [[_ H] | [H _]]);
      [exists d; exact H | discriminate].
  - intros E. destruct (wire_faces_fails s all_faces _ _ E) as (d & _ & [[H _] | [_ H]]);
      [discriminate | exists d; exact H].
Qed.

(** *** Restart under another distribution *)

Lemma refresh_record_of s nei (rl ns : Z -> Z) :
  gid nei <> -1 ->
  refresh_record rl ns (record_of s nei) = record_of (with_partition s rl ns) nei.
Proof.
  intros Hg. unfold refresh_record, record_of. cbn [gid level with_partition ranklist nslist].
  replace (gid nei =? -1) with false by (symmetry; apply Z.eqb_neq; exact Hg).
  reflexivity.
Qed.

Lemma refresh_SetNeighbor (rl ns : Z -> Z) tbl dir (r l g i fb1 fb2 : Z) :
  forall d a b,
    refresh rl ns (SetNeighbor tbl dir r l g i fb1 fb2) d a b
    = SetNeighbor (refresh rl ns tbl) dir
        (rank (refresh_record rl ns (mkNeighborBlock r l g i)))
        (level (refresh_record rl ns (mkNeighborBlock r l g i)))
        (gid (refresh_record rl ns (mkNeighborBlock r l g i)))
        (lid (refresh_record rl ns (mkNeighborBlock r l g i))) fb1 fb2 d a b.
Proof.
  intros d a b. unfold refresh, SetNeighbor.
  destruct (direction_eqb d dir && (a =? fb1) && (b =? fb2)); [| reflexivity].
  cbn [option_map]. f_equal.
  destruct (refresh_record rl ns (mkNeighborBlock r l g i)); reflexivity.
Qed.

Lemma refresh_set_from s (rl ns : Z -> Z) tbl tbl' dir nei fb1 fb2 :
  gid nei <> -1 ->
  (forall d a b, tbl' d a b = refresh rl ns tbl d a b) ->
  forall d a b,
    set_from (with_partition s rl ns) tbl' dir nei fb1 fb2 d a b
    = refresh rl ns (set_from s tbl dir nei fb1 fb2) d a b.
Proof.
  intros Hg Hrel d a b. unfold set_from. rewrite refresh_SetNeighbor.
  pose proof (refresh_record_of s nei rl ns Hg) as Hr. unfold record_of in Hr.
  rewrite Hr. cbn [rank level gid lid].
  unfold SetNeighbor. rewrite Hrel. reflexivity.
Qed.

Section Rewire.
Variable s : Setting BlockUID.
Variables rl ns : Z -> Z.
Hypothesis gid_given : forall n : BlockTree, gid (GetNeighbor n) <> -1.

Lemma set_leaves_refresh dir neibt cs :
  forall tbl tbl' tbl1,
    (forall d a b, tbl' d a b = refresh rl ns tbl d a b) ->
    set_leaves GetNeighbor GetLeaf s tbl dir neibt cs = inr tbl1 ->
    exists tbl1',
      set_leaves GetNeighbor GetLeaf (with_partition s rl ns) tbl' dir neibt cs
      = inr tbl1' /\
      forall d a b, tbl1' d a b = refresh rl ns tbl1 d a b.
Proof.
  induction cs as [|[[[ox oy] oz] [fb1 fb2]] rest IH]; intros tbl tbl' tbl1 Hrel E.
  - injection E as <-. exists tbl'. split; [reflexivity | exact Hrel].
  - cbn [set_leaves] in *.
    destruct (GetLeaf neibt ox oy oz) as [leaf|]; [| discriminate].
    apply (IH _ _ _ (refresh_set_from s rl ns tbl tbl' dir (GetNeighbor leaf) fb1 fb2
                       (gid_given leaf) Hrel) E).
Qed.

Lemma wire_face_refresh tbl tbl' tbl1 dir :
  (forall d a b, tbl' d a b = refresh rl ns tbl d a b) ->
  wire_face FindNeighbor GetNeighbor GetLeaf s tbl dir = inr tbl1 ->
  exists tbl1',
    wire_face FindNeighbor GetNeighbor GetLeaf (with_partition s rl ns) tbl' dir
    = inr tbl1' /\
    forall d a b, tbl1' d a b = refresh rl ns tbl1 d a b.
Proof.
  intros Hrel. unfold wire_face.
  change (no_lookup (with_partition s rl ns) dir) with (no_lookup s dir).
  cbn [with_partition buid nrbx1 nrbx2 nrbx3 root_level].
  destruct (no_lookup s dir).
  - intros [= <-]. eexists. split; [reflexivity|].
    intros d a b. rewrite refresh_SetNeighbor. cbn.
    unfold SetNeighbor. rewrite Hrel. reflexivity.
  - destruct (FindNeighbor dir (buid s) (nrbx1 s) (nrbx2 s) (nrbx3 s) (root_level s))
      as [neibt|]; [| discriminate].
    change (same_or_coarser (with_partition s rl ns) (GetNeighbor neibt))
      with (same_or_coarser s (GetNeighbor neibt)).
    destruct (same_or_coarser s (GetNeighbor neibt)).
    + intros [= <-]. eexists. split; [reflexivity|].
      apply refresh_set_from; [apply gid_given | exact Hrel].
    + apply set_leaves_refresh, Hrel.
Qed.

Lemma wire_faces_refresh dirs :
  forall tbl tbl' tbl1,
    (forall d a b, tbl' d a b = refresh rl ns tbl d a b) ->
    wire_faces FindNeighbor GetNeighbor GetLeaf s tbl dirs = inr tbl1 ->
    exists tbl1',
      wire_faces FindNeighbor GetNeighbor GetLeaf (with_partition s rl ns) tbl' dirs
      = inr tbl1' /\
      forall d a b, tbl1' d a b = refresh rl ns tbl1 d a b.
Proof.
  induction dirs as [|dir rest IH]; intros tbl tbl' tbl1 Hrel E.
  - injection E as <-. exists tbl'. split; [reflexivity | exact Hrel].
  - cbn [wire_faces] in *.
    destruct (wire_face FindNeighbor GetNeighbor GetLeaf s tbl dir) as [e | t1] eqn:E1;
      [discriminate|].
    destruct (wire_face_refresh tbl tbl' t1 dir Hrel E1) as (t1' & E1' & Hrel1).
    rewrite E1'. apply (IH t1 t1' tbl1 Hrel1 E).
Qed.

End Rewire.

(** X16. A table of neighbour records that was wired under one distribution
    of the blocks over the processes and is then refreshed as the restart
    constructor of a MeshBlock does, with the rank list and the start list
    of another distribution, is cell by cell the table that the wiring
    gives under that other distribution, as long as no block of the tree
    has the global ID [-1]. *)
Theorem restart_refresh_is_rewiring (s : Setting BlockUID) (rl ns : Z -> Z) tbl :
  (forall n : BlockTree, gid (GetNeighbor n) <> -1) ->
  wire_block FindNeighbor GetNeighbor GetLeaf s = inr tbl ->
  exists tbl',
    wire_block FindNeighbor GetNeighbor GetLeaf (with_partition s rl ns) = inr tbl' /\
    forall d a b, tbl' d a b = refresh rl ns tbl d a b.
Proof.
  intros Hg E. unfold wire_block in *.
  apply (wire_faces_refresh s rl ns Hg _ no_neighbors no_neighbors tbl); [| exact E].
  reflexivity.
Qed.

End NeighborMore.

Section WiringAndPartition.
Import Neighbors.
Context {BlockUID : Type}.

(** X17. In a fresh run with at least as many blocks as processes, the
    record that the wiring stores for a neighbour names the process that
    creates that neighbour, and its local ID there: the rank is a process
    of the run, and the loop that creates the blocks of that process makes
    the block with this global ID and this local ID. *)
Theorem neighbor_record_names_owner (s : Setting BlockUID)
        (nbtotal : nat) (nproc : Z) (nei : NeighborBlock) :
  1 <= nproc <= Z.of_nat nbtotal ->
  0 <= gid nei < Z.of_nat nbtotal ->
  (forall g, 0 <= g < Z.of_nat nbtotal ->
     nth_error (fst (fst (Partition.Mesh_new nbtotal nproc))) (Z.to_nat g)
     = Some (ranklist s g)) ->
  (forall r, nslist s r
             = Partition.aget (snd (fst (Partition.Mesh_new nbtotal nproc))) r) ->
  let r := rank (record_of s nei) in
  0 <= r < nproc /\
  let (nbstart, nbend) :=
    Partition.my_blocks (snd (fst (Partition.Mesh_new nbtotal nproc))) r nproc
                        (Z.of_nat nbtotal) in
  In (gid nei, lid (record_of s nei)) (Partition.create_blocks nbstart nbend).
Proof.
  intros Hp Hg Hrl Hns. cbn [record_of rank lid gid]. cbv zeta.
  set (r := ranklist s (gid nei)).
  pose proof (Hrl (gid nei) Hg) as Hnth. fold r in Hnth.
  assert (Hr : 0 <= r < nproc).
  { apply nth_error_In in Hnth. unfold Partition.Mesh_new, Partition.Mesh_partition in Hnth.
    destruct (Partition.make_nslist _ _) in Hnth. cbn [fst] in Hnth.
    pose proof (make_ranklist_range (Partition.unit_costs nbtotal) nproc
                  ltac:(lia) r Hnth). lia. }
  split; [exact Hr|].
  pose proof (my_blocks_by_rank (Partition.unit_costs nbtotal) nproc r ltac:(lia)
                (fun k Hk => unit_costs_all_ranks nbtotal nproc Hp k ltac:(lia)) Hr) as H.
  assert (Hlen0 : length (Partition.unit_costs nbtotal) = nbtotal) by apply repeat_length.
  rewrite Hlen0 in H.
  rewrite (Hns r).
  unfold Partition.Mesh_new in *.
  destruct (Partition.Mesh_partition (Partition.unit_costs nbtotal) nproc)
    as [[rl nsl] nbl]. cbn [fst snd] in *.
  unfold Partition.my_blocks in *.
  destruct H as (Hb & He & _ & _ & _ & Hown).
  apply (proj1 (Hown (gid nei) Hg)) in Hnth.
  unfold Partition.create_blocks.
  apply (in_map (fun i => (i, i - Partition.aget nsl r))).
  apply count_up_spec. lia.
Qed.

End WiringAndPartition.

Section WiringAndPartitionExamples.
Import Neighbors Examples.

Lemma neighbor_record_names_owner_witness :
  (1 <= 2 <= Z.of_nat 4 /\
   0 <= gid (mkNeighborBlock 0 2 3 0) < Z.of_nat 4 /\
   (forall g, 0 <= g < Z.of_nat 4 ->
      nth_error (fst (fst (Partition.Mesh_new 4 2))) (Z.to_nat g)
      = Some (ranklist split_setting g)) /\
   (forall r, nslist split_setting r
              = Partition.aget (snd (fst (Partition.Mesh_new 4 2))) r)) /\
  let r := rank (record_of split_setting (mkNeighborBlock 0 2 3 0)) in
  0 <= r < 2 /\
  let (nbstart, nbend) :=
    Partition.my_blocks (snd (fst (Partition.Mesh_new 4 2))) r 2 (Z.of_nat 4) in
  In (gid (mkNeighborBlock 0 2 3 0),
      lid (record_of split_setting (mkNeighborBlock 0 2 3 0)))
     (Partition.create_blocks nbstart nbend).
Proof.
  assert (Hp : 1 <= 2 <= Z.of_nat 4) by (simpl; lia).
  assert (Hg : 0 <= gid (mkNeighborBlock 0 2 3 0) < Z.of_nat 4) by (simpl; lia).
  assert (Hrl : forall g, 0 <= g < Z.of_nat 4 ->
            nth_error (fst (fst (Partition.Mesh_new 4 2))) (Z.to_nat g)
            = Some (ranklist split_setting g)).
  { intros g Hg4. rewrite Mesh_new_4_2. simpl in Hg4.
    assert (E : g = 0 \/ g = 1 \/ g = 2 \/ g = 3) by lia.
    destruct E as [-> | [-> | [-> | ->]]]; reflexivity. }
  assert (Hns : forall r, nslist split_setting r
                          = Partition.aget (snd (fst (Partition.Mesh_new 4 2))) r)
    by (intros r; rewrite Mesh_new_4_2; reflexivity).
  split; [repeat split; try assumption; simpl; lia|].
  exact (neighbor_record_names_owner split_setting 4 2 (mkNeighborBlock 0 2 3 0)
           Hp Hg Hrl Hns).
Defined.

End WiringAndPartitionExamples.

(** ** The properties on concrete meshes *)

Section PartitionExamples.
Import Partition Examples.

Lemma rank0_at_most_average_witness :
  (1 <= 3 /\ forall c, In c ex_costs -> (0 < c)%Q) /\
  (rank_cost 0 ex_costs (make_ranklist ex_costs 3)
   <= total ex_costs / inject_Z 3)%Q.
Proof.
  assert (H : forall c, In c ex_costs -> (0 < c)%Q).
  { intros c Hin. simpl in Hin.
    repeat (destruct Hin as [<-|Hin]; [reflexivity|]). destruct Hin. }
  split; [split; [lia | exact H]|].
  apply (rank0_at_most_average ex_costs 3); [lia | exact H].
Defined.

End PartitionExamples.

Section TimeStepExamples.
Import TimeStep Examples.

Lemma NewTimeStep_min_reduction_witness :
  pblock mesh_small_dt <> [] /\
  exists m' mn,
    NewTimeStep [] mesh_small_dt = Some m' /\
    is_minimum mn (block_steps mesh_small_dt ++ []) /\
    dt m' = std_min (mn * cfl_number mesh_small_dt) (2 * dt mesh_small_dt).
Proof.
  assert (H : pblock mesh_small_dt <> []) by discriminate.
  split; [exact H|].
  exact (NewTimeStep_min_reduction [] mesh_small_dt H).
Defined.

Lemma NewTimeStep_at_most_doubles_witness :
  pblock mesh_large_dt <> [] /\
  exists m', NewTimeStep [] mesh_large_dt = Some m' /\
             (dt m' <= 2 * dt mesh_large_dt)%Q.
Proof.
  assert (H : pblock mesh_large_dt <> []) by discriminate.
  split; [exact H|].
  exact (NewTimeStep_at_most_doubles [] mesh_large_dt H).
Defined.

(** C9 fails on the code: the two meshes have the same recommended steps,
    whose minimum is 1/2, and the same CFL number, and [NewTimeStep] gives
    them different steps, 1/5 and 1/4. *)
Lemma NewTimeStep_not_by_minimum_alone :
  block_steps mesh_small_dt = block_steps mesh_large_dt /\
  is_minimum (1#2)%Q (block_steps mesh_small_dt) /\
  exists a b,
    NewTimeStep [] mesh_small_dt = Some a /\
    NewTimeStep [] mesh_large_dt = Some b /\
    (dt a == 1#5)%Q /\ (dt b == 1#4)%Q /\ ~ (dt a == dt b)%Q.
Proof.
  split; [reflexivity|]. split.
  - split; [right; left; reflexivity|].
    intros y [<-|[<-|[]]]; discriminate.
  - eexists _, _. repeat split; try reflexivity. discriminate.
Qed.

Lemma NewTimeStep_within_cfl_witness :
  (pblock mesh_small_dt <> [] /\ (0 <= cfl_number mesh_small_dt)%Q) /\
  exists m',
    NewTimeStep [3#4]%Q mesh_small_dt = Some m' /\
    forall x, In x (block_steps mesh_small_dt ++ [3#4]%Q) ->
              (dt m' <= cfl_number mesh_small_dt * x)%Q.
Proof.
  assert (Hne : pblock mesh_small_dt <> []) by discriminate.
  assert (Hcfl : (0 <= cfl_number mesh_small_dt)%Q) by (simpl; lra).
  split; [split; assumption|].
  exact (NewTimeStep_within_cfl [3#4]%Q mesh_small_dt Hne Hcfl).
Defined.

End TimeStepExamples.

Section NeighborExamples.
Import Neighbors Examples.

Lemma wire_block_records_witness :
  (forall dir, no_lookup ex_setting dir = false ->
     exists neibt,
       ex_FindNeighbor dir (buid ex_setting) (nrbx1 ex_setting) (nrbx2 ex_setting)
                       (nrbx3 ex_setting) (root_level ex_setting) = Some neibt /\
       (same_or_coarser ex_setting (ex_GetNeighbor neibt) = false ->
        forall ox oy oz fb, In ((ox, oy, oz), fb) (leaf_calls dir) ->
                            ex_GetLeaf neibt ox oy oz <> None)) /\
  exists tbl,
    wire_block ex_FindNeighbor ex_GetNeighbor ex_GetLeaf ex_setting = inr tbl /\
    forall dir neibt,
      no_lookup ex_setting dir = false ->
      ex_FindNeighbor dir (buid ex_setting) (nrbx1 ex_setting) (nrbx2 ex_setting)
                      (nrbx3 ex_setting) (root_level ex_setting) = Some neibt ->
      (same_or_coarser ex_setting (ex_GetNeighbor neibt) = true ->
       records tbl dir = 1%nat /\
       tbl dir 0 0 = Some (record_of ex_setting (ex_GetNeighbor neibt))) /\
      (same_or_coarser ex_setting (ex_GetNeighbor neibt) = false ->
       records tbl dir = 4%nat /\
       forall ox oy oz fb1 fb2, In ((ox, oy, oz), (fb1, fb2)) (leaf_calls dir) ->
         exists leaf, ex_GetLeaf neibt ox oy oz = Some leaf /\
                      tbl dir fb1 fb2 = Some (record_of ex_setting (ex_GetNeighbor leaf))).
Proof.
  assert (H : forall dir, no_lookup ex_setting dir = false ->
     exists neibt,
       ex_FindNeighbor dir (buid ex_setting) (nrbx1 ex_setting) (nrbx2 ex_setting)
                       (nrbx3 ex_setting) (root_level ex_setting) = Some neibt /\
       (same_or_coarser ex_setting (ex_GetNeighbor neibt) = false ->
        forall ox oy oz fb, In ((ox, oy, oz), fb) (leaf_calls dir) ->
                            ex_GetLeaf neibt ox oy oz <> None)).
  { intros dir _. exists 100. split; [reflexivity|]. intros _ ox oy oz fb _.
    discriminate. }
  split; [exact H|].
  exact (wire_block_records ex_FindNeighbor ex_GetNeighbor ex_GetLeaf ex_setting H).
Defined.

(** C6 fails on the code in two dimensions: the block of the example lies
    in a two-dimensional mesh, its neighbour across the inner x1 face is
    finer, and the table holds four records for that face, not two. *)
Lemma finer_neighbor_2d_four_records :
  two_dimensional ex_setting = true /\
  no_lookup ex_setting inner_x1 = false /\
  same_or_coarser ex_setting (ex_GetNeighbor 100) = false /\
  exists tbl,
    wire_block ex_FindNeighbor ex_GetNeighbor ex_GetLeaf ex_setting = inr tbl /\
    records tbl inner_x1 = 4%nat /\ records tbl inner_x1 <> 2%nat.
Proof.
  repeat split. eexists. split; [reflexivity|]. split; [reflexivity | discriminate].
Qed.

Lemma wire_block_boundary_faces_witness :
  (wire_block ex_FindNeighbor ex_GetNeighbor ex_GetLeaf ex_setting = inr ex_table /\
   no_lookup ex_setting inner_x3 = true) /\
  records ex_table inner_x3 = 1%nat /\ ex_table inner_x3 0 0 = Some boundary_record.
Proof.
  assert (E : wire_block ex_FindNeighbor ex_GetNeighbor ex_GetLeaf ex_setting
              = inr ex_table) by reflexivity.
  assert (Hb : no_lookup ex_setting inner_x3 = true) by reflexivity.
  split; [split; assumption|].
  exact (wire_block_boundary_faces ex_FindNeighbor ex_GetNeighbor ex_GetLeaf
           ex_setting ex_table inner_x3 E Hb).
Defined.

Lemma restart_refresh_is_rewiring_witness :
  ((forall n : nat, gid (ring_GetNeighbor n) <> -1) /\
   wire_block ring_FindNeighbor ring_GetNeighbor ring_GetLeaf ring_setting
   = inr ring_table) /\
  exists tbl',
    wire_block ring_FindNeighbor ring_GetNeighbor ring_GetLeaf
               (with_partition ring_setting (fun g => g / 2) (fun r => 2 * r))
    = inr tbl' /\
    forall d a b,
      tbl' d a b = refresh (fun g => g / 2) (fun r => 2 * r) ring_table d a b.
Proof.
  assert (Hg : forall n : nat, gid (ring_GetNeighbor n) <> -1)
    by (intros n; simpl; lia).
  assert (E : wire_block ring_FindNeighbor ring_GetNeighbor ring_GetLeaf ring_setting
              = inr ring_table) by reflexivity.
  split; [split; assumption|].
  exact (restart_refresh_is_rewiring ring_FindNeighbor ring_GetNeighbor ring_GetLeaf
           ring_setting (fun g => g / 2) (fun r => 2 * r) ring_table Hg E).
Defined.

End NeighborExamples.

(** ** The tests of the configuration *)

Section ConfigFacts.
Import Config.

Lemma root_level_loop_spec (shifts : nat) :
  forall l nbmax,
    0 <= l ->
    (forall k, 0 <= k < l -> 2 ^ k < nbmax) ->
    match root_level_loop shifts l nbmax with
    | Some r =>
      l <= r < l + Z.of_nat shifts /\ nbmax <= 2 ^ r /\
      (forall k, 0 <= k < r -> 2 ^ k < nbmax)
    | None => forall k, 0 <= k < l + Z.of_nat shifts -> 2 ^ k < nbmax
    end.
Proof.
  induction shifts as [|n IH]; intros l nbmax Hl Hbelow.
  - simpl. intros k Hk. apply Hbelow. lia.
  - cbn [root_level_loop]. rewrite Z.shiftl_1_l.
    destruct (Z.ltb_spec (2 ^ l) nbmax) as [Hlt | Hge].
    + specialize (IH (l + 1) nbmax ltac:(lia)).
      assert (Hbelow' : forall k, 0 <= k < l + 1 -> 2 ^ k < nbmax).
      { intros k Hk. destruct (Z.eq_dec k l) as [-> | Hne]; [exact Hlt | apply Hbelow; lia]. }
      specialize (IH Hbelow').
      destruct (root_level_loop n (l + 1) nbmax) as [r|].
      * destruct IH as (Hr & Hle & Hb). repeat split; try assumption; lia.
      * intros k Hk. apply IH. lia.
    + repeat split; try assumption; lia.
Qed.

(** X18. The loop that finds the logical level of the root grid returns the
    least level [l] with [nbmax <= 2^l], for every [nbmax] up to [2^30];
    for a larger [nbmax] it runs into the shift [1<<31]. *)
Theorem find_root_level_least (nbmax : Z) :
  (nbmax <= 2 ^ 30 ->
   exists l, find_root_level nbmax = Some l /\ 0 <= l <= 30 /\
             nbmax <= 2 ^ l /\ forall k, 0 <= k < l -> 2 ^ k < nbmax) /\
  (2 ^ 30 < nbmax -> find_root_level nbmax = None).
Proof.
  unfold find_root_level.
  pose proof (root_level_loop_spec 31 0 nbmax ltac:(lia) ltac:(intros; lia)) as H.
  destruct (root_level_loop 31 0 nbmax) as [r|]; split.
  - intros _. exists r. destruct H as (Hr & Hle & Hb).
    split; [reflexivity | split; [lia | split; assumption]].
  - intros Hbig. destruct H as (Hr & Hle & _). exfalso.
    assert (2 ^ r <= 2 ^ 30) by (apply Z.pow_le_mono_r; lia). lia.
  - intros Hsmall. specialize (H 30 ltac:(lia)). lia.
  - reflexivity.
Qed.

Lemma exact_quot (n b : Z) :
  0 < n -> b <> 0 -> Z.rem n b = 0 -> Z.quot n b * b = n.
Proof.
  intros Hn Hb Hr. pose proof (Z.quot_rem' n b) as H. rewrite Hr in H. lia.
Qed.

(** X19. A configuration that passes the tests of the constructor has at
    least four cells along x1 and one along x2 and x3, is not a plane in x1
    and x3, has a CFL number of at most 1, and at most 1/2 in two or three
    dimensions, ranges with [min < max], cell ratios between 0.9 and 1.1,
    and blocks that tile the mesh: [nrbx * block_size = mesh_size] in each
    direction, with blocks of at least two cells in every direction that
    has more than one; the root level is the least level whose [2^level]
    reaches the largest block count, and the maximum level
    [nlevel + root_level - 1] is an [int] (the values of [Real] as exact
    numbers). *)
Theorem check_config_accepted (i : Input) (g : RootGrid) :
  check_config i = root_grid g ->
  (1 <= num_threads i /\ 4 <= nx1 i /\ 1 <= nx2 i /\ 1 <= nx3 i /\
   (nx2 i = 1 -> nx3 i = 1)) /\
  ((cfl_number i <= 1)%Q /\ (1 < nx2 i -> (cfl_number i <= 1#2)%Q)) /\
  ((x1min i < x1max i)%Q /\ (x2min i < x2max i)%Q /\ (x3min i < x3max i)%Q) /\
  ((9#10 <= x1rat i <= 11#10)%Q /\ (9#10 <= x2rat i <= 11#10)%Q /\
   (9#10 <= x3rat i <= 11#10)%Q) /\
  (nrbx1 g * block_nx1 i = nx1 i /\ nrbx2 g * block_nx2 i = nx2 i /\
   nrbx3 g * block_nx3 i = nx3 i) /\
  (2 <= block_nx1 i /\ 1 <= nrbx1 g /\
   (1 < nx2 i -> 2 <= block_nx2 i /\ 1 <= nrbx2 g) /\
   (1 < nx3 i -> 2 <= block_nx3 i /\ 1 <= nrbx3 g)) /\
  (nbmax g = Z.max (nrbx1 g) (Z.max (nrbx2 g) (nrbx3 g)) /\
   0 <= root_level g <= 30 /\ nbmax g <= 2 ^ root_level g /\
   (forall k, 0 <= k < root_level g -> 2 ^ k < nbmax g) /\
   max_level g = nlevel i + root_level g - 1 /\
   - 2 ^ 31 <= nlevel i + root_level g < 2 ^ 31 /\
   - 2 ^ 31 <= max_level g < 2 ^ 31).
Proof.
  unfold check_config.
  destruct (Z.ltb_spec (num_threads i) 1); [discriminate|].
  destruct (Z.ltb_spec (nx1 i) 4); [discriminate|].
  destruct (Z.ltb_spec (nx2 i) 1); [discriminate|].
  destruct (Z.ltb_spec (nx3 i) 1); [discriminate|].
  destruct ((nx2 i =? 1) && (1 <? nx3 i)) eqn:Eplane; [discriminate|].
  destruct (negb (Qle_bool (cfl_number i) 1) && (nx2 i =? 1)) eqn:Ec1; [discriminate|].
  destruct (negb (Qle_bool (cfl_number i) (1#2)) && (1 <? nx2 i)) eqn:Ec2;
    [discriminate|].
  destruct (Qle_bool (x1max i) (x1min i)) eqn:Ex1; [discriminate|].
  destruct (Qle_bool (x2max i) (x2min i)) eqn:Ex2; [discriminate|].
  destruct (Qle_bool (x3max i) (x3min i)) eqn:Ex3; [discriminate|].
  destruct (Qle_bool (Qabs (x1rat i - 1)) (1#10)) eqn:Er1; [| discriminate].
  destruct (Qle_bool (Qabs (x2rat i - 1)) (1#10)) eqn:Er2; [| discriminate].
  destruct (Qle_bool (Qabs (x3rat i - 1)) (1#10)) eqn:Er3; [| discriminate].
  cbn [negb].
  destruct (Z.eqb_spec (block_nx1 i) 0); [discriminate|].
  destruct (Z.eqb_spec (Z.rem (nx1 i) (block_nx1 i)) 0) as [Hd1|]; [| discriminate].
  destruct (Z.eqb_spec (block_nx2 i) 0); [discriminate|].
  destruct (Z.eqb_spec (Z.rem (nx2 i) (block_nx2 i)) 0) as [Hd2|]; [| discriminate].
  destruct (Z.eqb_spec (block_nx3 i) 0); [discriminate|].
  destruct (Z.eqb_spec (Z.rem (nx3 i) (block_nx3 i)) 0) as [Hd3|]; [| discriminate].
  cbn [negb].
  destruct ((block_nx1 i <? 2) || ((block_nx2 i <? 2) && negb (nx2 i =? 1))
            || ((block_nx3 i <? 2) && negb (nx3 i =? 1))) eqn:Esmall; [discriminate|].
  apply orb_false_iff in Esmall as [Esmall Es3].
  apply orb_false_iff in Esmall as [Es1 Es2].
  apply Z.ltb_ge in Es1.
  set (q1 := Z.quot (nx1 i) (block_nx1 i)).
  set (q2 := Z.quot (nx2 i) (block_nx2 i)).
  set (q3 := Z.quot (nx3 i) (block_nx3 i)).
  set (nb := if q3 <? (if q2 <? q1 then q1 else q2)
             then (if q2 <? q1 then q1 else q2) else q3).
  destruct (find_root_level nb) as [l|] eqn:El; [| discriminate].
  destruct (Machine.int (nlevel i + l)) as [sum|] eqn:Esum; [| discriminate].
  destruct (Machine.int (sum - 1)) as [ml|] eqn:Eml; [| discriminate].
  apply int_inv in Esum as [-> Hsum]. apply int_inv in Eml as [-> Hml].
  intros [= <-]. cbn [nrbx1 nrbx2 nrbx3 nbmax root_level max_level].
  assert (Hq1 : q1 * block_nx1 i = nx1 i) by (apply exact_quot; lia).
  assert (Hq2 : q2 * block_nx2 i = nx2 i) by (apply exact_quot; lia).
  assert (Hq3 : q3 * block_nx3 i = nx3 i) by (apply exact_quot; lia).
  assert (Hnb : nb = Z.max q1 (Z.max q2 q3)).
  { subst nb. destruct (Z.ltb_spec q2 q1);
      [destruct (Z.ltb_spec q3 q1) | destruct (Z.ltb_spec q3 q2)]; lia. }
  assert (Hl : 0 <= l <= 30 /\ nb <= 2 ^ l /\ forall k, 0 <= k < l -> 2 ^ k < nb).
  { pose proof (root_level_loop_spec 31 0 nb ltac:(lia) ltac:(intros; lia)) as Hs.
    unfold find_root_level in El. rewrite El in Hs.
    destruct Hs as (Hr & Hle & Hb). split; [lia | split; assumption]. }
  repeat split; try lia; try tauto.
  - destruct (Qle_bool (cfl_number i) 1) eqn:E1; [apply Qle_bool_iff, E1|].
    cbn [negb andb] in Ec1. apply Z.eqb_neq in Ec1.
    destruct (Qle_bool (cfl_number i) (1#2)) eqn:E2.
    + apply Qle_bool_iff in E2. lra.
    + cbn [negb andb] in Ec2. apply Z.ltb_ge in Ec2. lia.
  - intros Hn2. destruct (Qle_bool (cfl_number i) (1#2)) eqn:E2;
      [apply Qle_bool_iff, E2|].
    cbn [negb andb] in Ec2. apply Z.ltb_ge in Ec2. lia.
  - apply Qnot_le_lt. intros H'. apply Qle_bool_iff in H'. congruence.
  - apply Qnot_le_lt. intros H'. apply Qle_bool_iff in H'. congruence.
  - apply Qnot_le_lt. intros H'. apply Qle_bool_iff in H'. congruence.
  - apply Qle_bool_iff, Qabs_Qle_condition in Er1. lra.
  - apply Qle_bool_iff, Qabs_Qle_condition in Er1. lra.
  - apply Qle_bool_iff, Qabs_Qle_condition in Er2. lra.
  - apply Qle_bool_iff, Qabs_Qle_condition in Er2. lra.
  - apply Qle_bool_iff, Qabs_Qle_condition in Er3. lra.
  - apply Qle_bool_iff, Qabs_Qle_condition in Er3. lra.
Qed.

(** X20. A block size of zero is never reported by the test of the block
    size: the test that the blocks divide the mesh comes first and divides
    by it, so the constructor stops at an earlier test or divides by
    zero. *)
Theorem zero_block_size_not_reported (i : Input) :
  block_nx1 i = 0 \/ block_nx2 i = 0 \/ block_nx3 i = 0 ->
  check_config i <> throws small_block /\
  forall g, check_config i <> root_grid g.
Proof.
  intros Hz. unfold check_config.
  repeat match goal with
  | |- context [if ?c then throws ?e else _] =>
    lazymatch e with
    | small_block => fail
    | not_divisible => fail
    | _ => destruct c; [split; [discriminate | intros g; discriminate]|]
    end
  end.
  destruct (Z.eqb_spec (block_nx1 i) 0) as [E1 | E1];
    [split; [discriminate | intros g; discriminate]|].
  destruct (negb (Z.rem (nx1 i) (block_nx1 i) =? 0));
    [split; [discriminate | intros g; discriminate]|].
  destruct (Z.eqb_spec (block_nx2 i) 0) as [E2 | E2];
    [split; [discriminate | intros g; discriminate]|].
  destruct (negb (Z.rem (nx2 i) (block_nx2 i) =? 0));
    [split; [discriminate | intros g; discriminate]|].
  destruct (Z.eqb_spec (block_nx3 i) 0) as [E3 | E3];
    [split; [discriminate | intros g; discriminate]|].
  exfalso. tauto.
Qed.

End ConfigFacts.

Section ConfigExamples.
Import Config Examples.

Lemma check_config_accepted_witness :
  check_config ex_input = root_grid (mkRootGrid 4 2 1 4 2 2) /\
  (1 <= num_threads ex_input /\ 4 <= nx1 ex_input /\ 1 <= nx2 ex_input /\
   1 <= nx3 ex_input /\ (nx2 ex_input = 1 -> nx3 ex_input = 1)) /\
  ((cfl_number ex_input <= 1)%Q /\
   (1 < nx2 ex_input -> (cfl_number ex_input <= 1#2)%Q)) /\
  ((x1min ex_input < x1max ex_input)%Q /\ (x2min ex_input < x2max ex_input)%Q /\
   (x3min ex_input < x3max ex_input)%Q) /\
  ((9#10 <= x1rat ex_input <= 11#10)%Q /\ (9#10 <= x2rat ex_input <= 11#10)%Q /\
   (9#10 <= x3rat ex_input <= 11#10)%Q) /\
  (4 * block_nx1 ex_input = nx1 ex_input /\ 2 * block_nx2 ex_input = nx2 ex_input /\
   1 * block_nx3 ex_input = nx3 ex_input) /\
  (2 <= block_nx1 ex_input /\ 1 <= 4 /\
   (1 < nx2 ex_input -> 2 <= block_nx2 ex_input /\ 1 <= 2) /\
   (1 < nx3 ex_input -> 2 <= block_nx3 ex_input /\ 1 <= 1)) /\
  (4 = Z.max 4 (Z.max 2 1) /\
   0 <= 2 <= 30 /\ 4 <= 2 ^ 2 /\
   (forall k, 0 <= k < 2 -> 2 ^ k < 4) /\
   2 = nlevel ex_input + 2 - 1 /\
   - 2 ^ 31 <= nlevel ex_input + 2 < 2 ^ 31 /\
   - 2 ^ 31 <= 2 < 2 ^ 31).
Proof.
  assert (E : check_config ex_input = root_grid (mkRootGrid 4 2 1 4 2 2))
    by reflexivity.
  split; [exact E|].
  exact (check_config_accepted ex_input (mkRootGrid 4 2 1 4 2 2) E).
Defined.

Lemma zero_block_size_not_reported_witness :
  (block_nx1 zero_input = 0 \/ block_nx2 zero_input = 0 \/ block_nx3 zero_input = 0) /\
  check_config zero_input <> throws small_block /\
  forall g, check_config zero_input <> root_grid g.
Proof.
  assert (H : block_nx1 zero_input = 0 \/ block_nx2 zero_input = 0
              \/ block_nx3 zero_input = 0) by (left; reflexivity).
  split; [exact H|].
  exact (zero_block_size_not_reported zero_input H).
Defined.

(** With the largest [int] as the number of levels every test is passed
    and the sum [nlevel+root_level] leaves [int]. *)
Lemma max_level_overflow : check_config deep_input = undefined.
Proof. reflexivity. Qed.

End ConfigExamples.

(** ** The cell faces of a block *)

Section FacesFacts.
Import Machine RealArith Faces.
Context {Real : Type} {arith : Arith Real}.

Lemma awrite_some (a : AthenaArray Real) (i : Z) (v : Real) :
  0 <= i < size a ->
  exists a', awrite a i v = Some a' /\ size a' = size a /\
             cell a' i = Some v /\ forall j, j <> i -> cell a' j = cell a j.
Proof.
  intros Hi. unfold awrite.
  replace ((0 <=? i) && (i <? size a)) with true
    by (symmetry; apply andb_true_iff; split; [apply Z.leb_le | apply Z.ltb_lt]; lia).
  eexists. split; [reflexivity|]. cbn [size cell]. split; [reflexivity|].
  split; [rewrite Z.eqb_refl; reflexivity|].
  intros j Hj. replace (j =? i) with false by (symmetry; apply Z.eqb_neq; exact Hj).
  reflexivity.
Qed.

Lemma aread_some (a : AthenaArray Real) (i : Z) (v : Real) :
  0 <= i < size a -> cell a i = Some v -> aread a i = Some v.
Proof.
  intros Hi Hc. unfold aread.
  replace ((0 <=? i) && (i <? size a)) with true
    by (symmetry; apply andb_true_iff; split; [apply Z.leb_le | apply Z.ltb_lt]; lia).
  exact Hc.
Qed.

Lemma aread_filled (a : AthenaArray Real) (i : Z) :
  filled a -> 0 <= i < size a -> exists v, cell a i = Some v /\ aread a i = Some v.
Proof.
  intros Hf Hi. destruct (cell a i) as [v|] eqn:E.
  - exists v. split; [reflexivity | apply aread_some; assumption].
  - exfalso. exact (Hf i Hi E).
Qed.

Lemma for_up_inv {St : Type} (P : Z -> St -> Prop) (body : Z -> St -> option St) (n : nat) :
  forall i st,
    P i st ->
    (forall k st, i <= k < i + Z.of_nat n -> P k st ->
                  exists st', body k st = Some st' /\ P (k + 1) st') ->
    exists st', for_up n i body st = Some st' /\ P (i + Z.of_nat n) st'.
Proof.
  induction n as [|n IH]; intros i st Hp Hstep.
  - exists st. split; [reflexivity|]. replace (i + Z.of_nat 0) with i by lia. exact Hp.
  - cbn [for_up]. destruct (Hstep i st ltac:(lia) Hp) as (st1 & E & Hp1).
    rewrite E. cbn [bind].
    destruct (IH (i + 1) st1 Hp1) as (st' & E' & Hp').
    + intros k st2 Hk. apply Hstep. lia.
    + exists st'. split; [exact E'|].
      replace (i + Z.of_nat (S n)) with (i + 1 + Z.of_nat n) by lia. exact Hp'.
Qed.

Lemma for_range_inv {St : Type} (P : Z -> St -> Prop) (body : Z -> St -> option St)
      (lo hi : Z) (st : St) :
  lo <= hi + 1 ->
  P lo st ->
  (forall k st, lo <= k <= hi -> P k st ->
                exists st', body k st = Some st' /\ P (k + 1) st') ->
  exists st', for_range lo hi body st = Some st' /\ P (hi + 1) st'.
Proof.
  intros Hle Hp Hstep. unfold for_range.
  destruct (for_up_inv P body (Z.to_nat (hi - lo + 1)) lo st Hp) as (st' & E & Hp').
  - intros k st2 Hk. apply Hstep. lia.
  - exists st'. split; [exact E|].
    replace (hi + 1) with (lo + Z.of_nat (Z.to_nat (hi - lo + 1))) by lia. exact Hp'.
Qed.

Section OneDirection.

Variable NGHOST : Z.
Variables (nx : Z) (xmin xmax rat : Real) (mesh_nx lx ll root_level : Z)
          (gen : Real -> Real).
Hypothesis all_fit : fits NGHOST nx mesh_nx lx ll root_level.

Let s := NGHOST.
Let e := NGHOST + nx - 1.
Let n := nx + 2 * NGHOST.
Let dx := r_div (r_sub xmax xmin) (of_int nx).

Local Lemma NGHOST_nonneg : 0 <= NGHOST.
Proof. apply all_fit. Qed.

Local Lemma nx_pos : 1 <= nx.
Proof. apply all_fit. Qed.

(** What holds of the two arrays between the parts of the code: their
    sizes, all cells written, the two faces of the block in place. *)
Let shaped (st : AthenaArray Real * AthenaArray Real) : Prop :=
  size (fst st) = n /\ size (snd st) = n + 1 /\
  filled (fst st) /\ filled (snd st) /\
  cell (snd st) s = Some xmin /\ cell (snd st) (e + 1) = Some xmax.

(** The uniform branch. *)
Lemma uniform_branch :
  exists dxf xf,
    (dxf <- for_range (s - NGHOST) (e + NGHOST)
              (fun i dxf => awrite dxf i dx) (NewAthenaArray n) ;;
     xf <- awrite (NewAthenaArray (n + 1)) (s - NGHOST)
             (r_sub xmin (r_mul (of_int NGHOST) dx)) ;;
     xf <- for_range (s - NGHOST + 1) (e + NGHOST + 1)
             (fun i xf => v <- aread xf (i - 1) ;; awrite xf i (r_add v dx)) xf ;;
     xf <- awrite xf s xmin ;;
     xf <- awrite xf (e + 1) xmax ;;
     Some (dxf, xf)) = Some (dxf, xf) /\
    shaped (dxf, xf) /\ constant dx dxf.
Proof.
  pose proof NGHOST_nonneg as Hg. pose proof nx_pos as Hnx.
  (* the cell sizes *)
  destruct (for_range_inv
              (fun i (a : AthenaArray Real) =>
                 size a = n /\ forall j, 0 <= j < i -> cell a j = Some dx)
              (fun i dxf => awrite dxf i dx) (s - NGHOST) (e + NGHOST)
              (NewAthenaArray n)) as (dxf & E1 & Hs1 & Hd1).
  { subst s e. lia. }
  { split; [reflexivity|]. intros j Hj. subst s. lia. }
  { intros k a Hk [Hsa Ha].
    destruct (awrite_some a k dx) as (a' & E & Hs' & Hk' & Ho);
      [subst s e n; lia|].
    exists a'. split; [exact E|]. split; [lia|].
    intros j Hj. destruct (Z.eq_dec j k) as [-> | Hne]; [exact Hk'|].
    rewrite Ho by exact Hne. apply Ha. lia. }
  rewrite E1. cbn [bind].
  (* the first face *)
  destruct (awrite_some (NewAthenaArray (n + 1)) (s - NGHOST)
              (r_sub xmin (r_mul (of_int NGHOST) dx))) as (xf0 & E2 & Hs2 & Hx0 & _);
    [cbn [size NewAthenaArray]; subst s n; lia|].
  rewrite E2. cbn [bind]. cbn [size NewAthenaArray] in Hs2.
  (* the other faces *)
  destruct (for_range_inv
              (fun i (a : AthenaArray Real) =>
                 size a = n + 1 /\ forall j, 0 <= j < i -> cell a j <> None)
              (fun i xf => v <- aread xf (i - 1) ;; awrite xf i (r_add v dx))
              (s - NGHOST + 1) (e + NGHOST + 1) xf0) as (xf1 & E3 & Hs3 & Hx1).
  { subst s e. lia. }
  { split; [exact Hs2|]. intros j Hj. assert (j = s - NGHOST) by (subst s; lia). subst j.
    rewrite Hx0. discriminate. }
  { intros k a Hk [Hsa Ha].
    destruct (cell a (k - 1)) as [x|] eqn:Ex;
      [| exfalso; apply (Ha (k - 1)); [subst s; lia | exact Ex]].
    rewrite (aread_some a (k - 1) x) by (try exact Ex; subst s e n; lia).
    cbn [bind].
    destruct (awrite_some a k (r_add x dx)) as (a' & E & Hs' & Hk' & Ho);
      [subst s e n; lia|].
    exists a'. split; [exact E|]. split; [lia|].
    intros j Hj. destruct (Z.eq_dec j k) as [-> | Hne].
    - rewrite Hk'. discriminate.
    - rewrite Ho by exact Hne. apply Ha. lia. }
  rewrite E3. cbn [bind].
  (* the two faces of the block *)
  destruct (awrite_some xf1 s xmin) as (xf2 & E4 & Hs4 & Hx2 & Ho2);
    [subst s n; lia|].
  rewrite E4. cbn [bind].
  destruct (awrite_some xf2 (e + 1) xmax) as (xf3 & E5 & Hs5 & Hx3 & Ho3);
    [subst e n; lia|].
  rewrite E5. cbn [bind].
  exists dxf, xf3. split; [reflexivity|].
  assert (Hc : constant dx dxf).
  { intros j Hj. apply Hd1. subst e n. lia. }
  split; [| exact Hc].
  unfold shaped. cbn [fst snd].
  split; [exact Hs1 | split; [lia | split; [| split; [| split]]]].
  - intros j Hj. rewrite Hc by exact Hj. discriminate.
  - intros j Hj. destruct (Z.eq_dec j (e + 1)) as [-> | Hne1];
      [rewrite Hx3; discriminate|].
    rewrite Ho3 by exact Hne1.
    destruct (Z.eq_dec j s) as [-> | Hne2]; [rewrite Hx2; discriminate|].
    rewrite Ho2 by exact Hne2. apply Hx1. subst e n. lia.
  - rewrite Ho3 by (subst e s; lia). exact Hx2.
  - exact Hx3.
Qed.

(** The branch that asks the mesh generator. *)
Lemma generated_branch (nrootmesh : Z) :
  exists dxf xf,
    (xf <- for_range (s - NGHOST) (e + NGHOST + 1)
             (fun i xf =>
                p <- long (lx * nx) ;;
                noffset <- long ((i - s) + p) ;;
                let rx := r_div (of_int noffset) (of_int nrootmesh) in
                awrite xf i (gen rx)) (NewAthenaArray (n + 1)) ;;
     xf <- awrite xf s xmin ;;
     xf <- awrite xf (e + 1) xmax ;;
     dxf <- for_range (s - NGHOST) (e + NGHOST)
              (fun i dxf =>
                 b <- aread xf (i + 1) ;;
                 a <- aread xf i ;;
                 awrite dxf i (r_sub b a)) (NewAthenaArray n) ;;
     Some (dxf, xf)) = Some (dxf, xf) /\
    shaped (dxf, xf) /\ differences 0 (n - 1) dxf xf.
Proof.
  pose proof NGHOST_nonneg as Hg. pose proof nx_pos as Hnx.
  destruct all_fit as (_ & _ & Hn & Hll & Hmesh & Hroot & Hlx & Hend).
  assert (Hp' : 0 <= lx * nx < 2 ^ 31) by nia.
  assert (Hp : - 2 ^ 63 <= lx * nx < 2 ^ 63) by lia.
  (* the faces *)
  destruct (for_range_inv
              (fun i (a : AthenaArray Real) =>
                 size a = n + 1 /\ forall j, 0 <= j < i -> cell a j <> None)
              (fun i xf =>
                 p <- long (lx * nx) ;;
                 noffset <- long ((i - s) + p) ;;
                 let rx := r_div (of_int noffset) (of_int nrootmesh) in
                 awrite xf i (gen rx))
              (s - NGHOST) (e + NGHOST + 1) (NewAthenaArray (n + 1)))
    as (xf1 & E1 & Hs1 & Hf1).
  { subst s e. lia. }
  { split; [reflexivity|]. intros j Hj. subst s. lia. }
  { intros k a Hk [Hsa Ha].
    rewrite (long_some (lx * nx) Hp). cbn [bind].
    rewrite (long_some (k - s + lx * nx)) by (subst s e; lia).
    cbn [bind]. cbv zeta.
    destruct (awrite_some a k
                (gen (r_div (of_int (k - s + lx * nx)) (of_int nrootmesh))))
      as (a' & E & Hs' & Hk' & Ho); [subst s e n; lia|].
    exists a'. split; [exact E|]. split; [lia|].
    intros j Hj. destruct (Z.eq_dec j k) as [-> | Hne]; [rewrite Hk'; discriminate|].
    rewrite Ho by exact Hne. apply Ha. lia. }
  rewrite E1. cbn [bind].
  destruct (awrite_some xf1 s xmin) as (xf2 & E2 & Hs2 & Hx2 & Ho2);
    [subst s n; lia|].
  rewrite E2. cbn [bind].
  destruct (awrite_some xf2 (e + 1) xmax) as (xf3 & E3 & Hs3 & Hx3 & Ho3);
    [subst e n; lia|].
  rewrite E3. cbn [bind].
  assert (Hf3 : filled xf3).
  { intros j Hj. destruct (Z.eq_dec j (e + 1)) as [-> | Hne1];
      [rewrite Hx3; discriminate|].
    rewrite Ho3 by exact Hne1.
    destruct (Z.eq_dec j s) as [-> | Hne2]; [rewrite Hx2; discriminate|].
    rewrite Ho2 by exact Hne2. apply Hf1. subst e n. lia. }
  (* the sizes *)
  destruct (for_range_inv
              (fun i (a : AthenaArray Real) =>
                 size a = n /\ differences 0 (i - 1) a xf3)
              (fun i dxf =>
                 b <- aread xf3 (i + 1) ;;
                 a <- aread xf3 i ;;
                 awrite dxf i (r_sub b a))
              (s - NGHOST) (e + NGHOST) (NewAthenaArray n))
    as (dxf & E4 & Hs4 & Hok).
  { subst s e. lia. }
  { split; [reflexivity|]. intros j Hj. subst s. lia. }
  { intros k a Hk [Hsa Ha].
    destruct (aread_filled xf3 (k + 1) Hf3 ltac:(subst s e n; lia)) as (b & Eb & Hrd1).
    rewrite Hrd1.
    cbn [bind].
    destruct (aread_filled xf3 k Hf3 ltac:(subst s e n; lia)) as (a0 & Ea & Hrd2).
    rewrite Hrd2.
    cbn [bind].
    destruct (awrite_some a k (r_sub b a0)) as (a' & E & Hs' & Hk' & Ho);
      [subst s e n; lia|].
    exists a'. split; [exact E|]. split; [lia|].
    intros j Hj. destruct (Z.eq_dec j k) as [-> | Hne].
    - exists a0, b. repeat split; assumption.
    - destruct (Ha j ltac:(lia)) as (x & y & Hx & Hy & Hd).
      exists x, y. rewrite Ho by exact Hne. repeat split; assumption. }
  rewrite E4. cbn [bind].
  exists dxf, xf3. split; [reflexivity|].
  assert (Hall : differences 0 (n - 1) dxf xf3).
  { intros j Hj. apply Hok. subst s e n. lia. }
  split; [| exact Hall].
  unfold shaped. cbn [fst snd].
  split; [exact Hs4 | split; [lia | split; [| split; [exact Hf3 | split]]]].
  - intros j Hj. destruct (Hall j ltac:(lia)) as (a & b & _ & _ & Ed). rewrite Ed. discriminate.
  - rewrite Ho3 by (subst e s; lia). exact Hx2.
  - exact Hx3.
Qed.

(** What a correction of the ghost zones keeps: the cells of the block and
    their faces, and a size that all cells share. *)
Let kept (st0 st : AthenaArray Real * AthenaArray Real) : Prop :=
  (forall j, s <= j <= e -> cell (fst st) j = cell (fst st0) j) /\
  (forall j, s <= j <= e + 1 -> cell (snd st) j = cell (snd st0) j) /\
  (forall v, constant v (fst st0) -> constant v (fst st)).

(** The correction for a reflecting inner boundary. *)
Lemma inner_correction (st : AthenaArray Real * AthenaArray Real) :
  shaped st ->
  exists st',
    for_range 1 NGHOST
      (fun i st =>
         let '(dxf, xf) := st in
         v <- aread dxf (s + i - 1) ;;
         dxf <- awrite dxf (s - i) v ;;
         a <- aread xf (s - i + 1) ;;
         d <- aread dxf (s - i) ;;
         xf <- awrite xf (s - i) (r_sub a d) ;;
         Some (dxf, xf)) st = Some st' /\
    shaped st' /\ kept st st'.
Proof.
  pose proof NGHOST_nonneg as Hg. pose proof nx_pos as Hnx.
  intros Hsh.
  destruct (for_range_inv
              (fun (i : Z) (st1 : AthenaArray Real * AthenaArray Real) =>
                 shaped st1 /\ kept st st1)
              (fun i st =>
                 let '(dxf, xf) := st in
                 v <- aread dxf (s + i - 1) ;;
                 dxf <- awrite dxf (s - i) v ;;
                 a <- aread xf (s - i + 1) ;;
                 d <- aread dxf (s - i) ;;
                 xf <- awrite xf (s - i) (r_sub a d) ;;
                 Some (dxf, xf))
              1 NGHOST st) as (st' & E & Hsh' & Hk').
  { lia. }
  { split; [exact Hsh|]. repeat split; auto. }
  { intros k [dxf xf] Hk [(Hs1 & Hs2 & Hf1 & Hf2 & Hmin & Hmax) (Hk1 & Hk2 & Hk3)].
    cbn [fst snd] in *.
    destruct (aread_filled dxf (s + k - 1) Hf1 ltac:(subst s n; lia)) as (v & Ev & Hrd3).
    rewrite Hrd3.
    cbn [bind].
    destruct (awrite_some dxf (s - k) v) as (dxf1 & E1 & Hsd & Hd1 & Hdo);
      [subst s n; lia|].
    rewrite E1. cbn [bind].
    destruct (aread_filled xf (s - k + 1) Hf2 ltac:(subst s n; lia)) as (a & Ea & Hrd4).
    rewrite Hrd4.
    cbn [bind].
    rewrite (aread_some dxf1 (s - k) v) by (try exact Hd1; subst s n; lia).
    cbn [bind].
    destruct (awrite_some xf (s - k) (r_sub a v)) as (xf1 & E2 & Hsx & Hx1 & Hxo);
      [subst s n; lia|].
    rewrite E2. cbn [bind].
    exists (dxf1, xf1). split; [reflexivity|]. cbn [fst snd]. split.
    - unfold shaped. cbn [fst snd].
      split; [lia | split; [lia | split; [| split; [| split]]]].
      + intros j Hj. destruct (Z.eq_dec j (s - k)) as [-> | Hne];
          [rewrite Hd1; discriminate | rewrite Hdo by exact Hne; apply Hf1; lia].
      + intros j Hj. destruct (Z.eq_dec j (s - k)) as [-> | Hne];
          [rewrite Hx1; discriminate | rewrite Hxo by exact Hne; apply Hf2; lia].
      + rewrite Hxo by lia. exact Hmin.
      + rewrite Hxo by (subst s e; lia). exact Hmax.
    - split; [| split].
      + intros j Hj. rewrite Hdo by lia. apply Hk1, Hj.
      + intros j Hj. rewrite Hxo by lia. apply Hk2, Hj.
      + intros v0 Hc j Hj. cbn [fst] in Hj |- *. rewrite Hsd in Hj.
        pose proof (Hk3 v0 Hc) as Hc1.
        destruct (Z.eq_dec j (s - k)) as [-> | Hne].
        * rewrite Hd1, <- Ev. apply Hc1. subst s n. lia.
        * rewrite Hdo by exact Hne. apply Hc1. exact Hj. }
  exists st'. auto.
Qed.

(** The correction for a reflecting outer boundary. *)
Lemma outer_correction (st : AthenaArray Real * AthenaArray Real) :
  shaped st ->
  exists st',
    for_range 1 NGHOST
      (fun i st =>
         let '(dxf, xf) := st in
         v <- aread dxf (e - i + 1) ;;
         dxf <- awrite dxf (e + i) v ;;
         a <- aread xf (e + i) ;;
         d <- aread dxf (e + i) ;;
         xf <- awrite xf (e + i + 1) (r_add a d) ;;
         Some (dxf, xf)) st = Some st' /\
    shaped st' /\ kept st st'.
Proof.
  pose proof NGHOST_nonneg as Hg. pose proof nx_pos as Hnx.
  intros Hsh.
  destruct (for_range_inv
              (fun (i : Z) (st1 : AthenaArray Real * AthenaArray Real) =>
                 shaped st1 /\ kept st st1)
              (fun i st =>
                 let '(dxf, xf) := st in
                 v <- aread dxf (e - i + 1) ;;
                 dxf <- awrite dxf (e + i) v ;;
                 a <- aread xf (e + i) ;;
                 d <- aread dxf (e + i) ;;
                 xf <- awrite xf (e + i + 1) (r_add a d) ;;
                 Some (dxf, xf))
              1 NGHOST st) as (st' & E & Hsh' & Hk').
  { lia. }
  { split; [exact Hsh|]. repeat split; auto. }
  { intros k [dxf xf] Hk [(Hs1 & Hs2 & Hf1 & Hf2 & Hmin & Hmax) (Hk1 & Hk2 & Hk3)].
    cbn [fst snd] in *.
    destruct (aread_filled dxf (e - k + 1) Hf1 ltac:(subst e n; lia)) as (v & Ev & Hrd5).
    rewrite Hrd5.
    cbn [bind].
    destruct (awrite_some dxf (e + k) v) as (dxf1 & E1 & Hsd & Hd1 & Hdo);
      [subst e n; lia|].
    rewrite E1. cbn [bind].
    destruct (aread_filled xf (e + k) Hf2 ltac:(subst e n; lia)) as (a & Ea & Hrd6).
    rewrite Hrd6.
    cbn [bind].
    rewrite (aread_some dxf1 (e + k) v) by (try exact Hd1; subst e n; lia).
    cbn [bind].
    destruct (awrite_some xf (e + k + 1) (r_add a v)) as (xf1 & E2 & Hsx & Hx1 & Hxo);
      [subst e n; lia|].
    rewrite E2. cbn [bind].
    exists (dxf1, xf1). split; [reflexivity|]. cbn [fst snd]. split.
    - unfold shaped. cbn [fst snd].
      split; [lia | split; [lia | split; [| split; [| split]]]].
      + intros j Hj. destruct (Z.eq_dec j (e + k)) as [-> | Hne];
          [rewrite Hd1; discriminate | rewrite Hdo by exact Hne; apply Hf1; lia].
      + intros j Hj. destruct (Z.eq_dec j (e + k + 1)) as [-> | Hne];
          [rewrite Hx1; discriminate | rewrite Hxo by exact Hne; apply Hf2; lia].
      + rewrite Hxo by (subst s e; lia). exact Hmin.
      + rewrite Hxo by lia. exact Hmax.
    - split; [| split].
      + intros j Hj. rewrite Hdo by lia. apply Hk1, Hj.
      + intros j Hj. rewrite Hxo by lia. apply Hk2, Hj.
      + intros v0 Hc j Hj. cbn [fst] in Hj |- *. rewrite Hsd in Hj.
        pose proof (Hk3 v0 Hc) as Hc1.
        destruct (Z.eq_dec j (e + k)) as [-> | Hne].
        * rewrite Hd1, <- Ev. apply Hc1. subst e n. lia.
        * rewrite Hdo by exact Hne. apply Hc1. exact Hj. }
  exists st'. auto.
Qed.

(** The whole block of code for one direction. *)
Lemma faces_spec (bc_inner bc_outer : Z) :
  exists dxf xf,
    faces NGHOST s e nx xmin xmax rat mesh_nx lx ll root_level gen
          bc_inner bc_outer (NewAthenaArray n) (NewAthenaArray (n + 1))
    = Some (dxf, xf) /\
    size dxf = n /\ size xf = n + 1 /\
    filled dxf /\ filled xf /\
    cell xf s = Some xmin /\ cell xf (e + 1) = Some xmax /\
    (r_eqb rat (of_int 1) = true -> constant dx dxf) /\
    (r_eqb rat (of_int 1) = false -> differences s e dxf xf).
Proof.
  pose proof NGHOST_nonneg as Hg. pose proof nx_pos as Hnx.
  destruct all_fit as (_ & _ & Hn & Hll & Hmesh & Hroot & Hlx & Hend).
  assert (Hfin : forall st0 : AthenaArray Real * AthenaArray Real,
             shaped st0 ->
             exists st2,
               (st <- (if bc_inner =? 1 then
                         for_range 1 NGHOST
                           (fun i st =>
                              let '(dxf, xf) := st in
                              v <- aread dxf (s + i - 1) ;;
                              dxf <- awrite dxf (s - i) v ;;
                              a <- aread xf (s - i + 1) ;;
                              d <- aread dxf (s - i) ;;
                              xf <- awrite xf (s - i) (r_sub a d) ;;
                              Some (dxf, xf)) st0
                       else Some st0) ;;
                (if bc_outer =? 1 then
                   for_range 1 NGHOST
                     (fun i st =>
                        let '(dxf, xf) := st in
                        v <- aread dxf (e - i + 1) ;;
                        dxf <- awrite dxf (e + i) v ;;
                        a <- aread xf (e + i) ;;
                        d <- aread dxf (e + i) ;;
                        xf <- awrite xf (e + i + 1) (r_add a d) ;;
                        Some (dxf, xf)) st
                 else Some st)) = Some st2 /\
               shaped st2 /\ kept st0 st2).
  { intros st0 Hsh.
    assert (H1 : exists st1,
               (if bc_inner =? 1 then
                  for_range 1 NGHOST
                    (fun i st =>
                       let '(dxf, xf) := st in
                       v <- aread dxf (s + i - 1) ;;
                       dxf <- awrite dxf (s - i) v ;;
                       a <- aread xf (s - i + 1) ;;
                       d <- aread dxf (s - i) ;;
                       xf <- awrite xf (s - i) (r_sub a d) ;;
                       Some (dxf, xf)) st0
                else Some st0) = Some st1 /\
               shaped st1 /\ kept st0 st1).
    { destruct (bc_inner =? 1); [apply inner_correction; assumption|].
      exists st0. split; [reflexivity | split; [exact Hsh | repeat split; auto]]. }
    destruct H1 as (st1 & E1 & Hsh1 & (Ha1 & Hb1 & Hc1)). rewrite E1. cbn [bind].
    assert (H2 : exists st2,
               (if bc_outer =? 1 then
                  for_range 1 NGHOST
                    (fun i st =>
                       let '(dxf, xf) := st in
                       v <- aread dxf (e - i + 1) ;;
                       dxf <- awrite dxf (e + i) v ;;
                       a <- aread xf (e + i) ;;
                       d <- aread dxf (e + i) ;;
                       xf <- awrite xf (e + i + 1) (r_add a d) ;;
                       Some (dxf, xf)) st1
                else Some st1) = Some st2 /\
               shaped st2 /\ kept st1 st2).
    { destruct (bc_outer =? 1); [apply outer_correction; assumption|].
      exists st1. split; [reflexivity | split; [exact Hsh1 | repeat split; auto]]. }
    destruct H2 as (st2 & E2 & Hsh2 & (Ha2 & Hb2 & Hc2)).
    exists st2. split; [exact E2 | split; [exact Hsh2|]].
    split; [| split].
    - intros j Hj. rewrite Ha2, Ha1 by exact Hj. reflexivity.
    - intros j Hj. rewrite Hb2, Hb1 by exact Hj. reflexivity.
    - intros v Hc. apply Hc2, Hc1, Hc. }
  unfold faces.
  rewrite (shift_long_some (ll - root_level)) by lia. cbn [bind].
  assert (Hpow : 0 < 2 ^ (ll - root_level) <= 2 ^ 30).
  { split; [apply Z.pow_pos_nonneg; lia | apply Z.pow_le_mono_r; lia]. }
  rewrite (long_some (mesh_nx * 2 ^ (ll - root_level))).
  2:{ assert (0 <= mesh_nx * 2 ^ (ll - root_level)) by nia. lia. }
  cbn [bind].
  destruct (r_eqb rat (of_int 1)) eqn:Hrat.
  - destruct uniform_branch as (dxf & xf & E & Hsh & Hc).
    unfold dx in E. cbv zeta. rewrite E. cbn [bind].
    destruct (Hfin (dxf, xf) Hsh)
      as ([dxf2 xf2] & E2 & (Hs1 & Hs2 & Hf1 & Hf2 & Hmin & Hmax) & (_ & _ & Hk)).
    cbn [fst snd] in *.
    exists dxf2, xf2. split; [exact E2|].
    repeat split; try assumption; try discriminate.
    intros _. apply Hk, Hc.
  - destruct (generated_branch (mesh_nx * 2 ^ (ll - root_level)))
      as (dxf & xf & E & Hsh & Hd).
    cbv zeta in E. cbv zeta. rewrite E. cbn [bind].
    destruct (Hfin (dxf, xf) Hsh)
      as ([dxf2 xf2] & E2 & (Hs1 & Hs2 & Hf1 & Hf2 & Hmin & Hmax) & (Ha & Hb & _)).
    cbn [fst snd] in *.
    exists dxf2, xf2. split; [exact E2|].
    repeat split; try assumption; try discriminate.
    intros _ j Hj. destruct (Hd j ltac:(subst s e n; lia)) as (a & b & Ea & Eb & Ed).
    exists a, b. rewrite Ha, !Hb by lia. repeat split; assumption.
Qed.

End OneDirection.

(** X21. Along x1 the constructor of a MeshBlock, with integers that fit
    their types, never reads or writes outside the arrays [dx1f] and [x1f]
    and never reads a cell it has not written, whatever the arithmetic of
    [Real], the mesh generator, the cell ratio and the two boundary flags.
    Every cell and every face is set; the two faces of the block hold
    [x1min] and [x1max] themselves; and when the cell ratio is not [1.0],
    every cell of the block holds the difference of its two faces as
    [Real] computes it. *)
Theorem x1_faces_in_bounds (NGHOST nx1 nx2 nx3 : Z) (x1min x1max x1rat : Real)
        (mesh_nx1 lx1 ll root_level : Z) (MeshGeneratorX1 : Real -> Real)
        (bc_inner_x1 bc_outer_x1 : Z) :
  fits NGHOST nx1 mesh_nx1 lx1 ll root_level ->
  exists dx1f x1f,
    x1_faces NGHOST nx1 nx2 nx3 x1min x1max x1rat mesh_nx1 lx1 ll root_level
             MeshGeneratorX1 bc_inner_x1 bc_outer_x1 = Some (dx1f, x1f) /\
    size dx1f = nx1 + 2 * NGHOST /\ size x1f = nx1 + 2 * NGHOST + 1 /\
    filled dx1f /\ filled x1f /\
    cell x1f NGHOST = Some x1min /\ cell x1f (NGHOST + nx1) = Some x1max /\
    (r_eqb x1rat (of_int 1) = false ->
     differences NGHOST (NGHOST + nx1 - 1) dx1f x1f).
Proof.
  intros Hfit. pose proof Hfit as (Hg & Hnx & Hn & _).
  unfold x1_faces, grid_indices.
  destruct (1 <? nx2), (1 <? nx3); cbn [is_ ie ncells1];
    rewrite (int_some (nx1 + 2 * NGHOST + 1)) by lia; cbn [bind];
    destruct (faces_spec NGHOST nx1 x1min x1max x1rat mesh_nx1 lx1 ll root_level
                MeshGeneratorX1 Hfit bc_inner_x1 bc_outer_x1)
      as (dxf & xf & E & Hs1 & Hs2 & Hf1 & Hf2 & Hmin & Hmax & _ & Hd);
    exists dxf, xf;
    (split; [exact E|]); (split; [exact Hs1|]); (split; [exact Hs2|]);
    (split; [exact Hf1|]); (split; [exact Hf2|]); (split; [exact Hmin|]);
    (split; [| exact Hd]);
    replace (NGHOST + nx1) with (NGHOST + nx1 - 1 + 1) by lia; exact Hmax.
Qed.

(** X22. With a cell ratio of [1.0] the cells along x1 all have the same
    size: every cell of [dx1f], ghost cells included, holds the one value
    [(x1max-x1min)/nx1] that [Real] computes, with reflecting boundaries as
    without. *)
Theorem x1_faces_uniform (NGHOST nx1 nx2 nx3 : Z) (x1min x1max x1rat : Real)
        (mesh_nx1 lx1 ll root_level : Z) (MeshGeneratorX1 : Real -> Real)
        (bc_inner_x1 bc_outer_x1 : Z) :
  fits NGHOST nx1 mesh_nx1 lx1 ll root_level ->
  r_eqb x1rat (of_int 1) = true ->
  exists dx1f x1f,
    x1_faces NGHOST nx1 nx2 nx3 x1min x1max x1rat mesh_nx1 lx1 ll root_level
             MeshGeneratorX1 bc_inner_x1 bc_outer_x1 = Some (dx1f, x1f) /\
    constant (r_div (r_sub x1max x1min) (of_int nx1)) dx1f.
Proof.
  intros Hfit Hrat. pose proof Hfit as (Hg & Hnx & Hn & _).
  unfold x1_faces, grid_indices.
  destruct (1 <? nx2), (1 <? nx3); cbn [is_ ie ncells1];
    rewrite (int_some (nx1 + 2 * NGHOST + 1)) by lia; cbn [bind];
    destruct (faces_spec NGHOST nx1 x1min x1max x1rat mesh_nx1 lx1 ll root_level
                MeshGeneratorX1 Hfit bc_inner_x1 bc_outer_x1)
      as (dxf & xf & E & _ & _ & _ & _ & _ & _ & Hu & _);
    exists dxf, xf; (split; [exact E | exact (Hu Hrat)]).
Qed.

(** X23. Along x2 the constructor is as safe.  With more than one cell the
    code for x1 is repeated on [dx2f] and [x2f]; with a single cell the
    arrays have one cell and two faces, and the cell holds [x2max-x2min]
    as [Real] computes it.  In both cases every cell and every face is set
    and the two faces of the block hold [x2min] and [x2max] themselves. *)
Theorem x2_faces_in_bounds (NGHOST nx1 nx2 nx3 : Z) (x2min x2max x2rat : Real)
        (mesh_nx2 lx2 ll root_level : Z) (MeshGeneratorX2 : Real -> Real)
        (bc_inner_x2 bc_outer_x2 : Z) :
  1 <= nx2 ->
  (1 < nx2 -> fits NGHOST nx2 mesh_nx2 lx2 ll root_level) ->
  exists dx2f x2f,
    x2_faces NGHOST nx1 nx2 nx3 x2min x2max x2rat mesh_nx2 lx2 ll root_level
             MeshGeneratorX2 bc_inner_x2 bc_outer_x2 = Some (dx2f, x2f) /\
    size dx2f = ncells2 (grid_indices NGHOST nx1 nx2 nx3) /\
    size x2f = ncells2 (grid_indices NGHOST nx1 nx2 nx3) + 1 /\
    filled dx2f /\ filled x2f /\
    cell x2f (js (grid_indices NGHOST nx1 nx2 nx3)) = Some x2min /\
    cell x2f (je (grid_indices NGHOST nx1 nx2 nx3) + 1) = Some x2max /\
    je (grid_indices NGHOST nx1 nx2 nx3) - js (grid_indices NGHOST nx1 nx2 nx3) + 1
    = nx2 /\
    (nx2 = 1 -> cell dx2f 0 = Some (r_sub x2max x2min)).
Proof.
  intros Hnx Hfit. unfold x2_faces, grid_indices.
  destruct (Z.ltb_spec 1 nx2) as [Hmany | Hone].
  - specialize (Hfit Hmany). pose proof Hfit as (Hg & _ & Hn & _).
    destruct (1 <? nx3); cbn [js je ncells2];
      rewrite (int_some (nx2 + 2 * NGHOST + 1)) by lia; cbn [bind];
      destruct (faces_spec NGHOST nx2 x2min x2max x2rat mesh_nx2 lx2 ll root_level
                  MeshGeneratorX2 Hfit bc_inner_x2 bc_outer_x2)
        as (dxf & xf & E & Hs1 & Hs2 & Hf1 & Hf2 & Hmin & Hmax & _);
      exists dxf, xf; repeat split; try assumption; lia.
  - assert (nx2 = 1) by lia. subst nx2.
    assert (Hsingle :
              exists dxf xf,
                single_cell 0 0 x2min x2max (NewAthenaArray 1) (NewAthenaArray (1 + 1))
                = Some (dxf, xf) /\
                size dxf = 1 /\ size xf = 1 + 1 /\ filled dxf /\ filled xf /\
                cell xf 0 = Some x2min /\ cell xf (0 + 1) = Some x2max /\
                cell dxf 0 = Some (r_sub x2max x2min)).
    { eexists. eexists. split; [reflexivity|]. cbn [size cell].
      split; [reflexivity | split; [reflexivity | split; [| split]]].
      - intros j Hj. simpl in Hj. assert (j = 0) by lia. subst j. cbn. discriminate.
      - intros j Hj. simpl in Hj.
        assert (j = 0 \/ j = 1) as [-> | ->] by lia; cbn; discriminate.
      - repeat split; reflexivity. }
    destruct Hsingle as (dxf & xf & E & Hs1 & Hs2 & Hf1 & Hf2 & Hmin & Hmax & Hd).
    destruct (1 <? nx3); cbn [js je ncells2];
      rewrite (int_some (1 + 1)) by lia; cbn [bind];
      exists dxf, xf; repeat split; try assumption; try (intros _; exact Hd); lia.
Qed.

End FacesFacts.

Section FacesExamples.
Import RealArith Faces Examples.

(** The examples are on doubles. *)
Local Existing Instance binary64.

Lemma x1_faces_in_bounds_witness :
  fits 2 4 4 0 0 0 /\
  exists dx1f x1f,
    x1_faces (arith := binary64) 2 4 1 1 (of_int 0) (of_int 1) double_1_1
             4 0 0 0 (fun rx => r_mul rx rx) 1 1 = Some (dx1f, x1f) /\
    size dx1f = 4 + 2 * 2 /\ size x1f = 4 + 2 * 2 + 1 /\
    filled dx1f /\ filled x1f /\
    cell x1f 2 = Some (of_int 0) /\ cell x1f (2 + 4) = Some (of_int 1) /\
    (r_eqb double_1_1 (of_int 1) = false -> differences 2 (2 + 4 - 1) dx1f x1f).
Proof.
  assert (Hfit : fits 2 4 4 0 0 0) by (unfold fits; lia).
  split; [exact Hfit|].
  exact (x1_faces_in_bounds (arith := binary64) 2 4 1 1 (of_int 0) (of_int 1)
           double_1_1 4 0 0 0 (fun rx => r_mul rx rx) 1 1 Hfit).
Defined.

Lemma x1_faces_uniform_witness :
  (fits 2 3 3 0 0 0 /\
   r_eqb (Arith := binary64) (of_int 1) (of_int 1) = true) /\
  exists dx1f x1f,
    x1_faces (arith := binary64) 2 3 1 1 (of_int 0) (of_int 1) (of_int 1)
             3 0 0 0 (fun rx => rx) 1 0 = Some (dx1f, x1f) /\
    constant (r_div (r_sub (of_int 1) (of_int 0)) (of_int 3)) dx1f.
Proof.
  assert (Hfit : fits 2 3 3 0 0 0) by (unfold fits; lia).
  assert (Hr : r_eqb (Arith := binary64) (of_int 1) (of_int 1) = true) by reflexivity.
  split; [split; assumption|].
  exact (x1_faces_uniform (arith := binary64) 2 3 1 1 (of_int 0) (of_int 1) (of_int 1)
           3 0 0 0 (fun rx => rx) 1 0 Hfit Hr).
Defined.

Lemma x2_faces_in_bounds_witness :
  (1 <= 1 /\ (1 < 1 -> fits 2 1 1 0 0 0)) /\
  exists dx2f x2f,
    x2_faces (arith := binary64) 2 4 1 1 (of_int 0) (of_int 1) (of_int 1)
             1 0 0 0 (fun rx => rx) 0 0 = Some (dx2f, x2f) /\
    size dx2f = ncells2 (grid_indices 2 4 1 1) /\
    size x2f = ncells2 (grid_indices 2 4 1 1) + 1 /\
    filled dx2f /\ filled x2f /\
    cell x2f (js (grid_indices 2 4 1 1)) = Some (of_int 0) /\
    cell x2f (je (grid_indices 2 4 1 1) + 1) = Some (of_int 1) /\
    je (grid_indices 2 4 1 1) - js (grid_indices 2 4 1 1) + 1 = 1 /\
    (1 = 1 -> cell dx2f 0 = Some (r_sub (of_int 1) (of_int 0))).
Proof.
  assert (Hn : 1 <= 1) by lia.
  assert (Hfit : 1 < 1 -> fits 2 1 1 0 0 0) by lia.
  split; [split; assumption|].
  exact (x2_faces_in_bounds (arith := binary64) 2 4 1 1 (of_int 0) (of_int 1)
           (of_int 1) 1 0 0 0 (fun rx => rx) 0 0 Hn Hfit).
Defined.

(** On doubles the faces that the code adds up are not where a product
    would put them, and the last cell of the block is not the difference of
    its faces: three cells between 0 and 1. *)
Lemma uniform_faces_rounded :
  match x1_faces (arith := binary64) 0 3 1 1 (of_int 0) (of_int 1) (of_int 1)
                 3 0 0 0 (fun rx => rx) 0 0 with
  | Some (dx1f, x1f) =>
    match cell dx1f 2, cell x1f 2, cell x1f 3 with
    | Some d, Some a, Some b => SFeqb (SFsub 53 1024 b a) d = false
    | _, _, _ => False
    end
  | None => False
  end.
Proof. vm_compute. reflexivity. Qed.

End FacesExamples.

(** ** Initialization before the main loop *)

Section InitFacts.
Import Neighbors Init.

Variable MAGNETIC_FIELDS_ENABLED : bool.

Lemma existsb_flat_map {A B : Type} (p : B -> bool) (f : A -> list B) (l : list A) :
  existsb p (flat_map f l) = existsb (fun a => existsb p (f a)) l.
Proof.
  induction l as [|a l IH]; [reflexivity|].
  cbn [flat_map existsb]. rewrite existsb_app, IH. reflexivity.
Qed.

Lemma existsb_never {A : Type} (p : A -> bool) (l : list A) :
  (forall a, p a = false) -> existsb p l = false.
Proof.
  intros H. induction l as [|a l IH]; [reflexivity|].
  cbn [existsb]. rewrite H, IH. reflexivity.
Qed.

Lemma existsb_false_In {A : Type} (p : A -> bool) (l : list A) :
  existsb p l = false -> forall a, In a l -> p a = false.
Proof.
  intros H a Ha. destruct (p a) eqn:E; [| reflexivity].
  rewrite <- H. symmetry. apply existsb_exists. exists a. auto.
Qed.

(** A list cut in two ways: an element that is not in the first part of
    one cut lies in its second part. *)
Lemma split_after {A : Type} (pre post l1 l2 : list A) (c : A) :
  pre ++ post = l1 ++ c :: l2 -> ~ In c pre ->
  exists m, l1 = pre ++ m /\ post = m ++ c :: l2.
Proof.
  revert l1. induction pre as [|a pre IH]; intros l1 E Hc.
  - exists l1. auto.
  - destruct l1 as [|x l1].
    + injection E as -> _. exfalso. apply Hc. left. reflexivity.
    + injection E as -> E.
      destruct (IH l1 E) as (m & -> & ->); [intros H; apply Hc; right; exact H|].
      exists m. auto.
Qed.

(** The two phases of an axis: a list of calls [pre ++ post] where nothing
    is received through the axis in [pre] and nothing is sent through it
    in [post]. *)
Lemma phases (k : Z) (pre post l1 l2 : list call) (c : call) :
  existsb (is_receive k) pre = false ->
  existsb (is_send k) post = false ->
  pre ++ post = l1 ++ c :: l2 ->
  is_receive k c = true ->
  (forall x, In x pre -> In x l1) /\ (forall x, In x l2 -> is_send k x = false).
Proof.
  intros Hpre Hpost E Hc.
  destruct (split_after pre post l1 l2 c E) as (m & -> & ->).
  - intros Hin. rewrite (existsb_false_In _ _ Hpre c Hin) in Hc. discriminate.
  - split.
    + intros x Hx. apply in_or_app. left. exact Hx.
    + intros x Hx. apply (existsb_false_In _ _ Hpost).
      apply in_or_app. right. right. exact Hx.
Qed.

Lemma send_In i o b :
  In (LoadAndSendFluidBoundaryBuffer i b) (send MAGNETIC_FIELDS_ENABLED i o b) /\
  In (LoadAndSendFluidBoundaryBuffer o b) (send MAGNETIC_FIELDS_ENABLED i o b) /\
  (MAGNETIC_FIELDS_ENABLED = true ->
   In (LoadAndSendFieldBoundaryBuffer i b) (send MAGNETIC_FIELDS_ENABLED i o b) /\
   In (LoadAndSendFieldBoundaryBuffer o b) (send MAGNETIC_FIELDS_ENABLED i o b)).
Proof.
  unfold send. split; [left; reflexivity | split; [right; left; reflexivity|]].
  intros ->. split; apply in_or_app; right; [left | right; left]; reflexivity.
Qed.

Ltac quiet :=
  repeat (rewrite ?existsb_app, ?existsb_flat_map);
  repeat match goal with
  | |- context [if ?c then _ else _] => destruct c
  end;
  cbn [existsb orb];
  repeat (rewrite ?existsb_app, ?existsb_flat_map);
  repeat (rewrite existsb_never
            by (intros ?; unfold send, receive;
                destruct MAGNETIC_FIELDS_ENABLED; reflexivity));
  reflexivity.

(** X24. During [Mesh::Initialize], whenever a block waits for the data of
    a face, every block of the list has already sent its data through both
    faces of that axis, and nothing is sent through that axis afterwards.
    This needs that a mesh with a single cell along x2 has a single cell
    along x3, which the constructor enforces. *)
Theorem Initialize_sends_before_receives
        (res_flag nx2 nx3 : Z) (blocks : list Z) (l1 l2 : list call)
        (c : call) (k : Z) :
  (1 < nx3 -> 1 < nx2) ->
  Initialize MAGNETIC_FIELDS_ENABLED res_flag nx2 nx3 blocks = l1 ++ c :: l2 ->
  is_receive k c = true ->
  (forall d b, axis d = k -> In b blocks ->
     In (LoadAndSendFluidBoundaryBuffer d b) l1 /\
     (MAGNETIC_FIELDS_ENABLED = true ->
      In (LoadAndSendFieldBoundaryBuffer d b) l1)) /\
  (forall x, In x l2 -> is_send k x = false).
Proof.
  intros Hplane E Hc. unfold Initialize in E.
  set (A := if res_flag =? 0
            then flat_map (fun b => [ProblemGenerator b; CheckBoundary b]) blocks
            else []) in E.
  set (B := flat_map (fun b => [Initialize_bval b; StartReceivingForInit b]) blocks)
    in E.
  set (H := if res_flag =? 0
            then flat_map (fun b => [NewBlockTimeStep b]) blocks ++ [NewTimeStep]
            else []) in E.
  set (G := flat_map (fun b => [ClearBoundaryForInit b; ConservedToPrimitive b]) blocks)
    in E.
  assert (HA : forall j, existsb (is_receive j) A = false /\ existsb (is_send j) A = false)
    by (intros j; subst A; split; quiet).
  assert (HB : forall j, existsb (is_receive j) B = false /\ existsb (is_send j) B = false)
    by (intros j; subst B; split; quiet).
  assert (HG : forall j, existsb (is_receive j) G = false /\ existsb (is_send j) G = false)
    by (intros j; subst G; split; quiet).
  assert (HH : forall j, existsb (is_receive j) H = false /\ existsb (is_send j) H = false)
    by (intros j; subst H; split; quiet).
  clearbody A B G H.
  assert (Hk : k = 1 \/ k = 2 \/ k = 3).
  { destruct c; try discriminate; cbn [is_receive] in Hc; apply Z.eqb_eq in Hc;
      subst k; destruct dir; cbn; tauto. }
  assert (Hsent : forall i o d b (seg : Z -> list call),
             (d = i \/ d = o) -> In b blocks ->
             (forall x, incl (send MAGNETIC_FIELDS_ENABLED i o x) (seg x)) ->
             In (LoadAndSendFluidBoundaryBuffer d b) (flat_map seg blocks) /\
             (MAGNETIC_FIELDS_ENABLED = true ->
              In (LoadAndSendFieldBoundaryBuffer d b) (flat_map seg blocks))).
  { intros i o d b seg Hd Hb Hincl.
    destruct (send_In i o b) as (H1 & H2 & H3).
    split; [| intros Hm; destruct (H3 Hm) as [H4 H5]];
      apply in_flat_map; exists b; (split; [exact Hb|]); apply Hincl;
      destruct Hd as [-> | ->]; assumption. }
  destruct Hk as [-> | [-> | ->]].
  - (* x1: sent in the third loop, received in the fourth *)
    rewrite !app_assoc in E. rewrite <- !(app_assoc ((A ++ B) ++ _)) in E.
    match type of E with
    | ?pre ++ ?post = _ =>
      destruct (phases 1 pre post l1 l2 c) as [Hin Hno]; try assumption
    end.
    + rewrite !existsb_app. rewrite (proj1 (HA 1)), (proj1 (HB 1)). quiet.
    + rewrite !existsb_app. rewrite (proj2 (HG 1)), (proj2 (HH 1)).
      rewrite !orb_false_r. quiet.
    + split; [| exact Hno].
      intros d b Hd Hb.
      destruct (Hsent inner_x1 outer_x1 d b
                  (fun x => send MAGNETIC_FIELDS_ENABLED inner_x1 outer_x1 x))
        as [H1 H2];
        [destruct d; cbn in Hd; try discriminate; tauto | exact Hb
        | intros x y Hy; exact Hy |].
      split; [| intros Hm; specialize (H2 Hm)];
        apply Hin, in_or_app; right; assumption.
  - (* x2 *)
    destruct (Z.ltb_spec 1 nx2) as [H2d | H1d].
    + rewrite !app_assoc in E. rewrite <- !(app_assoc (((A ++ B) ++ _) ++ _)) in E.
      match type of E with
      | ?pre ++ ?post = _ =>
        destruct (phases 2 pre post l1 l2 c) as [Hin Hno]; try assumption
      end.
      * rewrite !existsb_app. rewrite (proj1 (HA 2)), (proj1 (HB 2)). quiet.
      * rewrite !existsb_app. rewrite (proj2 (HG 2)), (proj2 (HH 2)).
        rewrite !orb_false_r. quiet.
      * split; [| exact Hno].
        intros d b Hd Hb.
        destruct (Hsent inner_x2 outer_x2 d b
                    (fun x => receive MAGNETIC_FIELDS_ENABLED inner_x1 outer_x1 x
                              ++ send MAGNETIC_FIELDS_ENABLED inner_x2 outer_x2 x))
          as [H1 H2];
          [destruct d; cbn in Hd; try discriminate; tauto | exact Hb
          | intros x y Hy; apply in_or_app; right; exact Hy |].
        split; [| intros Hm; specialize (H2 Hm)];
          apply Hin, in_or_app; right; assumption.
    + exfalso.
      assert (Hnone : existsb (is_receive 2) (l1 ++ c :: l2) = false).
      { rewrite <- E. rewrite !existsb_app.
        rewrite (proj1 (HA 2)), (proj1 (HB 2)), (proj1 (HG 2)), (proj1 (HH 2)).
        destruct (Z.ltb_spec 1 nx3); [lia|]. quiet. }
      rewrite (existsb_false_In _ _ Hnone c) in Hc; [discriminate|].
      apply in_or_app. right. left. reflexivity.
  - (* x3 *)
    destruct (Z.ltb_spec 1 nx3) as [H3d | H1d].
    + specialize (Hplane H3d).
      destruct (Z.ltb_spec 1 nx2) as [_ | ?]; [| lia].
      rewrite !app_assoc in E.
      rewrite <- !(app_assoc ((((A ++ B) ++ _) ++ _) ++ _)) in E.
      match type of E with
      | ?pre ++ ?post = _ =>
        destruct (phases 3 pre post l1 l2 c) as [Hin Hno]; try assumption
      end.
      * rewrite !existsb_app. rewrite (proj1 (HA 3)), (proj1 (HB 3)). quiet.
      * rewrite !existsb_app. rewrite (proj2 (HG 3)), (proj2 (HH 3)).
        rewrite !orb_false_r. quiet.
      * split; [| exact Hno].
        intros d b Hd Hb.
        destruct (Hsent inner_x3 outer_x3 d b
                    (fun x => receive MAGNETIC_FIELDS_ENABLED inner_x2 outer_x2 x
                              ++ send MAGNETIC_FIELDS_ENABLED inner_x3 outer_x3 x))
          as [H1 H2];
          [destruct d; cbn in Hd; try discriminate; tauto | exact Hb
          | intros x y Hy; apply in_or_app; right; exact Hy |].
        split; [| intros Hm; specialize (H2 Hm)];
          apply Hin, in_or_app; right; assumption.
    + exfalso.
      assert (Hnone : existsb (is_receive 3) (l1 ++ c :: l2) = false).
      { rewrite <- E. rewrite !existsb_app.
        rewrite (proj1 (HA 3)), (proj1 (HB 3)), (proj1 (HG 3)), (proj1 (HH 3)).
        quiet. }
      rewrite (existsb_false_In _ _ Hnone c) in Hc; [discriminate|].
      apply in_or_app. right. left. reflexivity.
Qed.

(** X25. On a mesh with a single cell along x2 and several along x3, which
    the constructor rejects, [Mesh::Initialize] would wait for data through
    the x3 faces of every block although nothing is ever sent through
    them. *)
Theorem Initialize_x1_x3_plane_unmatched (res_flag nx2 nx3 : Z) (blocks : list Z) :
  nx2 <= 1 -> 1 < nx3 ->
  (forall b, In b blocks ->
     In (ReceiveAndSetFluidBoundaryWithWait inner_x3 b)
        (Initialize MAGNETIC_FIELDS_ENABLED res_flag nx2 nx3 blocks)) /\
  forall x, In x (Initialize MAGNETIC_FIELDS_ENABLED res_flag nx2 nx3 blocks) ->
            is_send 3 x = false.
Proof.
  intros H2 H3. unfold Initialize.
  destruct (Z.ltb_spec 1 nx2) as [? | _]; [lia|].
  destruct (Z.ltb_spec 1 nx3) as [_ | ?]; [| lia].
  split.
  - intros b Hb. do 5 (apply in_or_app; right). apply in_or_app; left.
    apply in_flat_map. exists b. split; [exact Hb|].
    unfold receive. right. left. reflexivity.
  - apply existsb_false_In. quiet.
Qed.

End InitFacts.

Section InitExamples.
Import Neighbors Init Examples.

Lemma Initialize_sends_before_receives_witness :
  ((1 < 1 -> 1 < 1) /\
   Initialize false 1 1 1 [0; 1]
   = ex_sent ++ ReceiveAndSetFluidBoundaryWithWait outer_x1 0 :: ex_rest /\
   is_receive 1 (ReceiveAndSetFluidBoundaryWithWait outer_x1 0) = true) /\
  (forall d b, axis d = 1 -> In b [0; 1] ->
     In (LoadAndSendFluidBoundaryBuffer d b) ex_sent /\
     (false = true -> In (LoadAndSendFieldBoundaryBuffer d b) ex_sent)) /\
  (forall x, In x ex_rest -> is_send 1 x = false).
Proof.
  assert (Hp : 1 < 1 -> 1 < 1) by lia.
  assert (E : Initialize false 1 1 1 [0; 1]
              = ex_sent ++ ReceiveAndSetFluidBoundaryWithWait outer_x1 0 :: ex_rest)
    by reflexivity.
  assert (Hc : is_receive 1 (ReceiveAndSetFluidBoundaryWithWait outer_x1 0) = true)
    by reflexivity.
  split; [split; [exact Hp | split; assumption]|].
  exact (Initialize_sends_before_receives false 1 1 1 [0; 1] ex_sent ex_rest
           (ReceiveAndSetFluidBoundaryWithWait outer_x1 0) 1 Hp E Hc).
Defined.

Lemma Initialize_x1_x3_plane_unmatched_witness :
  (1 <= 1 /\ 1 < 4) /\
  (forall b, In b [0; 1] ->
     In (ReceiveAndSetFluidBoundaryWithWait inner_x3 b)
        (Initialize true 0 1 4 [0; 1])) /\
  forall x, In x (Initialize true 0 1 4 [0; 1]) -> is_send 3 x = false.
Proof.
  assert (H2 : 1 <= 1) by lia.
  assert (H3 : 1 < 4) by lia.
  split; [split; assumption|].
  exact (Initialize_x1_x3_plane_unmatched true 0 1 4 [0; 1] H2 H3).
Defined.

End InitExamples.

(** ** The load-balance report *)

Section MeshTestFacts.
Import Partition MeshTest.

Lemma steps_above (ranks : list Z) :
  forall j, steps j ranks -> forall x, In x ranks -> j <= x.
Proof.
  induction ranks as [|r rest IH]; intros j Hs x Hx; [destruct Hx|].
  destruct Hs as [Hr Hs]. destruct Hx as [<- | Hx]; [lia|].
  specialize (IH r Hs x Hx). lia.
Qed.

Lemma rank_cost_absent (r : Z) (ranks : list Z) :
  forall costs, ~ In r ranks -> rank_cost r costs ranks = 0%Q.
Proof.
  induction ranks as [|k rest IH]; intros costs Hn; [destruct costs; reflexivity|].
  destruct costs as [|c cs]; [reflexivity|]. cbn [rank_cost].
  destruct (Z.eqb_spec k r) as [-> | Hne]; [exfalso; apply Hn; left; reflexivity|].
  apply IH. intros H. apply Hn. right. exact H.
Qed.

Lemma last_default (l : list Z) (a d d' : Z) : last (a :: l) d = last (a :: l) d'.
Proof.
  revert a. induction l as [|b l IH]; intros a; [reflexivity|].
  change (last (a :: b :: l) d) with (last (b :: l) d).
  change (last (a :: b :: l) d') with (last (b :: l) d'). apply IH.
Qed.

Lemma last_cons (l : list Z) (r d : Z) : last (r :: l) d = last l r.
Proof.
  destruct l as [|a l]; [reflexivity|].
  change (last (r :: a :: l) d) with (last (a :: l) d). apply last_default.
Qed.

Lemma last_In (l : list Z) (a d : Z) : In (last (a :: l) d) (a :: l).
Proof.
  destruct (@exists_last _ (a :: l) ltac:(discriminate)) as (l' & z & E).
  rewrite E, last_last. apply in_or_app. right. left. reflexivity.
Qed.

Lemma Forall2_impl_right {A B : Type} (P Q : A -> B -> Prop) (l1 : list A)
      (l2 : list B) :
  (forall a b, In b l2 -> P a b -> Q a b) -> Forall2 P l1 l2 -> Forall2 Q l1 l2.
Proof.
  intros H F. induction F as [|a b l1 l2 Hab F IH]; constructor.
  - apply H; [left; reflexivity | exact Hab].
  - apply IH. intros x y Hy. apply H. right. exact Hy.
Qed.

Lemma tally_lines (ranks : list Z) :
  forall costs j nbt mycost,
    length costs = length ranks -> steps j ranks ->
    Forall2 (fun line r =>
               fst (fst line) = r /\
               snd (fst line)
               = (if r =? j then nbt else 0) + Z.of_nat (count_occ Z.eq_dec ranks r) /\
               (snd line
                == (if r =? j then mycost else 0) + rank_cost r costs ranks)%Q)
            (tally ranks costs j nbt mycost)
            (count_up j (Z.to_nat (last ranks j - j + 1))).
Proof.
  induction ranks as [|r rest IH]; intros costs j nbt mycost Hlen Hs.
  - destruct costs; [| discriminate]. cbn [tally last].
    replace (j - j + 1) with 1 by lia. cbn [Z.to_nat Pos.to_nat Pos.iter_op count_up].
    constructor; [| constructor]. cbn [fst snd count_occ rank_cost].
    rewrite Z.eqb_refl. repeat split; [lia | ring].
  - destruct costs as [|c cs]; [discriminate|]. injection Hlen as Hlen.
    destruct Hs as [Hr Hs]. cbn [tally].
    rewrite last_cons.
    assert (Hge : r <= last rest r).
    { destruct rest as [|a l]; [simpl; lia|].
      apply (steps_above (a :: l) r Hs). apply last_In. }
    destruct Hr as [-> | ->].
    + rewrite Z.eqb_refl.
      specialize (IH cs j (nbt + 1) (mycost + c)%Q Hlen Hs).
      eapply Forall2_impl; [| exact IH].
      intros [[a b] q] x (H1 & H2 & H3). cbn [fst snd] in *. cbn [count_occ rank_cost].
      split; [exact H1|].
      destruct (Z.eq_dec j x) as [<- | Hne].
      * rewrite Z.eqb_refl in *. split; [lia | rewrite H3; ring].
      * replace (x =? j) with false in * by (symmetry; apply Z.eqb_neq; lia).
        replace (j =? x) with false by (symmetry; apply Z.eqb_neq; lia).
        split; [lia | exact H3].
    + replace (j + 1 =? j) with false by (symmetry; apply Z.eqb_neq; lia).
      replace (Z.to_nat (last rest (j + 1) - j + 1))
        with (S (Z.to_nat (last rest (j + 1) - (j + 1) + 1))) by lia.
      cbn [count_up].
      assert (Habs : ~ In j (j + 1 :: rest)).
      { intros [H | H]; [lia|]. pose proof (steps_above rest (j + 1) Hs j H). lia. }
      constructor.
      * cbn [fst snd]. rewrite Z.eqb_refl.
        rewrite (proj1 (count_occ_not_In Z.eq_dec _ j) Habs).
        rewrite (rank_cost_absent j _ (c :: cs) Habs).
        repeat split; [lia | ring].
      * specialize (IH cs (j + 1) 1 c Hlen Hs).
        eapply Forall2_impl_right; [| exact IH].
        intros [[a b] q] x Hx (H1 & H2 & H3). cbn [fst snd] in *.
        apply count_up_spec in Hx.
        replace (x =? j) with false by (symmetry; apply Z.eqb_neq; lia).
        cbn [count_occ rank_cost].
        split; [exact H1|].
        destruct (Z.eq_dec (j + 1) x) as [<- | Hne].
        -- rewrite Z.eqb_refl in *. split; [lia | rewrite H3; ring].
        -- replace (x =? j + 1) with false in * by (symmetry; apply Z.eqb_neq; lia).
           replace (j + 1 =? x) with false by (symmetry; apply Z.eqb_neq; lia).
           split; [lia | rewrite H3; ring].
Qed.

Lemma load_balance_spec (ranklist : list Z) (costlist : list Q) :
  length costlist = length ranklist ->
  steps 0 ranklist ->
  Forall2 (line_of ranklist costlist) (load_balance ranklist costlist)
          (count_up 0 (Z.to_nat (last ranklist 0 + 1))).
Proof.
  intros Hlen Hs. unfold load_balance.
  pose proof (tally_lines ranklist costlist 0 0 0%Q Hlen Hs) as H.
  replace (last ranklist 0 - 0 + 1) with (last ranklist 0 + 1) in H by lia.
  eapply Forall2_impl; [| exact H].
  intros [[a b] q] r (H1 & H2 & H3). unfold line_of. cbn [fst snd] in *.
  split; [exact H1 | split].
  - destruct (r =? 0); lia.
  - rewrite H3. destruct (r =? 0); ring.
Qed.

(** X26. When no rank is left out along the rank list (from each block to
    the next the rank stays or grows by one, starting at rank 0 or 1), the
    load-balance report of [Mesh::MeshTest] has one line for each rank from
    0 to the last one, in order, and the line of a rank gives the number of
    its blocks and the sum of their costs (Real as exact rationals). *)
Theorem load_balance_lines (ranklist : list Z) (costlist : list Q) :
  length costlist = length ranklist ->
  steps 0 ranklist ->
  Forall2 (line_of ranklist costlist) (load_balance ranklist costlist)
          (count_up 0 (Z.to_nat (last ranklist 0 + 1))).
Proof. intros Hlen Hs. exact (load_balance_spec ranklist costlist Hlen Hs). Qed.

Lemma nondecreasing_head_le (l : list Z) :
  forall a, nondecreasing (a :: l) -> forall x, In x l -> a <= x.
Proof.
  induction l as [|b l IH]; intros a Hnd x Hx; [destruct Hx|].
  destruct Hnd as [Hab Hnd]. destruct Hx as [<- | Hx]; [exact Hab|].
  specialize (IH b Hnd x Hx). lia.
Qed.

Lemma nondecreasing_steps (l : list Z) (hi : Z) :
  forall a,
    nondecreasing (a :: l) ->
    (forall r, a <= r <= hi -> In r (a :: l)) ->
    (forall x, In x l -> x <= hi) ->
    steps a l.
Proof.
  induction l as [|b l IH]; intros a Hnd Hall Hhi; [exact I|].
  pose proof Hnd as [Hab Hnd'].
  assert (Hb : b = a \/ b = a + 1).
  { destruct (Z.le_gt_cases b (a + 1)) as [Hle | Hgt]; [lia | exfalso].
    assert (Hbhi : b <= hi) by (apply Hhi; left; reflexivity).
    destruct (Hall (a + 1) ltac:(lia)) as [H | [H | H]]; [lia | lia |].
    pose proof (nondecreasing_head_le l b Hnd' (a + 1) H). lia. }
  split; [exact Hb|].
  apply IH; [exact Hnd' | | intros x Hx; apply Hhi; right; exact Hx].
  intros r Hr. destruct (Hall r ltac:(lia)) as [H | H]; [| exact H].
  left. lia.
Qed.

(** X27. On a fresh run with at least as many blocks as processes the
    load-balance report of [Mesh::MeshTest] has one line for each process,
    in order, with the number of its blocks and their cost. *)
Theorem MeshTest_fresh_run (nbtotal : nat) (nproc : Z) :
  1 <= nproc <= Z.of_nat nbtotal ->
  Forall2 (line_of (make_ranklist (unit_costs nbtotal) nproc) (unit_costs nbtotal))
          (load_balance (make_ranklist (unit_costs nbtotal) nproc)
                        (unit_costs nbtotal))
          (count_up 0 (Z.to_nat nproc)).
Proof.
  intros Hp.
  assert (Hlen : length (make_ranklist (unit_costs nbtotal) nproc)
                 = length (unit_costs nbtotal))
    by (unfold make_ranklist;
        rewrite length_rev, rank_from_end_length, length_rev; reflexivity).
  pose proof (make_ranklist_range (unit_costs nbtotal) nproc ltac:(lia)) as Hrange.
  pose proof (make_ranklist_nondecreasing (unit_costs nbtotal) nproc) as Hnd.
  assert (Hne : unit_costs nbtotal <> [])
    by (destruct nbtotal; [simpl in Hp; lia | discriminate]).
  pose proof (make_ranklist_last (unit_costs nbtotal) nproc Hne) as Hlast.
  pose proof (unit_costs_all_ranks nbtotal nproc Hp) as Hall.
  replace (Z.to_nat nproc)
    with (Z.to_nat (last (make_ranklist (unit_costs nbtotal) nproc) 0 + 1))
    by (rewrite Hlast; lia).
  apply load_balance_spec; [symmetry; exact Hlen|].
  destruct (make_ranklist (unit_costs nbtotal) nproc) as [|r0 rest] eqn:E;
    [exact I|].
  assert (Hr0 : r0 = 0).
  { destruct (Hall 0 ltac:(lia)) as [H | H]; [lia|].
    pose proof (nondecreasing_head_le rest r0 Hnd 0 H).
    pose proof (Hrange r0 (or_introl eq_refl)). lia. }
  subst r0. split; [left; reflexivity|].
  apply (nondecreasing_steps rest (nproc - 1) 0 Hnd).
  - intros r Hr. apply Hall. lia.
  - intros x Hx. apply (Hrange x). right. exact Hx.
Qed.

End MeshTestFacts.

Section MeshTestExamples.
Import Partition MeshTest Examples.

Lemma load_balance_lines_witness :
  (length ex_costs = length [0; 1; 1; 2; 2; 2] /\ steps 0 [0; 1; 1; 2; 2; 2]) /\
  Forall2 (line_of [0; 1; 1; 2; 2; 2] ex_costs)
          (load_balance [0; 1; 1; 2; 2; 2] ex_costs)
          (count_up 0 (Z.to_nat (last [0; 1; 1; 2; 2; 2] 0 + 1))).
Proof.
  assert (Hlen : length ex_costs = length [0; 1; 1; 2; 2; 2]) by reflexivity.
  assert (Hs : steps 0 [0; 1; 1; 2; 2; 2]) by (simpl; lia).
  split; [split; assumption|].
  exact (load_balance_lines [0; 1; 1; 2; 2; 2] ex_costs Hlen Hs).
Defined.

Lemma MeshTest_fresh_run_witness :
  1 <= 2 <= Z.of_nat 5 /\
  Forall2 (line_of (make_ranklist (unit_costs 5) 2) (unit_costs 5))
          (load_balance (make_ranklist (unit_costs 5) 2) (unit_costs 5))
          (count_up 0 (Z.to_nat 2)).
Proof.
  assert (Hp : 1 <= 2 <= Z.of_nat 5) by (simpl; lia).
  split; [exact Hp|].
  exact (MeshTest_fresh_run 5 2 Hp).
Defined.

End MeshTestExamples.

(** ** The destructors *)

Section DestructorFacts.
Import Destructor.

Implicit Types (h : heap) (rb af : list Z) (p q x : Z).

Lemma store_same h p v : store h p v p = v.
Proof. unfold store. rewrite Z.eqb_refl. reflexivity. Qed.

Lemma store_other h p v x : x <> p -> store h p v x = h x.
Proof.
  intros H. unfold store.
  replace (x =? p) with false by (symmetry; apply Z.eqb_neq; exact H). reflexivity.
Qed.

Lemma backward_frame h h' rb :
  forall x,
    backward h x rb ->
    (forall v, has_prev h x v -> has_prev h' x v) ->
    (forall y, In y rb -> h' y = h y) ->
    backward h' x rb.
Proof.
  induction rb as [|a rest IH]; intros x Hb Hx Hrest; cbn [backward] in *.
  - apply Hx, Hb.
  - destruct Hb as (H1 & H2 & H3). split; [apply Hx, H1 | split].
    + destruct H2 as (b & Eb & Hn). exists b.
      rewrite Hrest by (left; reflexivity). auto.
    + apply IH; [exact H3 | | intros y Hy; apply Hrest; right; exact Hy].
      intros v (b & Eb & Hp). exists b. rewrite Hrest by (left; reflexivity). auto.
Qed.

Lemma forward_frame h h' af :
  forall x,
    forward h x af ->
    (forall v, has_next h x v -> has_next h' x v) ->
    (forall y, In y af -> h' y = h y) ->
    forward h' x af.
Proof.
  induction af as [|a rest IH]; intros x Hf Hx Hrest; cbn [forward] in *.
  - apply Hx, Hf.
  - destruct Hf as (H1 & H2 & H3). split; [apply Hx, H1 | split].
    + destruct H2 as (b & Eb & Hn). exists b.
      rewrite Hrest by (left; reflexivity). auto.
    + apply IH; [exact H3 | | intros y Hy; apply Hrest; right; exact Hy].
      intros v (b & Eb & Hp). exists b. rewrite Hrest by (left; reflexivity). auto.
Qed.

Lemma backward_head h x rb :
  backward h x rb -> has_prev h x (hd_error rb).
Proof. destruct rb; cbn [backward hd_error]; tauto. Qed.

Lemma forward_head h x af :
  forward h x af -> has_next h x (hd_error af).
Proof. destruct af; cbn [forward hd_error]; tauto. Qed.

Lemma around_distinct rb p af :
  NoDup (rb ++ p :: af) ->
  (forall y, In y rb -> y <> p) /\ (forall y, In y af -> y <> p).
Proof.
  intros Hnd. apply NoDup_remove_2 in Hnd.
  split; intros y Hy ->; apply Hnd, in_or_app; [left | right]; exact Hy.
Qed.

(** The release of the block in front of [p]. *)
Lemma delete_nearest_prev h q rb p af :
  linked h (q :: rb) p af ->
  exists h',
    delete h q = Some h' /\ linked h' rb p af /\ h' q = None /\
    forall x, ~ In x (q :: rb ++ p :: af) -> h' x = h x.
Proof.
  intros (Hnd & (Hpq & Hqp & Hb) & Hf).
  cbn [app] in Hnd. inversion Hnd as [|? ? Hq Hnd']; subst.
  destruct (around_distinct rb p af Hnd') as [Hrb Haf].
  assert (Hqp' : q <> p) by (intros ->; apply Hq, in_or_app; right; left; reflexivity).
  destruct Hqp as (bq & Eq & Hqn).
  destruct Hpq as (bp & Ep & Hpp).
  pose proof (backward_head h q rb Hb) as (bq' & Eq' & Hqv).
  rewrite Eq in Eq'. injection Eq' as <-.
  unfold delete. rewrite Eq, Hqv, Hqn.
  destruct rb as [|a r]; cbn [hd_error].
  - rewrite Ep.
    eexists. split; [reflexivity|]. split; [| split].
    + split; [exact Hnd' | split].
      * cbn [backward]. eexists.
        rewrite store_other, store_same by congruence. split; reflexivity.
      * apply (forward_frame h); [exact Hf | |].
        -- intros v (b & Eb & Hv). rewrite Ep in Eb. injection Eb as <-.
           eexists. rewrite store_other, store_same by congruence.
           split; [reflexivity | exact Hv].
        -- intros y Hy. rewrite !store_other; [reflexivity | apply Haf, Hy |].
           intros ->. apply Hq. right. exact Hy.
    + apply store_same.
    + intros x Hx. rewrite !store_other; [reflexivity | |];
        intros ->; apply Hx; [right; left | left]; reflexivity.
  - destruct Hb as (_ & (ba & Ea & Han) & Hb).
    assert (Haq : a <> q) by (intros ->; apply Hq; left; reflexivity).
    assert (Hap : a <> p) by (apply Hrb; left; reflexivity).
    cbn [app] in Hnd'. inversion Hnd' as [|? ? Ha Hnd'']; subst.
    rewrite Ea. rewrite store_other by congruence. rewrite Ep.
    eexists. split; [reflexivity|]. split; [| split].
    + split; [exact Hnd' | split].
      * cbn [backward]. split; [| split].
        -- eexists. rewrite store_other, store_same by congruence.
           split; reflexivity.
        -- eexists. rewrite !store_other, store_same by congruence.
           split; reflexivity.
        -- apply (backward_frame h); [exact Hb | |].
           ++ intros v (b & Eb & Hv). rewrite Ea in Eb. injection Eb as <-.
              eexists. rewrite !store_other, store_same by congruence.
              split; [reflexivity | exact Hv].
           ++ intros y Hy. rewrite !store_other; [reflexivity | | |].
              ** intros ->. apply Ha, in_or_app. left. exact Hy.
              ** apply Hrb. right. exact Hy.
              ** intros ->. apply Hq. right. apply in_or_app. left. exact Hy.
      * apply (forward_frame h); [exact Hf | |].
        -- intros v (b & Eb & Hv). rewrite Ep in Eb. injection Eb as <-.
           eexists. rewrite store_other, store_same by congruence.
           split; [reflexivity | exact Hv].
        -- intros y Hy. rewrite !store_other; [reflexivity | | |].
           ++ intros ->. apply Ha, in_or_app. right. right. exact Hy.
           ++ apply Haf, Hy.
           ++ intros ->. apply Hq. right. apply in_or_app. right. right. exact Hy.
    + apply store_same.
    + intros x Hx. rewrite !store_other; [reflexivity | | |]; intros ->; apply Hx.
      * right. left. reflexivity.
      * right. right. apply in_or_app. right. left. reflexivity.
      * left. reflexivity.
Qed.

(** The release of the block behind [p]. *)
Lemma delete_nearest_next h q rb p af :
  linked h rb p (q :: af) ->
  exists h',
    delete h q = Some h' /\ linked h' rb p af /\ h' q = None /\
    forall x, ~ In x (rb ++ p :: q :: af) -> h' x = h x.
Proof.
  intros (Hnd & Hb & (Hpq & Hqp & Hf)).
  assert (Hnd' : NoDup (rb ++ p :: af)).
  { replace (rb ++ p :: q :: af) with ((rb ++ [p]) ++ q :: af) in Hnd
      by (rewrite <- app_assoc; reflexivity).
    replace (rb ++ p :: af) with ((rb ++ [p]) ++ af)
      by (rewrite <- app_assoc; reflexivity).
    exact (NoDup_remove_1 _ _ _ Hnd). }
  assert (Hq : ~ In q (rb ++ p :: af)).
  { replace (rb ++ p :: q :: af) with ((rb ++ [p]) ++ q :: af) in Hnd
      by (rewrite <- app_assoc; reflexivity).
    apply NoDup_remove_2 in Hnd.
    replace (rb ++ p :: af) with ((rb ++ [p]) ++ af)
      by (rewrite <- app_assoc; reflexivity).
    exact Hnd. }
  destruct (around_distinct rb p af Hnd') as [Hrb Haf].
  assert (Hqp' : q <> p) by (intros ->; apply Hq, in_or_app; right; left; reflexivity).
  destruct Hqp as (bq & Eq & Hqv).
  destruct Hpq as (bp & Ep & Hpn).
  pose proof (forward_head h q af Hf) as (bq' & Eq' & Hqn).
  rewrite Eq in Eq'. injection Eq' as <-.
  unfold delete. rewrite Eq, Hqv, Hqn. rewrite Ep.
  destruct af as [|a r]; cbn [hd_error].
  - eexists. split; [reflexivity|]. split; [| split].
    + split; [exact Hnd' | split].
      * apply (backward_frame h); [exact Hb | |].
        -- intros v (b & Eb & Hv). rewrite Ep in Eb. injection Eb as <-.
           eexists. rewrite store_other, store_same by congruence.
           split; [reflexivity | exact Hv].
        -- intros y Hy. rewrite !store_other; [reflexivity | apply Hrb, Hy |].
           intros ->. apply Hq, in_or_app. left. exact Hy.
      * cbn [forward]. eexists.
        rewrite store_other, store_same by congruence. split; reflexivity.
    + apply store_same.
    + intros x Hx. rewrite !store_other; [reflexivity | |];
        intros ->; apply Hx, in_or_app; right; [left | right; left]; reflexivity.
  - destruct Hf as (_ & (ba & Ea & Hav) & Hf).
    assert (Haq : a <> q)
      by (intros ->; apply Hq, in_or_app; right; right; left; reflexivity).
    assert (Hap : a <> p) by (apply Haf; left; reflexivity).
    assert (Ha : ~ In a (rb ++ p :: r)).
    { replace (rb ++ p :: a :: r) with ((rb ++ [p]) ++ a :: r) in Hnd'
        by (rewrite <- app_assoc; reflexivity).
      apply NoDup_remove_2 in Hnd'.
      replace (rb ++ p :: r) with ((rb ++ [p]) ++ r)
        by (rewrite <- app_assoc; reflexivity).
      exact Hnd'. }
    rewrite store_other by congruence. rewrite Ea.
    eexists. split; [reflexivity|]. split; [| split].
    + split; [exact Hnd' | split].
      * apply (backward_frame h); [exact Hb | |].
        -- intros v (b & Eb & Hv). rewrite Ep in Eb. injection Eb as <-.
           eexists. rewrite !store_other, store_same by congruence.
           split; [reflexivity | exact Hv].
        -- intros y Hy. rewrite !store_other; [reflexivity | | |].
           ++ apply Hrb, Hy.
           ++ intros ->. apply Ha, in_or_app. left. exact Hy.
           ++ intros ->. apply Hq, in_or_app. left. exact Hy.
      * cbn [forward]. split; [| split].
        -- eexists. rewrite !store_other, store_same by congruence.
           split; reflexivity.
        -- eexists. rewrite store_other, store_same by congruence.
           split; reflexivity.
        -- apply (forward_frame h); [exact Hf | |].
           ++ intros v (b & Eb & Hv). rewrite Ea in Eb. injection Eb as <-.
              eexists. rewrite store_other, store_same by congruence.
              split; [reflexivity | exact Hv].
           ++ intros y Hy. rewrite !store_other; [reflexivity | | |].
              ** apply Haf. right. exact Hy.
              ** intros ->. apply Ha, in_or_app. right. right. exact Hy.
              ** intros ->. apply Hq, in_or_app. right. right. right. exact Hy.
    + apply store_same.
    + intros x Hx. rewrite !store_other; [reflexivity | | |]; intros ->;
        apply Hx, in_or_app; right.
      * left. reflexivity.
      * right. right. left. reflexivity.
      * right. left. reflexivity.
Qed.

Lemma delete_prev_loop_spec rb :
  forall h p af freed fuel,
    linked h rb p af -> (length rb < fuel)%nat ->
    exists h',
      delete_prev_loop fuel h p freed = finished (h', freed ++ rb) /\
      linked h' [] p af /\
      (forall x, In x rb -> h' x = None) /\
      (forall x, ~ In x (rb ++ p :: af) -> h' x = h x).
Proof.
  induction rb as [|q r IH]; intros h p af freed fuel Hl Hfuel.
  - destruct fuel as [|fuel]; [simpl in Hfuel; lia|].
    destruct Hl as (Hnd & (b & Eb & Hb) & Hf).
    exists h. cbn [delete_prev_loop]. rewrite Eb, Hb, app_nil_r.
    split; [reflexivity | split; [| split]].
    + split; [exact Hnd | split; [exists b; split; assumption | exact Hf]].
    + intros x [].
    + reflexivity.
  - destruct fuel as [|fuel]; [simpl in Hfuel; lia|].
    pose proof Hl as (Hnd & ((b & Eb & Hb) & _) & _).
    destruct (delete_nearest_prev h q r p af Hl) as (h1 & Ed & Hl1 & Hq1 & Hfr1).
    destruct (IH h1 p af (freed ++ [q]) fuel Hl1) as (h' & Er & Hl' & Hnone & Hfr);
      [simpl in Hfuel; lia|].
    exists h'. cbn [delete_prev_loop]. rewrite Eb, Hb, Ed, Er, <- app_assoc.
    split; [reflexivity | split; [exact Hl' | split]].
    + intros x [<- | Hx]; [| apply Hnone, Hx].
      rewrite Hfr; [exact Hq1|]. cbn [app] in Hnd. inversion Hnd; assumption.
    + intros x Hx. rewrite Hfr, Hfr1; [reflexivity | exact Hx |].
      intros Hx'. apply Hx. right. exact Hx'.
Qed.

Lemma delete_next_loop_spec af :
  forall h p rb freed fuel,
    linked h rb p af -> (length af < fuel)%nat ->
    exists h',
      delete_next_loop fuel h p freed = finished (h', freed ++ af) /\
      linked h' rb p [] /\
      (forall x, In x af -> h' x = None) /\
      (forall x, ~ In x (rb ++ p :: af) -> h' x = h x).
Proof.
  induction af as [|q r IH]; intros h p rb freed fuel Hl Hfuel.
  - destruct fuel as [|fuel]; [simpl in Hfuel; lia|].
    destruct Hl as (Hnd & Hb & (b & Eb & Hn)).
    exists h. cbn [delete_next_loop]. rewrite Eb, Hn, app_nil_r.
    split; [reflexivity | split; [| split]].
    + split; [exact Hnd | split; [exact Hb | exists b; split; assumption]].
    + intros x [].
    + reflexivity.
  - destruct fuel as [|fuel]; [simpl in Hfuel; lia|].
    pose proof Hl as (Hnd & _ & ((b & Eb & Hn) & _)).
    destruct (delete_nearest_next h q rb p r Hl) as (h1 & Ed & Hl1 & Hq1 & Hfr1).
    destruct (IH h1 p rb (freed ++ [q]) fuel Hl1) as (h' & Er & Hl' & Hnone & Hfr);
      [simpl in Hfuel; lia|].
    assert (Hq : ~ In q (rb ++ p :: r)).
    { replace (rb ++ p :: q :: r) with ((rb ++ [p]) ++ q :: r) in Hnd
        by (rewrite <- app_assoc; reflexivity).
      apply NoDup_remove_2 in Hnd.
      replace (rb ++ p :: r) with ((rb ++ [p]) ++ r)
        by (rewrite <- app_assoc; reflexivity).
      exact Hnd. }
    exists h'. cbn [delete_next_loop]. rewrite Eb, Hn, Ed, Er, <- app_assoc.
    split; [reflexivity | split; [exact Hl' | split]].
    + intros x [<- | Hx]; [| apply Hnone, Hx].
      rewrite Hfr; [exact Hq1 | exact Hq].
    + intros x Hx. rewrite Hfr, Hfr1; [reflexivity | exact Hx |].
      intros Hx'. apply Hx. apply in_app_or in Hx'. apply in_or_app.
      destruct Hx' as [Hx' | [<- | Hx']]; [left; exact Hx' | right; left; reflexivity |].
      right. right. right. exact Hx'.
Qed.

(** X28. [Mesh::~Mesh()] on a well-formed list: whichever block [pblock]
    points at, with the blocks [rb] in front of it (nearest first) and the
    blocks [af] behind it, linked in both directions and all different,
    the destructor returns once the loops had more rounds than blocks to
    release; it releases the blocks in front from the nearest to the
    farthest, then the blocks behind from the nearest to the farthest,
    then [pblock] itself; afterwards none of them is allocated and every
    other address is as it was. *)
Theorem Mesh_destructor_releases_every_block h rb p af fuel :
  linked h rb p af ->
  (length rb < fuel)%nat -> (length af < fuel)%nat ->
  exists h',
    destroy_Mesh fuel h (Some p) = finished (h', rb ++ af ++ [p]) /\
    (forall x, In x (rb ++ p :: af) -> h' x = None) /\
    (forall x, ~ In x (rb ++ p :: af) -> h' x = h x).
Proof.
  intros Hl Hrb Haf.
  destruct (delete_prev_loop_spec rb h p af [] fuel Hl Hrb)
    as (h1 & E1 & Hl1 & Hn1 & Hfr1).
  destruct (delete_next_loop_spec af h1 p [] ([] ++ rb) fuel Hl1 Haf)
    as (h2 & E2 & Hl2 & Hn2 & Hfr2).
  pose proof Hl as (Hnd & _ & _).
  destruct (around_distinct rb p af Hnd) as [Hprb Hpaf].
  pose proof Hl2 as (_ & (b & Eb & Hbp) & (b' & Eb' & Hbn)).
  rewrite Eb in Eb'. injection Eb' as <-.
  exists (store h2 p None).
  unfold destroy_Mesh. rewrite E1, E2.
  unfold delete. rewrite Eb, Hbp, Hbn. cbn [app]. rewrite <- app_assoc.
  split; [reflexivity | split].
  - intros x Hx. apply in_app_or in Hx. destruct Hx as [Hx | [<- | Hx]].
    + rewrite store_other by (apply Hprb, Hx).
      rewrite Hfr2; [apply Hn1, Hx|].
      cbn [app]. intros [<- | Hx']; [exact (Hprb _ Hx eq_refl)|].
      apply NoDup_remove_1 in Hnd.
      revert Hx Hx'. clear - Hnd. revert x.
      induction rb as [|a r IH]; intros x Hx Hx'; [destruct Hx|].
      cbn [app] in Hnd. inversion Hnd as [|? ? Ha Hnd']; subst.
      destruct Hx as [<- | Hx]; [apply Ha, in_or_app; right; exact Hx'|].
      exact (IH Hnd' x Hx Hx').
    + apply store_same.
    + rewrite store_other by (apply Hpaf, Hx). apply Hn2, Hx.
  - intros x Hx.
    rewrite store_other
      by (intros ->; apply Hx, in_or_app; right; left; reflexivity).
    rewrite Hfr2, Hfr1; [reflexivity | exact Hx |].
    cbn [app]. intros [<- | Hx'];
      apply Hx, in_or_app; right; [left; reflexivity | right; exact Hx'].
Qed.

End DestructorFacts.

Section DestructorExamples.
Import Destructor Examples.

Lemma Mesh_destructor_releases_every_block_witness :
  linked ex_heap [10] 20 [30] /\
  exists h',
    destroy_Mesh 2 ex_heap (Some 20) = finished (h', [10; 30; 20]) /\
    (forall x, In x [10; 20; 30] -> h' x = None) /\
    (forall x, ~ In x [10; 20; 30] -> h' x = ex_heap x).
Proof.
  assert (Hl : linked ex_heap [10] 20 [30]).
  { split; [| split].
    - repeat constructor; simpl; intuition discriminate.
    - cbn [backward]. repeat split; eexists; split; reflexivity.
    - cbn [forward]. repeat split; eexists; split; reflexivity. }
  split; [exact Hl|].
  apply (Mesh_destructor_releases_every_block ex_heap [10] 20 [30] 2 Hl);
    simpl; lia.
Defined.

End DestructorExamples.
